(** * vaws: bounded loader, tunnel orchestration and region selector

    A shallow embedding of the parts of the vaws terminal dashboard that the
    specification talks about, and the properties proved of them.

    Go's [int] is modelled as [Z] with the 64-bit wrap-around written out,
    Go strings as [string] (sequences of bytes), slices as lists.

    The file has two parts: the embedding of the program (definitions only),
    then the theorems. *)

From Stdlib Require Import ZArith Lia List Bool Ascii String Permutation.
From Stdlib Require Import Sorted Arith PeanoNat DecimalString.
Import ListNotations.

Set Warnings "-register-all".
Local Open Scope Z_scope.

(* ===================================================================== *)
(** * Part I: the program *)
(* ===================================================================== *)

(** ** Go machine integers *)

Module GoInt.

Definition minInt : Z := - 2 ^ 63.
Definition maxInt : Z := 2 ^ 63 - 1.

(** The value a 64-bit two's complement register holds for [z]. *)
Definition wrap (z : Z) : Z := (z + 2 ^ 63) mod 2 ^ 64 - 2 ^ 63.

Definition in_range (z : Z) : Prop := minInt <= z <= maxInt.

Definition add (a b : Z) : Z := wrap (a + b).
Definition sub (a b : Z) : Z := wrap (a - b).

(** [len(s)] of a slice. *)
Definition len {A : Type} (l : list A) : Z := Z.of_nat (List.length l).

End GoInt.

(** ** Go's [strings] package, as far as the program uses it

    A Go string is a sequence of bytes; [string] is a sequence of [ascii],
    the 8-bit characters. *)

Module GoStrings.

(** [strings.Count(s, sep)] for a one-byte separator. *)
Fixpoint Count (s : string) (sep : ascii) : nat :=
  match s with
  | EmptyString => 0
  | String c rest => (if Ascii.eqb c sep then 1 else 0) + Count rest sep
  end.

(** [strings.IndexByte(s, sep)]: the position of the first [sep]; [None] is
    Go's [-1]. *)
Fixpoint IndexByte (s : string) (sep : ascii) : option nat :=
  match s with
  | EmptyString => None
  | String c rest =>
      if Ascii.eqb c sep then Some 0%nat
      else option_map S (IndexByte rest sep)
  end.

(** The loop of [genSplit]: at most [n] cuts, then the rest of the string
    is the last part.
    [for i < n-1 { m := Index(s, sep); if m < 0 { break };
                   a[i] = s[:m]; s = s[m+len(sep):]; i++ }; a[i] = s] *)
Fixpoint genSplit (n : nat) (s : string) (sep : ascii) : list string :=
  match n with
  | O => [s]
  | S n' =>
      match IndexByte s sep with
      | None => [s]
      | Some m =>
          substring 0 m s
            :: genSplit n' (substring (m + 1) (String.length s - (m + 1)) s) sep
      end
  end.

(** [strings.Split(s, sep)] for a one-byte separator: [genSplit] is run with
    [n = Count(s, sep) + 1] parts, that is [Count(s, sep)] cuts. *)
Definition Split (s : string) (sep : ascii) : list string :=
  genSplit (Count s sep) s sep.

Definition is_ascii_byte (c : ascii) : bool := (N_of_ascii c <? 128)%N.

Definition is_upper (c : ascii) : bool :=
  ((65 <=? N_of_ascii c) && (N_of_ascii c <=? 90))%N.

(** [c += 'a' - 'A'] on the upper-case letters. *)
Definition lower_byte (c : ascii) : ascii :=
  if is_upper c then ascii_of_N (N_of_ascii c + 32) else c.

Fixpoint all_ascii (s : string) : bool :=
  match s with
  | EmptyString => true
  | String c rest => is_ascii_byte c && all_ascii rest
  end.

Fixpoint map_bytes (f : ascii -> ascii) (s : string) : string :=
  match s with
  | EmptyString => EmptyString
  | String c rest => String (f c) (map_bytes f rest)
  end.

(** [strings.ToLower(s)]: a string of ASCII bytes is lowered byte by byte
    (and comes back unchanged when it has no upper-case letter); any other
    string goes through [strings.Map(unicode.ToLower, s)], whose tables are
    a parameter. *)
Definition ToLower (unicodeToLower : string -> string) (s : string) : string :=
  if all_ascii s then map_bytes lower_byte s else unicodeToLower s.

(** [strings.HasSuffix(s, suffix)]. *)
Definition HasSuffix (s suffix : string) : bool :=
  (String.length suffix <=? String.length s)%nat
  && String.eqb (substring (String.length s - String.length suffix)
                   (String.length suffix) s) suffix.

End GoStrings.

(** ** Go slices: the assignment [s[i] = x]

    Every index the program assigns to is in range; out of range, where Go
    panics, the slice is returned as it is. *)

Module GoSlice.

Fixpoint set_nth {A : Type} (s : list A) (i : nat) (x : A) : list A :=
  match s, i with
  | [], _ => []
  | _ :: rest, O => x :: rest
  | y :: rest, S i' => y :: set_nth rest i' x
  end.

End GoSlice.

(** ** Go's [sort.Slice]

    The program sorts with [sort.Slice(x, less)]. Since Go 1.19 that is the
    pattern-defeating quicksort [pdqsort_func] of the standard library (the
    program calls the built-in [min] and [max], so it is built with Go 1.21
    or later), run on a [lessSwap]: [Less(i, j)] is the caller's closure on the elements now
    at [i] and [j], [Swap(i, j)] exchanges them. Indices are slice indices,
    kept as [nat]: they stay below the length of the slice, far from the
    64-bit limit. The step of the pseudo-random generator used to break
    patterns has changed between Go releases and is a parameter. *)

Module GoSort.

Section Pdqsort.

Context {A : Type}.
Variable less : A -> A -> bool.
Variable rng : Z -> Z.

Local Open Scope nat_scope.

(** [data.Less(i, j)]; both indices are in range wherever the sort calls it. *)
Definition Less (data : list A) (i j : nat) : bool :=
  match nth_error data i, nth_error data j with
  | Some x, Some y => less x y
  | _, _ => false
  end.

(** [data.Swap(i, j)]. *)
Definition Swap (data : list A) (i j : nat) : list A :=
  match nth_error data i, nth_error data j with
  | Some x, Some y => GoSlice.set_nth (GoSlice.set_nth data i y) j x
  | _, _ => data
  end.

(** [for j := i; j > a && data.Less(j, j-1); j-- { data.Swap(j, j-1) }] *)
Fixpoint insertion_inner (data : list A) (a j : nat) : list A :=
  match j with
  | O => data
  | S j' =>
      if (a <? j) && Less data j j'
      then insertion_inner (Swap data j j') a j'
      else data
  end.

(** [for i := a + 1; i < b; i++ { ... }], with [n = b - i] rounds left. *)
Fixpoint insertion_outer (data : list A) (a i n : nat) : list A :=
  match n with
  | O => data
  | S n' => insertion_outer (insertion_inner data a i) a (S i) n'
  end.

Definition insertionSort (data : list A) (a b : nat) : list A :=
  insertion_outer data a (a + 1) (b - (a + 1)).

(** The loop of [siftDown]; the root moves down at every round, so [hi]
    rounds are more than it can make. *)
Fixpoint siftDown_loop (rounds : nat) (data : list A) (root hi first : nat) : list A :=
  match rounds with
  | O => data
  | S rounds' =>
      let child := 2 * root + 1 in
      if hi <=? child then data
      else
        let child :=
          if (child + 1 <? hi) && Less data (first + child) (first + child + 1)
          then child + 1 else child in
        if negb (Less data (first + root) (first + child)) then data
        else siftDown_loop rounds' (Swap data (first + root) (first + child))
               child hi first
  end.

Definition siftDown (data : list A) (lo hi first : nat) : list A :=
  siftDown_loop hi data lo hi first.

(** [for i := (hi - 1) / 2; i >= 0; i-- { siftDown(data, i, hi, first) }] *)
Fixpoint heap_build (data : list A) (i hi first : nat) : list A :=
  match i with
  | O => siftDown data 0 hi first
  | S i' => heap_build (siftDown data i hi first) i' hi first
  end.

(** [for i := hi - 1; i >= 0; i-- { data.Swap(first, first+i); siftDown(data, lo, i, first) }] *)
Fixpoint heap_pop (data : list A) (i first : nat) : list A :=
  let data := siftDown (Swap data first (first + i)) 0 i first in
  match i with
  | O => data
  | S i' => heap_pop data i' first
  end.

Definition heapSort (data : list A) (a b : nat) : list A :=
  let first := a in
  let hi := b - a in
  let data := heap_build data ((hi - 1) / 2) hi first in
  if hi =? 0 then data else heap_pop data (hi - 1) first.

(** [for i <= j && data.Less(i, a) { i++ }], at most [j + 1 - i] rounds. *)
Fixpoint scan_less (rounds : nat) (data : list A) (i j a : nat) : nat :=
  match rounds with
  | O => i
  | S rounds' =>
      if (i <=? j) && Less data i a then scan_less rounds' data (S i) j a else i
  end.

(** [for i <= j && !data.Less(j, a) { j-- }]; [i] is at least 1 here. *)
Fixpoint scan_not_less (data : list A) (i j a : nat) : nat :=
  match j with
  | O => O
  | S j' =>
      if (i <=? j) && negb (Less data j a) then scan_not_less data i j' a else j
  end.

(** The main loop of [partition]; it returns the slice and the final [j]. *)
Fixpoint partition_loop (rounds : nat) (data : list A) (i j a : nat) : list A * nat :=
  match rounds with
  | O => (data, j)
  | S rounds' =>
      let i := scan_less (j + 1 - i) data i j a in
      let j := scan_not_less data i j a in
      if j <? i then (data, j)
      else partition_loop rounds' (Swap data i j) (S i) (j - 1) a
  end.

(** [partitionLessFunc]: elements less than the pivot go left of it; returns
    the slice, the new index of the pivot and [alreadyPartitioned]. *)
Definition partition (data : list A) (a b pivot : nat) : list A * nat * bool :=
  let data := Swap data a pivot in
  let i := a + 1 in
  let j := b - 1 in
  let i := scan_less (j + 1 - i) data i j a in
  let j := scan_not_less data i j a in
  if j <? i then (Swap data j a, j, true)
  else
    let data := Swap data i j in
    let '(data, j) := partition_loop (b - a) data (S i) (j - 1) a in
    (Swap data j a, j, false).

(** [for i <= j && !data.Less(a, i) { i++ }] *)
Fixpoint scan_not_greater (rounds : nat) (data : list A) (i j a : nat) : nat :=
  match rounds with
  | O => i
  | S rounds' =>
      if (i <=? j) && negb (Less data a i)
      then scan_not_greater rounds' data (S i) j a else i
  end.

(** [for i <= j && data.Less(a, j) { j-- }] *)
Fixpoint scan_greater (data : list A) (i j a : nat) : nat :=
  match j with
  | O => O
  | S j' =>
      if (i <=? j) && Less data a j then scan_greater data i j' a else j
  end.

Fixpoint partitionEqual_loop (rounds : nat) (data : list A) (i j a : nat) : list A * nat :=
  match rounds with
  | O => (data, i)
  | S rounds' =>
      let i := scan_not_greater (j + 1 - i) data i j a in
      let j := scan_greater data i j a in
      if j <? i then (data, i)
      else partitionEqual_loop rounds' (Swap data i j) (S i) (j - 1) a
  end.

(** [partitionEqualLessFunc]: elements equal to the pivot, then the greater
    ones; returns the slice and the index of the first greater element. *)
Definition partitionEqual (data : list A) (a b pivot : nat) : list A * nat :=
  let data := Swap data a pivot in
  partitionEqual_loop (S (b - a)) data (a + 1) (b - 1) a.

(** [for i < b && !data.Less(i, i-1) { i++ }] *)
Fixpoint scan_ordered (rounds : nat) (data : list A) (i b : nat) : nat :=
  match rounds with
  | O => i
  | S rounds' =>
      if (i <? b) && negb (Less data i (i - 1))
      then scan_ordered rounds' data (S i) b else i
  end.

(** [for j := i - 1; j >= 1; j-- { if !data.Less(j, j-1) { break }; data.Swap(j, j-1) }] *)
Fixpoint shift_left (data : list A) (j : nat) : list A :=
  match j with
  | O => data
  | S j' => if negb (Less data j j') then data else shift_left (Swap data j j') j'
  end.

(** [for j := i + 1; j < b; j++ { if !data.Less(j, j-1) { break }; data.Swap(j, j-1) }] *)
Fixpoint shift_right (rounds : nat) (data : list A) (j b : nat) : list A :=
  match rounds with
  | O => data
  | S rounds' =>
      if j <? b then
        if negb (Less data j (j - 1)) then data
        else shift_right rounds' (Swap data j (j - 1)) (S j) b
      else data
  end.

(** The loop of [partialInsertionSort] over [j < maxSteps]. *)
Fixpoint partialInsertionSort_loop (steps : nat) (data : list A) (i a b : nat)
    : list A * bool :=
  match steps with
  | O => (data, false)
  | S steps' =>
      let i := scan_ordered (b - i) data i b in
      if i =? b then (data, true)
      else if b - a <? 50 then (data, false)
      else
        let data := Swap data i (i - 1) in
        let data := if 2 <=? i - a then shift_left data (i - 1) else data in
        let data := if 2 <=? b - i then shift_right (b - (i + 1)) data (i + 1) b else data in
        partialInsertionSort_loop steps' data i a b
  end.

(** [maxSteps = 5], [shortestShifting = 50]. *)
Definition partialInsertionSort (data : list A) (a b : nat) : list A * bool :=
  partialInsertionSort_loop 5 data (a + 1) a b.

(** [bits.Len(uint(n))]. *)
Definition bitsLen (n : nat) : nat :=
  match n with O => O | _ => S (Nat.log2 n) end.

Definition nextPowerOfTwo (length : nat) : Z := Z.shiftl 1 (Z.of_nat (bitsLen length)).

(** The three swaps of [breakPatterns]:
    [other := int(uint(random.Next()) & (modulus - 1));
     if other >= length { other -= length }; data.Swap(idx-1+i, a+other)] *)
Fixpoint breakPatterns_loop (rounds : nat) (data : list A) (random modulus : Z)
    (idx a length i : nat) : list A :=
  match rounds with
  | O => data
  | S rounds' =>
      let random := rng random in
      let other := Z.to_nat (Z.land random (modulus - 1)) in
      let other := if length <=? other then other - length else other in
      breakPatterns_loop rounds' (Swap data (idx - 1 + i) (a + other))
        random modulus idx a length (S i)
  end.

Definition breakPatterns (data : list A) (a b : nat) : list A :=
  let length := b - a in
  if 8 <=? length then
    let random := Z.of_nat length in
    let modulus := nextPowerOfTwo length in
    let idx := a + (length / 4) * 2 - 1 in
    breakPatterns_loop 3 data random modulus idx a length 0
  else data.

Inductive sortedHint := unknownHint | increasingHint | decreasingHint.

(** [order2]: the indices in order, and the count of swaps so far. *)
Definition order2 (data : list A) (a b swaps : nat) : nat * nat * nat :=
  if Less data b a then (b, a, S swaps) else (a, b, swaps).

Definition median (data : list A) (a b c swaps : nat) : nat * nat :=
  let '(a, b, swaps) := order2 data a b swaps in
  let '(b, c, swaps) := order2 data b c swaps in
  let '(a, b, swaps) := order2 data a b swaps in
  (b, swaps).

Definition medianAdjacent (data : list A) (a swaps : nat) : nat * nat :=
  median data (a - 1) a (a + 1) swaps.

(** [shortestNinther = 50], [maxSwaps = 4 * 3]. *)
Definition choosePivot (data : list A) (a b : nat) : nat * sortedHint :=
  let l := b - a in
  let swaps := 0 in
  let i := a + l / 4 * 1 in
  let j := a + l / 4 * 2 in
  let k := a + l / 4 * 3 in
  let '(j, swaps) :=
    if 8 <=? l then
      let '(i, j, k, swaps) :=
        if 50 <=? l then
          let '(i, swaps) := medianAdjacent data i swaps in
          let '(j, swaps) := medianAdjacent data j swaps in
          let '(k, swaps) := medianAdjacent data k swaps in
          (i, j, k, swaps)
        else (i, j, k, swaps) in
      median data i j k swaps
    else (j, swaps) in
  match swaps with
  | 0 => (j, increasingHint)
  | 12 => (j, decreasingHint)
  | _ => (j, unknownHint)
  end.

(** [for i < j { data.Swap(i, j); i++; j-- }] *)
Fixpoint reverseRange_loop (rounds : nat) (data : list A) (i j : nat) : list A :=
  match rounds with
  | O => data
  | S rounds' =>
      if i <? j then reverseRange_loop rounds' (Swap data i j) (S i) (j - 1) else data
  end.

Definition reverseRange (data : list A) (a b : nat) : list A :=
  reverseRange_loop (b - a) data a (b - 1).

Definition is_increasing (h : sortedHint) : bool :=
  match h with increasingHint => true | _ => false end.

Definition is_decreasing (h : sortedHint) : bool :=
  match h with decreasingHint => true | _ => false end.

(** [pdqsort_func(data, a, b, limit)]. One unit of [fuel] is spent on every
    round of the loop and on every recursive call; each of them works on a
    strictly shorter range, so [b - a + 1] units are never used up.
    [maxInsertion = 12]. *)
Fixpoint pdqsort (fuel : nat) (data : list A) (a b limit : nat)
    (wasBalanced wasPartitioned : bool) : list A :=
  match fuel with
  | O => data
  | S fuel' =>
      let length := b - a in
      if length <=? 12 then insertionSort data a b
      else if limit =? 0 then heapSort data a b
      else
        let data := if wasBalanced then data else breakPatterns data a b in
        let limit := if wasBalanced then limit else limit - 1 in
        let '(pivot, hint) := choosePivot data a b in
        let '(data, pivot, hint) :=
          if is_decreasing hint
          then (reverseRange data a b, (b - 1) - (pivot - a), increasingHint)
          else (data, pivot, hint) in
        let '(data, sorted) :=
          if wasBalanced && wasPartitioned && is_increasing hint
          then partialInsertionSort data a b
          else (data, false) in
        if sorted then data
        else if (0 <? a) && negb (Less data (a - 1) pivot) then
          let '(data, mid) := partitionEqual data a b pivot in
          pdqsort fuel' data mid b limit wasBalanced wasPartitioned
        else
          let '(data, mid, alreadyPartitioned) := partition data a b pivot in
          let wasPartitioned := alreadyPartitioned in
          let leftLen := mid - a in
          let rightLen := b - mid in
          let balanceThreshold := length / 8 in
          if leftLen <? rightLen then
            let wasBalanced := balanceThreshold <=? leftLen in
            let data := pdqsort fuel' data a mid limit true true in
            pdqsort fuel' data (mid + 1) b limit wasBalanced wasPartitioned
          else
            let wasBalanced := balanceThreshold <=? rightLen in
            let data := pdqsort fuel' data (mid + 1) b limit true true in
            pdqsort fuel' data a mid limit wasBalanced wasPartitioned
  end.

(** [sort.Slice(x, less)]:
    [length := rv.Len(); limit := bits.Len(uint(length));
     pdqsort_func(lessSwap{less, swap}, 0, length, limit)] *)
Definition Slice (x : list A) : list A :=
  let length := List.length x in
  let limit := bitsLen length in
  pdqsort (S length) x 0 length limit true true.

(** *** What the sort is to achieve *)

(** [data[a:b]] is in order: no element is less than an earlier one. *)
Definition sorted_range (data : list A) (a b : nat) : Prop :=
  forall i j, a <= i -> i < j -> j < b -> Less data j i = false.

(** [data'] is [data] with the elements of [data[a:b]] rearranged among
    themselves. *)
Definition rearranges (data data' : list A) (a b : nat) : Prop :=
  List.length data' = List.length data
  /\ Permutation data' data
  /\ (forall k, k < a \/ b <= k -> nth_error data' k = nth_error data k)
  /\ (forall k, a <= k < b ->
       exists k', a <= k' < b /\ nth_error data' k = nth_error data k').

(** In the heap [data[first : first+hi]], every node whose parent has index
    [lo] or more is not greater than its parent. *)
Definition heap_from (data : list A) (first lo hi : nat) : Prop :=
  forall c, 1 <= c -> c < hi -> lo <= (c - 1) / 2 ->
            Less data (first + (c - 1) / 2) (first + c) = false.

(** The index that [Swap(i, j)] brings to position [k]. *)
Definition swap_index (i j k : nat) : nat :=
  if k =? i then j else if k =? j then i else k.

(** Two elements tie when neither is less than the other. *)
Definition tied (x y : A) : bool := negb (less x y) && negb (less y x).

(** A stable sort: the elements that tie with any given one come out in the
    order they went in. *)
Definition keeps_ties (data data' : list A) : Prop :=
  forall x, filter (tied x) data' = filter (tied x) data.

End Pdqsort.

(** [xorshift.Next]: the generator step, as [uint64], in the two forms the
    standard library has had. *)
Definition xorshift (s1 s2 s3 : Z) (r : Z) : Z :=
  let r := Z.lxor r (Z.shiftl r s1 mod 2 ^ 64) in
  let r := Z.lxor r (Z.shiftr r s2) in
  Z.lxor r (Z.shiftl r s3 mod 2 ^ 64).

End GoSort.

(** ** internal/ui/components: the region selector *)

Module Components.

Record Region := mkRegion { Code : string; Name : string }.

Record RegionGroup := mkRegionGroup { GroupName : string; Regions : list Region }.

Definition AWSRegions : list RegionGroup :=
  [ mkRegionGroup "US"
      [ mkRegion "us-east-1" "N. Virginia";
        mkRegion "us-east-2" "Ohio";
        mkRegion "us-west-1" "N. California";
        mkRegion "us-west-2" "Oregon" ];
    mkRegionGroup "Europe"
      [ mkRegion "eu-west-1" "Ireland";
        mkRegion "eu-west-2" "London";
        mkRegion "eu-west-3" "Paris";
        mkRegion "eu-central-1" "Frankfurt";
        mkRegion "eu-north-1" "Stockholm" ];
    mkRegionGroup "Asia Pacific"
      [ mkRegion "ap-southeast-1" "Singapore";
        mkRegion "ap-southeast-2" "Sydney";
        mkRegion "ap-northeast-1" "Tokyo";
        mkRegion "ap-northeast-2" "Seoul";
        mkRegion "ap-south-1" "Mumbai" ];
    mkRegionGroup "Other"
      [ mkRegion "sa-east-1" "Sao Paulo";
        mkRegion "ca-central-1" "Canada";
        mkRegion "me-south-1" "Bahrain";
        mkRegion "af-south-1" "Cape Town" ] ].

Record RegionSelector := mkRegionSelector {
  width : Z;
  height : Z;
  cursor : Z;
  offset : Z;
  currentRegion : string;
  flatRegions : list Region
}.

(** [for _, group := range AWSRegions { regions = append(regions, group.Regions...) }] *)
Definition flattenRegions : list Region :=
  fold_left (fun regions group => regions ++ Regions group) AWSRegions [].

(** The zero value of every field but [flatRegions]. *)
Definition NewRegionSelector : RegionSelector :=
  mkRegionSelector 0 0 0 0 "" flattenRegions.

Definition SetSize (w h : Z) (r : RegionSelector) : RegionSelector :=
  mkRegionSelector w h (cursor r) (offset r) (currentRegion r) (flatRegions r).

Definition visibleCount (r : RegionSelector) : Z :=
  Z.max 1 (GoInt.sub (height r) 6).

Definition set_offset (o : Z) (r : RegionSelector) : RegionSelector :=
  mkRegionSelector (width r) (height r) (cursor r) o (currentRegion r) (flatRegions r).

Definition set_cursor (c : Z) (r : RegionSelector) : RegionSelector :=
  mkRegionSelector (width r) (height r) c (offset r) (currentRegion r) (flatRegions r).

Definition clampOffset (r : RegionSelector) : RegionSelector :=
  let visible := visibleCount r in
  let r1 :=
    if cursor r <? offset r then set_offset (cursor r) r
    else if cursor r >=? GoInt.add (offset r) visible
         then set_offset (GoInt.add (GoInt.sub (cursor r) visible) 1) r
         else r in
  let maxOffset := Z.max 0 (GoInt.sub (GoInt.len (flatRegions r1)) visible) in
  let r2 := set_offset (Z.min (offset r1) maxOffset) r1 in
  set_offset (Z.max 0 (offset r2)) r2.

(** The index of the first region of [regs] whose code is [region], counting
    from [i]: the iteration of the [range] loop at which [SetCurrentRegion]
    breaks. *)
Fixpoint first_with_code (region : string) (regs : list Region) (i : Z) : option Z :=
  match regs with
  | [] => None
  | reg :: rest =>
      if String.eqb (Code reg) region then Some i
      else first_with_code region rest (i + 1)
  end.

Definition SetCurrentRegion (region : string) (r : RegionSelector) : RegionSelector :=
  let r0 := mkRegionSelector (width r) (height r) (cursor r) (offset r) region (flatRegions r) in
  match first_with_code region (flatRegions r0) 0 with
  | Some i => clampOffset (set_cursor i r0)
  | None => r0
  end.

Definition Up (r : RegionSelector) : RegionSelector :=
  if cursor r >? 0 then clampOffset (set_cursor (GoInt.sub (cursor r) 1) r) else r.

Definition Down (r : RegionSelector) : RegionSelector :=
  if cursor r <? GoInt.sub (GoInt.len (flatRegions r)) 1
  then clampOffset (set_cursor (GoInt.add (cursor r) 1) r) else r.

Definition SelectedRegion (r : RegionSelector) : string :=
  if (cursor r >=? 0) && (cursor r <? GoInt.len (flatRegions r))
  then match nth_error (flatRegions r) (Z.to_nat (cursor r)) with
       | Some reg => Code reg
       | None => ""
       end
  else "".

(** The operations a user can apply between two resizes. *)
Inductive Op := OpUp | OpDown | OpSetCurrentRegion (region : string).

Definition apply_op (o : Op) (r : RegionSelector) : RegionSelector :=
  match o with
  | OpUp => Up r
  | OpDown => Down r
  | OpSetCurrentRegion region => SetCurrentRegion region r
  end.

Definition run_ops (ops : list Op) (r : RegionSelector) : RegionSelector :=
  fold_left (fun r o => apply_op o r) ops r.

(** The cursor is a valid index and lies inside the visible window. *)
Definition selector_inv (r : RegionSelector) : Prop :=
  0 <= offset r /\ offset r <= cursor r /\ cursor r < GoInt.len (flatRegions r)
  /\ cursor r < offset r + visibleCount r.

(** What can happen to a selector: an operation or a resize. *)
Inductive Action := Act (o : Op) | Resize (w h : Z).

Definition apply_action (a : Action) (r : RegionSelector) : RegionSelector :=
  match a with
  | Act o => apply_op o r
  | Resize w h => SetSize w h r
  end.

Definition run_actions (actions : list Action) (r : RegionSelector) : RegionSelector :=
  fold_left (fun r a => apply_action a r) actions r.

(** The window does not scroll past the end of the list. *)
Definition window_inv (r : RegionSelector) : Prop :=
  offset r <= Z.max 0 (GoInt.len (flatRegions r) - visibleCount r).

(** *** [View]

    The lipgloss styles of [View], each with the settings written in the
    source, as the functions they are from the text to the rendered text;
    [boxStyle] is given its width, [Place] the size of the selector. *)
Record Styles := mkStyles {
  titleStyle : string -> string;
  subtitleStyle : string -> string;
  selectedStyle : string -> string;
  normalStyle : string -> string;
  currentStyle : string -> string;
  codeStyle : string -> string;
  hintStyle : string -> string;
  boxStyle : Z -> string -> string;
  Place : Z -> Z -> string -> string
}.

(** The bytes of the marker of the selected line (a triangle and a space)
    and of the hint (arrows and bullets are three bytes each). *)
Definition marker : string :=
  String (ascii_of_nat 226) (String (ascii_of_nat 150) (String (ascii_of_nat 184) " "%string)).

Definition arrows : string :=
  String (ascii_of_nat 226) (String (ascii_of_nat 134) (String (ascii_of_nat 145)
    (String (ascii_of_nat 226) (String (ascii_of_nat 134) (String (ascii_of_nat 147) ""%string))))).

Definition bullet : string :=
  String (ascii_of_nat 226) (String (ascii_of_nat 128) (String (ascii_of_nat 162) ""%string)).

Definition hint : string :=
  (arrows ++ " navigate " ++ bullet ++ " Enter select " ++ bullet ++ " Esc cancel")%string.

(** The indices the loop [for i := r.offset; i < end; i++] goes through,
    with [end := min(r.offset+visible, len(r.flatRegions))]. *)
Definition View_rows (r : RegionSelector) : list Z :=
  let visible := visibleCount r in
  let end_ := Z.min (GoInt.add (offset r) visible) (GoInt.len (flatRegions r)) in
  map (fun k => offset r + Z.of_nat k) (seq 0 (Z.to_nat (end_ - offset r))).

(** One round of the loop: the line of [r.flatRegions[i]]; [None] is the
    panic of an index out of range. *)
Definition View_line (st : Styles) (r : RegionSelector) (i : Z) : option string :=
  if i <? 0 then None
  else
    match nth_error (flatRegions r) (Z.to_nat i) with
    | None => None
    | Some region =>
        let isSelected := i =? cursor r in
        let isCurrent := String.eqb (Code region) (currentRegion r) in
        let line := if isSelected then selectedStyle st marker else "  "%string in
        let code := codeStyle st (Code region) in
        let name :=
          if isCurrent then currentStyle st (Name region ++ " (current)")%string
          else if isSelected then selectedStyle st (Name region)
          else normalStyle st (Name region) in
        Some (line ++ code ++ name ++ String (ascii_of_nat 10) "")%string
    end.

Fixpoint View_loop (st : Styles) (r : RegionSelector) (rows : list Z) (content : string)
    : option string :=
  match rows with
  | [] => Some content
  | i :: rest =>
      match View_line st r i with
      | None => None
      | Some line => View_loop st r rest (content ++ line)%string
      end
  end.

Definition View (st : Styles) (r : RegionSelector) : option string :=
  let nl := String (ascii_of_nat 10) ""%string in
  let content := (titleStyle st "Select AWS Region" ++ nl)%string in
  let content :=
    (content ++ subtitleStyle st ("Current: " ++ currentRegion r) ++ nl ++ nl)%string in
  match View_loop st r (View_rows r) content with
  | None => None
  | Some content =>
      let content := (content ++ nl ++ hintStyle st hint)%string in
      Some (Place st (width r) (height r)
              (boxStyle st (Z.min 50 (GoInt.sub (width r) 4)) content))
  end.

End Components.

(** ** internal/log *)

Module Log.

Inductive Level := Debug | Info | Warn.

Definition Entry : Type := Level * string.

End Log.

(** ** What the Go release in use fixes: the generator step of the sort and
    the Unicode case tables. Every statement holds for all of them. *)

Record Toolchain := mkToolchain {
  xorshiftNext : Z -> Z;
  unicodeToLower : string -> string
}.

(** ** internal/model: the records handed between the packages

    The package is not part of the sources at hand; the records carry the
    fields the code under study reads or writes. *)

Module ModelPkg.
Local Open Scope string_scope.

Record RestAPI := mkRestAPI { RestID : string; RestName : string; EndpointType : string }.
Record HttpAPI := mkHttpAPI { HttpID : string; HttpName : string }.

(** The dynamic value of an [api interface{}] argument, [ApiNil] for nil. The type assertion
    to a pointer to [model.RestAPI] succeeds on [ApiRest] only. *)
Inductive Api :=
| ApiNil
| ApiRest (restAPI : RestAPI)
| ApiHttp (httpAPI : HttpAPI)
| ApiOther (description : string).

Record APIStage := mkAPIStage { StageName : string }.
Record EC2Instance := mkEC2Instance { InstanceID : string; InstanceName : string; VpcID : string }.
Record VpcEndpoint := mkVpcEndpoint { EndpointID : string }.
Inductive QueueType := QueueTypeStandard | QueueTypeFIFO.

(** [model.Queue]. The numeric settings that [convertQueueAttributes]
    parses out of the attribute map are kept as delivered, in
    [Attributes]. *)
Record Queue := mkQueue {
  URL : string;
  Name : string;
  ARN : string;
  Type_ : QueueType;
  Attributes : list (string * string)
}.

(** The zero value of [model.Queue], as [make([]model.Queue, n)] fills
    a slice. *)
Definition zeroQueue : Queue := mkQueue "" "" "" QueueTypeStandard [].

Inductive FunctionState :=
| FunctionStateActive | FunctionStatePending | FunctionStateInactive | FunctionStateFailed.

(** [types.FunctionConfiguration] of the Lambda SDK, and [model.Function];
    the fields that are copied over unchanged are kept together in
    [Settings]. *)
Record FunctionConfiguration := mkFunctionConfiguration {
  FunctionName : option string;
  RawState : string;
  RawSettings : list (string * string)
}.

Record Function := mkFunction {
  FnName : string;
  FnState : FunctionState;
  Settings : list (string * string)
}.

Record Table := mkTable { TableName : string }.

Record Service := mkService { ServiceName : string }.
Record Task := mkTask { TaskARN : string }.
Record Container := mkContainer { ContainerName : string }.
Record Tunnel := mkTunnel { TunnelID : string; TunnelLocalPort : Z }.
Record APIGatewayTunnel := mkAPIGatewayTunnel { APIGWTunnelID : string; APIGWLocalPort : Z }.

End ModelPkg.

(** ** Errors, deadlines and the remote collaborators

    A command runs against the remote services. What the services answer and
    how long they take is not the program's: it is the environment, over which
    every statement quantifies. The command builds a context with a deadline,
    hands it to the call and relays what the call returns. Time is counted in
    seconds from the start of the command. *)

Module Remote.
Import ModelPkg.
Local Open Scope string_scope.

(** Go [error] values: [context.DeadlineExceeded], an error of a remote
    service, and [fmt.Errorf("...: %w", err)]. *)
Inductive error :=
| DeadlineExceeded
| ServiceError (message : string)
| Wrapped (message : string) (cause : error).

(** [errors.Is(err, context.DeadlineExceeded)]. *)
Fixpoint is_timeout (e : error) : bool :=
  match e with
  | DeadlineExceeded => true
  | ServiceError _ => false
  | Wrapped _ cause => is_timeout cause
  end.

(** [err.Error()]. *)
Fixpoint Error (e : error) : string :=
  match e with
  | DeadlineExceeded => "context deadline exceeded"
  | ServiceError message => message
  | Wrapped message cause => message ++ ": " ++ Error cause
  end.

(** A remote operation as issued, with the deadline of the context it was
    given. *)
Inductive Call :=
| CallStartTunnel (deadline : nat) (service : Service) (task : Task)
    (container : Container) (remotePort localPort : Z)
| CallStartPublicTunnel (deadline : nat) (api : Api) (stage : APIStage) (localPort : Z)
| CallStartPrivateTunnel (deadline : nat) (api : Api) (stage : APIStage)
    (jumpHost : EC2Instance) (vpcEndpoint : option VpcEndpoint)
    (configuredVPCEndpointID : string) (localPort : Z)
| CallFindJumpHost (deadline : nat) (vpcID jumpHostConfig jumpHostTagConfig : string)
    (defaultTags defaultNames : list string)
| CallFindAPIGatewayVpcEndpoint (deadline : nat) (vpcID : string)
| CallListSSMManagedInstances (deadline : nat).

Definition call_deadline (c : Call) : nat :=
  match c with
  | CallStartTunnel d _ _ _ _ _ => d
  | CallStartPublicTunnel d _ _ _ => d
  | CallStartPrivateTunnel d _ _ _ _ _ _ => d
  | CallFindJumpHost d _ _ _ _ _ => d
  | CallFindAPIGatewayVpcEndpoint d _ => d
  | CallListSSMManagedInstances d => d
  end.

(** The answer to a call: how long the call takes and what it returns. *)
Record Answer (A : Type) := mkAnswer { duration : nat; outcome : A }.
Arguments mkAnswer {A}.
Arguments duration {A}.
Arguments outcome {A}.

(** The answer of a collaborator to a call made at a given time. *)
Definition Reply (A : Type) : Type := nat -> Answer A.

(** The tunnel managers and the AWS client, as the UI calls them: the
    context first (its deadline), then the arguments of the source. They are
    not among the sources: what they answer, how long they take and what
    they make of the deadline is theirs, and every statement quantifies over
    them. A Go [(value, err)] result is a pair of options; [FindJumpHost]
    returns an error or an instance. *)
Record Env := mkEnv {
  StartTunnel : nat -> Service -> Task -> Container -> Z -> Z ->
                Reply (option Tunnel * option error);
  StartPublicTunnel : nat -> Api -> APIStage -> Z ->
                      Reply (option APIGatewayTunnel * option error);
  StartPrivateTunnel : nat -> Api -> APIStage -> EC2Instance -> option VpcEndpoint ->
                       string -> Z -> Reply (option APIGatewayTunnel * option error);
  FindJumpHost : nat -> string -> string -> string -> list string -> list string ->
                 Reply (error + EC2Instance);
  FindAPIGatewayVpcEndpoint : nat -> string -> Reply (option VpcEndpoint * option error);
  ListSSMManagedInstances : nat -> Reply (list EC2Instance * option error)
}.

(** The clock and the remote operations issued so far. *)
Record World := mkWorld { clock : nat; calls : list Call }.

Definition Run (A : Type) : Type := World -> A * World.

Definition ret {A} (a : A) : Run A := fun w => (a, w).

Definition bind {A B} (m : Run A) (k : A -> Run B) : Run B :=
  fun w => let (a, w') := m w in k a w'.

(** [context.WithTimeout(context.Background(), d*time.Second)]: the deadline
    of the new context. *)
Definition WithTimeout (d : nat) : Run nat := fun w => (clock w + d, w)%nat.

(** A call to a collaborator: the command waits for the call to return and
    goes on with what it returned. *)
Definition remote {A} (c : Call) (reply : Reply A) : Run A :=
  fun w =>
    let a := reply (clock w) in
    (outcome a, mkWorld (clock w + duration a) (calls w ++ [c])).

(** The [err] of a Go [(value, err)] result is a timeout. *)
Definition err_timed_out {A} (r : A * option error) : bool :=
  match snd r with Some e => is_timeout e | None => false end.

(** The error of [FindJumpHost] is a timeout. *)
Definition find_timed_out {A} (r : error + A) : bool :=
  match r with inl e => is_timeout e | inr _ => false end.

(** Modelled from the spec: what the tunnel managers and the AWS client,
    which are not among the sources, make of the context they are handed.
    Every remote call carries a deadline, and exceeding it surfaces a
    timeout error: a call returns by the deadline of its context (at once
    when the deadline has passed already), and a call that lasts until the
    deadline returns the timeout error. *)
Definition honours {A} (timed_out : A -> bool) (ctx : nat) (reply : Reply A) : Prop :=
  forall now : nat,
    (now + duration (reply now) <= Nat.max now ctx)%nat
    /\ ((ctx <= now + duration (reply now))%nat -> timed_out (outcome (reply now)) = true).

(** Modelled from the spec: every operation of the managers and of the
    client honours its context. *)
Definition Honours (env : Env) : Prop :=
  (forall ctx service task container remotePort localPort,
     honours err_timed_out ctx
       (StartTunnel env ctx service task container remotePort localPort))
  /\ (forall ctx api stage localPort,
        honours err_timed_out ctx (StartPublicTunnel env ctx api stage localPort))
  /\ (forall ctx api stage jumpHost vpcEndpoint configuredVPCEndpointID localPort,
        honours err_timed_out ctx
          (StartPrivateTunnel env ctx api stage jumpHost vpcEndpoint
             configuredVPCEndpointID localPort))
  /\ (forall ctx vpcID jumpHostConfig jumpHostTagConfig defaultTags defaultNames,
        honours find_timed_out ctx
          (FindJumpHost env ctx vpcID jumpHostConfig jumpHostTagConfig defaultTags
             defaultNames))
  /\ (forall ctx vpcID,
        honours err_timed_out ctx (FindAPIGatewayVpcEndpoint env ctx vpcID))
  /\ (forall ctx, honours err_timed_out ctx (ListSSMManagedInstances env ctx)).

Definition start : World := mkWorld 0 [].

End Remote.

(** ** internal/aws: the SQS and Lambda clients *)

Module Aws.
Import ModelPkg.
Local Open Scope string_scope.

(** [parts[len(parts)-1]] is read only under the guard [len(parts) > 0], so
    the index is in range there; the [None] case of the lookup cannot occur
    and stands for the panic Go would raise. *)
Definition extractQueueNameFromURL (url : string) : string :=
  let parts := GoStrings.Split url "/"%char in
  if GoInt.len parts >? 0 then
    match nth_error parts (Z.to_nat (GoInt.sub (GoInt.len parts) 1)) with
    | Some name => name
    | None => url
    end
  else url.

(** [maxConcurrentSQSCalls] limits concurrent API calls to avoid throttling. *)
Definition maxConcurrentSQSCalls : nat := 10.

(** A Go [map[string]string] read by key. *)
Fixpoint lookup (attrs : list (string * string)) (key : string) : option string :=
  match attrs with
  | [] => None
  | (k, v) :: rest => if String.eqb k key then Some v else lookup rest key
  end.

Definition convertQueueAttributes (url : string) (attrs : list (string * string)) : Queue :=
  let name := extractQueueNameFromURL url in
  let arn := match lookup attrs "QueueArn" with Some arn => arn | None => "" end in
  let type := if GoStrings.HasSuffix name ".fifo" then QueueTypeFIFO else QueueTypeStandard in
  mkQueue url name arn type attrs.

(** The SQS service: what the [i]-th detail fetch of a fan-out gets for a
    queue URL, an error or the attribute map. *)
Definition Sqs : Type := nat -> string -> Remote.error + list (string * string).

Definition GetQueueAttributes (sqs : Sqs) (i : nat) (queueURL : string)
    : Remote.error + Queue :=
  match sqs i queueURL with
  | inl e => inl (Remote.Wrapped "failed to get queue attributes" e)
  | inr attrs => inr (convertQueueAttributes queueURL attrs)
  end.

(** *** The parallel detail fan-out

    [fetchQueueAttributesBatch] and [ListQueues] run the same code: one
    goroutine per URL, a semaphore channel of capacity
    [maxConcurrentSQSCalls], a results channel as long as the page, a
    goroutine that closes the results channel once all the others are done,
    and the caller collecting from the channel. The interleaving is the
    scheduler's; the machine below has one event per atomic step. *)

Inductive Status :=
| NotStarted  (* the [go] statement has not been reached *)
| Waiting     (* blocked on [sem <- struct{}{}] *)
| Calling     (* holds a slot; [GetQueueAttributes] is outstanding *)
| Posted      (* its result is on the channel; the slot is still held *)
| Done.       (* slot released, [wg.Done()] *)

Inductive MainPc := Spawning | Collecting | Returned.

Record FanOut := mkFanOut {
  pc : MainPc;
  spawned : nat;
  workers : list Status;
  sem : nat;
  results : list (nat * (Remote.error + Queue));
  closed : bool;
  queues : list Queue;
  validCount : nat;
  logs : list Log.Entry
}.

Inductive Event :=
| EvSpawn                 (* [wg.Add(1); go func(idx, queueURL) {...}(i, url)] *)
| EvBeginCollect          (* the loop is over: start the closer, start collecting *)
| EvAcquire (i : nat)     (* [sem <- struct{}{}] goes through; the call is issued *)
| EvReturn (i : nat)      (* the call returns; [results <- queueResult{...}] *)
| EvRelease (i : nat)     (* [<-sem], then [wg.Done()] *)
| EvClose                 (* [wg.Wait()] is over: [close(results)] *)
| EvReceive               (* one round of [for result := range results] *)
| EvEndCollect.           (* the channel is closed and drained *)

Definition is_done (st : Status) : bool :=
  match st with Done => true | _ => false end.

Definition init (queueURLs : list string) : FanOut :=
  mkFanOut Spawning 0 (repeat NotStarted (List.length queueURLs)) 0 [] false
    (repeat zeroQueue (List.length queueURLs)) 0 [].

(** What an event does to the machine, [None] when it cannot happen now. *)
Definition fire (sqs : Sqs) (queueURLs : list string) (e : Event) (s : FanOut)
    : option FanOut :=
  match e with
  | EvSpawn =>
      match pc s with
      | Spawning =>
          if (spawned s <? List.length queueURLs)%nat
          then Some (mkFanOut Spawning (S (spawned s))
                       (GoSlice.set_nth (workers s) (spawned s) Waiting)
                       (sem s) (results s) (closed s) (queues s) (validCount s) (logs s))
          else None
      | _ => None
      end
  | EvBeginCollect =>
      match pc s with
      | Spawning =>
          if (spawned s =? List.length queueURLs)%nat
          then Some (mkFanOut Collecting (spawned s) (workers s) (sem s) (results s)
                       (closed s) (queues s) (validCount s) (logs s))
          else None
      | _ => None
      end
  | EvAcquire i =>
      match nth_error (workers s) i, nth_error queueURLs i with
      | Some Waiting, Some queueURL =>
          if (sem s <? maxConcurrentSQSCalls)%nat
          then Some (mkFanOut (pc s) (spawned s) (GoSlice.set_nth (workers s) i Calling)
                       (S (sem s)) (results s) (closed s) (queues s) (validCount s)
                       (logs s ++ [(Log.Debug, ("Getting attributes for SQS queue: "
                                                ++ queueURL)%string)])%list)
          else None
      | _, _ => None
      end
  | EvReturn i =>
      match nth_error (workers s) i, nth_error queueURLs i with
      | Some Calling, Some queueURL =>
          Some (mkFanOut (pc s) (spawned s) (GoSlice.set_nth (workers s) i Posted) (sem s)
                  (results s ++ [(i, GetQueueAttributes sqs i queueURL)])%list
                  (closed s) (queues s) (validCount s) (logs s))
      | _, _ => None
      end
  | EvRelease i =>
      match nth_error (workers s) i with
      | Some Posted =>
          Some (mkFanOut (pc s) (spawned s) (GoSlice.set_nth (workers s) i Done)
                  (sem s - 1) (results s) (closed s) (queues s) (validCount s) (logs s))
      | _ => None
      end
  | EvClose =>
      match pc s with
      | Collecting =>
          if negb (closed s) && forallb is_done (workers s)
          then Some (mkFanOut (pc s) (spawned s) (workers s) (sem s) (results s) true
                       (queues s) (validCount s) (logs s))
          else None
      | _ => None
      end
  | EvReceive =>
      match pc s, results s with
      | Collecting, (i, inl e) :: rest =>
          Some (mkFanOut (pc s) (spawned s) (workers s) (sem s) rest (closed s)
                  (queues s) (validCount s)
                  (logs s ++ [(Log.Warn, ("Failed to get attributes for queue: "
                                          ++ Remote.Error e)%string)])%list)
      | Collecting, (i, inr q) :: rest =>
          Some (mkFanOut (pc s) (spawned s) (workers s) (sem s) rest (closed s)
                  (GoSlice.set_nth (queues s) i q) (S (validCount s)) (logs s))
      | _, _ => None
      end
  | EvEndCollect =>
      match pc s, results s with
      | Collecting, [] =>
          if closed s
          then Some (mkFanOut Returned (spawned s) (workers s) (sem s) [] true
                       (queues s) (validCount s) (logs s))
          else None
      | _, _ => None
      end
  end.

(** The fetches outstanding in a state. *)
Definition in_flight (s : FanOut) : nat :=
  List.length (filter (fun st => match st with Calling => true | _ => false end)
                 (workers s)).

(** A run under a given sequence of events. *)
Fixpoint exec (sqs : Sqs) (queueURLs : list string) (events : list Event) (s : FanOut)
    : option FanOut :=
  match events with
  | [] => Some s
  | e :: rest =>
      match fire sqs queueURLs e s with
      | Some s' => exec sqs queueURLs rest s'
      | None => None
      end
  end.

Definition all_events (n : nat) : list Event :=
  [EvSpawn; EvBeginCollect; EvClose; EvReceive; EvEndCollect]
  ++ flat_map (fun i => [EvAcquire i; EvReturn i; EvRelease i]) (seq 0 n).

Definition can_fire (sqs : Sqs) (queueURLs : list string) (s : FanOut) (e : Event) : bool :=
  match fire sqs queueURLs e s with Some _ => true | None => false end.

Definition enabled (sqs : Sqs) (queueURLs : list string) (s : FanOut) : list Event :=
  filter (can_fire sqs queueURLs s) (all_events (List.length queueURLs)).

(** The Go scheduler: which of the events that can happen happens next. *)
Definition Scheduler : Type := FanOut -> nat.

(** The run of the machine under a scheduler, until nothing can happen. *)
Fixpoint run (sqs : Sqs) (queueURLs : list string) (sched : Scheduler) (rounds : nat)
    (s : FanOut) : FanOut :=
  match rounds with
  | O => s
  | S rounds' =>
      match enabled sqs queueURLs s with
      | [] => s
      | (e0 :: _) as events =>
          let e := nth (sched s mod List.length events) events e0 in
          match fire sqs queueURLs e s with
          | Some s' => run sqs queueURLs sched rounds' s'
          | None => s
          end
      end
  end.

(** Every worker takes four steps and every result one more; the main
    goroutine adds three. *)
Definition enough_rounds (queueURLs : list string) : nat :=
  5 * List.length queueURLs + 3.

(** [for _, q := range queues { if q.URL != "" { validQueues = append(validQueues, q) } }] *)
Definition compact (qs : list Queue) : list Queue :=
  filter (fun q => negb (String.eqb (URL q) "")) qs.

(** [strings.ToLower(validQueues[i].Name) < strings.ToLower(validQueues[j].Name)] *)
Definition name_less (tc : Toolchain) (x y : Queue) : bool :=
  String.ltb (GoStrings.ToLower (unicodeToLower tc) (Name x))
             (GoStrings.ToLower (unicodeToLower tc) (Name y)).

(** The part after the collecting loop: compact, sort. *)
Definition finish (tc : Toolchain) (s : FanOut) : list Queue :=
  GoSort.Slice (name_less tc) (xorshiftNext tc) (compact (queues s)).

(** [fetchQueueAttributesBatch]: the batch, and what was logged. *)
Definition fetchQueueAttributesBatch (tc : Toolchain) (sqs : Sqs) (sched : Scheduler)
    (queueURLs : list string) : list Queue * list Log.Entry :=
  let s := run sqs queueURLs sched (enough_rounds queueURLs) (init queueURLs) in
  (finish tc s, logs s).

(** *** What the fan-out maintains *)

Local Open Scope nat_scope.

(** What the [i]-th fetch of the page returns. *)
Definition fetched (sqs : Sqs) (queueURLs : list string) (i : nat)
    : Remote.error + Queue :=
  match nth_error queueURLs i with
  | Some queueURL => GetQueueAttributes sqs i queueURL
  | None => inr zeroQueue
  end.

(** The slot of the [i]-th URL once its result is collected: the queue, or
    the zero value left by a failed fetch. *)
Definition expected (sqs : Sqs) (queueURLs : list string) (i : nat) : Queue :=
  match fetched sqs queueURLs i with
  | inr q => q
  | inl _ => zeroQueue
  end.

(** The warning logged for the [i]-th fetch, if it failed. *)
Definition warning (sqs : Sqs) (queueURLs : list string) (i : nat) : list Log.Entry :=
  match fetched sqs queueURLs i with
  | inl e => [(Log.Warn, "Failed to get attributes for queue: " ++ Remote.Error e)]
  | inr _ => []
  end.

Definition is_warn (entry : Log.Entry) : bool :=
  match fst entry with Log.Warn => true | _ => false end.

Definition failed (sqs : Sqs) (queueURLs : list string) (i : nat) : bool :=
  match fetched sqs queueURLs i with inl _ => true | inr _ => false end.

(** What the collecting loop and the compaction leave of a page, before the
    sort: the slots in index order, without those whose URL is empty. *)
Definition collected (sqs : Sqs) (queueURLs : list string) : list Queue :=
  compact (map (expected sqs queueURLs) (seq 0 (List.length queueURLs))).

(** The queues of the fetches that succeeded, in index order. *)
Definition successes (sqs : Sqs) (queueURLs : list string) : list Queue :=
  flat_map (fun i => match fetched sqs queueURLs i with
                     | inr q => [q]
                     | inl _ => []
                     end)
           (seq 0 (List.length queueURLs)).

(** A batch in ascending order of lowercased name: no item's lowercased
    name is less than that of an item before it. *)
Definition in_name_order (tc : Toolchain) (batch : list Queue) : Prop :=
  StronglySorted (fun x y => name_less tc y x = false) batch.

(** A worker that holds a slot of the semaphore. *)
Definition holding (st : Status) : bool :=
  match st with Calling | Posted => true | _ => false end.

(** A worker whose result is not on the channel yet. *)
Definition pending (st : Status) : bool :=
  match st with NotStarted | Waiting | Calling => true | _ => false end.

Definition count (p : Status -> bool) (ws : list Status) : nat :=
  List.length (filter p ws).

(** The steps a worker still has to take, counting the collection of its
    result. *)
Definition weight (st : Status) : nat :=
  match st with
  | NotStarted => 5 | Waiting => 4 | Calling => 3 | Posted => 1 | Done => 0
  end.

(** The number of steps left in any run from a state. *)
Definition steps_left (s : FanOut) : nat :=
  list_sum (map weight (workers s)) + List.length (results s)
  + (if closed s then 0 else 1)
  + match pc s with Spawning => 2 | Collecting => 1 | Returned => 0 end.

(** The invariant of the machine; [received] lists the indices of the
    results collected so far, in order. *)
Record consistent (sqs : Sqs) (queueURLs : list string) (s : FanOut)
    (received : list nat) : Prop := mkConsistent {
  workers_length : List.length (workers s) = List.length queueURLs;
  queues_length : List.length (queues s) = List.length queueURLs;
  sem_counts : sem s = count holding (workers s);
  sem_bounded : sem s <= maxConcurrentSQSCalls;
  spawned_bounded : spawned s <= List.length queueURLs;
  spawned_started : forall i, nth_error (workers s) i = Some NotStarted <->
                              spawned s <= i < List.length queueURLs;
  spawning_over : pc s <> Spawning -> spawned s = List.length queueURLs;
  closed_done : closed s = true -> forallb is_done (workers s) = true;
  closed_late : closed s = true -> pc s <> Spawning;
  returned_drained : pc s = Returned -> results s = [] /\ closed s = true;
  results_fetched : results s
                    = map (fun i => (i, fetched sqs queueURLs i)) (map fst (results s));
  posted_once : NoDup (map fst (results s) ++ received);
  posted_pending : forall i st, nth_error (workers s) i = Some st ->
                                (pending st = false <-> In i (map fst (results s) ++ received));
  posted_in_range : forall i, In i (map fst (results s) ++ received) ->
                              i < List.length queueURLs;
  queues_collected : forall i, i < List.length queueURLs ->
                               nth_error (queues s) i
                               = Some (if existsb (Nat.eqb i) received
                                       then expected sqs queueURLs i else zeroQueue);
  warnings_logged : filter is_warn (logs s) = flat_map (warning sqs queueURLs) received
}.

(** *** Paginators of the SDK

    [HasMorePages()] and [NextPage(ctx)] over the paginator's own state;
    [NextPage] returns a page or an error. What the service lists is the
    paginator's business. *)

Record Paginator (P Page : Type) := mkPaginator {
  HasMorePages : P -> bool;
  NextPage : P -> (Remote.error + Page) * P
}.
Arguments HasMorePages {P Page}.
Arguments NextPage {P Page}.

(** [%d]. *)
Definition itoa (n : nat) : string := NilEmpty.string_of_uint (Nat.to_uint n).

(** The paging loop of [ListQueues]; [None] when the service never stops
    returning pages. *)
Fixpoint ListQueues_pages {P} (pg : Paginator P (list string)) (pages : nat) (p : P)
    (queueURLs : list string) : option (Remote.error + list string) :=
  match pages with
  | O => None
  | S pages' =>
      if HasMorePages pg p then
        match NextPage pg p with
        | (inl e, _) => Some (inl (Remote.Wrapped "failed to list queues" e))
        | (inr page, p') => ListQueues_pages pg pages' p' (queueURLs ++ page)%list
        end
      else Some (inr queueURLs)
  end.

(** [ListQueues]: the queues or the error, and what was logged. *)
Definition ListQueues {P} (tc : Toolchain) (sqs : Sqs) (sched : Scheduler)
    (pg : Paginator P (list string)) (pages : nat) (p : P)
    : option ((Remote.error + list Queue) * list Log.Entry) :=
  let log0 : list Log.Entry := [(Log.Debug, "Listing SQS queues...")] in
  match ListQueues_pages pg pages p [] with
  | None => None
  | Some (inl e) => Some (inl e, log0)
  | Some (inr queueURLs) =>
      if Nat.eqb (List.length queueURLs) 0
      then Some (inr [], (log0 ++ [(Log.Info, "No SQS queues found")])%list)
      else
        let found : string :=
          "Found " ++ itoa (List.length queueURLs)
          ++ " queue URLs, fetching attributes in parallel..." in
        let s := run sqs queueURLs sched (enough_rounds queueURLs) (init queueURLs) in
        let validQueues := finish tc s in
        let total : string :=
          "Found " ++ itoa (List.length validQueues) ++ " SQS queues" in
        Some (inr validQueues,
              (log0 ++ [(Log.Debug, found)] ++ logs s ++ [(Log.Info, total)])%list)
  end.

(** *** Paged listing with a callback *)

(** What a paged listing did, in order: the pages it asked for and the
    calls of the callback with their answers. *)
Inductive Step (Item : Type) :=
| Fetched (ok : bool)
| Invoked (items : list Item) (hasMore : bool) (continue : bool).
Arguments Fetched {Item}.
Arguments Invoked {Item}.

(** [returned] is [None] while the listing is still paging, [Some err] once
    it has returned [err]. *)
Record PagedRun (P C Item : Type) := mkPagedRun {
  returned : option (option Remote.error);
  pager : P;
  consumer : C;
  steps : list (Step Item);
  logged : list Log.Entry
}.
Arguments mkPagedRun {P C Item}.
Arguments returned {P C Item}.
Arguments pager {P C Item}.
Arguments consumer {P C Item}.
Arguments steps {P C Item}.
Arguments logged {P C Item}.

(** A Go closure [func(items, hasMore) bool] over captured variables of
    type [C]. *)
Definition Callback (C Item : Type) : Type := list Item -> bool -> C -> bool * C.

(** A call of the callback that answered [false]. *)
Definition stopped {Item} (st : Step Item) : bool :=
  match st with
  | Invoked _ _ false => true
  | _ => false
  end.

(** What a paged listing leaves behind: either no call of the callback has
    answered [false], or the last step is such a call and the listing has
    returned nil. *)
Definition stops_at_false {P C Item} (r : PagedRun P C Item) : Prop :=
  forallb (fun st => negb (stopped st)) (steps r) = true
  \/ exists ext items more,
       (steps r = ext ++ [Invoked items more false])%list
       /\ forallb (fun st => negb (stopped st)) ext = true
       /\ returned r = Some None.

Fixpoint ListQueuesPagedCallback_loop {P C} (tc : Toolchain) (sqs : Sqs)
    (sched : Scheduler) (pg : Paginator P (list string)) (callback : Callback C Queue)
    (pages : nat) (r : PagedRun P C Queue) : PagedRun P C Queue :=
  match pages with
  | O => r
  | S pages' =>
      if HasMorePages pg (pager r) then
        match NextPage pg (pager r) with
        | (inl e, p') =>
            mkPagedRun (Some (Some (Remote.Wrapped "failed to list queues" e))) p'
              (consumer r) (steps r ++ [Fetched false]) (logged r)
        | (inr QueueUrls, p') =>
            if Nat.eqb (List.length QueueUrls) 0 then
              ListQueuesPagedCallback_loop tc sqs sched pg callback pages'
                (mkPagedRun None p' (consumer r) (steps r ++ [Fetched true]) (logged r))
            else
              let (queues, lg) := fetchQueueAttributesBatch tc sqs sched QueueUrls in
              let hasMore := HasMorePages pg p' in
              let (continue, c') := callback queues hasMore (consumer r) in
              let r' := mkPagedRun None p' c'
                          (steps r ++ [Fetched true; Invoked queues hasMore continue])
                          (logged r ++ lg) in
              if continue
              then ListQueuesPagedCallback_loop tc sqs sched pg callback pages' r'
              else mkPagedRun (Some None) p' c' (steps r') (logged r')
        end
      else mkPagedRun (Some None) (pager r) (consumer r) (steps r) (logged r)
  end.

Definition ListQueuesPagedCallback {P C} (tc : Toolchain) (sqs : Sqs)
    (sched : Scheduler) (pg : Paginator P (list string)) (callback : Callback C Queue)
    (pages : nat) (p : P) (c : C) : PagedRun P C Queue :=
  ListQueuesPagedCallback_loop tc sqs sched pg callback pages
    (mkPagedRun None p c [] [(Log.Debug, "Listing SQS queues with lazy loading...")]).

Definition convertFunctionConfig (fn : FunctionConfiguration) : Function :=
  let name := match FunctionName fn with Some n => n | None => "" end in
  let st :=
    if String.eqb (RawState fn) "" then FunctionStateActive
    else if String.eqb (RawState fn) "Active" then FunctionStateActive
    else if String.eqb (RawState fn) "Pending" then FunctionStatePending
    else if String.eqb (RawState fn) "Inactive" then FunctionStateInactive
    else if String.eqb (RawState fn) "Failed" then FunctionStateFailed
    else FunctionStateActive in
  mkFunction name st (RawSettings fn).

Definition convertFunction (fn : FunctionConfiguration) : Function :=
  convertFunctionConfig fn.

Fixpoint ListFunctionsPagedCallback_loop {P C}
    (pg : Paginator P (list FunctionConfiguration)) (callback : Callback C Function)
    (pages : nat) (r : PagedRun P C Function) : PagedRun P C Function :=
  match pages with
  | O => r
  | S pages' =>
      if HasMorePages pg (pager r) then
        match NextPage pg (pager r) with
        | (inl e, p') =>
            mkPagedRun (Some (Some (Remote.Wrapped "failed to list Lambda functions" e)))
              p' (consumer r) (steps r ++ [Fetched false]) (logged r)
        | (inr Functions, p') =>
            let functions := map convertFunction Functions in
            let hasMore := HasMorePages pg p' in
            let (continue, c') := callback functions hasMore (consumer r) in
            let r' := mkPagedRun None p' c'
                        (steps r ++ [Fetched true; Invoked functions hasMore continue])
                        (logged r) in
            if continue
            then ListFunctionsPagedCallback_loop pg callback pages' r'
            else mkPagedRun (Some None) p' c' (steps r') (logged r')
        end
      else mkPagedRun (Some None) (pager r) (consumer r) (steps r) (logged r)
  end.

Definition ListFunctionsPagedCallback {P C}
    (pg : Paginator P (list FunctionConfiguration)) (callback : Callback C Function)
    (pages : nat) (p : P) (c : C) : PagedRun P C Function :=
  ListFunctionsPagedCallback_loop pg callback pages (mkPagedRun None p c [] []).

(** Modelled from the spec: [ListTablesPagedCallback] of the DynamoDB client,
    which is not among the sources. It is the Load algorithm of the spec:
    fetch the next page; fetch the detail of every summary ([describe]
    stands for the bounded fan-out, failures dropped, and the sort); invoke
    the callback with [hasMore] from the paginator; a [false] return stops
    further pagination; repeat until no more pages; a page-listing failure
    aborts the load with the underlying error. *)
Fixpoint ListTablesPagedCallback_loop {P C}
    (pg : Paginator P (list string)) (describe : list string -> list Table)
    (callback : Callback C Table)
    (pages : nat) (r : PagedRun P C Table) : PagedRun P C Table :=
  match pages with
  | O => r
  | S pages' =>
      if HasMorePages pg (pager r) then
        match NextPage pg (pager r) with
        | (inl e, p') =>
            mkPagedRun (Some (Some (Remote.Wrapped "failed to list tables" e)))
              p' (consumer r) (steps r ++ [Fetched false]) (logged r)
        | (inr TableNames, p') =>
            let tables := describe TableNames in
            let hasMore := HasMorePages pg p' in
            let (continue, c') := callback tables hasMore (consumer r) in
            let r' := mkPagedRun None p' c'
                        (steps r ++ [Fetched true; Invoked tables hasMore continue])
                        (logged r) in
            if continue
            then ListTablesPagedCallback_loop pg describe callback pages' r'
            else mkPagedRun (Some None) p' c' (steps r') (logged r')
        end
      else mkPagedRun (Some None) (pager r) (consumer r) (steps r) (logged r)
  end.

Definition ListTablesPagedCallback {P C}
    (pg : Paginator P (list string)) (describe : list string -> list Table)
    (callback : Callback C Table)
    (pages : nat) (p : P) (c : C) : PagedRun P C Table :=
  ListTablesPagedCallback_loop pg describe callback pages (mkPagedRun None p c [] []).

(** *** The Lambda client: [ListFunctions]

    [for paginator.HasMorePages() { page, err := paginator.NextPage(ctx);
       if err != nil { return nil, fmt.Errorf(...) };
       for _, fn := range page.Functions {
         functions = append(functions, convertFunction(fn)) } }];
    [None] when the service never stops returning pages. *)
Fixpoint ListFunctions_loop {P} (pg : Paginator P (list FunctionConfiguration))
    (pages : nat) (p : P) (functions : list Function)
    : option (Remote.error + list Function) :=
  match pages with
  | O => None
  | S pages' =>
      if HasMorePages pg p then
        match NextPage pg p with
        | (inl e, _) => Some (inl (Remote.Wrapped "failed to list Lambda functions" e))
        | (inr page, p') =>
            ListFunctions_loop pg pages' p' (functions ++ map convertFunction page)%list
        end
      else Some (inr functions)
  end.

Definition ListFunctions {P} (pg : Paginator P (list FunctionConfiguration))
    (pages : nat) (p : P) : option (Remote.error + list Function) :=
  ListFunctions_loop pg pages p [].

(** The Lambda service: what [GetFunction] answers for a function name, an
    error or the function's configuration. *)
Definition Lambda : Type := string -> Remote.error + FunctionConfiguration.

(** [DescribeFunction]:
    [out, err := c.lambda.GetFunction(...);
     if err != nil { return nil, fmt.Errorf("failed to describe function %s: %w", ...) };
     fn := convertFunctionConfig] of the configuration in [out]; [return &fn, nil] *)
Definition DescribeFunction (lambda : Lambda) (functionName : string)
    : Remote.error + Function :=
  match lambda functionName with
  | inl e => inl (Remote.Wrapped ("failed to describe function " ++ functionName) e)
  | inr configuration => inr (convertFunctionConfig configuration)
  end.

(** *** Reading the record of a paged listing *)

(** The batches handed to the callback, in order. *)
Definition invoked_batches {Item} (sts : list (Step Item)) : list (list Item) :=
  flat_map (fun st => match st with
                      | Invoked items _ _ => [items]
                      | Fetched _ => []
                      end) sts.

(** The [hasMore] flags handed to the callback, in order. *)
Definition invoked_flags {Item} (sts : list (Step Item)) : list bool :=
  flat_map (fun st => match st with
                      | Invoked _ more _ => [more]
                      | Fetched _ => []
                      end) sts.

Definition is_fetch {Item} (st : Step Item) : bool :=
  match st with Fetched _ => true | Invoked _ _ _ => false end.

(** A page request that came back with an error. *)
Definition is_failed_fetch {Item} (st : Step Item) : bool :=
  match st with Fetched false => true | _ => false end.

(** The number of pages a listing asked for. *)
Definition pages_fetched {Item} (sts : list (Step Item)) : nat :=
  List.length (filter is_fetch sts).

(** An error the paginator returned for a page it was asked for. *)
Definition page_error {P Page} (pg : Paginator P Page) (cause : Remote.error) : Prop :=
  exists p, HasMorePages pg p = true /\ fst (NextPage pg p) = inl cause.

(** What a paged listing leaves behind: either no page request has failed
    and no error is returned, or the last step is a failed page request and
    the listing has returned the error of that request under [message]. *)
Definition fails_last {P C Item} (message : string) (is_page_error : Remote.error -> Prop)
    (r : PagedRun P C Item) : Prop :=
  (forallb (fun st => negb (is_failed_fetch st)) (steps r) = true
   /\ (returned r = None \/ returned r = Some None))
  \/ exists ext cause,
       (steps r = ext ++ [Fetched false])%list
       /\ forallb (fun st => negb (is_failed_fetch st)) ext = true
       /\ is_page_error cause
       /\ returned r = Some (Some (Remote.Wrapped message cause)).

End Aws.

(** ** internal/ui: loaders and tunnels *)

Module Ui.
Import Log.
Local Open Scope string_scope.

(** The copy of [extractQueueNameFromURL] in loaders.go. *)
Definition extractQueueNameFromURL (url : string) : string :=
  let parts := GoStrings.Split url "/"%char in
  if GoInt.len parts >? 0 then
    match nth_error parts (Z.to_nat (GoInt.sub (GoInt.len parts) 1)) with
    | Some name => name
    | None => url
    end
  else url.

(** *** loaders.go: the lazy loaders

    [queuesLoadedMsg], [functionsLoadedMsg] and [tablesLoadedMsg] have the
    same four fields. *)

Record loadedMsg (Item : Type) := mkLoadedMsg {
  items : list Item;
  loadErr : option Remote.error;
  hasMore : bool;
  isAppend : bool
}.
Arguments mkLoadedMsg {Item}.
Arguments items {Item}.
Arguments loadErr {Item}.
Arguments hasMore {Item}.
Arguments isAppend {Item}.

Definition queuesLoadedMsg : Type := loadedMsg ModelPkg.Queue.
Definition functionsLoadedMsg : Type := loadedMsg ModelPkg.Function.
Definition tablesLoadedMsg : Type := loadedMsg ModelPkg.Table.

(** The closure the three loaders hand to the paged listing. It captures
    [isFirst] and the result channel, here the messages sent on it so far:
    [resultChan <- msg{items, nil, hasMore, !isFirst}; isFirst = false;
     return true]. *)
Definition onBatch {Item} : Aws.Callback (bool * list (loadedMsg Item)) Item :=
  fun batch more captured =>
    let (isFirst, resultChan) := captured in
    (true, (false, (resultChan ++ [mkLoadedMsg batch None more (negb isFirst)])%list)).

(** What the goroutine of a loader sends once the paged listing is over:
    [if err != nil { resultChan <- msg{nil, err} }]. *)
Definition after_listing {P Item} (r : Aws.PagedRun P (bool * list (loadedMsg Item)) Item)
    : list (loadedMsg Item) :=
  let resultChan := snd (Aws.consumer r) in
  match Aws.returned r with
  | Some (Some e) => (resultChan ++ [mkLoadedMsg [] (Some e) false false])%list
  | _ => resultChan
  end.

(** The messages the goroutine of [loadQueues] sends on [resultChan]. With a
    stack selected there is no pagination: [scoped] is what the stack's
    queues, their details and the DLQ counts came to, and one message is
    sent. *)
Definition loadQueues {P} (tc : Toolchain) (sqs : Aws.Sqs) (sched : Aws.Scheduler)
    (pg : Aws.Paginator P (list string)) (pages : nat) (p : P)
    (scoped : option (Remote.error + list ModelPkg.Queue)) : list queuesLoadedMsg :=
  match scoped with
  | Some (inl e) => [mkLoadedMsg [] (Some e) false false]
  | Some (inr queues) => [mkLoadedMsg queues None false false]
  | None =>
      after_listing (Aws.ListQueuesPagedCallback tc sqs sched pg onBatch pages p (true, []))
  end.

(** The messages the goroutine of [loadFunctions] sends. *)
Definition loadFunctions {P} (pg : Aws.Paginator P (list ModelPkg.FunctionConfiguration))
    (pages : nat) (p : P)
    (scoped : option (Remote.error + list ModelPkg.Function)) : list functionsLoadedMsg :=
  match scoped with
  | Some (inl e) => [mkLoadedMsg [] (Some e) false false]
  | Some (inr functions) => [mkLoadedMsg functions None false false]
  | None => after_listing (Aws.ListFunctionsPagedCallback pg onBatch pages p (true, []))
  end.

(** The messages the goroutine of [loadTables] sends. *)
Definition loadTables {P} (pg : Aws.Paginator P (list string))
    (describe : list string -> list ModelPkg.Table) (pages : nat) (p : P)
    : list tablesLoadedMsg :=
  after_listing (Aws.ListTablesPagedCallback pg describe onBatch pages p (true, [])).

(** The batch messages among the messages of a load: those without an
    error. *)
Definition is_batch {Item} (msg : loadedMsg Item) : bool :=
  match loadErr msg with None => true | Some _ => false end.

(** The [isAppend] flags of [n] deliveries: false, then true. *)
Definition first_then_append (n : nat) : list bool :=
  match n with
  | O => []
  | S k => false :: repeat true k
  end.

(** The channel of a loader during a listing: [isFirst] is true exactly
    when nothing was sent, and what was sent are batch messages flagged
    false, true, true, ... *)
Definition channel_ok {Item} (captured : bool * list (loadedMsg Item)) : Prop :=
  fst captured = negb (0 <? List.length (snd captured))%nat
  /\ forallb is_batch (snd captured) = true
  /\ map isAppend (snd captured) = first_then_append (List.length (snd captured)).

(** The channel of a loader against the record of the listing: one message
    for every call of the callback, with the batch and the [hasMore] flag it
    was called with, and no call has answered [false]. *)
Definition relays {P Item} (r : Aws.PagedRun P (bool * list (loadedMsg Item)) Item)
    : Prop :=
  map items (snd (Aws.consumer r)) = Aws.invoked_batches (Aws.steps r)
  /\ map hasMore (snd (Aws.consumer r)) = Aws.invoked_flags (Aws.steps r)
  /\ forallb is_batch (snd (Aws.consumer r)) = true
  /\ forallb (fun st => negb (Aws.stopped st)) (Aws.steps r) = true.

(** The branch of [loadFunctions] for a selected stack, up to the message:
    [names] is what [GetLambdaFunctionsFromStack] returned.
    [for _, name := range functionNames {
       fn, err := m.client.DescribeFunction(ctx, name);
       if err != nil { continue }; functions = append(functions, *fn) }] *)
Definition scopedFunctions (lambda : Aws.Lambda) (names : Remote.error + list string)
    : Remote.error + list ModelPkg.Function :=
  match names with
  | inl e => inl e
  | inr functionNames =>
      if Nat.eqb (List.length functionNames) 0 then inr []
      else inr (flat_map (fun name => match Aws.DescribeFunction lambda name with
                                      | inr fn => [fn]
                                      | inl _ => []
                                      end) functionNames)
  end.

(** *** The UI model, its messages and commands *)

Inductive View := ViewJumpHostSelect | ViewAPIStages | ViewOther (id : nat).

Record State := mkState {
  Profile : string;
  View_ : View;
  PendingTunnelAPI : ModelPkg.Api;
  PendingTunnelStage : option ModelPkg.APIStage;
  PendingTunnelLocalPort : Z;
  EC2Instances : list ModelPkg.EC2Instance;
  EC2InstancesLoading : bool
}.

(** The per-profile configuration; the accessors take the profile name. *)
Record Config := mkConfig {
  GetJumpHost : string -> string;
  GetJumpHostTag : string -> string;
  GetVPCEndpointID : string -> string;
  DefaultsJumpHostTags : list string;
  DefaultsJumpHostNames : list string
}.

Record Model := mkModel {
  state : State;
  cfg : option Config;
  logger : list Log.Entry;
  ec2ListLoading : bool
}.

Record jumpHostFound := mkJumpHostFound {
  jumpHost : option ModelPkg.EC2Instance;
  vpcEndpoint : option ModelPkg.VpcEndpoint;
  vpcEndpointErr : option Remote.error;
  stage : ModelPkg.APIStage;
  api : ModelPkg.Api;
  localPort : Z;
  err : option Remote.error
}.

Inductive Msg :=
| tunnelStartedMsg (tunnel : option ModelPkg.Tunnel) (err : option Remote.error)
| apiGWTunnelStartedMsg (tunnel : option ModelPkg.APIGatewayTunnel) (err : option Remote.error)
| jumpHostFoundMsg (found : jumpHostFound)
| ec2InstancesLoadedMsg (instances : list ModelPkg.EC2Instance) (err : option Remote.error).

(** What running a command gives: a message, or the panic of a nil
    dereference. *)
Inductive CmdResult := Delivered (msg : Msg) | Panicked.

(** A [tea.Cmd]: a closure run later, off the render path, against the
    remote services; it reads the model as it is when it runs. *)
Inductive Cmd :=
| CmdFunc (run : Remote.Env -> Model -> Remote.Run CmdResult)
| CmdSpinnerTick
| CmdBatch (cmds : list Cmd).

Definition log (level : Log.Level) (line : string) (m : Model) : Model :=
  mkModel (state m) (cfg m) (logger m ++ [(level, line)])%list (ec2ListLoading m).

Definition set_state (st : State) (m : Model) : Model :=
  mkModel st (cfg m) (logger m) (ec2ListLoading m).

Notation "x <- m ;; k" := (Remote.bind m (fun x => k))
  (at level 61, m at next level, right associativity).

(** *** loaders.go: loadEC2Instances *)

Definition loadEC2Instances (m : Model) : Model * Cmd :=
  let st := state m in
  let m := set_state (mkState (Profile st) (View_ st) (PendingTunnelAPI st)
                        (PendingTunnelStage st) (PendingTunnelLocalPort st)
                        (EC2Instances st) true) m in
  let m := mkModel (state m) (cfg m) (logger m) true in
  let m := log Info "Loading SSM-managed EC2 instances..." m in
  (m, CmdBatch
        [ CmdSpinnerTick;
          CmdFunc (fun env _ =>
            ctx <- Remote.WithTimeout 30 ;;
            r <- Remote.remote (Remote.CallListSSMManagedInstances ctx)
                   (Remote.ListSSMManagedInstances env ctx) ;;
            Remote.ret (Delivered (ec2InstancesLoadedMsg (fst r) (snd r)))) ]).

(** *** tunnels.go *)

Definition startTunnelWithPort (service : ModelPkg.Service) (task : ModelPkg.Task)
    (container : ModelPkg.Container) (remotePort localPort : Z) : Cmd :=
  CmdFunc (fun env _ =>
    ctx <- Remote.WithTimeout 30 ;;
    r <- Remote.remote
           (Remote.CallStartTunnel ctx service task container remotePort localPort)
           (Remote.StartTunnel env ctx service task container remotePort localPort) ;;
    Remote.ret (Delivered (tunnelStartedMsg (fst r) (snd r)))).

Definition startTunnel (service : ModelPkg.Service) (task : ModelPkg.Task)
    (container : ModelPkg.Container) (remotePort : Z) : Cmd :=
  startTunnelWithPort service task container remotePort 0.

Definition startPublicAPIGWTunnel (api : ModelPkg.Api) (stage : ModelPkg.APIStage)
    (localPort : Z) : Cmd :=
  CmdFunc (fun env _ =>
    ctx <- Remote.WithTimeout 30 ;;
    r <- Remote.remote (Remote.CallStartPublicTunnel ctx api stage localPort)
           (Remote.StartPublicTunnel env ctx api stage localPort) ;;
    Remote.ret (Delivered (apiGWTunnelStartedMsg (fst r) (snd r)))).

(** [isPrivate] of [startAPIGatewayTunnel]. *)
Definition isPrivate (api : ModelPkg.Api) : bool :=
  match api with
  | ModelPkg.ApiRest restAPI => String.eqb (ModelPkg.EndpointType restAPI) "PRIVATE"
  | _ => false
  end.

Definition startAPIGatewayTunnel (api : ModelPkg.Api) (stage : ModelPkg.APIStage)
    (localPort : Z) (m : Model) : Model * Cmd :=
  if isPrivate api then
    let m := log Info "Loading EC2 instances for jump host selection..." m in
    let st := state m in
    let m := set_state (mkState (Profile st) ViewJumpHostSelect api (Some stage)
                          localPort (EC2Instances st) true) m in
    loadEC2Instances m
  else
    let m := log Info ("Starting public API Gateway proxy for stage: "
                       ++ ModelPkg.StageName stage) m in
    (m, startPublicAPIGWTunnel api stage localPort).

(** The configuration [findJumpHostForAPIGateway] reads for the current
    profile, and the tags and names it looks for: those of the configuration
    when it has any, the built-in ones otherwise. *)
Definition jumpHostConfig (m : Model) : string :=
  match cfg m with Some c => GetJumpHost c (Profile (state m)) | None => "" end.

Definition jumpHostTagConfig (m : Model) : string :=
  match cfg m with Some c => GetJumpHostTag c (Profile (state m)) | None => "" end.

Definition defaultTags (m : Model) : list string :=
  let defaultTags := ["vaws:jump-host=true"; "Name=bastion"; "Name=jump-host"] in
  match cfg m with
  | Some c => if GoInt.len (DefaultsJumpHostTags c) >? 0
              then DefaultsJumpHostTags c else defaultTags
  | None => defaultTags
  end.

Definition defaultNames (m : Model) : list string :=
  let defaultNames := ["bastion"; "jump-host"; "jumphost"] in
  match cfg m with
  | Some c => if GoInt.len (DefaultsJumpHostNames c) >? 0
              then DefaultsJumpHostNames c else defaultNames
  | None => defaultNames
  end.

Definition findJumpHostForAPIGateway (api : ModelPkg.Api) (stage : ModelPkg.APIStage)
    (localPort : Z) : Cmd :=
  CmdFunc (fun env m =>
    ctx <- Remote.WithTimeout 60 ;;
    let jumpHostConfig := jumpHostConfig m in
    let jumpHostTagConfig := jumpHostTagConfig m in
    let defaultTags := defaultTags m in
    let defaultNames := defaultNames m in
    found <- Remote.remote
               (Remote.CallFindJumpHost ctx "" jumpHostConfig jumpHostTagConfig
                  defaultTags defaultNames)
               (Remote.FindJumpHost env ctx "" jumpHostConfig jumpHostTagConfig
                  defaultTags defaultNames) ;;
    match found with
    | inl e =>
        Remote.ret (Delivered (jumpHostFoundMsg
          (mkJumpHostFound None None None (ModelPkg.mkAPIStage "") ModelPkg.ApiNil 0
             (Some (Remote.Wrapped "failed to find jump host" e)))))
    | inr host =>
        endpoint <-
          (if String.eqb (ModelPkg.VpcID host) "" then Remote.ret (None, None)
           else Remote.remote
                  (Remote.CallFindAPIGatewayVpcEndpoint ctx (ModelPkg.VpcID host))
                  (Remote.FindAPIGatewayVpcEndpoint env ctx (ModelPkg.VpcID host))) ;;
        Remote.ret (Delivered (jumpHostFoundMsg
          (mkJumpHostFound (Some host) (fst endpoint) (snd endpoint) stage api
             localPort None)))
    end).

Definition startPrivateAPIGWTunnel (api : ModelPkg.Api) (stage : ModelPkg.APIStage)
    (host : ModelPkg.EC2Instance) (endpoint : option ModelPkg.VpcEndpoint)
    (localPort : Z) (m : Model) : Cmd :=
  let configuredVPCEndpointID :=
    match cfg m with Some c => GetVPCEndpointID c (Profile (state m)) | None => "" end in
  CmdFunc (fun env _ =>
    ctx <- Remote.WithTimeout 30 ;;
    r <- Remote.remote
           (Remote.CallStartPrivateTunnel ctx api stage host endpoint
              configuredVPCEndpointID localPort)
           (Remote.StartPrivateTunnel env ctx api stage host endpoint
              configuredVPCEndpointID localPort) ;;
    Remote.ret (Delivered (apiGWTunnelStartedMsg (fst r) (snd r)))).

(** Modelled from the spec: [State.ClearPendingTunnel] of package state,
    which is not among the sources; the pending request (target, stage
    configuration, desired local port) is held only until the jump host is
    chosen or cancelled, and is cleared then. *)
Definition ClearPendingTunnel (st : State) : State :=
  mkState (Profile st) (View_ st) ModelPkg.ApiNil None 0 (EC2Instances st)
    (EC2InstancesLoading st).

(** Modelled from the spec: [State.ClearEC2Instances] of package state,
    which is not among the sources; the candidates loaded for the selection
    are request-scoped and discarded after it. *)
Definition ClearEC2Instances (st : State) : State :=
  mkState (Profile st) (View_ st) (PendingTunnelAPI st) (PendingTunnelStage st)
    (PendingTunnelLocalPort st) [] false.

Definition startPrivateAPIGWTunnelWithJumpHost (host : ModelPkg.EC2Instance)
    (m : Model) : Model * Cmd :=
  let api := PendingTunnelAPI (state m) in
  let stage := PendingTunnelStage (state m) in
  let localPort := PendingTunnelLocalPort (state m) in
  let m := set_state (ClearPendingTunnel (state m)) m in
  let m := set_state (ClearEC2Instances (state m)) m in
  let st := state m in
  let m := set_state (mkState (Profile st) ViewAPIStages (PendingTunnelAPI st)
                        (PendingTunnelStage st) (PendingTunnelLocalPort st)
                        (EC2Instances st) (EC2InstancesLoading st)) m in
  let configuredVPCEndpointID :=
    match cfg m with Some c => GetVPCEndpointID c (Profile (state m)) | None => "" end in
  let m := log Info ("Starting private API Gateway tunnel via jump host: "
                     ++ ModelPkg.InstanceName host) m in
  (m, CmdFunc (fun env _ =>
        ctx <- Remote.WithTimeout 60 ;;
        endpoint <-
          (if String.eqb (ModelPkg.VpcID host) "" then Remote.ret (None, None)
           else Remote.remote
                  (Remote.CallFindAPIGatewayVpcEndpoint ctx (ModelPkg.VpcID host))
                  (Remote.FindAPIGatewayVpcEndpoint env ctx (ModelPkg.VpcID host))) ;;
        match stage with
        | None => Remote.ret Panicked
        | Some stage =>
            r <- Remote.remote
                   (Remote.CallStartPrivateTunnel ctx api stage host (fst endpoint)
                      configuredVPCEndpointID localPort)
                   (Remote.StartPrivateTunnel env ctx api stage host (fst endpoint)
                      configuredVPCEndpointID localPort) ;;
            Remote.ret (Delivered (apiGWTunnelStartedMsg (fst r) (snd r)))
        end)).

(** A target is public unless it is a REST API whose endpoint type is
    PRIVATE: HTTP APIs and every other REST API. *)
Definition not_private (api : ModelPkg.Api) : Prop :=
  match api with
  | ModelPkg.ApiRest restAPI => ModelPkg.EndpointType restAPI <> "PRIVATE"
  | _ => True
  end.

(** The operations of the jump-host path: loading the candidate instances
    and resolving a jump host. *)
Definition is_jump_host_call (c : Remote.Call) : bool :=
  match c with
  | Remote.CallListSSMManagedInstances _
  | Remote.CallFindJumpHost _ _ _ _ _ _
  | Remote.CallFindAPIGatewayVpcEndpoint _ _ => true
  | _ => false
  end.

(** The operations that establish a session or tunnel. *)
Definition is_establishment (c : Remote.Call) : bool :=
  match c with
  | Remote.CallStartTunnel _ _ _ _ _ _
  | Remote.CallStartPublicTunnel _ _ _ _
  | Remote.CallStartPrivateTunnel _ _ _ _ _ _ _ => true
  | _ => false
  end.

(** The [err] field of the message a command delivered is a timeout. *)
Definition err_is_timeout (r : CmdResult) : bool :=
  match r with
  | Delivered (tunnelStartedMsg _ (Some e))
  | Delivered (apiGWTunnelStartedMsg _ (Some e))
  | Delivered (ec2InstancesLoadedMsg _ (Some e)) => Remote.is_timeout e
  | Delivered (jumpHostFoundMsg found) =>
      match err found with Some e => Remote.is_timeout e | None => false end
  | _ => false
  end.

(** The informational [vpcEndpointErr] of a [jumpHostFoundMsg] is a timeout. *)
Definition endpoint_err_is_timeout (r : CmdResult) : bool :=
  match r with
  | Delivered (jumpHostFoundMsg found) =>
      match vpcEndpointErr found with Some e => Remote.is_timeout e | None => false end
  | _ => false
  end.

(** Running a command function from the start of time. *)
Definition run_cmd (c : Cmd) (env : Remote.Env) (m : Model) : option (CmdResult * Remote.World) :=
  match c with
  | CmdFunc run => Some (run env m Remote.start)
  | _ => None
  end.

End Ui.

(** ** internal/ui/helpers.go *)

Module Helpers.
Local Open Scope string_scope.

(** [%d] of an [int]. *)
Definition itoa (z : Z) : string := NilZero.string_of_int (Z.to_int z).

(** Go's [/] on integers truncates toward zero: [Z.quot]. *)
Definition formatDuration (seconds : Z) : string :=
  if (seconds >=? 86400)%Z then itoa (Z.quot seconds 86400) ++ " days"
  else if (seconds >=? 3600)%Z then itoa (Z.quot seconds 3600) ++ " hours"
  else if (seconds >=? 60)%Z then itoa (Z.quot seconds 60) ++ " mins"
  else itoa seconds ++ "s".

(** What a formatter comes to: the text, the panic of an index out of
    range, or a loop that has not ended when the fuel has. *)
Inductive Formatted := Text (s : string) | IndexPanic | OutOfFuel.

(** [for n := bytes / unit; n >= unit; n /= unit { div *= unit; exp++ }],
    on [int64] and [int]; the answer is [(div, exp)]. *)
Fixpoint formatBytes_loop (fuel : nat) (n div exp : Z) : option (Z * Z) :=
  match fuel with
  | O => None
  | S fuel' =>
      if (n >=? 1024)%Z
      then formatBytes_loop fuel' (Z.quot n 1024) (GoInt.wrap (div * 1024))
             (GoInt.add exp 1)
      else Some (div, exp)
  end.

(** [formatBytes]. [fmtFloat1 bytes div] stands for the [%.1f] rendering of
    [float64(bytes)/float64(div)]; the unit letter is ["KMGTPE"[exp]]. *)
Definition formatBytes (fmtFloat1 : Z -> Z -> string) (bytes : Z) : Formatted :=
  if (bytes <? 1024)%Z then Text (itoa bytes ++ " B")
  else
    match formatBytes_loop 8 (Z.quot bytes 1024) 1024 0 with
    | None => OutOfFuel
    | Some (div, exp) =>
        if (exp <? 0)%Z then IndexPanic
        else
          match String.get (Z.to_nat exp) "KMGTPE" with
          | None => IndexPanic
          | Some letter =>
              Text (fmtFloat1 bytes div ++ " " ++ String letter "B")
          end
    end.

(** [truncateString]; [len(s)] counts bytes and [s[:n]] cuts at a byte. *)
Definition truncateString (s : string) (maxWidth : Z) : string :=
  if (maxWidth <=? 0)%Z then ""
  else if (Z.of_nat (String.length s) <=? maxWidth)%Z then s
  else if (maxWidth <=? 3)%Z then substring 0 (Z.to_nat maxWidth) s
  else substring 0 (Z.to_nat (GoInt.sub maxWidth 3)) s ++ "...".

(** [matchKey]: [msg.String()] is one of [binding.Keys()]. *)
Definition matchKey (msgString : string) (bindingKeys : list string) : bool :=
  existsb (fun k => String.eqb msgString k) bindingKeys.

Section FindBestContainer.

(** [model.Container] is declared outside the sources at hand: its field
    [RuntimeID] and its methods [IsSidecar] and [HasAppPort] are taken as
    they come. *)
Variable RuntimeID : ModelPkg.Container -> string.
Variable IsSidecar : ModelPkg.Container -> bool.
Variable HasAppPort : ModelPkg.Container -> bool.

(** [for i := range containers { c := &containers[i]; if cond(c) { return c } }]:
    the index of the container returned, counting from [i]. *)
Fixpoint first_index (cond : ModelPkg.Container -> bool)
    (containers : list ModelPkg.Container) (i : nat) : option nat :=
  match containers with
  | [] => None
  | c :: rest => if cond c then Some i else first_index cond rest (S i)
  end.

Definition has_runtime (c : ModelPkg.Container) : bool :=
  negb (String.eqb (RuntimeID c) "").

(** [findBestContainer]: the index of the element the returned pointer
    points to, [None] for [nil]. *)
Definition findBestContainer (containers : list ModelPkg.Container) : option nat :=
  match first_index (fun c => has_runtime c && negb (IsSidecar c) && HasAppPort c)
          containers 0 with
  | Some i => Some i
  | None =>
      match first_index (fun c => has_runtime c && negb (IsSidecar c)) containers 0 with
      | Some i => Some i
      | None => first_index has_runtime containers 0
      end
  end.

End FindBestContainer.

End Helpers.

(** ** Concrete scenarios used to exercise the statements *)

Module Scenario.
Import ModelPkg.
Local Open Scope string_scope.

Definition bastion : EC2Instance := mkEC2Instance "i-0abc" "bastion" "vpc-1".
Definition detached : EC2Instance := mkEC2Instance "i-0def" "jump-host" "".
Definition prod : APIStage := mkAPIStage "prod".
Definition orders_api : Api := ApiRest (mkRestAPI "a1b2" "orders" "REGIONAL").
Definition billing_api : Api := ApiRest (mkRestAPI "c3d4" "billing" "PRIVATE").
Definition tunnel8080 : APIGatewayTunnel := mkAPIGatewayTunnel "tun-1" 8080.

(** A call that needs [d] seconds and watches its context: it returns [ok]
    when it is done before the deadline, and [timeout] at the deadline
    otherwise. *)
Definition within {A} (d ctx : nat) (ok timeout : A) : Remote.Reply A :=
  fun now =>
    if (now + d <? ctx)%nat then Remote.mkAnswer d ok
    else Remote.mkAnswer (ctx - now) timeout.

(** Services that need [d] seconds and watch their context: a jump host is
    found, the VPC endpoint lookup fails, tunnels come up. *)
Definition env_after (d : nat) : Remote.Env :=
  Remote.mkEnv
    (fun ctx _ _ _ _ port =>
       within d ctx (Some (mkTunnel "ecs-1" port), None)
         (None, Some Remote.DeadlineExceeded))
    (fun ctx _ _ port =>
       within d ctx (Some (mkAPIGatewayTunnel "pub-1" port), None)
         (None, Some Remote.DeadlineExceeded))
    (fun ctx _ _ _ _ _ _ =>
       within d ctx (Some tunnel8080, None) (None, Some Remote.DeadlineExceeded))
    (fun ctx _ _ _ _ _ => within d ctx (inr bastion) (inl Remote.DeadlineExceeded))
    (fun ctx _ =>
       within d ctx (None, Some (Remote.ServiceError "no execute-api endpoint"))
         (None, Some Remote.DeadlineExceeded))
    (fun ctx => within d ctx ([bastion], None) ([], Some Remote.DeadlineExceeded)).

(** Services that need [d] seconds and never look at their context. *)
Definition heedless (d : nat) : Remote.Env :=
  Remote.mkEnv
    (fun _ _ _ _ _ port _ => Remote.mkAnswer d (Some (mkTunnel "ecs-1" port), None))
    (fun _ _ _ port _ => Remote.mkAnswer d (Some (mkAPIGatewayTunnel "pub-1" port), None))
    (fun _ _ _ _ _ _ _ _ => Remote.mkAnswer d (Some tunnel8080, None))
    (fun _ _ _ _ _ _ _ => Remote.mkAnswer d (inr bastion))
    (fun _ _ _ =>
       Remote.mkAnswer d (None, Some (Remote.ServiceError "no execute-api endpoint")))
    (fun _ _ => Remote.mkAnswer d ([bastion], None)).

Definition idle : Ui.Model :=
  Ui.mkModel (Ui.mkState "default" (Ui.ViewOther 0) ApiNil None 0 [] false) None [] false.

(** The model after a private tunnel was requested for the billing API. *)
Definition pending : Ui.Model :=
  Ui.mkModel (Ui.mkState "default" Ui.ViewJumpHostSelect billing_api (Some prod) 8080
                [bastion; detached] false) None [] false.

(** A paginator over a fixed list of pages: more pages while the list is
    not empty. *)
Definition pages_of {Page} : Aws.Paginator (list Page) Page :=
  Aws.mkPaginator (list Page) Page
    (fun p => match p with [] => false | _ => true end)
    (fun p => match p with
              | [] => (inl (Remote.ServiceError "no more pages available"), [])
              | page :: rest => (inr page, rest)
              end).

(** A callback that counts its calls and asks to stop at the [n]-th. *)
Definition stop_at {Item} (n : nat) : Aws.Callback nat Item :=
  fun _ _ calls => (negb (Nat.eqb (S calls) n), S calls).

Definition queue_url (name : string) : string :=
  "https://sqs.eu-west-1.amazonaws.com/123456789012/" ++ name.

(** An SQS that knows every queue, and one that has lost the queues whose
    URL is in [gone]. *)
Definition sqs_ok : Aws.Sqs := fun _ url => inr [("QueueArn", "arn:aws:sqs:" ++ url)].

Definition sqs_without (gone : list string) : Aws.Sqs :=
  fun _ url =>
    if existsb (String.eqb url) gone
    then inl (Remote.ServiceError "AWS.SimpleQueueService.NonExistentQueue")
    else inr [("QueueArn", "arn:aws:sqs:" ++ url)].

Definition go121 : Toolchain := mkToolchain (GoSort.xorshift 13 17 5) (fun s => s).

(** The scheduler that always takes the first event that can happen, and one
    that takes the last. *)
Definition first_come : Aws.Scheduler := fun _ => 0%nat.
Definition last_come : Aws.Scheduler := fun s => (Aws.spawned s + 1000)%nat.

(** A page of [n] queues, [q0], [q1], ... *)
Definition page_of (n : nat) : list string :=
  map (fun i => queue_url ("q" ++ Aws.itoa i)) (seq 0 n).

(** [k] goroutines are started and each of them takes a slot. *)
Definition rush (k : nat) : list Aws.Event :=
  (repeat Aws.EvSpawn k ++ map Aws.EvAcquire (seq 0 k))%list.

Definition three_pages : list (list string) :=
  [ [queue_url "orders"; queue_url "billing"];
    [queue_url "audit"];
    [queue_url "mail"; queue_url "sms"] ].

(** Thirteen queues, two of which differ by case only. *)
Definition thirteen : list string :=
  map queue_url
    ["Orders"; "orders"; "a"; "b"; "c"; "d"; "e"; "f"; "g"; "h"; "i"; "j"; "k"].

(** The same toolchain with the other form of the generator step. *)
Definition other_go : Toolchain := mkToolchain (GoSort.xorshift 13 7 17) (fun s => s).

(** A page whose first URL is empty. *)
Definition blank_first : list string := [""; queue_url "orders"; queue_url "billing"].

(** The [hasMore] flags that a listing of queues over the pages [ps] hands
    to its callback: one for every page that is not empty, true while pages
    remain after it. *)
Fixpoint more_flags {Page} (ps : list (list Page)) : list bool :=
  match ps with
  | [] => []
  | page :: rest =>
      ((if Nat.eqb (List.length page) 0 then []
        else [match rest with [] => false | _ => true end])
       ++ more_flags rest)%list
  end.

(** A callback that only asks for more. *)
Definition keep_going {Item} : Aws.Callback nat Item :=
  fun _ _ calls => (true, S calls).

(** A paginator whose first page is [page] and whose every later request
    fails. *)
Definition flaky {Page} (page : Page) : Aws.Paginator nat Page :=
  Aws.mkPaginator nat Page
    (fun _ => true)
    (fun n => match n with
              | O => (inr page, 1%nat)
              | S _ => (inl (Remote.ServiceError "ThrottlingException"), n)
              end).

End Scenario.

(* ===================================================================== *)
(** * Part II: the properties *)
(* ===================================================================== *)

(** ** Machine integers *)

Lemma wrap_in_range z : GoInt.in_range (GoInt.wrap z).
Proof.
  unfold GoInt.in_range, GoInt.wrap, GoInt.minInt, GoInt.maxInt.
  pose proof (Z.mod_pos_bound (z + 2 ^ 63) (2 ^ 64) ltac:(lia)). lia.
Qed.

Lemma wrap_small z : GoInt.in_range z -> GoInt.wrap z = z.
Proof.
  unfold GoInt.in_range, GoInt.wrap, GoInt.minInt, GoInt.maxInt. intros H.
  rewrite Z.mod_small by lia. lia.
Qed.

(** ** The region selector *)

Section RegionSelectorInvariant.
Import Components.

Lemma flattenRegions_len : GoInt.len flattenRegions = 18.
Proof. reflexivity. Qed.

Lemma visibleCount_bounds r : 1 <= visibleCount r <= GoInt.maxInt.
Proof.
  unfold visibleCount, GoInt.sub.
  pose proof (wrap_in_range (height r - 6)) as R.
  unfold GoInt.in_range, GoInt.minInt, GoInt.maxInt in *. lia.
Qed.

Ltac int_bounds :=
  unfold GoInt.in_range, GoInt.minInt, GoInt.maxInt in *.

(** The arithmetic of [clampOffset]: for an in-bounds cursor the new offset
    frames the cursor, whatever the old offset was, wrap-around included. *)
Lemma clamp_arith c o v n :
  0 < n <= 2 ^ 32 -> 0 <= c < n -> GoInt.in_range o -> 1 <= v <= GoInt.maxInt ->
  let o1 := if c <? o then c
            else if c >=? GoInt.add o v then GoInt.add (GoInt.sub c v) 1 else o in
  let o' := Z.max 0 (Z.min o1 (Z.max 0 (GoInt.sub n v))) in
  0 <= o' /\ o' <= c /\ c < o' + v.
Proof.
  intros Hn Hc Ho Hv. cbv zeta. unfold GoInt.sub, GoInt.add. int_bounds.
  rewrite (wrap_small (n - v)) by (int_bounds; lia).
  destruct (c <? o) eqn:E1; [apply Z.ltb_lt in E1 | apply Z.ltb_ge in E1].
  - lia.
  - destruct (c >=? GoInt.wrap (o + v)) eqn:E2.
    + rewrite (wrap_small (c - v)) by (int_bounds; lia).
      rewrite (wrap_small (c - v + 1)) by (int_bounds; lia).
      lia.
    + rewrite Z.geb_leb in E2. apply Z.leb_gt in E2.
      assert (GoInt.wrap (o + v) = o + v \/ GoInt.wrap (o + v) < 0) as [W | W].
      { destruct (Z_le_gt_dec (o + v) (2 ^ 63 - 1)).
        - left. apply wrap_small. int_bounds. lia.
        - right. unfold GoInt.wrap.
          replace (o + v + 2 ^ 63) with ((o + v - 2 ^ 63) + 1 * 2 ^ 64) by lia.
          rewrite Z.mod_add by lia. rewrite Z.mod_small by lia. lia. }
      * lia.
      * lia.
Qed.

Lemma clampOffset_fields r :
  cursor (clampOffset r) = cursor r /\ height (clampOffset r) = height r
  /\ flatRegions (clampOffset r) = flatRegions r
  /\ currentRegion (clampOffset r) = currentRegion r.
Proof.
  unfold clampOffset.
  destruct (cursor r <? offset r); [now cbn |].
  destruct (cursor r >=? _); now cbn.
Qed.

(** [clampOffset] establishes the invariant for any in-bounds cursor. *)
Lemma clampOffset_establishes r :
  0 < GoInt.len (flatRegions r) <= 2 ^ 32 ->
  0 <= cursor r < GoInt.len (flatRegions r) ->
  GoInt.in_range (offset r) ->
  selector_inv (clampOffset r).
Proof.
  intros Hn Hc Ho.
  pose proof (clamp_arith (cursor r) (offset r) (visibleCount r)
                (GoInt.len (flatRegions r)) Hn Hc Ho (visibleCount_bounds r)) as A.
  cbv zeta in A.
  destruct (clampOffset_fields r) as (Fc & Fh & Ff & _).
  unfold selector_inv. rewrite Fc, Ff.
  replace (visibleCount (clampOffset r)) with (visibleCount r)
    by (unfold visibleCount; now rewrite Fh).
  replace (offset (clampOffset r)) with
    (Z.max 0 (Z.min (if cursor r <? offset r then cursor r
                     else if cursor r >=? GoInt.add (offset r) (visibleCount r)
                          then GoInt.add (GoInt.sub (cursor r) (visibleCount r)) 1
                          else offset r)
                    (Z.max 0 (GoInt.sub (GoInt.len (flatRegions r)) (visibleCount r))))).
  - lia.
  - unfold clampOffset.
    destruct (cursor r <? offset r); [reflexivity |].
    destruct (cursor r >=? _); reflexivity.
Qed.

Lemma inv_offset_in_range r :
  GoInt.len (flatRegions r) <= 2 ^ 32 -> selector_inv r -> GoInt.in_range (offset r).
Proof. unfold selector_inv. int_bounds. lia. Qed.

Lemma Up_preserves r :
  GoInt.len (flatRegions r) <= 2 ^ 32 -> selector_inv r -> selector_inv (Up r).
Proof.
  intros Hn I. unfold Up.
  destruct (cursor r >? 0) eqn:E; [| exact I].
  rewrite Z.gtb_ltb in E. apply Z.ltb_lt in E.
  pose proof I as (I1 & I2 & I3 & I4).
  apply clampOffset_establishes; cbn [flatRegions cursor offset set_cursor].
  - lia.
  - unfold GoInt.sub. rewrite wrap_small by (int_bounds; lia). lia.
  - now apply inv_offset_in_range.
Qed.

Lemma Down_preserves r :
  GoInt.len (flatRegions r) <= 2 ^ 32 -> selector_inv r -> selector_inv (Down r).
Proof.
  intros Hn I. unfold Down.
  pose proof I as (I1 & I2 & I3 & I4).
  unfold GoInt.sub, GoInt.add.
  rewrite (wrap_small (GoInt.len (flatRegions r) - 1)) by (int_bounds; lia).
  destruct (cursor r <? _) eqn:E; [| exact I].
  apply Z.ltb_lt in E.
  apply clampOffset_establishes; cbn [flatRegions cursor offset set_cursor].
  - lia.
  - rewrite wrap_small by (int_bounds; lia). lia.
  - now apply inv_offset_in_range.
Qed.

Lemma first_with_code_bounds region regs i k :
  first_with_code region regs i = Some k -> i <= k < i + GoInt.len regs.
Proof.
  revert i. induction regs as [| reg rest IH]; intros i; cbn [first_with_code].
  - discriminate.
  - unfold GoInt.len in *. cbn [List.length]. rewrite Nat2Z.inj_succ.
    destruct (String.eqb (Code reg) region).
    + intros [= <-]. lia.
    + intros H. apply IH in H. lia.
Qed.

Lemma SetCurrentRegion_preserves region r :
  GoInt.len (flatRegions r) <= 2 ^ 32 -> selector_inv r ->
  selector_inv (SetCurrentRegion region r).
Proof.
  intros Hn I. unfold SetCurrentRegion. cbn [flatRegions].
  pose proof I as (I1 & I2 & I3 & I4).
  destruct (first_with_code region (flatRegions r) 0) as [k |] eqn:E.
  - apply first_with_code_bounds in E.
    apply clampOffset_establishes; cbn [flatRegions cursor offset set_cursor].
    + lia.
    + lia.
    + now apply inv_offset_in_range.
  - exact I.
Qed.

Lemma apply_op_frame o r :
  height (apply_op o r) = height r /\ flatRegions (apply_op o r) = flatRegions r.
Proof.
  destruct o; cbn [apply_op]; unfold Up, Down, SetCurrentRegion.
  - destruct (cursor r >? 0); [| easy].
    destruct (clampOffset_fields (set_cursor (GoInt.sub (cursor r) 1) r)) as (_ & H1 & H2 & _).
    now rewrite H1, H2.
  - destruct (cursor r <? _); [| easy].
    destruct (clampOffset_fields (set_cursor (GoInt.add (cursor r) 1) r)) as (_ & H1 & H2 & _).
    now rewrite H1, H2.
  - cbn [flatRegions].
    destruct (first_with_code region (flatRegions r) 0) as [k |]; [| easy].
    match goal with |- context [clampOffset ?x] =>
      destruct (clampOffset_fields x) as (_ & H1 & H2 & _) end.
    now rewrite H1, H2.
Qed.

Lemma apply_op_preserves o r :
  GoInt.len (flatRegions r) <= 2 ^ 32 -> selector_inv r -> selector_inv (apply_op o r).
Proof.
  destruct o; cbn [apply_op];
    auto using Up_preserves, Down_preserves, SetCurrentRegion_preserves.
Qed.

Lemma run_ops_preserves ops : forall r,
  GoInt.len (flatRegions r) <= 2 ^ 32 -> selector_inv r ->
  selector_inv (run_ops ops r) /\ height (run_ops ops r) = height r
  /\ flatRegions (run_ops ops r) = flatRegions r.
Proof.
  unfold run_ops. induction ops as [| o ops IH]; intros r Hn I; cbn [fold_left].
  - auto.
  - destruct (apply_op_frame o r) as (Fh & Ff).
    destruct (IH (apply_op o r)) as (J & Jh & Jf).
    + now rewrite Ff.
    + now apply apply_op_preserves.
    + rewrite Jh, Jf, Fh, Ff. auto.
Qed.

(** C10. A freshly created selector (cursor 0, offset 0) of any size satisfies
    0 <= offset <= cursor < len(flatRegions) and cursor < offset + visibleCount(),
    and so does every state reached from it by Up, Down and SetCurrentRegion
    while the size stays as set; those operations change neither the height
    nor the built-in list of 18 regions. *)
Theorem region_selector_cursor_in_window (w h : Z) (ops : list Op) :
  let r := run_ops ops (SetSize w h NewRegionSelector) in
  selector_inv r /\ height r = h /\ flatRegions r = flattenRegions
  /\ GoInt.len flattenRegions = 18.
Proof.
  cbv zeta.
  assert (Hn : GoInt.len (flatRegions (SetSize w h NewRegionSelector)) <= 2 ^ 32).
  { cbn [SetSize flatRegions NewRegionSelector]. rewrite flattenRegions_len. lia. }
  assert (I0 : selector_inv (SetSize w h NewRegionSelector)).
  { pose proof (visibleCount_bounds (SetSize w h NewRegionSelector)) as V.
    unfold selector_inv. cbn [SetSize flatRegions NewRegionSelector offset cursor] in *.
    rewrite flattenRegions_len. lia. }
  destruct (run_ops_preserves ops _ Hn I0) as (I & Ih & If).
  repeat split; try assumption; apply I.
Qed.

End RegionSelectorInvariant.

(** ** Queue names *)

Section QueueNames.

Example split_example :
  GoStrings.Split "https://sqs.eu-west-1.amazonaws.com/123456789012/orders.fifo" "/"
  = ["https:"; ""; "sqs.eu-west-1.amazonaws.com"; "123456789012"; "orders.fifo"]%string.
Proof. reflexivity. Qed.

Example extract_example :
  Aws.extractQueueNameFromURL "https://sqs.eu-west-1.amazonaws.com/123456789012/orders.fifo"
  = "orders.fifo"%string.
Proof. reflexivity. Qed.

Local Open Scope string_scope.

Lemma substring_all s : substring 0 (String.length s) s = s.
Proof. induction s as [| c s IH]; cbn; [reflexivity | now rewrite IH]. Qed.

Lemma Count_zero_iff s sep :
  GoStrings.Count s sep = 0%nat <-> ~ In sep (list_ascii_of_string s).
Proof.
  induction s as [| c s IH]; cbn.
  - tauto.
  - destruct (Ascii.eqb_spec c sep) as [-> | N].
    + split; [discriminate | intros H; exfalso; apply H; now left].
    + cbn. rewrite IH. split; [intros H [E | I]; [now apply N | now apply H] | tauto].
Qed.

(** What a successful [IndexByte] says about the two slices [genSplit] takes. *)
Lemma IndexByte_Some s sep m :
  GoStrings.IndexByte s sep = Some m ->
  let front := substring 0 m s in
  let back := substring (m + 1) (String.length s - (m + 1)) s in
  s = front ++ String sep back
  /\ GoStrings.Count s sep = S (GoStrings.Count back sep).
Proof.
  revert m. induction s as [| c s IH]; intros m; cbn [GoStrings.IndexByte].
  - discriminate.
  - destruct (Ascii.eqb_spec c sep) as [-> | N].
    + intros [= <-]. cbn. rewrite Nat.sub_0_r, substring_all.
      rewrite Ascii.eqb_refl. auto.
    + destruct (GoStrings.IndexByte s sep) as [m' |] eqn:E; [| discriminate].
      intros [= <-]. destruct (IH m' eq_refl) as (H1 & H2).
      cbn [substring String.length Nat.add Nat.sub GoStrings.Count String.append].
      destruct (Ascii.eqb_spec c sep); [contradiction |].
      split; [now rewrite <- H1 | exact H2].
Qed.

Lemma IndexByte_None s sep :
  GoStrings.IndexByte s sep = None -> GoStrings.Count s sep = 0%nat.
Proof.
  induction s as [| c s IH]; cbn; [reflexivity |].
  destruct (Ascii.eqb c sep); [discriminate |].
  destruct (GoStrings.IndexByte s sep); [discriminate | auto].
Qed.

Lemma genSplit_nonempty n s sep : GoStrings.genSplit n s sep <> [].
Proof.
  destruct n; cbn; [discriminate |].
  destruct (GoStrings.IndexByte s sep); discriminate.
Qed.

(** The last part produced by [Split] holds no separator, and the input is
    that part, preceded by a separator when the input has one. *)
Lemma genSplit_last n : forall s sep d,
  GoStrings.Count s sep = n ->
  let name := last (GoStrings.genSplit n s sep) d in
  GoStrings.Count name sep = 0%nat
  /\ ((GoStrings.Count s sep = 0%nat /\ name = s)
      \/ exists front, s = front ++ String sep name).
Proof.
  induction n as [| n IH]; intros s sep d Hc; cbn zeta.
  - cbn. rewrite Hc. auto.
  - cbn [GoStrings.genSplit].
    destruct (GoStrings.IndexByte s sep) as [m |] eqn:E.
    + destruct (IndexByte_Some s sep m E) as (Hs & Hn). cbv zeta in Hs, Hn.
      set (back := substring (m + 1) (String.length s - (m + 1)) s) in *.
      assert (Hb : GoStrings.Count back sep = n) by congruence.
      destruct (IH back sep d Hb) as (Z0 & Hd). cbv zeta in Z0, Hd.
      assert (L : last (substring 0 m s :: GoStrings.genSplit n back sep) d
                  = last (GoStrings.genSplit n back sep) d).
      { cbn [last]. destruct (GoStrings.genSplit n back sep) eqn:G; [| reflexivity].
        now apply genSplit_nonempty in G. }
      rewrite L. split; [exact Z0 |]. right.
      destruct Hd as [(_ & ->) | (front & Hf)].
      * now exists (substring 0 m s).
      * exists (substring 0 m s ++ String sep front).
        rewrite Hs at 1. rewrite Hf at 1.
        clear. induction (substring 0 m s) as [| c t IHt]; cbn; [reflexivity |].
        now rewrite IHt.
    + apply IndexByte_None in E. congruence.
Qed.

Lemma nth_error_last {A} (l : list A) (d : A) :
  l <> [] -> nth_error l (List.length l - 1) = Some (last l d).
Proof.
  induction l as [| x l IH]; [congruence |]. intros _.
  destruct l as [| y l]; [reflexivity |].
  specialize (IH ltac:(discriminate)).
  replace (List.length (x :: y :: l) - 1)%nat with (S (List.length (y :: l) - 1))
    by (cbn [List.length]; lia).
  exact IH.
Qed.

Lemma Count_le_length s sep : (GoStrings.Count s sep <= String.length s)%nat.
Proof.
  induction s as [| c s IH]; cbn; [lia |]. destruct (Ascii.eqb c sep); lia.
Qed.

Lemma genSplit_length n : forall s sep,
  (List.length (GoStrings.genSplit n s sep) <= n + 1)%nat.
Proof.
  induction n as [| n IH]; intros s sep; cbn; [lia |].
  destruct (GoStrings.IndexByte s sep); cbn; [| lia].
  specialize (IH (substring (n0 + 1) (String.length s - (n0 + 1)) s) sep). lia.
Qed.

Lemma extractQueueNameFromURL_last url :
  GoInt.in_range (Z.of_nat (String.length url)) ->
  Aws.extractQueueNameFromURL url = last (GoStrings.Split url "/"%char) url.
Proof.
  intros Hr. unfold Aws.extractQueueNameFromURL.
  pose proof (genSplit_nonempty (GoStrings.Count url "/"%char) url "/"%char) as Hne.
  pose proof (genSplit_length (GoStrings.Count url "/"%char) url "/"%char) as Hl.
  pose proof (Count_le_length url "/"%char) as Hc.
  fold (GoStrings.Split url "/"%char) in Hne, Hl.
  set (parts := GoStrings.Split url "/"%char) in *.
  assert (Hlen : (0 < List.length parts)%nat).
  { destruct parts; [congruence | cbn; lia]. }
  cbv zeta. unfold GoInt.len, GoInt.sub.
  unfold GoInt.in_range, GoInt.minInt, GoInt.maxInt in Hr.
  destruct (Z.of_nat (List.length parts) >? 0)%Z eqn:G.
  - rewrite wrap_small
      by (unfold GoInt.in_range, GoInt.minInt, GoInt.maxInt; lia).
    replace (Z.to_nat (Z.of_nat (List.length parts) - 1)) with (List.length parts - 1)%nat by lia.
    now rewrite (nth_error_last parts url Hne).
  - rewrite Z.gtb_ltb in G. apply Z.ltb_ge in G. lia.
Qed.

(** C9. The two copies of extractQueueNameFromURL agree on every string; the
    slice returned by strings.Split is never empty, so the guard
    len(parts) > 0 always holds and the fallback is not taken; and the result
    contains no '/' and is the whole input when the input has no '/', and
    otherwise what follows a '/' of the input: the substring after the last
    '/'. A Go string's length fits in an int. *)
Theorem extractQueueNameFromURL_after_last_slash (url : string) :
  GoInt.in_range (Z.of_nat (String.length url)) ->
  let name := Aws.extractQueueNameFromURL url in
  Ui.extractQueueNameFromURL url = name
  /\ (GoInt.len (GoStrings.Split url "/"%char) >? 0)%Z = true
  /\ ~ In "/"%char (list_ascii_of_string name)
  /\ ((~ In "/"%char (list_ascii_of_string url) /\ name = url)
      \/ exists front, url = front ++ "/" ++ name).
Proof.
  intros Hr. cbv zeta. split; [reflexivity |]. split.
  { pose proof (genSplit_nonempty (GoStrings.Count url "/"%char) url "/"%char) as Hne.
    unfold GoStrings.Split, GoInt.len.
    destruct (GoStrings.genSplit _ url _); [congruence |].
    cbn [List.length]. rewrite Z.gtb_ltb. apply Z.ltb_lt. lia. }
  rewrite (extractQueueNameFromURL_last url Hr). unfold GoStrings.Split.
  destruct (genSplit_last (GoStrings.Count url "/"%char) url "/"%char url eq_refl)
    as (Hz & Hd).
  cbv zeta in Hz, Hd. split.
  - now apply Count_zero_iff.
  - destruct Hd as [(Hu & Hn) | (front & Hf)].
    + left. split; [now apply Count_zero_iff | exact Hn].
    + right. exists front. exact Hf.
Qed.

Lemma extractQueueNameFromURL_after_last_slash_witness :
  let url := "https://sqs.eu-west-1.amazonaws.com/123456789012/orders.fifo" in
  GoInt.in_range (Z.of_nat (String.length url))
  /\ Aws.extractQueueNameFromURL url = "orders.fifo"
  /\ Ui.extractQueueNameFromURL url = Aws.extractQueueNameFromURL url
  /\ ~ In "/"%char (list_ascii_of_string (Aws.extractQueueNameFromURL url)).
Proof.
  cbv zeta.
  assert (Hr : GoInt.in_range
            (Z.of_nat (String.length
               "https://sqs.eu-west-1.amazonaws.com/123456789012/orders.fifo"))).
  { unfold GoInt.in_range, GoInt.minInt, GoInt.maxInt. cbn. lia. }
  split; [exact Hr |]. split; [reflexivity |].
  destruct (extractQueueNameFromURL_after_last_slash _ Hr) as (H1 & _ & H3 & _).
  split; [exact H1 | exact H3].
Defined.

End QueueNames.

(** ** Tunnels *)

Section Tunnels.
Import Log ModelPkg Ui.
Local Open Scope string_scope.
Local Open Scope nat_scope.

Ltac run_remote :=
  unfold run_cmd, Remote.bind, Remote.WithTimeout, Remote.remote, Remote.ret,
    Remote.start; cbn [Remote.clock Remote.calls Nat.add app fst snd].

(** C6. Starting a tunnel for an API Gateway target that is not private (an
    HTTP API, or a REST API whose EndpointType is not PRIVATE) leaves the
    jump-host state alone: view, pending tunnel request and the EC2 loading
    flags are unchanged; the command returned is the public proxy session,
    and running it issues the one call StartPublicTunnel, none of the
    jump-host operations. *)
Theorem public_target_skips_jump_host (api : Api) (stage : APIStage) (localPort : Z)
    (m : Model) (env : Remote.Env) :
  not_private api ->
  let (m', cmd) := startAPIGatewayTunnel api stage localPort m in
  state m' = state m
  /\ ec2ListLoading m' = ec2ListLoading m
  /\ cmd = startPublicAPIGWTunnel api stage localPort
  /\ exists r w,
       run_cmd cmd env m' = Some (r, w)
       /\ Remote.calls w = [Remote.CallStartPublicTunnel 30 api stage localPort]
       /\ forallb (fun c => negb (is_jump_host_call c)) (Remote.calls w) = true.
Proof.
  intros Hpub.
  assert (Hp : isPrivate api = false).
  { destruct api as [| r | h | d]; cbn in *; try reflexivity.
    now apply String.eqb_neq. }
  unfold startAPIGatewayTunnel. rewrite Hp.
  repeat split.
  unfold startPublicAPIGWTunnel. run_remote.
  eexists; eexists; repeat split.
Qed.

Lemma public_target_skips_jump_host_witness :
  not_private Scenario.orders_api
  /\ fst (startAPIGatewayTunnel Scenario.orders_api Scenario.prod 8080 Scenario.idle)
     = log Info "Starting public API Gateway proxy for stage: prod" Scenario.idle
  /\ snd (startAPIGatewayTunnel Scenario.orders_api Scenario.prod 8080 Scenario.idle)
     = startPublicAPIGWTunnel Scenario.orders_api Scenario.prod 8080.
Proof.
  assert (Hpub : not_private Scenario.orders_api) by (cbn; discriminate).
  split; [exact Hpub |].
  pose proof (public_target_skips_jump_host Scenario.orders_api Scenario.prod 8080%Z
                Scenario.idle (Scenario.env_after 2) Hpub) as H.
  destruct (startAPIGatewayTunnel Scenario.orders_api Scenario.prod 8080 Scenario.idle)
    as [m' cmd] eqn:E.
  destruct H as (_ & _ & Hc & _).
  split; [| exact Hc].
  cbv in E. injection E as <- _. reflexivity.
Defined.

Example private_target_enters_jump_host_selection :
  let (m', cmd) := startAPIGatewayTunnel Scenario.billing_api Scenario.prod 8080 Scenario.idle in
  View_ (state m') = ViewJumpHostSelect
  /\ PendingTunnelAPI (state m') = Scenario.billing_api
  /\ PendingTunnelStage (state m') = Some Scenario.prod
  /\ EC2InstancesLoading (state m') = true.
Proof. cbn. repeat split. Qed.

(** A command relays what the manager returns, whenever it returns: a
    manager that does not look at its context is waited for past the
    deadline, and its late success is delivered. *)
Example heedless_manager_is_waited_for (service : Service) (task : Task)
    (container : Container) (m : Model) :
  run_cmd (startTunnelWithPort service task container 5432 8080) (Scenario.heedless 45) m
  = Some (Delivered (tunnelStartedMsg (Some (mkTunnel "ecs-1" 8080)) None),
          Remote.mkWorld 45 [Remote.CallStartTunnel 30 service task container 5432 8080])
  /\ ~ Remote.Honours (Scenario.heedless 45).
Proof.
  split; [reflexivity |].
  intros (H & _).
  destruct (H 30 service task container 5432%Z 8080%Z 0) as (Hle & _).
  cbn in Hle. lia.
Qed.

(** The deadlines are not 60 for every jump-host operation and 30 for every
    establishment. The establishment step of
    startPrivateAPIGWTunnelWithJumpHost is issued under a deadline of 60: an
    establishment that takes 45 seconds completes and no timeout error is
    surfaced. loadEC2Instances loads the jump-host candidates under a
    deadline of 30: a listing that needs 45 seconds is cut off at 30. *)
Lemma deadlines_are_not_60_and_30 :
  (let (m', cmd) := startPrivateAPIGWTunnelWithJumpHost Scenario.detached Scenario.pending in
   run_cmd cmd (Scenario.env_after 45) m'
   = Some (Delivered (apiGWTunnelStartedMsg (Some Scenario.tunnel8080) None),
           Remote.mkWorld 45
             [Remote.CallStartPrivateTunnel 60 Scenario.billing_api Scenario.prod
                Scenario.detached None "" 8080])
   /\ ~ (forall r w, run_cmd cmd (Scenario.env_after 45) m' = Some (r, w) ->
           Forall (fun c => is_establishment c = true -> Remote.call_deadline c = 30)
             (Remote.calls w)
           /\ (30 <= Remote.clock w -> err_is_timeout r = true)))
  /\ (exists load,
        snd (loadEC2Instances Scenario.idle) = CmdBatch [CmdSpinnerTick; CmdFunc load]
        /\ load (Scenario.env_after 45) Scenario.idle Remote.start
           = (Delivered (ec2InstancesLoadedMsg [] (Some Remote.DeadlineExceeded)),
              Remote.mkWorld 30 [Remote.CallListSSMManagedInstances 30])
        /\ ~ (forall r w,
                load (Scenario.env_after 45) Scenario.idle Remote.start = (r, w) ->
                Forall (fun c => is_jump_host_call c = true -> Remote.call_deadline c = 60)
                  (Remote.calls w))).
Proof.
  split.
  - cbn. split; [reflexivity |].
    intros H. destruct (H _ _ eq_refl) as (_ & Ht).
    cbn in Ht. specialize (Ht ltac:(lia)). discriminate.
  - eexists. split; [reflexivity |]. split; [reflexivity |].
    intros H. specialize (H _ _ eq_refl). cbn in H.
    inversion H as [| c l Hc _]; subst. specialize (Hc eq_refl). discriminate.
Qed.

(** The two ways a command that reaches its deadline delivers no timeout in
    err. In findJumpHostForAPIGateway the endpoint lookup that times out
    leaves err nil, with the timeout in vpcEndpointErr. With no pending
    stage startPrivateAPIGWTunnelWithJumpHost panics on the nil stage after
    the lookup. *)
Example deadline_reached_without_err :
  run_cmd (findJumpHostForAPIGateway Scenario.billing_api Scenario.prod 8080)
    (Scenario.env_after 35) Scenario.pending
  = Some (Delivered (jumpHostFoundMsg
            (mkJumpHostFound (Some Scenario.bastion) None
               (Some Remote.DeadlineExceeded) Scenario.prod Scenario.billing_api 8080
               None)),
          Remote.mkWorld 60
            [Remote.CallFindJumpHost 60 "" "" ""
               ["vaws:jump-host=true"; "Name=bastion"; "Name=jump-host"]
               ["bastion"; "jump-host"; "jumphost"];
             Remote.CallFindAPIGatewayVpcEndpoint 60 "vpc-1"])
  /\ PendingTunnelStage (state Scenario.idle) = None
  /\ run_cmd (snd (startPrivateAPIGWTunnelWithJumpHost Scenario.bastion Scenario.idle))
       (Scenario.env_after 70) Scenario.idle
     = Some (Panicked,
             Remote.mkWorld 60 [Remote.CallFindAPIGatewayVpcEndpoint 60 "vpc-1"]).
Proof. split; [vm_compute; reflexivity |]. split; vm_compute; reflexivity. Qed.

Lemma within_honours {A} (timed_out : A -> bool) (d ctx : nat) (ok timeout : A) :
  timed_out timeout = true ->
  Remote.honours timed_out ctx (Scenario.within d ctx ok timeout).
Proof.
  intros Ht now. unfold Scenario.within.
  destruct (now + d <? ctx) eqn:E;
    [apply Nat.ltb_lt in E | apply Nat.ltb_ge in E];
    cbn [Remote.duration Remote.outcome]; split; try lia; auto.
Qed.

Lemma env_after_honours (d : nat) : Remote.Honours (Scenario.env_after d).
Proof.
  unfold Remote.Honours, Scenario.env_after.
  cbn [Remote.StartTunnel Remote.StartPublicTunnel Remote.StartPrivateTunnel
       Remote.FindJumpHost Remote.FindAPIGatewayVpcEndpoint
       Remote.ListSSMManagedInstances].
  repeat apply conj; intros; apply within_honours; reflexivity.
Qed.

Lemma honoured_call {A} (timed_out : A -> bool) (ctx now : nat) (reply : Remote.Reply A) :
  Remote.honours timed_out ctx reply ->
  now <= ctx ->
  now + Remote.duration (reply now) <= ctx
  /\ (now + Remote.duration (reply now) < ctx
      \/ timed_out (Remote.outcome (reply now)) = true).
Proof.
  intros H Hnow. destruct (H now) as (Hle & Ht).
  split; [lia |].
  destruct (Nat.lt_ge_cases (now + Remote.duration (reply now)) ctx); auto.
Qed.

Ltac relayed :=
  match goal with
  | Ht : Remote.err_timed_out ?o = true |- _ =>
      unfold Remote.err_timed_out in Ht; cbn [err_is_timeout endpoint_err_is_timeout];
      cbn [vpcEndpointErr err];
      destruct (snd o); [exact Ht | discriminate Ht]
  end.

Ltac honoured H ctx :=
  match goal with
  | |- context [Remote.outcome (?reply ?now)] =>
      let Hle := fresh "Hle" in
      let Ht := fresh "Ht" in
      destruct (honoured_call Remote.err_timed_out ctx now reply) as (Hle & Ht);
      [apply H | lia |];
      cbn [Nat.add] in Hle, Ht |- *;
      split; [exact Hle |];
      destruct Ht as [Ht | Ht]; [left; exact Ht | right; relayed]
  end.

Lemma startTunnelWithPort_deadline service task container remotePort localPort env m :
  exists r w,
    run_cmd (startTunnelWithPort service task container remotePort localPort) env m
    = Some (r, w)
    /\ Remote.calls w
       = [Remote.CallStartTunnel 30 service task container remotePort localPort]
    /\ (Remote.Honours env ->
        Remote.clock w <= 30 /\ (Remote.clock w < 30 \/ err_is_timeout r = true)).
Proof.
  unfold startTunnelWithPort. run_remote.
  eexists; eexists; (split; [reflexivity |]); cbn [Remote.calls Remote.clock].
  split; [reflexivity |]. intros (H & _). honoured H 30.
Qed.

Lemma startPublicAPIGWTunnel_deadline api stage localPort env m :
  exists r w,
    run_cmd (startPublicAPIGWTunnel api stage localPort) env m = Some (r, w)
    /\ Remote.calls w = [Remote.CallStartPublicTunnel 30 api stage localPort]
    /\ (Remote.Honours env ->
        Remote.clock w <= 30 /\ (Remote.clock w < 30 \/ err_is_timeout r = true)).
Proof.
  unfold startPublicAPIGWTunnel. run_remote.
  eexists; eexists; (split; [reflexivity |]); cbn [Remote.calls Remote.clock].
  split; [reflexivity |]. intros (_ & H & _). honoured H 30.
Qed.

Lemma startPrivateAPIGWTunnel_deadline api stage host endpoint localPort m0 env m :
  exists r w,
    run_cmd (startPrivateAPIGWTunnel api stage host endpoint localPort m0) env m
    = Some (r, w)
    /\ Remote.calls w
       = [Remote.CallStartPrivateTunnel 30 api stage host endpoint
            (match cfg m0 with
             | Some c => GetVPCEndpointID c (Profile (state m0))
             | None => ""
             end) localPort]
    /\ (Remote.Honours env ->
        Remote.clock w <= 30 /\ (Remote.clock w < 30 \/ err_is_timeout r = true)).
Proof.
  unfold startPrivateAPIGWTunnel. run_remote.
  eexists; eexists; (split; [reflexivity |]); cbn [Remote.calls Remote.clock].
  split; [reflexivity |]. intros (_ & _ & H & _). honoured H 30.
Qed.

Lemma loadEC2Instances_deadline m0 env m :
  exists load r w,
    snd (loadEC2Instances m0) = CmdBatch [CmdSpinnerTick; CmdFunc load]
    /\ load env m Remote.start = (r, w)
    /\ Remote.calls w = [Remote.CallListSSMManagedInstances 30]
    /\ (Remote.Honours env ->
        Remote.clock w <= 30 /\ (Remote.clock w < 30 \/ err_is_timeout r = true)).
Proof.
  unfold loadEC2Instances. cbn [snd]. eexists. run_remote.
  eexists; eexists; (split; [reflexivity |]); (split; [reflexivity |]);
    cbn [Remote.calls Remote.clock].
  split; [reflexivity |]. intros (_ & _ & _ & _ & _ & H). honoured H 30.
Qed.

Lemma findJumpHostForAPIGateway_deadline api stage localPort env m :
  exists r w,
    run_cmd (findJumpHostForAPIGateway api stage localPort) env m = Some (r, w)
    /\ Forall (fun c => is_jump_host_call c = true /\ Remote.call_deadline c = 60)
         (Remote.calls w)
    /\ (Remote.Honours env ->
        Remote.clock w <= 60
        /\ (Remote.clock w < 60 \/ err_is_timeout r = true
            \/ (endpoint_err_is_timeout r = true /\ err_is_timeout r = false))).
Proof.
  unfold findJumpHostForAPIGateway. run_remote.
  match goal with |- context [Remote.FindJumpHost env ?d ?a ?b ?c ?e ?f ?n] =>
    assert (H1 : Remote.Honours env ->
                 Remote.duration (Remote.FindJumpHost env d a b c e f n) <= 60
                 /\ (Remote.duration (Remote.FindJumpHost env d a b c e f n) < 60
                     \/ Remote.find_timed_out
                          (Remote.outcome (Remote.FindJumpHost env d a b c e f n)) = true))
      by (intros (_ & _ & _ & H & _);
          apply (honoured_call _ 60 0 _ (H d a b c e f) (Nat.le_0_l _)));
    set (ans := Remote.FindJumpHost env d a b c e f n) in *
  end.
  destruct (Remote.outcome ans) as [e | host] eqn:Eo.
  - eexists; eexists; (split; [reflexivity |]); cbn [Remote.calls Remote.clock].
    split; [repeat constructor |]. intros H. destruct (H1 H) as (Hle & Ht).
    cbn in *. split; [lia |]. destruct Ht; auto.
  - destruct (String.eqb (VpcID host) "").
    + eexists; eexists; (split; [reflexivity |]); cbn [Remote.calls Remote.clock].
      split; [repeat constructor |]. intros H. destruct (H1 H) as (Hle & Ht).
      cbn in *. split; [lia |]. destruct Ht; [auto | discriminate].
    + cbn [Remote.clock Remote.calls].
      eexists; eexists; (split; [reflexivity |]); cbn [Remote.calls Remote.clock].
      split; [repeat constructor |]. intros H. destruct (H1 H) as (Hle1 & _).
      destruct H as (_ & _ & _ & _ & H & _).
      match goal with
      | |- context [Remote.outcome (?reply ?now)] =>
          destruct (honoured_call Remote.err_timed_out 60 now reply) as (Hle & Ht);
          [apply H | exact Hle1 |]
      end.
      split; [exact Hle |].
      destruct Ht as [Ht | Ht]; [left; exact Ht | right; right].
      split; [relayed | reflexivity].
Qed.

Lemma startPrivateAPIGWTunnelWithJumpHost_deadline host m0 env m :
  exists r w,
    run_cmd (snd (startPrivateAPIGWTunnelWithJumpHost host m0)) env m = Some (r, w)
    /\ Forall (fun c => Remote.call_deadline c = 60) (Remote.calls w)
    /\ (PendingTunnelStage (state m0) = None
        -> r = Panicked
           /\ forallb (fun c => negb (is_establishment c)) (Remote.calls w) = true)
    /\ (PendingTunnelStage (state m0) <> None
        -> existsb is_establishment (Remote.calls w) = true)
    /\ (Remote.Honours env ->
        Remote.clock w <= 60
        /\ (PendingTunnelStage (state m0) <> None ->
            Remote.clock w < 60 \/ err_is_timeout r = true)).
Proof.
  unfold startPrivateAPIGWTunnelWithJumpHost. cbn [snd]. run_remote.
  cbn [cfg state set_state log ClearEC2Instances ClearPendingTunnel Profile].
  destruct (PendingTunnelStage (state m0)) as [stage |];
    destruct (String.eqb (VpcID host) "");
    cbn [Remote.clock Remote.calls Nat.add app fst snd].
  - eexists; eexists; (split; [reflexivity |]); cbn [Remote.calls Remote.clock].
    split; [repeat constructor |]. split; [discriminate |]. split; [reflexivity |].
    intros (_ & _ & H & _).
    assert (X : forall P Q : Prop, P /\ Q -> P /\ (Some stage <> None -> Q)) by tauto.
    apply X. honoured H 60.
  - eexists; eexists; (split; [reflexivity |]); cbn [Remote.calls Remote.clock].
    split; [repeat constructor |]. split; [discriminate |]. split; [reflexivity |].
    intros (_ & _ & H & _ & H' & _).
    destruct (honoured_call _ 60 0 _ (H' 60 (VpcID host)) (Nat.le_0_l _)) as (Hle1 & _).
    cbn [Nat.add] in Hle1.
    assert (X : forall P Q : Prop, P /\ Q -> P /\ (Some stage <> None -> Q)) by tauto.
    apply X.
    match goal with
    | |- context [Remote.outcome (?reply ?now)] =>
        destruct (honoured_call Remote.err_timed_out 60 now reply) as (Hle & Ht);
        [apply H | exact Hle1 |]
    end.
    split; [exact Hle |].
    destruct Ht as [Ht | Ht]; [left; exact Ht | right; relayed].
  - eexists; eexists; (split; [reflexivity |]); cbn [Remote.calls Remote.clock].
    split; [constructor |]. split; [intros _; split; reflexivity |].
    split; [intros N; now elim N |].
    intros _. split; [lia |]. intros N; now elim N.
  - eexists; eexists; (split; [reflexivity |]); cbn [Remote.calls Remote.clock].
    split; [repeat constructor |]. split; [intros _; split; reflexivity |].
    split; [intros N; now elim N |].
    intros (_ & _ & _ & _ & H' & _).
    destruct (honoured_call _ 60 0 _ (H' 60 (VpcID host)) (Nat.le_0_l _)) as (Hle1 & _).
    split; [exact Hle1 |]. intros N; now elim N.
Qed.

(** C7, as the code has it. findJumpHostForAPIGateway issues its calls, all
    of the jump-host path, under one deadline of 60, but loadEC2Instances
    loads the jump-host candidates under a deadline of 30;
    startTunnelWithPort, startPublicAPIGWTunnel and startPrivateAPIGWTunnel
    establish under a deadline of 30, but
    startPrivateAPIGWTunnelWithJumpHost issues its endpoint lookup and its
    establishment under one shared deadline of 60. With no pending stage
    that command panics on the nil stage before it establishes anything.
    Each command relays what the managers and the client return; when these
    honour their context, no command runs past its deadline, and one that
    reaches it delivers a timeout error in err; in
    findJumpHostForAPIGateway a timeout of the endpoint lookup is delivered
    in vpcEndpointErr and not in err. *)
Theorem command_deadlines (env : Remote.Env) (m0 m : Model)
    (service : Service) (task : Task) (container : Container) (remotePort localPort : Z)
    (api : Api) (stage : APIStage) (host : EC2Instance) (endpoint : option VpcEndpoint) :
  (exists r w,
     run_cmd (findJumpHostForAPIGateway api stage localPort) env m = Some (r, w)
     /\ Forall (fun c => is_jump_host_call c = true /\ Remote.call_deadline c = 60)
          (Remote.calls w)
     /\ (Remote.Honours env ->
         Remote.clock w <= 60
         /\ (Remote.clock w < 60 \/ err_is_timeout r = true
             \/ (endpoint_err_is_timeout r = true /\ err_is_timeout r = false))))
  /\ (exists load r w,
        snd (loadEC2Instances m0) = CmdBatch [CmdSpinnerTick; CmdFunc load]
        /\ load env m Remote.start = (r, w)
        /\ Remote.calls w = [Remote.CallListSSMManagedInstances 30]
        /\ (Remote.Honours env ->
            Remote.clock w <= 30 /\ (Remote.clock w < 30 \/ err_is_timeout r = true)))
  /\ (exists r w,
        run_cmd (startTunnelWithPort service task container remotePort localPort) env m
        = Some (r, w)
        /\ Remote.calls w
           = [Remote.CallStartTunnel 30 service task container remotePort localPort]
        /\ (Remote.Honours env ->
            Remote.clock w <= 30 /\ (Remote.clock w < 30 \/ err_is_timeout r = true)))
  /\ (exists r w,
        run_cmd (startPublicAPIGWTunnel api stage localPort) env m = Some (r, w)
        /\ Remote.calls w = [Remote.CallStartPublicTunnel 30 api stage localPort]
        /\ (Remote.Honours env ->
            Remote.clock w <= 30 /\ (Remote.clock w < 30 \/ err_is_timeout r = true)))
  /\ (exists r w,
        run_cmd (startPrivateAPIGWTunnel api stage host endpoint localPort m0) env m
        = Some (r, w)
        /\ Remote.calls w
           = [Remote.CallStartPrivateTunnel 30 api stage host endpoint
                (match cfg m0 with
                 | Some c => GetVPCEndpointID c (Profile (state m0))
                 | None => ""
                 end) localPort]
        /\ (Remote.Honours env ->
            Remote.clock w <= 30 /\ (Remote.clock w < 30 \/ err_is_timeout r = true)))
  /\ (exists r w,
        run_cmd (snd (startPrivateAPIGWTunnelWithJumpHost host m0)) env m = Some (r, w)
        /\ Forall (fun c => Remote.call_deadline c = 60) (Remote.calls w)
        /\ (PendingTunnelStage (state m0) = None
            -> r = Panicked
               /\ forallb (fun c => negb (is_establishment c)) (Remote.calls w) = true)
        /\ (PendingTunnelStage (state m0) <> None
            -> existsb is_establishment (Remote.calls w) = true)
        /\ (Remote.Honours env ->
            Remote.clock w <= 60
            /\ (PendingTunnelStage (state m0) <> None ->
                Remote.clock w < 60 \/ err_is_timeout r = true))).
Proof.
  split; [apply findJumpHostForAPIGateway_deadline |].
  split; [apply loadEC2Instances_deadline |].
  split; [apply startTunnelWithPort_deadline |].
  split; [apply startPublicAPIGWTunnel_deadline |].
  split; [apply startPrivateAPIGWTunnel_deadline |].
  apply startPrivateAPIGWTunnelWithJumpHost_deadline.
Qed.

Lemma command_deadlines_witness :
  Remote.Honours (Scenario.env_after 70)
  /\ PendingTunnelStage (state Scenario.pending) <> None
  /\ exists w,
       run_cmd (snd (startPrivateAPIGWTunnelWithJumpHost Scenario.bastion Scenario.pending))
         (Scenario.env_after 70) Scenario.idle
       = Some (Delivered (apiGWTunnelStartedMsg None (Some Remote.DeadlineExceeded)), w)
       /\ Remote.clock w <= 60
       /\ existsb is_establishment (Remote.calls w) = true.
Proof.
  assert (Hs : PendingTunnelStage (state Scenario.pending) <> None) by discriminate.
  split; [apply env_after_honours |]. split; [exact Hs |].
  destruct (command_deadlines (Scenario.env_after 70) Scenario.pending Scenario.idle
              (mkService "api") (mkTask "t-1") (mkContainer "app") 5432%Z 8080%Z
              Scenario.billing_api Scenario.prod Scenario.bastion None)
    as (_ & _ & _ & _ & _ & r & w & Hrun & _ & _ & He & Ht).
  exists w. split; [| split; [exact (proj1 (Ht (env_after_honours 70))) | exact (He Hs)]].
  rewrite Hrun. cbv in Hrun. injection Hrun as <- _. reflexivity.
Defined.

(** C8. Once FindJumpHost has resolved a jump host, findJumpHostForAPIGateway
    delivers a jumpHostFoundMsg with that jump host and a nil err, whatever
    the VPC endpoint lookup does: when the jump host has no VPC ID no lookup
    is made and both endpoint fields are nil; otherwise the message carries
    what the lookup returned, error or not, in vpcEndpoint and
    vpcEndpointErr. The later establishment step
    (startPrivateAPIGWTunnelWithJumpHost) looks the endpoint up again, drops
    the error of the lookup and issues StartPrivateTunnel as its last call,
    with the endpoint the lookup returned, nil when no lookup was made. *)
Theorem endpoint_lookup_failure_keeps_resolution (env : Remote.Env) (m m0 : Model)
    (api : Api) (stage pendingStage : APIStage) (localPort : Z) (host : EC2Instance) :
  Remote.outcome
    (Remote.FindJumpHost env 60 "" (jumpHostConfig m) (jumpHostTagConfig m)
       (defaultTags m) (defaultNames m) 0) = inr host ->
  PendingTunnelStage (state m0) = Some pendingStage ->
  (exists found w,
     run_cmd (findJumpHostForAPIGateway api stage localPort) env m
     = Some (Delivered (jumpHostFoundMsg found), w)
     /\ Ui.jumpHost found = Some host
     /\ Ui.err found = None
     /\ Ui.stage found = stage /\ Ui.api found = api /\ Ui.localPort found = localPort
     /\ ((VpcID host = "" /\ vpcEndpoint found = None /\ vpcEndpointErr found = None
          /\ Remote.calls w
             = [Remote.CallFindJumpHost 60 "" (jumpHostConfig m) (jumpHostTagConfig m)
                  (defaultTags m) (defaultNames m)])
         \/ (VpcID host <> ""
             /\ Remote.calls w
                = [Remote.CallFindJumpHost 60 "" (jumpHostConfig m) (jumpHostTagConfig m)
                     (defaultTags m) (defaultNames m);
                   Remote.CallFindAPIGatewayVpcEndpoint 60 (VpcID host)]
             /\ (vpcEndpoint found, vpcEndpointErr found)
                = Remote.outcome
                    (Remote.FindAPIGatewayVpcEndpoint env 60 (VpcID host)
                       (Remote.duration
                          (Remote.FindJumpHost env 60 "" (jumpHostConfig m)
                             (jumpHostTagConfig m) (defaultTags m) (defaultNames m) 0))))))
  /\ (exists r w,
        run_cmd (snd (startPrivateAPIGWTunnelWithJumpHost host m0)) env m = Some (r, w)
        /\ last (Remote.calls w) (Remote.CallListSSMManagedInstances 0)
           = Remote.CallStartPrivateTunnel 60 (PendingTunnelAPI (state m0)) pendingStage
               host
               (if String.eqb (VpcID host) "" then None
                else fst (Remote.outcome
                            (Remote.FindAPIGatewayVpcEndpoint env 60 (VpcID host) 0)))
               (match cfg m0 with
                | Some c => GetVPCEndpointID c (Profile (state m0))
                | None => ""
                end)
               (PendingTunnelLocalPort (state m0))).
Proof.
  intros Hfind Hstage. split.
  - unfold findJumpHostForAPIGateway. run_remote. rewrite Hfind.
    destruct (String.eqb_spec (VpcID host) "") as [E | N].
    + eexists; eexists; split; [reflexivity |]. cbn. repeat split. now left.
    + cbn [Remote.clock Remote.calls].
      eexists; eexists; split; [reflexivity |]. cbn. repeat split.
      right. split; [exact N |]. split; [reflexivity |].
      now destruct (Remote.outcome (Remote.FindAPIGatewayVpcEndpoint env 60 (VpcID host) _)).
  - unfold startPrivateAPIGWTunnelWithJumpHost. cbn [snd]. run_remote.
    cbn [cfg state set_state log ClearEC2Instances ClearPendingTunnel Profile].
    rewrite Hstage.
    destruct (String.eqb (VpcID host) "");
      cbn [Remote.clock Remote.calls Nat.add app fst snd];
      eexists; eexists; (split; [reflexivity |]); reflexivity.
Qed.

Lemma endpoint_lookup_failure_keeps_resolution_witness :
  exists found w,
    run_cmd (findJumpHostForAPIGateway Scenario.billing_api Scenario.prod 8080)
      (Scenario.env_after 2) Scenario.pending
    = Some (Delivered (jumpHostFoundMsg found), w)
    /\ Ui.jumpHost found = Some Scenario.bastion
    /\ Ui.err found = None
    /\ vpcEndpointErr found = Some (Remote.ServiceError "no execute-api endpoint").
Proof.
  destruct (endpoint_lookup_failure_keeps_resolution (Scenario.env_after 2)
              Scenario.pending Scenario.pending Scenario.billing_api Scenario.prod
              Scenario.prod 8080%Z Scenario.bastion)
    as ((found & w & Hrun & Hj & He & _) & _).
  - reflexivity.
  - reflexivity.
  - exists found, w. repeat split; try assumption.
    cbv in Hrun. injection Hrun as <- _. reflexivity.
Defined.

End Tunnels.

(** ** Paged listings *)

Section PagedListings.
Import Log ModelPkg Aws.

Lemma stopped_is_last {Item} (ext : list (Step Item)) y pre x post :
  forallb (fun st => negb (stopped st)) ext = true ->
  (ext ++ [y] = pre ++ x :: post)%list -> stopped x = true ->
  post = [] /\ pre = ext /\ x = y.
Proof.
  revert pre. induction ext as [| z ext IH]; intros pre Hall Heq Hx.
  - destruct pre as [| w pre]; cbn in Heq.
    + injection Heq as <- <-. auto.
    + injection Heq as _ Heq. now destruct pre.
  - cbn in Hall. apply andb_true_iff in Hall as (Hz & Hall).
    destruct pre as [| w pre]; cbn in Heq.
    + injection Heq as <- _. rewrite Hx in Hz. discriminate.
    + injection Heq as <- Heq. destruct (IH pre Hall Heq Hx) as (-> & -> & ->). auto.
Qed.

Lemma not_stopped_anywhere {Item} (ext pre : list (Step Item)) x post :
  forallb (fun st => negb (stopped st)) ext = true ->
  (ext = pre ++ x :: post)%list -> stopped x = true -> False.
Proof.
  intros Hall -> Hx. rewrite forallb_app in Hall.
  apply andb_true_iff in Hall as (_ & Hall). cbn in Hall. rewrite Hx in Hall.
  discriminate.
Qed.

Ltac forallb_snoc :=
  rewrite forallb_app; apply andb_true_iff; split; [assumption | reflexivity].

Lemma ListQueuesPagedCallback_loop_stops {P C} tc sqs sched
    (pg : Paginator P (list string)) (callback : Callback C Queue) pages :
  forall r, forallb (fun st => negb (stopped st)) (steps r) = true ->
            stops_at_false (ListQueuesPagedCallback_loop tc sqs sched pg callback pages r).
Proof.
  induction pages as [| pages IH]; intros r Hr; cbn [ListQueuesPagedCallback_loop].
  - now left.
  - destruct (HasMorePages pg (pager r)); [| now left].
    destruct (NextPage pg (pager r)) as [[e | urls] p'].
    + left. cbn [steps]. forallb_snoc.
    + destruct (Nat.eqb (List.length urls) 0).
      * apply IH. cbn [steps]. forallb_snoc.
      * destruct (fetchQueueAttributesBatch tc sqs sched urls) as [qs lg].
        destruct (callback qs (HasMorePages pg p') (consumer r)) as [[|] c'].
        -- apply IH. cbn [steps]. forallb_snoc.
        -- right. cbn [steps returned].
           exists (steps r ++ [Fetched true])%list, qs, (HasMorePages pg p').
           split; [now rewrite <- app_assoc |]. split; [forallb_snoc | reflexivity].
Qed.

Lemma ListFunctionsPagedCallback_loop_stops {P C}
    (pg : Paginator P (list FunctionConfiguration)) (callback : Callback C Function) pages :
  forall r, forallb (fun st => negb (stopped st)) (steps r) = true ->
            stops_at_false (ListFunctionsPagedCallback_loop pg callback pages r).
Proof.
  induction pages as [| pages IH]; intros r Hr; cbn [ListFunctionsPagedCallback_loop].
  - now left.
  - destruct (HasMorePages pg (pager r)); [| now left].
    destruct (NextPage pg (pager r)) as [[e | fns] p'].
    + left. cbn [steps]. forallb_snoc.
    + destruct (callback (map convertFunction fns) (HasMorePages pg p') (consumer r))
        as [[|] c'].
      * apply IH. cbn [steps]. forallb_snoc.
      * right. cbn [steps returned].
        exists (steps r ++ [Fetched true])%list, (map convertFunction fns),
          (HasMorePages pg p').
        split; [now rewrite <- app_assoc |]. split; [forallb_snoc | reflexivity].
Qed.

Lemma stops_at_false_last {P C Item} (r : PagedRun P C Item) pre items more post :
  stops_at_false r ->
  (steps r = pre ++ Invoked items more false :: post)%list ->
  post = [] /\ returned r = Some None.
Proof.
  intros [Hall | (ext & items' & more' & Hsteps & Hall & Hret)] Heq.
  - exfalso. exact (not_stopped_anywhere _ _ _ _ Hall Heq eq_refl).
  - rewrite Hsteps in Heq.
    destruct (stopped_is_last _ _ _ _ _ Hall Heq eq_refl) as (-> & _). auto.
Qed.

(** C4. In ListQueuesPagedCallback and in ListFunctionsPagedCallback, for
    every paginator and every callback: a call of the callback that returns
    false is the last thing the listing does (no page is fetched and the
    callback is not invoked after it), and the listing has then returned
    with a nil error. *)
Theorem callback_false_stops_pagination {P P' C C'}
    (tc : Toolchain) (sqs : Sqs) (sched : Scheduler)
    (queuePages : Paginator P (list string)) (onQueues : Callback C Queue)
    (functionPages : Paginator P' (list FunctionConfiguration))
    (onFunctions : Callback C' Function) (pages : nat) (p : P) (c : C)
    (p' : P') (c' : C') :
  (forall pre items more post,
     (steps (ListQueuesPagedCallback tc sqs sched queuePages onQueues pages p c)
      = pre ++ Invoked items more false :: post)%list ->
     post = []
     /\ returned (ListQueuesPagedCallback tc sqs sched queuePages onQueues pages p c)
        = Some None)
  /\ (forall pre items more post,
        (steps (ListFunctionsPagedCallback functionPages onFunctions pages p' c')
         = pre ++ Invoked items more false :: post)%list ->
        post = []
        /\ returned (ListFunctionsPagedCallback functionPages onFunctions pages p' c')
           = Some None).
Proof.
  split; intros pre items more post Heq.
  - eapply stops_at_false_last; [| exact Heq].
    apply ListQueuesPagedCallback_loop_stops. reflexivity.
  - eapply stops_at_false_last; [| exact Heq].
    apply ListFunctionsPagedCallback_loop_stops. reflexivity.
Qed.

Lemma callback_false_stops_pagination_witness :
  let r := ListQueuesPagedCallback Scenario.go121 Scenario.sqs_ok Scenario.first_come
             Scenario.pages_of (Scenario.stop_at 1) 10 Scenario.three_pages 0%nat in
  List.length (steps r) = 2%nat
  /\ returned r = Some None
  /\ pager r = tl Scenario.three_pages.
Proof.
  cbv zeta.
  destruct (callback_false_stops_pagination Scenario.go121 Scenario.sqs_ok
              Scenario.first_come Scenario.pages_of (Scenario.stop_at 1)
              Scenario.pages_of (Scenario.stop_at 1) 10 Scenario.three_pages 0%nat
              [] 0%nat)
    as (H & _).
  match goal with |- context [steps ?r] =>
    assert (E : exists items, steps r = ([Fetched true] ++ Invoked items true false :: [])%list)
      by (eexists; vm_compute; reflexivity)
  end.
  destruct E as (batch & E).
  destruct (H _ _ _ _ E) as (_ & Hret).
  split; [now rewrite E |]. split; [exact Hret | reflexivity].
Defined.

End PagedListings.

(** ** The lazy loaders *)

Section Loaders.
Import Log ModelPkg Aws Ui.

Lemma first_then_append_snoc n :
  n <> 0%nat -> (first_then_append n ++ [true])%list = first_then_append (S n).
Proof.
  destruct n as [| k]; [congruence |]. intros _. cbn.
  f_equal. induction k as [| k IH]; cbn; [reflexivity | now rewrite IH].
Qed.

Lemma onBatch_channel_ok {Item} (batch : list Item) more captured :
  channel_ok captured ->
  fst (onBatch batch more captured) = true
  /\ channel_ok (snd (onBatch batch more captured)).
Proof.
  destruct captured as [isFirst sent]. unfold channel_ok. cbn [fst snd onBatch].
  intros (Hf & Hb & Hm). rewrite length_app, forallb_app, map_app, Hb, Hm.
  cbn [List.length map forallb is_batch loadErr isAppend andb].
  rewrite Nat.add_1_r. repeat split.
  destruct sent as [| m sent].
  - cbn in *. now rewrite Hf.
  - cbn [List.length] in *. cbn in Hf. rewrite Hf. cbn [negb].
    now rewrite first_then_append_snoc.
Qed.

Lemma queues_loop_channel_ok {P} tc sqs sched (pg : Paginator P (list string)) pages :
  forall r, channel_ok (consumer r) ->
            channel_ok (consumer (ListQueuesPagedCallback_loop tc sqs sched pg onBatch pages r)).
Proof.
  induction pages as [| pages IH]; intros r Hr; cbn [ListQueuesPagedCallback_loop].
  - exact Hr.
  - destruct (HasMorePages pg (pager r)); [| exact Hr].
    destruct (NextPage pg (pager r)) as [[e | urls] p']; [exact Hr |].
    destruct (Nat.eqb (List.length urls) 0); [now apply IH |].
    destruct (fetchQueueAttributesBatch tc sqs sched urls) as [qs lg].
    destruct (onBatch_channel_ok qs (HasMorePages pg p') (consumer r) Hr) as (Ht & Hc).
    destruct (onBatch qs (HasMorePages pg p') (consumer r)) as [continue c'].
    cbn [fst snd] in Ht, Hc. subst continue. now apply IH.
Qed.

Lemma functions_loop_channel_ok {P} (pg : Paginator P (list FunctionConfiguration)) pages :
  forall r, channel_ok (consumer r) ->
            channel_ok (consumer (ListFunctionsPagedCallback_loop pg onBatch pages r)).
Proof.
  induction pages as [| pages IH]; intros r Hr; cbn [ListFunctionsPagedCallback_loop].
  - exact Hr.
  - destruct (HasMorePages pg (pager r)); [| exact Hr].
    destruct (NextPage pg (pager r)) as [[e | fns] p']; [exact Hr |].
    destruct (onBatch_channel_ok (map convertFunction fns) (HasMorePages pg p')
                (consumer r) Hr) as (Ht & Hc).
    destruct (onBatch (map convertFunction fns) (HasMorePages pg p') (consumer r))
      as [continue c'].
    cbn [fst snd] in Ht, Hc. subst continue. now apply IH.
Qed.

Lemma tables_loop_channel_ok {P} (pg : Paginator P (list string)) describe pages :
  forall r, channel_ok (consumer r) ->
            channel_ok (consumer (ListTablesPagedCallback_loop pg describe onBatch pages r)).
Proof.
  induction pages as [| pages IH]; intros r Hr; cbn [ListTablesPagedCallback_loop].
  - exact Hr.
  - destruct (HasMorePages pg (pager r)); [| exact Hr].
    destruct (NextPage pg (pager r)) as [[e | names] p']; [exact Hr |].
    destruct (onBatch_channel_ok (describe names) (HasMorePages pg p')
                (consumer r) Hr) as (Ht & Hc).
    destruct (onBatch (describe names) (HasMorePages pg p') (consumer r))
      as [continue c'].
    cbn [fst snd] in Ht, Hc. subst continue. now apply IH.
Qed.

Lemma firstn_first_then_append n m :
  firstn n (first_then_append m) = first_then_append (Nat.min n m).
Proof.
  destruct m as [| m]; [now destruct n |]. destruct n as [| n]; [reflexivity |].
  cbn. f_equal. revert m. induction n as [| n IH]; intros [| m]; cbn; try reflexivity.
  now rewrite IH.
Qed.

Lemma forallb_firstn {X} (f : X -> bool) n : forall l,
  forallb f l = true -> forallb f (firstn n l) = true.
Proof.
  induction n as [| n IH]; intros [| x l]; cbn; try reflexivity.
  intros H. apply andb_true_iff in H as (Hx & Hl). now rewrite Hx, IH.
Qed.

Lemma filter_none {X} (f : X -> bool) (l : list X) :
  forallb (fun x => negb (f x)) l = true -> filter f l = [].
Proof.
  induction l as [| x l IH]; cbn; [reflexivity |].
  intros H. apply andb_true_iff in H as (Hx & Hl).
  destruct (f x); [discriminate | auto].
Qed.

(** Of any prefix of what was sent, the batch messages are flagged false,
    true, true, ...: an error message can only come last. *)
Lemma delivered_flags {Item} (sent : list (loadedMsg Item)) (tail : list (loadedMsg Item)) n :
  forallb is_batch sent = true ->
  map isAppend sent = first_then_append (List.length sent) ->
  forallb (fun msg => negb (is_batch msg)) tail = true ->
  map isAppend (filter is_batch (firstn n (sent ++ tail)))
  = first_then_append (List.length (filter is_batch (firstn n (sent ++ tail)))).
Proof.
  intros Hb Hm Ht.
  assert (F : filter is_batch (firstn n (sent ++ tail)) = firstn n sent).
  { rewrite firstn_app, filter_app.
    rewrite (forallb_filter_id _ _ (forallb_firstn _ n _ Hb)).
    rewrite (filter_none _ _ (forallb_firstn _ (n - List.length sent) _ Ht)).
    apply app_nil_r. }
  rewrite F, <- firstn_map, Hm, firstn_first_then_append, length_firstn. reflexivity.
Qed.

Lemma after_listing_flags {P Item}
    (r : PagedRun P (bool * list (loadedMsg Item)) Item) n :
  channel_ok (consumer r) ->
  map isAppend (filter is_batch (firstn n (after_listing r)))
  = first_then_append (List.length (filter is_batch (firstn n (after_listing r)))).
Proof.
  intros (_ & Hb & Hm). unfold after_listing.
  destruct (returned r) as [[e |] |].
  - now apply delivered_flags.
  - rewrite <- (app_nil_r (snd (consumer r))). now apply delivered_flags.
  - rewrite <- (app_nil_r (snd (consumer r))). now apply delivered_flags.
Qed.

Lemma single_message_flags {Item} (msg : loadedMsg Item) n :
  isAppend msg = false ->
  map isAppend (filter is_batch (firstn n [msg]))
  = first_then_append (List.length (filter is_batch (firstn n [msg]))).
Proof.
  intros H. destruct n as [| n]; [reflexivity |]. cbn [firstn].
  replace (firstn n (@nil (loadedMsg Item))) with (@nil (loadedMsg Item)) by now destruct n.
  cbn. destruct (is_batch msg); cbn; [now rewrite H | reflexivity].
Qed.

(** C5. In loadQueues, loadFunctions and loadTables, of the messages
    delivered (any prefix of what the goroutine sends on the result channel),
    the batch messages, those without an error, carry isAppend=false for the
    first and isAppend=true for every later one. This holds for every
    paginator, service and interleaving, however many pages are listed, and
    on the path without pagination, which sends one message. *)
Theorem first_delivery_replaces_later_append {P P' P''}
    (tc : Toolchain) (sqs : Sqs) (sched : Scheduler)
    (queuePages : Paginator P (list string)) (p : P)
    (scopedQueues : option (Remote.error + list Queue))
    (functionPages : Paginator P' (list FunctionConfiguration)) (p' : P')
    (scopedFunctions : option (Remote.error + list Function))
    (tablePages : Paginator P'' (list string)) (p'' : P'')
    (describe : list string -> list Table) (pages delivered : nat) :
  let flags {Item} (sent : list (loadedMsg Item)) :=
    map isAppend (filter is_batch (firstn delivered sent)) in
  let batches {Item} (sent : list (loadedMsg Item)) :=
    List.length (filter is_batch (firstn delivered sent)) in
  flags (loadQueues tc sqs sched queuePages pages p scopedQueues)
  = first_then_append (batches (loadQueues tc sqs sched queuePages pages p scopedQueues))
  /\ flags (loadFunctions functionPages pages p' scopedFunctions)
     = first_then_append (batches (loadFunctions functionPages pages p' scopedFunctions))
  /\ flags (loadTables tablePages describe pages p'')
     = first_then_append (batches (loadTables tablePages describe pages p'')).
Proof.
  cbv zeta.
  assert (I0 : forall Item, channel_ok (true, @nil (loadedMsg Item))) by (repeat split).
  repeat split.
  - unfold loadQueues. destruct scopedQueues as [[e | qs] |].
    + now apply single_message_flags.
    + now apply single_message_flags.
    + apply after_listing_flags. apply queues_loop_channel_ok. apply I0.
  - unfold loadFunctions. destruct scopedFunctions as [[e | fs] |].
    + now apply single_message_flags.
    + now apply single_message_flags.
    + apply after_listing_flags. apply functions_loop_channel_ok. apply I0.
  - unfold loadTables. apply after_listing_flags. apply tables_loop_channel_ok. apply I0.
Qed.

Example loadQueues_flags :
  map (fun msg => (List.length (items msg), hasMore msg, isAppend msg))
    (loadQueues Scenario.go121 (Scenario.sqs_without [Scenario.queue_url "audit"])
       Scenario.last_come Scenario.pages_of 10 Scenario.three_pages None)
  = [(2%nat, true, false); (0%nat, true, true); (2%nat, false, true)].
Proof. vm_compute. reflexivity. Qed.

End Loaders.

(** ** Slices *)

Section SliceFacts.
Context {A : Type}.
Local Open Scope nat_scope.

Lemma length_set_nth (s : list A) i x : List.length (GoSlice.set_nth s i x) = List.length s.
Proof.
  revert i. induction s as [| y s IH]; intros [| i]; cbn; auto.
Qed.

Lemma nth_error_set_nth_eq (s : list A) i x :
  i < List.length s -> nth_error (GoSlice.set_nth s i x) i = Some x.
Proof.
  revert i. induction s as [| y s IH]; intros [| i]; cbn; intros H; try lia; auto.
  apply IH. lia.
Qed.

Lemma nth_error_set_nth_ne (s : list A) i j x :
  i <> j -> nth_error (GoSlice.set_nth s i x) j = nth_error s j.
Proof.
  revert i j. induction s as [| y s IH]; intros [| i] [| j] H; cbn; auto; try congruence.
Qed.

Lemma nth_error_set_nth (s : list A) i j x :
  nth_error (GoSlice.set_nth s i x) j
  = if (i =? j) && (i <? List.length s) then Some x else nth_error s j.
Proof.
  destruct (Nat.eqb_spec i j) as [<- | N]; cbn [andb].
  - destruct (Nat.ltb_spec i (List.length s)) as [L | G].
    + now apply nth_error_set_nth_eq.
    + assert (E : GoSlice.set_nth s i x = s).
      { clear - G. revert i G. induction s as [| y s IH]; intros [| i] G; cbn in *;
          try reflexivity; try lia. f_equal. apply IH. lia. }
      now rewrite E.
  - now apply nth_error_set_nth_ne.
Qed.

(** Replacing one element moves a count or a sum by the difference. *)
Lemma filter_length_set_nth (p : A -> bool) (s : list A) i old new :
  nth_error s i = Some old ->
  List.length (filter p (GoSlice.set_nth s i new)) + (if p old then 1 else 0)
  = List.length (filter p s) + (if p new then 1 else 0).
Proof.
  revert i. induction s as [| y s IH]; intros [| i];
    cbn [GoSlice.set_nth nth_error filter]; try discriminate.
  - intros [= ->]. destruct (p old), (p new); cbn [List.length]; lia.
  - intros H. specialize (IH i H). destruct (p y); cbn [List.length]; lia.
Qed.

Lemma list_sum_set_nth (w : A -> nat) (s : list A) i old new :
  nth_error s i = Some old ->
  list_sum (map w (GoSlice.set_nth s i new)) + w old = list_sum (map w s) + w new.
Proof.
  revert i. induction s as [| y s IH]; intros [| i];
    cbn [GoSlice.set_nth nth_error map list_sum fold_right]; try discriminate.
  - intros [= ->]. lia.
  - intros H. specialize (IH i H). unfold list_sum in *. lia.
Qed.

Lemma nth_error_ext_eq (s t : list A) :
  (forall i, nth_error s i = nth_error t i) -> s = t.
Proof.
  revert t. induction s as [| x s IH]; intros [| y t] H.
  - reflexivity.
  - specialize (H 0). discriminate.
  - specialize (H 0). discriminate.
  - pose proof (H 0) as H0. cbn in H0. injection H0 as ->.
    f_equal. apply IH. intros i. exact (H (S i)).
Qed.

End SliceFacts.

(** ** Sorting *)

Section SortFacts.
Import GoSort.
Context {A : Type}.
Variable less : A -> A -> bool.
Local Open Scope nat_scope.

(** The closure passed to the sort compares by a key: it is a strict weak
    order. *)
Hypothesis less_irrefl : forall x, less x x = false.
Hypothesis less_trans : forall x y z, less x y = true -> less y z = true -> less x z = true.
Hypothesis less_negtrans :
  forall x y z, less x y = false -> less y z = false -> less x z = false.

Local Abbreviation Less := (GoSort.Less less).
Local Abbreviation sorted_range := (GoSort.sorted_range less).

Lemma less_asym x y : less x y = true -> less y x = false.
Proof.
  intros H. destruct (less y x) eqn:E; [| reflexivity].
  pose proof (less_trans _ _ _ H E) as T. now rewrite less_irrefl in T.
Qed.

Lemma Less_irrefl l i : Less l i i = false.
Proof. unfold GoSort.Less. destruct (nth_error l i); auto. Qed.

Lemma Less_trans l i j k :
  Less l i j = true -> Less l j k = true -> Less l i k = true.
Proof.
  unfold GoSort.Less.
  destruct (nth_error l i), (nth_error l j), (nth_error l k); try discriminate.
  apply less_trans.
Qed.

Lemma Less_asym l i j : Less l i j = true -> Less l j i = false.
Proof.
  unfold GoSort.Less. destruct (nth_error l i), (nth_error l j); try discriminate.
  apply less_asym.
Qed.

Lemma Less_negtrans l i j k :
  j < List.length l -> Less l i j = false -> Less l j k = false -> Less l i k = false.
Proof.
  unfold GoSort.Less. intros Hj.
  destruct (nth_error l j) as [y |] eqn:Ej; [| apply nth_error_None in Ej; lia].
  destruct (nth_error l i), (nth_error l k); auto. apply less_negtrans.
Qed.

(** [Less] depends on the two elements only. *)
Lemma Less_congr l l' i j i' j' :
  nth_error l' i' = nth_error l i -> nth_error l' j' = nth_error l j ->
  Less l' i' j' = Less l i j.
Proof. unfold GoSort.Less. now intros -> ->. Qed.

Lemma length_Swap (l : list A) i j : List.length (Swap l i j) = List.length l.
Proof.
  unfold Swap. destruct (nth_error l i), (nth_error l j); auto.
  now rewrite !length_set_nth.
Qed.

Lemma nth_error_Swap (l : list A) i j k :
  i < List.length l -> j < List.length l ->
  nth_error (Swap l i j) k = nth_error l (swap_index i j k).
Proof.
  intros Hi Hj. unfold Swap, swap_index.
  destruct (nth_error l i) as [x |] eqn:Ei; [| apply nth_error_None in Ei; lia].
  destruct (nth_error l j) as [y |] eqn:Ej; [| apply nth_error_None in Ej; lia].
  rewrite !nth_error_set_nth, length_set_nth.
  destruct (Nat.ltb_spec i (List.length l)); [| lia].
  destruct (Nat.ltb_spec j (List.length l)); [| lia].
  rewrite !andb_true_r.
  destruct (Nat.eqb_spec j k) as [E1 | N1], (Nat.eqb_spec i k) as [E2 | N2],
    (Nat.eqb_spec k i) as [E3 | N3], (Nat.eqb_spec k j) as [E4 | N4];
    try congruence; try lia.
Qed.

Lemma Swap_out_of_range (l : list A) i j :
  List.length l <= i \/ List.length l <= j -> Swap l i j = l.
Proof.
  intros H. unfold Swap.
  destruct (nth_error l i) as [x |] eqn:Ei; [| reflexivity].
  destruct (nth_error l j) as [y |] eqn:Ej; [| reflexivity].
  assert (i < List.length l) by (apply nth_error_Some; congruence).
  assert (j < List.length l) by (apply nth_error_Some; congruence). lia.
Qed.

Lemma Permutation_set_nth (l : list A) i x y :
  nth_error l i = Some y -> Permutation (x :: l) (y :: GoSlice.set_nth l i x).
Proof.
  revert i. induction l as [| z l IH]; intros [| i] E; cbn in *; try discriminate.
  - injection E as ->. apply perm_swap.
  - specialize (IH i E).
    eapply perm_trans; [apply perm_swap |].
    eapply perm_trans; [apply perm_skip, IH |]. apply perm_swap.
Qed.

Lemma Permutation_Swap (l : list A) i j : Permutation (Swap l i j) l.
Proof.
  unfold Swap.
  destruct (nth_error l i) as [x |] eqn:Ei; [| reflexivity].
  destruct (nth_error l j) as [y |] eqn:Ej; [| reflexivity].
  assert (Hi : i < List.length l) by (apply nth_error_Some; congruence).
  assert (E1 : nth_error (GoSlice.set_nth l i y) j = Some (if i =? j then y else y)).
  { rewrite nth_error_set_nth. destruct (Nat.eqb_spec i j) as [<- | N]; cbn [andb].
    - destruct (Nat.ltb_spec i (List.length l)); [reflexivity | lia].
    - exact Ej. }
  assert (E1' : nth_error (GoSlice.set_nth l i y) j = Some y) by (now destruct (i =? j)).
  apply (Permutation_cons_inv (a := y)).
  eapply perm_trans; [symmetry; apply (Permutation_set_nth _ _ x y E1') |].
  symmetry. apply (Permutation_set_nth _ _ y x Ei).
Qed.

Lemma Less_Swap (l : list A) p q i j :
  p < List.length l -> q < List.length l ->
  Less (Swap l p q) i j = Less l (swap_index p q i) (swap_index p q j).
Proof.
  intros Hp Hq. apply Less_congr; now apply nth_error_Swap.
Qed.

Lemma rearranges_refl (l : list A) a b : rearranges l l a b.
Proof.
  repeat split; auto. intros k Hk. now exists k.
Qed.

Lemma rearranges_trans (l1 l2 l3 : list A) a b :
  rearranges l1 l2 a b -> rearranges l2 l3 a b -> rearranges l1 l3 a b.
Proof.
  intros (L1 & P1 & O1 & I1) (L2 & P2 & O2 & I2). repeat split.
  - congruence.
  - now rewrite P2.
  - intros k Hk. now rewrite O2, O1.
  - intros k Hk. destruct (I2 k Hk) as (k' & Hk' & E').
    destruct (I1 k' Hk') as (k'' & Hk'' & E''). exists k''. split; [exact Hk'' | congruence].
Qed.

Lemma rearranges_widen (l l' : list A) a b a' b' :
  rearranges l l' a b -> a' <= a -> b <= b' -> rearranges l l' a' b'.
Proof.
  intros (L & P & O & I) Ha Hb. repeat split; auto.
  - intros k Hk. apply O. lia.
  - intros k Hk.
    destruct (Nat.lt_ge_cases k a) as [Hlt | Hge].
    + exists k. split; [lia | apply O; lia].
    + destruct (Nat.lt_ge_cases k b) as [Hlt' | Hge'].
      * destruct (I k ltac:(lia)) as (k' & Hk' & E). exists k'. split; [lia | exact E].
      * exists k. split; [lia | apply O; lia].
Qed.

Lemma rearranges_Swap (l : list A) a b i j :
  a <= i < b -> a <= j < b -> rearranges l (Swap l i j) a b.
Proof.
  intros Hi Hj.
  destruct (Nat.lt_ge_cases i (List.length l)) as [Li | Gi];
    [| rewrite Swap_out_of_range by lia; apply rearranges_refl].
  destruct (Nat.lt_ge_cases j (List.length l)) as [Lj | Gj];
    [| rewrite Swap_out_of_range by lia; apply rearranges_refl].
  repeat split.
  - apply length_Swap.
  - apply Permutation_Swap.
  - intros k Hk. rewrite nth_error_Swap by assumption. unfold swap_index.
    destruct (Nat.eqb_spec k i); [lia |]. destruct (Nat.eqb_spec k j); [lia | reflexivity].
  - intros k Hk. exists (swap_index i j k). split; [| now apply nth_error_Swap].
    unfold swap_index. destruct (k =? i); [lia |]. destruct (k =? j); lia.
Qed.

(** A bound that an element outside the range puts on the range survives
    any rearrangement of the range. *)
Lemma rearranges_bound (l l' : list A) a b p (v : bool) :
  rearranges l l' a b -> (p < a \/ b <= p) ->
  (forall k, a <= k < b -> Less l k p = v) ->
  forall k, a <= k < b -> Less l' k p = v.
Proof.
  intros (L & P & O & I) Hp H k Hk. destruct (I k Hk) as (k' & Hk' & E).
  rewrite <- (H k' Hk'). apply Less_congr; [exact E | now apply O].
Qed.

Lemma rearranges_bound' (l l' : list A) a b p (v : bool) :
  rearranges l l' a b -> (p < a \/ b <= p) ->
  (forall k, a <= k < b -> Less l p k = v) ->
  forall k, a <= k < b -> Less l' p k = v.
Proof.
  intros (L & P & O & I) Hp H k Hk. destruct (I k Hk) as (k' & Hk' & E).
  rewrite <- (H k' Hk'). apply Less_congr; [now apply O | exact E].
Qed.

(** What lies outside the rearranged range keeps its order. *)
Lemma rearranges_sorted_outside (l l' : list A) a b c d :
  rearranges l l' a b -> (d <= a \/ b <= c) ->
  sorted_range l c d -> sorted_range l' c d.
Proof.
  intros (L & P & O & I) H S i j Hi Hij Hj.
  rewrite <- (S i j Hi Hij Hj). apply Less_congr; apply O; lia.
Qed.

Ltac swap_cases :=
  unfold swap_index;
  repeat match goal with
         | |- context [?x =? ?y] => destruct (Nat.eqb_spec x y)
         end;
  try lia.

(** Where the inner loop of the insertion sort stops, the range is sorted. *)
Lemma insertion_stop (l : list A) a j J :
  a <= j <= J -> J < List.length l ->
  sorted_range l a j -> sorted_range l (j + 1) (J + 1) ->
  (forall i k, a <= i < j -> j < k <= J -> Less l k i = false) ->
  (forall k, j < k <= J -> Less l k j = false) ->
  (j = a \/ Less l j (j - 1) = false) ->
  sorted_range l a (J + 1).
Proof.
  intros Hj HJ S1 S2 Hc H4 Hstop i k Hi Hik Hk.
  destruct (Nat.lt_trichotomy k j) as [Lk | [-> | Gk]].
  - apply S1; lia.
  - destruct Hstop as [-> | Hstop]; [lia |].
    destruct (Nat.eq_dec i (j - 1)) as [-> | N]; [exact Hstop |].
    apply (Less_negtrans l j (j - 1) i); [lia | exact Hstop | apply S1; lia].
  - destruct (Nat.lt_trichotomy i j) as [Li | [-> | Gi]].
    + apply Hc; lia.
    + apply H4; lia.
    + apply S2; lia.
Qed.

Lemma insertion_inner_spec a : forall j (l : list A) J,
  a <= j <= J -> J < List.length l ->
  sorted_range l a j -> sorted_range l (j + 1) (J + 1) ->
  (forall i k, a <= i < j -> j < k <= J -> Less l k i = false) ->
  (forall k, j < k <= J -> Less l k j = false) ->
  rearranges l (insertion_inner less l a j) a (J + 1)
  /\ sorted_range (insertion_inner less l a j) a (J + 1).
Proof.
  induction j as [| j IH]; intros l J Hj HJ S1 S2 Hc H4; cbn [insertion_inner].
  - split; [apply rearranges_refl |].
    apply (insertion_stop l a 0 J); auto. left. lia.
  - destruct (Nat.ltb_spec a (S j)) as [La | Ga]; cbn [andb].
    2:{ split; [apply rearranges_refl |].
        apply (insertion_stop l a (S j) J); auto. left. lia. }
    destruct (Less l (S j) j) eqn:EL.
    2:{ split; [apply rearranges_refl |].
        apply (insertion_stop l a (S j) J); auto. right.
        now replace (S j - 1) with j by lia. }
    assert (R : rearranges l (Swap l (S j) j) a (J + 1)) by (apply rearranges_Swap; lia).
    destruct (IH (Swap l (S j) j) J) as (R' & S').
    + lia.
    + now rewrite length_Swap.
    + intros i k Hi Hik Hk. rewrite Less_Swap by lia. swap_cases. apply S1; lia.
    + intros i k Hi Hik Hk. rewrite Less_Swap by lia. swap_cases.
      * subst. apply Hc; lia.
      * apply S2; lia.
    + intros i k Hi Hk. rewrite Less_Swap by lia. swap_cases.
      * subst. apply S1; lia.
      * apply Hc; lia.
    + intros k Hk. rewrite Less_Swap by lia. swap_cases.
      * subst. now apply Less_asym.
      * apply H4; lia.
    + split; [eapply rearranges_trans; eauto | exact S'].
Qed.

Lemma insertion_outer_spec a : forall n (l : list A) i,
  a <= i -> i + n <= List.length l -> (i = a + 1 \/ a < i) ->
  sorted_range l a i ->
  rearranges l (insertion_outer less l a i n) a (i + n)
  /\ sorted_range (insertion_outer less l a i n) a (i + n).
Proof.
  induction n as [| n IH]; intros l i Hi Hn Ha Hs; cbn [insertion_outer].
  - rewrite Nat.add_0_r. split; [apply rearranges_refl | exact Hs].
  - assert (V1 : sorted_range l (i + 1) (i + 1)) by (intros x y ? ? ?; lia).
    assert (V2 : forall x k, a <= x < i -> i < k <= i -> Less l k x = false)
      by (intros; lia).
    assert (V3 : forall k, i < k <= i -> Less l k i = false) by (intros; lia).
    destruct (insertion_inner_spec a i l i ltac:(lia) ltac:(lia) Hs V1 V2 V3) as (R1 & S1).
    assert (L1 : List.length (insertion_inner less l a i) = List.length l)
      by (now destruct R1).
    rewrite Nat.add_1_r in R1, S1.
    destruct (IH (insertion_inner less l a i) (S i) ltac:(lia) ltac:(lia) ltac:(lia) S1)
      as (R2 & S2).
    rewrite Nat.add_succ_comm in R2, S2.
    split; [| exact S2].
    eapply rearranges_trans; [eapply rearranges_widen; [exact R1 | |] | exact R2]; lia.
Qed.

Lemma insertionSort_spec (l : list A) a b :
  a <= b <= List.length l ->
  rearranges l (insertionSort less l a b) a b
  /\ sorted_range (insertionSort less l a b) a b.
Proof.
  intros H. unfold insertionSort.
  destruct (Nat.eq_dec a b) as [<- | N].
  - replace (a - (a + 1)) with 0 by lia. cbn. split; [apply rearranges_refl |].
    intros i j ? ? ?. lia.
  - assert (V : sorted_range l a (a + 1)) by (intros i j ? ? ?; lia).
    destruct (insertion_outer_spec a (b - (a + 1)) l (a + 1)
                ltac:(lia) ltac:(lia) ltac:(lia) V) as (R & Hs).
    now replace (a + 1 + (b - (a + 1))) with b in * by lia.
Qed.

Lemma scan_less_spec (l : list A) a j : forall rounds i,
  j + 1 - i <= rounds ->
  let i' := scan_less less rounds l i j a in
  i <= i' /\ (i <= j + 1 -> i' <= j + 1)
  /\ (forall k, i <= k < i' -> Less l k a = true)
  /\ (i' <= j -> Less l i' a = false).
Proof.
  induction rounds as [| rounds IH]; intros i Hr; cbn [scan_less]; cbv zeta.
  - repeat split; intros; lia.
  - destruct (Nat.leb_spec i j) as [Lij | Gij]; cbn [andb].
    2:{ repeat split; intros; lia. }
    destruct (Less l i a) eqn:E.
    2:{ repeat split; intros; try lia; auto. }
    destruct (IH (S i) ltac:(lia)) as (H1 & H2 & H3 & H4). repeat split; try lia; auto.
    intros k Hk. destruct (Nat.eq_dec k i) as [-> | N]; [exact E | apply H3; lia].
Qed.

Lemma scan_not_less_spec (l : list A) a i : forall j,
  1 <= i ->
  let j' := scan_not_less less l i j a in
  j' <= j /\ (i <= j + 1 -> i <= j' + 1)
  /\ (forall k, j' < k <= j -> Less l k a = false)
  /\ (i <= j' -> Less l j' a = true).
Proof.
  induction j as [| j IH]; intros Hi; cbn [scan_not_less]; cbv zeta.
  - repeat split; intros; lia.
  - destruct (Nat.leb_spec i (S j)) as [Lij | Gij]; cbn [andb].
    2:{ repeat split; intros; lia. }
    destruct (Less l (S j) a) eqn:E; cbn [negb].
    { repeat split; intros; try lia; auto. }
    destruct (IH Hi) as (H1 & H2 & H3 & H4). repeat split; try lia; auto.
    intros k Hk. destruct (Nat.eq_dec k (S j)) as [-> | N]; [exact E | apply H3; lia].
Qed.

(** The state of the partitioning loop: the pivot sits at [a], what lies
    before [i] is less than it, what lies after [j] is not. *)
Lemma partition_loop_spec a b : forall rounds (l : list A) i j,
  j + 1 - i <= rounds -> a + 1 <= i -> i <= j + 1 -> j < b -> b <= List.length l ->
  (forall k, a + 1 <= k < i -> Less l k a = true) ->
  (forall k, j < k < b -> Less l k a = false) ->
  let '(l', mid) := partition_loop less rounds l i j a in
  rearranges l l' (a + 1) b /\ a <= mid < b
  /\ (forall k, a + 1 <= k <= mid -> Less l' k a = true)
  /\ (forall k, mid < k < b -> Less l' k a = false).
Proof.
  induction rounds as [| rounds IH]; intros l i j Hr Hi Hij Hj Hb HL HR;
    cbn [partition_loop]; cbv zeta.
  - assert (i = j + 1) by lia. subst i.
    split; [apply rearranges_refl |]. split; [lia |].
    split; [intros k Hk; apply HL; lia | exact HR].
  - destruct (scan_less_spec l a j (j + 1 - i) i ltac:(lia)) as (I1 & I2 & I3 & I4).
    set (i1 := scan_less less (j + 1 - i) l i j a) in *.
    assert (Hi1 : 1 <= i1) by lia.
    destruct (scan_not_less_spec l a i1 j Hi1) as (J1 & J2 & J3 & J4).
    set (j1 := scan_not_less less l i1 j a) in *.
    assert (HL1 : forall k, a + 1 <= k < i1 -> Less l k a = true).
    { intros k Hk. destruct (Nat.lt_ge_cases k i); [apply HL | apply I3]; lia. }
    assert (HR1 : forall k, j1 < k < b -> Less l k a = false).
    { intros k Hk. destruct (Nat.lt_ge_cases j k); [apply HR | apply J3]; lia. }
    destruct (Nat.ltb_spec j1 i1) as [Lt | Ge].
    + split; [apply rearranges_refl |]. split; [lia |].
      split; [intros k Hk; apply HL1; lia | exact HR1].
    + assert (Hne : i1 <> j1).
      { intros E. specialize (I4 ltac:(lia)). specialize (J4 ltac:(lia)).
        rewrite <- E in J4. congruence. }
      assert (R : rearranges l (Swap l i1 j1) (a + 1) b) by (apply rearranges_Swap; lia).
      specialize (IH (Swap l i1 j1) (S i1) (j1 - 1)).
      destruct (partition_loop less rounds (Swap l i1 j1) (S i1) (j1 - 1) a)
        as [l' mid].
      destruct IH as (R' & Hm & HL' & HR'); try lia.
      * now rewrite length_Swap.
      * intros k Hk. rewrite Less_Swap by lia. swap_cases.
        -- subst. apply J4. lia.
        -- apply HL1. lia.
      * intros k Hk. rewrite Less_Swap by lia. swap_cases.
        -- subst. apply I4. lia.
        -- apply HR1. lia.
      * split; [eapply rearranges_trans; eauto |]. auto.
Qed.

(** [partition] is its loop with the first round written out. *)
Lemma partition_unroll (l : list A) a b pivot :
  fst (partition less l a b pivot)
  = let '(d, j) := partition_loop less (S (b - a)) (Swap l a pivot) (a + 1) (b - 1) a in
    (Swap d j a, j).
Proof.
  unfold partition. cbn [partition_loop]. cbv zeta.
  destruct (_ <? _); [reflexivity |].
  now destruct (partition_loop less (b - a) _ _ _ a).
Qed.

Lemma partition_spec (l : list A) a b pivot :
  a < b -> b <= List.length l -> a <= pivot < b ->
  let '(l', mid) := fst (partition less l a b pivot) in
  rearranges l l' a b /\ a <= mid < b
  /\ (forall k, a <= k < mid -> Less l' k mid = true)
  /\ (forall k, mid < k < b -> Less l' k mid = false).
Proof.
  intros Hab Hb Hp. rewrite partition_unroll.
  assert (R0 : rearranges l (Swap l a pivot) a b) by (apply rearranges_Swap; lia).
  pose proof (partition_loop_spec a b (S (b - a)) (Swap l a pivot) (a + 1) (b - 1)) as H.
  destruct (partition_loop less (S (b - a)) (Swap l a pivot) (a + 1) (b - 1) a) as [d j].
  destruct H as (R & Hm & HL & HR); try lia.
  - now rewrite length_Swap.
  - assert (Ld : List.length d = List.length l).
    { destruct R as (Ld & _). now rewrite Ld, length_Swap. }
    split; [| split; [exact Hm | split]].
    + eapply rearranges_trans; [exact R0 |].
      eapply rearranges_trans; [eapply rearranges_widen; [exact R | lia | lia] |].
      apply rearranges_Swap; lia.
    + intros k Hk. rewrite Less_Swap by lia. swap_cases; subst; try lia; apply HL; lia.
    + intros k Hk. rewrite Less_Swap by lia. swap_cases; subst; try lia; apply HR; lia.
Qed.

Lemma scan_not_greater_spec (l : list A) a j : forall rounds i,
  j + 1 - i <= rounds ->
  let i' := scan_not_greater less rounds l i j a in
  i <= i' /\ (i <= j + 1 -> i' <= j + 1)
  /\ (forall k, i <= k < i' -> Less l a k = false)
  /\ (i' <= j -> Less l a i' = true).
Proof.
  induction rounds as [| rounds IH]; intros i Hr; cbn [scan_not_greater]; cbv zeta.
  - repeat split; intros; lia.
  - destruct (Nat.leb_spec i j) as [Lij | Gij]; cbn [andb].
    2:{ repeat split; intros; lia. }
    destruct (Less l a i) eqn:E; cbn [negb].
    { repeat split; intros; try lia; auto. }
    destruct (IH (S i) ltac:(lia)) as (H1 & H2 & H3 & H4).
    repeat split; intros; try lia; auto.
    destruct (Nat.eq_dec k i) as [-> | N]; [exact E | apply H3; lia].
Qed.

Lemma scan_greater_spec (l : list A) a i : forall j,
  1 <= i ->
  let j' := scan_greater less l i j a in
  j' <= j /\ (i <= j + 1 -> i <= j' + 1)
  /\ (forall k, j' < k <= j -> Less l a k = true)
  /\ (i <= j' -> Less l a j' = false).
Proof.
  induction j as [| j IH]; intros Hi; cbn [scan_greater]; cbv zeta.
  - repeat split; intros; lia.
  - destruct (Nat.leb_spec i (S j)) as [Lij | Gij]; cbn [andb].
    2:{ repeat split; intros; lia. }
    destruct (Less l a (S j)) eqn:E.
    2:{ repeat split; intros; try lia; auto. }
    destruct (IH Hi) as (H1 & H2 & H3 & H4). repeat split; intros; try lia; auto.
    destruct (Nat.eq_dec k (S j)) as [-> | N]; [exact E | apply H3; lia].
Qed.

Lemma partitionEqual_loop_spec a b : forall rounds (l : list A) i j,
  j + 1 - i <= rounds -> a + 1 <= i -> i <= j + 1 -> j < b -> b <= List.length l ->
  (forall k, a + 1 <= k < i -> Less l a k = false) ->
  (forall k, j < k < b -> Less l a k = true) ->
  let '(l', mid) := partitionEqual_loop less rounds l i j a in
  rearranges l l' (a + 1) b /\ a + 1 <= mid <= b
  /\ (forall k, a + 1 <= k < mid -> Less l' a k = false)
  /\ (forall k, mid <= k < b -> Less l' a k = true).
Proof.
  induction rounds as [| rounds IH]; intros l i j Hr Hi Hij Hj Hb HL HR;
    cbn [partitionEqual_loop]; cbv zeta.
  - assert (i = j + 1) by lia. subst i.
    split; [apply rearranges_refl |]. split; [lia |].
    split; [exact HL | intros k Hk; apply HR; lia].
  - destruct (scan_not_greater_spec l a j (j + 1 - i) i ltac:(lia)) as (I1 & I2 & I3 & I4).
    set (i1 := scan_not_greater less (j + 1 - i) l i j a) in *.
    assert (Hi1 : 1 <= i1) by lia.
    destruct (scan_greater_spec l a i1 j Hi1) as (J1 & J2 & J3 & J4).
    set (j1 := scan_greater less l i1 j a) in *.
    assert (HL1 : forall k, a + 1 <= k < i1 -> Less l a k = false).
    { intros k Hk. destruct (Nat.lt_ge_cases k i); [apply HL | apply I3]; lia. }
    assert (HR1 : forall k, j1 < k < b -> Less l a k = true).
    { intros k Hk. destruct (Nat.lt_ge_cases j k); [apply HR | apply J3]; lia. }
    destruct (Nat.ltb_spec j1 i1) as [Lt | Ge].
    + split; [apply rearranges_refl |]. split; [lia |].
      split; [exact HL1 | intros k Hk; apply HR1; lia].
    + assert (Hne : i1 <> j1).
      { intros E. specialize (I4 ltac:(lia)). specialize (J4 ltac:(lia)).
        rewrite <- E in J4. congruence. }
      assert (R : rearranges l (Swap l i1 j1) (a + 1) b) by (apply rearranges_Swap; lia).
      specialize (IH (Swap l i1 j1) (S i1) (j1 - 1)).
      destruct (partitionEqual_loop less rounds (Swap l i1 j1) (S i1) (j1 - 1) a)
        as [l' mid].
      destruct IH as (R' & Hm & HL' & HR'); try lia.
      * now rewrite length_Swap.
      * intros k Hk. rewrite Less_Swap by lia. swap_cases; subst; try lia.
        -- apply J4. lia.
        -- apply HL1. lia.
      * intros k Hk. rewrite Less_Swap by lia. swap_cases; subst; try lia.
        -- apply I4. lia.
        -- apply HR1. lia.
      * split; [eapply rearranges_trans; eauto |]. split; [lia | auto].
Qed.

Lemma partitionEqual_spec (l : list A) a b pivot :
  a < b -> b <= List.length l -> a <= pivot < b ->
  let '(l', mid) := partitionEqual less l a b pivot in
  rearranges l l' a b /\ a < mid <= b
  /\ nth_error l' a = nth_error l pivot
  /\ (forall k, a <= k < mid -> Less l' a k = false)
  /\ (forall k, mid <= k < b -> Less l' a k = true).
Proof.
  intros Hab Hb Hp. unfold partitionEqual.
  assert (R0 : rearranges l (Swap l a pivot) a b) by (apply rearranges_Swap; lia).
  pose proof (partitionEqual_loop_spec a b (S (b - a)) (Swap l a pivot) (a + 1) (b - 1))
    as H.
  destruct (partitionEqual_loop less (S (b - a)) (Swap l a pivot) (a + 1) (b - 1) a)
    as [d mid].
  destruct H as (R & Hm & HL & HR); try lia.
  - now rewrite length_Swap.
  - split; [| split; [lia | split; [| split]]].
    + eapply rearranges_trans; [exact R0 |].
      eapply rearranges_widen; [exact R | lia | lia].
    + destruct R as (_ & _ & O & _). rewrite O by lia.
      rewrite nth_error_Swap by lia. unfold swap_index. now rewrite Nat.eqb_refl.
    + intros k Hk. destruct (Nat.eq_dec k a) as [-> | N]; [apply Less_irrefl |].
      apply HL. lia.
    + exact HR.
Qed.

Lemma reverseRange_loop_spec a b : forall rounds (l : list A) i j,
  a <= i -> j < b -> rearranges l (reverseRange_loop rounds l i j) a b.
Proof.
  induction rounds as [| rounds IH]; intros l i j Hi Hj; cbn [reverseRange_loop].
  - apply rearranges_refl.
  - destruct (Nat.ltb_spec i j) as [Lt | Ge]; [| apply rearranges_refl].
    eapply rearranges_trans; [apply (rearranges_Swap l a b i j); lia |].
    apply IH; lia.
Qed.

Lemma reverseRange_spec (l : list A) a b :
  a < b -> rearranges l (reverseRange l a b) a b.
Proof. intros H. apply reverseRange_loop_spec; lia. Qed.

Lemma nextPowerOfTwo_bound n :
  1 <= n -> (0 < nextPowerOfTwo n <= 2 * Z.of_nat n)%Z
            /\ nextPowerOfTwo n = (2 ^ Z.of_nat (bitsLen n))%Z.
Proof.
  intros Hn. unfold nextPowerOfTwo. rewrite Z.shiftl_1_l.
  split; [| reflexivity].
  destruct n as [| n]; [lia |]. cbn [bitsLen].
  rewrite Nat2Z.inj_succ, Z.pow_succ_r by lia.
  pose proof (Nat.log2_spec (S n) ltac:(lia)) as (Hlo & _).
  assert (H : (2 ^ Z.of_nat (Nat.log2 (S n)) <= Z.of_nat (S n))%Z).
  { rewrite <- (Nat2Z.inj_pow 2). lia. }
  pose proof (Z.pow_pos_nonneg 2 (Z.of_nat (Nat.log2 (S n))) ltac:(lia) ltac:(lia)). lia.
Qed.

Lemma breakPatterns_other (random : Z) length :
  1 <= length ->
  let other := Z.to_nat (Z.land random (nextPowerOfTwo length - 1)) in
  (if length <=? other then other - length else other) < length.
Proof.
  intros Hl. cbv zeta.
  destruct (nextPowerOfTwo_bound length Hl) as ((Hpos & Hle) & Hpow).
  assert (Hland : (0 <= Z.land random (nextPowerOfTwo length - 1)
                   < nextPowerOfTwo length)%Z).
  { rewrite Hpow. replace (2 ^ Z.of_nat (bitsLen length) - 1)%Z
      with (Z.ones (Z.of_nat (bitsLen length))) by (rewrite Z.ones_equiv; lia).
    rewrite Z.land_ones by lia. apply Z.mod_pos_bound. lia. }
  destruct (Nat.leb_spec length (Z.to_nat (Z.land random (nextPowerOfTwo length - 1))));
    lia.
Qed.

Lemma breakPatterns_loop_spec (rng : Z -> Z) a b : forall rounds (l : list A) random i,
  8 <= b - a -> i + rounds <= 3 ->
  rearranges l
    (breakPatterns_loop rng rounds l random (nextPowerOfTwo (b - a))
       (a + (b - a) / 4 * 2 - 1) a (b - a) i) a b.
Proof.
  induction rounds as [| rounds IH]; intros l random i Hl Hi; cbn [breakPatterns_loop].
  - apply rearranges_refl.
  - cbv zeta.
    pose proof (breakPatterns_other (rng random) (b - a) ltac:(lia)) as Ho.
    cbv zeta in Ho.
    pose proof (Nat.Div0.mul_div_le (b - a) 4) as Hd.
    assert (2 <= (b - a) / 4) by (apply Nat.div_le_lower_bound; lia).
    eapply rearranges_trans; [apply rearranges_Swap | apply IH]; lia.
Qed.

Lemma breakPatterns_spec (rng : Z -> Z) (l : list A) a b :
  rearranges l (breakPatterns rng l a b) a b.
Proof.
  unfold breakPatterns. cbv zeta.
  destruct (Nat.leb_spec 8 (b - a)); [| apply rearranges_refl].
  apply breakPatterns_loop_spec; lia.
Qed.

Lemma order2_in (l : list A) x y s :
  let '(x', y', _) := order2 less l x y s in
  (x' = x /\ y' = y) \/ (x' = y /\ y' = x).
Proof. unfold order2. destruct (GoSort.Less less l y x); auto. Qed.

Lemma median_in (l : list A) x y z s :
  let m := fst (median less l x y z s) in m = x \/ m = y \/ m = z.
Proof.
  unfold median.
  pose proof (order2_in l x y s) as H1.
  destruct (order2 less l x y s) as [[x1 y1] s1].
  pose proof (order2_in l y1 z s1) as H2.
  destruct (order2 less l y1 z s1) as [[y2 z2] s2].
  pose proof (order2_in l x1 y2 s2) as H3.
  destruct (order2 less l x1 y2 s2) as [[x3 y3] s3].
  cbn [fst]. intuition congruence.
Qed.

Lemma choosePivot_range (l : list A) a b :
  8 <= b - a -> a <= fst (choosePivot less l a b) < b.
Proof.
  intros Hl. unfold choosePivot. cbv zeta.
  pose proof (Nat.Div0.mul_div_le (b - a) 4) as Hd.
  assert (H2 : 2 <= (b - a) / 4) by (apply Nat.div_le_lower_bound; lia).
  destruct (Nat.leb_spec 8 (b - a)); [| lia].
  destruct (Nat.leb_spec 50 (b - a)) as [L50 | G50].
  - assert (H12 : 12 <= (b - a) / 4) by (apply Nat.div_le_lower_bound; lia).
    unfold medianAdjacent.
    pose proof (median_in l (a + (b - a) / 4 * 1 - 1) (a + (b - a) / 4 * 1)
                  (a + (b - a) / 4 * 1 + 1) 0) as Mi.
    destruct (median less l (a + (b - a) / 4 * 1 - 1) _ _ 0) as [i si].
    pose proof (median_in l (a + (b - a) / 4 * 2 - 1) (a + (b - a) / 4 * 2)
                  (a + (b - a) / 4 * 2 + 1) si) as Mj.
    destruct (median less l (a + (b - a) / 4 * 2 - 1) _ _ si) as [j sj].
    pose proof (median_in l (a + (b - a) / 4 * 3 - 1) (a + (b - a) / 4 * 3)
                  (a + (b - a) / 4 * 3 + 1) sj) as Mk.
    destruct (median less l (a + (b - a) / 4 * 3 - 1) _ _ sj) as [k sk].
    pose proof (median_in l i j k sk) as M.
    destruct (median less l i j k sk) as [m sm]. cbn [fst] in *.
    destruct sm as [| [| [| [| [| [| [| [| [| [| [| [| [| sm]]]]]]]]]]]]]; cbn [fst]; lia.
  - pose proof (median_in l (a + (b - a) / 4 * 1) (a + (b - a) / 4 * 2)
                  (a + (b - a) / 4 * 3) 0) as M.
    destruct (median less l _ _ _ 0) as [m sm]. cbn [fst] in *.
    destruct sm as [| [| [| [| [| [| [| [| [| [| [| [| [| sm]]]]]]]]]]]]]; cbn [fst]; lia.
Qed.

Lemma sorted_range_extend (l : list A) a i :
  i < List.length l -> sorted_range l a i -> Less l i (i - 1) = false ->
  sorted_range l a (i + 1).
Proof.
  intros Hi Hs Hl x y Hx Hxy Hy.
  destruct (Nat.eq_dec y i) as [-> | N]; [| apply Hs; lia].
  destruct (Nat.eq_dec x (i - 1)) as [-> | N']; [exact Hl |].
  apply (Less_negtrans l i (i - 1) x); [lia | exact Hl | apply Hs; lia].
Qed.

Lemma scan_ordered_spec (l : list A) a b : forall rounds i,
  b - i <= rounds -> a + 1 <= i -> b <= List.length l -> sorted_range l a i ->
  let i' := scan_ordered less rounds l i b in
  i <= i' /\ (i <= b -> i' <= b) /\ sorted_range l a i'
  /\ (i' < b -> Less l i' (i' - 1) = true).
Proof.
  induction rounds as [| rounds IH]; intros i Hr Hi Hb Hs; cbn [scan_ordered]; cbv zeta.
  - repeat split; auto; lia.
  - destruct (Nat.ltb_spec i b) as [Lt | Ge]; cbn [andb].
    2:{ repeat split; auto; lia. }
    destruct (Less l i (i - 1)) eqn:E; cbn [negb].
    { repeat split; auto; lia. }
    destruct (IH (S i) ltac:(lia) ltac:(lia) Hb) as (H1 & H2 & H3 & H4).
    + rewrite <- Nat.add_1_r. apply sorted_range_extend; auto; lia.
    + repeat split; auto; lia.
Qed.

(** Nothing in the range is less than the element just before it. *)
Lemma lower_bound_rearranged (l l' : list A) a b :
  rearranges l l' a b ->
  (a = 0 \/ forall k, a <= k < b -> Less l k (a - 1) = false) ->
  (a = 0 \/ forall k, a <= k < b -> Less l' k (a - 1) = false).
Proof.
  intros R [-> | H]; [now left |].
  destruct (Nat.eq_dec a 0) as [-> | N]; [now left | right].
  eapply rearranges_bound; eauto. lia.
Qed.

Lemma shift_left_as_inner a : forall j (l : list A),
  a <= j ->
  (a = 0 \/ forall k, a <= k <= j -> Less l k (a - 1) = false) ->
  shift_left less l j = insertion_inner less l a j.
Proof.
  induction j as [| j IH]; intros l Hj Hb; cbn [shift_left insertion_inner];
    [reflexivity |].
  destruct (Nat.ltb_spec a (S j)) as [Lt | Ge]; cbn [andb].
  - destruct (GoSort.Less less l (S j) j) eqn:E; cbn [negb]; [| reflexivity].
    apply IH; [lia |]. destruct Hb as [-> | Hb]; [now left |].
    destruct (Nat.eq_dec a 0) as [-> | Na]; [now left | right].
    intros k Hk.
    destruct (Nat.lt_ge_cases (S j) (List.length l)) as [L | G].
    + rewrite Less_Swap by lia. swap_cases; subst; try lia; apply Hb; lia.
    + rewrite Swap_out_of_range by lia. apply Hb. lia.
  - assert (a = S j) by lia. subst a.
    destruct Hb as [Hb | Hb]; [lia |].
    specialize (Hb (S j) ltac:(lia)). replace (S j - 1) with j in Hb by lia.
    now rewrite Hb.
Qed.

Lemma shift_right_spec b : forall rounds (l : list A) j,
  1 <= j -> rearranges l (shift_right less rounds l j b) (j - 1) b.
Proof.
  induction rounds as [| rounds IH]; intros l j Hj; cbn [shift_right].
  - apply rearranges_refl.
  - destruct (Nat.ltb_spec j b) as [Lt | Ge]; [| apply rearranges_refl].
    destruct (GoSort.Less less l j (j - 1)); cbn [negb]; [| apply rearranges_refl].
    eapply rearranges_trans; [apply (rearranges_Swap l (j - 1) b j (j - 1)); lia |].
    eapply rearranges_widen; [apply (IH _ (S j)); lia | lia | lia].
Qed.

Lemma insertion_inner_at_a (l : list A) a : insertion_inner less l a a = l.
Proof.
  destruct a as [| a]; cbn [insertion_inner]; [reflexivity |].
  destruct (Nat.ltb_spec (S a) (S a)); [lia | reflexivity].
Qed.

Lemma insertion_inner_step (l : list A) a i :
  a < i -> Less l i (i - 1) = true ->
  insertion_inner less l a i = insertion_inner less (Swap l i (i - 1)) a (i - 1).
Proof.
  intros Ha Hl. destruct i as [| i]; [lia |].
  cbn [insertion_inner]. replace (S i - 1) with i in * by lia.
  destruct (Nat.ltb_spec a (S i)); [| lia]. now rewrite Hl.
Qed.

Lemma sorted_range_narrow (l : list A) a b a' b' :
  sorted_range l a b -> a <= a' -> b' <= b -> sorted_range l a' b'.
Proof. intros H Ha Hb i j Hi Hij Hj. apply H; lia. Qed.

Lemma partialInsertionSort_loop_spec a b : forall steps (l : list A) i,
  a + 1 <= i <= b -> b <= List.length l -> sorted_range l a i ->
  (a = 0 \/ forall k, a <= k < b -> Less l k (a - 1) = false) ->
  let '(l', ok) := partialInsertionSort_loop less steps l i a b in
  rearranges l l' a b /\ (ok = true -> sorted_range l' a b).
Proof.
  induction steps as [| steps IH]; intros l i Hi Hb Hs Hlow;
    cbn [partialInsertionSort_loop]; cbv zeta.
  - split; [apply rearranges_refl | discriminate].
  - destruct (scan_ordered_spec l a b (b - i) i ltac:(lia) ltac:(lia) Hb Hs)
      as (I1 & I2 & I3 & I4).
    set (i1 := scan_ordered less (b - i) l i b) in *.
    destruct (Nat.eqb_spec i1 b) as [E | N].
    { split; [apply rearranges_refl |]. intros _. now rewrite <- E. }
    destruct (b - a <? 50).
    { split; [apply rearranges_refl | discriminate]. }
    assert (Hi1 : i1 < b) by lia. specialize (I4 Hi1).
    set (d1 := Swap l i1 (i1 - 1)).
    set (d2 := if 2 <=? i1 - a then shift_left less d1 (i1 - 1) else d1).
    set (d3 := if 2 <=? b - i1 then shift_right less (b - (i1 + 1)) d2 (i1 + 1) b else d2).
    assert (R1 : rearranges l d1 a b) by (apply rearranges_Swap; lia).
    assert (E2 : d2 = insertion_inner less l a i1).
    { rewrite (insertion_inner_step l a i1 ltac:(lia) I4). fold d1.
      unfold d2. destruct (Nat.leb_spec 2 (i1 - a)) as [L2 | G2].
      - apply shift_left_as_inner; [lia |].
        destruct (lower_bound_rearranged _ _ _ _ R1 Hlow) as [-> | H]; [now left | right].
        intros k Hk. apply H. lia.
      - replace (i1 - 1) with a by lia. now rewrite insertion_inner_at_a. }
    assert (V1 : sorted_range l (i1 + 1) (i1 + 1)) by (intros x y ? ? ?; lia).
    assert (V2 : forall x k, a <= x < i1 -> i1 < k <= i1 -> Less l k x = false)
      by (intros; lia).
    assert (V3 : forall k, i1 < k <= i1 -> Less l k i1 = false) by (intros; lia).
    destruct (insertion_inner_spec a i1 l i1 ltac:(lia) ltac:(lia) I3 V1 V2 V3)
      as (R2 & S2).
    rewrite <- E2 in R2, S2.
    assert (L2 : List.length d2 = List.length l) by (now destruct R2).
    assert (R3 : rearranges d2 d3 i1 b).
    { unfold d3. destruct (2 <=? b - i1); [| apply rearranges_refl].
      pose proof (shift_right_spec b (b - (i1 + 1)) d2 (i1 + 1) ltac:(lia)) as H.
      now replace (i1 + 1 - 1) with i1 in H by lia. }
    assert (R : rearranges l d3 a b).
    { eapply rearranges_trans; [eapply rearranges_widen; [exact R2 | lia | lia] |].
      eapply rearranges_widen; [exact R3 | lia | lia]. }
    assert (L3 : List.length d3 = List.length l) by (now destruct R).
    specialize (IH d3 i1 ltac:(lia) ltac:(lia)).
    destruct (partialInsertionSort_loop less steps d3 i1 a b) as [l' ok].
    destruct IH as (R' & S').
    + eapply rearranges_sorted_outside; [exact R3 | left; lia |].
      eapply sorted_range_narrow; [exact S2 | lia | lia].
    + eapply lower_bound_rearranged; eauto.
    + split; [eapply rearranges_trans; eauto | exact S'].
Qed.

Lemma partialInsertionSort_spec (l : list A) a b :
  a < b -> b <= List.length l ->
  (a = 0 \/ forall k, a <= k < b -> Less l k (a - 1) = false) ->
  let '(l', ok) := partialInsertionSort less l a b in
  rearranges l l' a b /\ (ok = true -> sorted_range l' a b).
Proof.
  intros Hab Hb Hlow. unfold partialInsertionSort.
  apply partialInsertionSort_loop_spec; auto; try lia.
  intros x y ? ? ?. lia.
Qed.

Local Abbreviation heap_from := (GoSort.heap_from less).

Lemma parent_children c r :
  1 <= c -> ((c - 1) / 2 = r <-> c = 2 * r + 1 \/ c = 2 * r + 2).
Proof.
  intros Hc. pose proof (Nat.div_mod_eq (c - 1) 2) as E.
  pose proof (Nat.mod_upper_bound (c - 1) 2 ltac:(lia)) as B. lia.
Qed.

Lemma parent_below c : 1 <= c -> (c - 1) / 2 < c.
Proof.
  intros Hc. pose proof (Nat.div_mod_eq (c - 1) 2) as E.
  pose proof (Nat.mod_upper_bound (c - 1) 2 ltac:(lia)) as B. lia.
Qed.

(** Sifting the root [r] down makes a heap of a heap that is broken at
    the edges below [r] only. *)
Lemma siftDown_loop_spec first lo hi : forall rounds (l : list A) r,
  hi - r <= rounds -> lo <= r -> first + hi <= List.length l ->
  (forall c, 1 <= c -> c < hi -> lo <= (c - 1) / 2 -> (c - 1) / 2 <> r ->
             Less l (first + (c - 1) / 2) (first + c) = false) ->
  (1 <= r -> lo <= (r - 1) / 2 ->
   forall c, 1 <= c -> c < hi -> (c - 1) / 2 = r ->
             Less l (first + (r - 1) / 2) (first + c) = false) ->
  rearranges l (siftDown_loop less rounds l r hi first) first (first + hi)
  /\ heap_from (siftDown_loop less rounds l r hi first) first lo hi.
Proof.
  induction rounds as [| rounds IH]; intros l r Hr Hlo Hlen H1 H2;
    cbn [siftDown_loop]; cbv zeta.
  - split; [apply rearranges_refl |]. intros c Hc Hchi Hp.
    apply H1; auto. pose proof (parent_children c r Hc). lia.
  - destruct (Nat.leb_spec hi (2 * r + 1)) as [Lh | Gh].
    { split; [apply rearranges_refl |]. intros c Hc Hchi Hp.
      apply H1; auto. pose proof (parent_children c r Hc). lia. }
    set (c0 := 2 * r + 1) in *.
    set (child := if (c0 + 1 <? hi) && Less l (first + c0) (first + c0 + 1)
                  then c0 + 1 else c0).
    assert (Hchild : (child = c0 \/ (child = c0 + 1 /\ c0 + 1 < hi)) /\ child < hi
                     /\ (forall c, 1 <= c -> c < hi -> (c - 1) / 2 = r ->
                                   Less l (first + child) (first + c) = false)).
    { unfold child. destruct (Nat.ltb_spec (c0 + 1) hi) as [L1 | G1]; cbn [andb].
      - destruct (Less l (first + c0) (first + c0 + 1)) eqn:E.
        + split; [right; lia |]. split; [lia |]. intros c Hc Hchi Hp.
          apply parent_children in Hp; [| exact Hc].
          destruct Hp as [-> | ->].
          * fold c0. replace (first + (c0 + 1)) with (first + c0 + 1) by lia.
            now apply Less_asym.
          * replace (2 * r + 2) with (c0 + 1) by (unfold c0; lia). apply Less_irrefl.
        + split; [now left |]. split; [lia |]. intros c Hc Hchi Hp.
          apply parent_children in Hp; [| exact Hc].
          destruct Hp as [-> | ->].
          * apply Less_irrefl.
          * replace (first + (2 * r + 2)) with (first + c0 + 1) by (unfold c0; lia).
            exact E.
      - split; [now left |]. split; [lia |]. intros c Hc Hchi Hp.
        apply parent_children in Hp; [| exact Hc].
        destruct Hp as [-> | ->]; [apply Less_irrefl | unfold c0 in *; lia]. }
    destruct Hchild as (Hcases & Hchi & Hmax).
    assert (Hpar : (child - 1) / 2 = r).
    { apply parent_children; unfold c0 in *; lia. }
    destruct (Less l (first + r) (first + child)) eqn:E; cbn [negb].
    2:{ split; [apply rearranges_refl |]. intros c Hc Hc' Hp.
        destruct (Nat.eq_dec ((c - 1) / 2) r) as [Er | Nr]; [| now apply H1].
        rewrite Er.
        apply (Less_negtrans l (first + r) (first + child) (first + c));
          [lia | exact E | now apply Hmax]. }
    assert (R : rearranges l (Swap l (first + r) (first + child)) first (first + hi)).
    { apply rearranges_Swap; unfold c0 in *; lia. }
    assert (Hrc : r < child) by (unfold c0 in *; lia).
    destruct (IH (Swap l (first + r) (first + child)) child) as (R' & Hh).
    + unfold c0 in *. lia.
    + lia.
    + now rewrite length_Swap.
    + intros c Hc Hc' Hp Hne. rewrite Less_Swap by lia.
      pose proof (parent_below c Hc) as Hpb.
      unfold swap_index.
      replace (first + (c - 1) / 2 =? first + r) with ((c - 1) / 2 =? r)
        by (destruct (Nat.eqb_spec ((c - 1) / 2) r), (Nat.eqb_spec (first + (c - 1) / 2) (first + r)); lia).
      replace (first + (c - 1) / 2 =? first + child) with ((c - 1) / 2 =? child)
        by (destruct (Nat.eqb_spec ((c - 1) / 2) child), (Nat.eqb_spec (first + (c - 1) / 2) (first + child)); lia).
      replace (first + c =? first + r) with (c =? r)
        by (destruct (Nat.eqb_spec c r), (Nat.eqb_spec (first + c) (first + r)); lia).
      replace (first + c =? first + child) with (c =? child)
        by (destruct (Nat.eqb_spec c child), (Nat.eqb_spec (first + c) (first + child)); lia).
      destruct (Nat.eqb_spec ((c - 1) / 2) child) as [E1 | N1]; [congruence |].
      destruct (Nat.eqb_spec ((c - 1) / 2) r) as [E2 | N2].
      * (* an edge below the old root *)
        destruct (Nat.eqb_spec c r) as [E3 | N3]; [lia |].
        destruct (Nat.eqb_spec c child) as [E4 | N4].
        -- now apply Less_asym.
        -- now apply Hmax.
      * destruct (Nat.eqb_spec c r) as [E3 | N3].
        -- (* the edge above the old root *)
           subst c. apply H2; auto; lia.
        -- destruct (Nat.eqb_spec c child) as [E4 | N4]; [congruence |].
           now apply H1.
    + intros Hc1 Hlo' c Hc Hc' Hp. rewrite Hpar. rewrite Less_Swap by lia.
      pose proof (parent_below c Hc) as Hpb.
      unfold swap_index. rewrite Nat.eqb_refl.
      destruct (Nat.eqb_spec (first + c) (first + r)) as [E3 | N3]; [lia |].
      destruct (Nat.eqb_spec (first + c) (first + child)) as [E4 | N4]; [lia |].
      rewrite <- Hp. apply H1; auto; lia.
    + split; [eapply rearranges_trans; eauto | exact Hh].
Qed.

Lemma siftDown_spec first lo hi (l : list A) :
  first + hi <= List.length l ->
  heap_from l first (lo + 1) hi ->
  rearranges l (siftDown less l lo hi first) first (first + hi)
  /\ heap_from (siftDown less l lo hi first) first lo hi.
Proof.
  intros Hlen Hh. unfold siftDown.
  apply siftDown_loop_spec; auto; try lia.
  - intros c Hc Hchi Hp Hne. apply Hh; auto. lia.
  - intros Hlo Hp. pose proof (parent_below lo Hlo). lia.
Qed.

Lemma heap_build_spec first hi : forall i (l : list A),
  first + hi <= List.length l -> heap_from l first (i + 1) hi ->
  rearranges l (heap_build less l i hi first) first (first + hi)
  /\ heap_from (heap_build less l i hi first) first 0 hi.
Proof.
  induction i as [| i IH]; intros l Hlen Hh; cbn [heap_build].
  - now apply siftDown_spec.
  - destruct (siftDown_spec first (S i) hi l Hlen Hh) as (R1 & H1).
    destruct (IH (siftDown less l (S i) hi first)) as (R2 & H2).
    + destruct R1 as (L & _). now rewrite L.
    + now rewrite Nat.add_1_r.
    + split; [eapply rearranges_trans; eauto | exact H2].
Qed.

(** The root of a heap is not less than any of its nodes. *)
Lemma heap_max first n (l : list A) :
  first + n <= List.length l -> heap_from l first 0 n ->
  forall c, c < n -> Less l first (first + c) = false.
Proof.
  intros Hlen Hh c. induction c as [c IH] using lt_wf_ind. intros Hc.
  destruct (Nat.eq_dec c 0) as [-> | N].
  - rewrite Nat.add_0_r. apply Less_irrefl.
  - pose proof (parent_below c ltac:(lia)) as Hp.
    apply (Less_negtrans l first (first + (c - 1) / 2) (first + c)).
    + lia.
    + apply IH; lia.
    + apply Hh; lia.
Qed.

Lemma Swap_same_index (l : list A) i : Swap l i i = l.
Proof.
  destruct (Nat.lt_ge_cases i (List.length l)) as [L | G];
    [| apply Swap_out_of_range; lia].
  apply nth_error_ext_eq. intros k. rewrite nth_error_Swap by assumption.
  unfold swap_index. destruct (Nat.eqb_spec k i); congruence.
Qed.

Lemma heap_pop_spec first hi : forall i (l : list A),
  i < hi -> first + hi <= List.length l ->
  heap_from l first 0 (i + 1) ->
  sorted_range l (first + i + 1) (first + hi) ->
  (forall c k, c <= i -> i < k < hi -> Less l (first + k) (first + c) = false) ->
  rearranges l (heap_pop less l i first) first (first + hi)
  /\ sorted_range (heap_pop less l i first) first (first + hi).
Proof.
  induction i as [| i IH]; intros l Hi Hlen Hh Hs Hc; cbn [heap_pop]; cbv zeta.
  - rewrite Nat.add_0_r. rewrite Swap_same_index.
    change (siftDown less l 0 0 first) with l.
    split; [apply rearranges_refl |].
    intros x y Hx Hxy Hy.
    destruct (Nat.eq_dec x first) as [-> | N].
    + pose proof (Hc 0 (y - first) ltac:(lia) ltac:(lia)) as H.
      rewrite Nat.add_0_r in H. now replace (first + (y - first)) with y in H by lia.
    + apply Hs; lia.
  - set (l1 := Swap l first (first + S i)).
    assert (R1 : rearranges l l1 first (first + hi)) by (apply rearranges_Swap; lia).
    assert (L1 : List.length l1 = List.length l) by apply length_Swap.
    assert (Hmax := heap_max first (S i + 1) l ltac:(lia) Hh).
    destruct (siftDown_spec first 0 (S i) l1 ltac:(lia)) as (R2 & H2).
    { intros c Hc1 Hc2 Hp. unfold l1. rewrite Less_Swap by lia.
      pose proof (parent_below c Hc1). swap_cases. apply Hh; lia. }
    set (l2 := siftDown less l1 0 (S i) first) in *.
    assert (L2 : List.length l2 = List.length l) by (destruct R2 as (L & _); lia).
    assert (R12 : rearranges l l2 first (first + hi)).
    { eapply rearranges_trans; [exact R1 |].
      eapply rearranges_widen; [exact R2 | lia | lia]. }
    assert (Hroot : forall k, nth_error l2 (first + S i + k) =
                              nth_error l1 (first + S i + k)).
    { intros k. destruct R2 as (_ & _ & O & _). apply O. lia. }
    destruct (IH l2) as (R3 & S3).
    + lia.
    + lia.
    + replace (i + 1) with (S i) by lia. exact H2.
    + intros x y Hx Hxy Hy.
      replace x with (first + S i + (x - (first + S i))) by lia.
      replace y with (first + S i + (y - (first + S i))) by lia.
      rewrite (Less_congr l1 l2 _ _ _ _ (Hroot _) (Hroot _)).
      unfold l1. rewrite Less_Swap by lia. unfold swap_index.
      destruct (Nat.eqb_spec (first + S i + (y - (first + S i))) first); [lia |].
      destruct (Nat.eqb_spec (first + S i + (y - (first + S i))) (first + S i)); [lia |].
      destruct (Nat.eqb_spec (first + S i + (x - (first + S i))) first); [lia |].
      destruct (Nat.eqb_spec (first + S i + (x - (first + S i))) (first + S i)).
      * pose proof (Hc 0 (y - first) ltac:(lia) ltac:(lia)) as H.
        rewrite Nat.add_0_r in H.
        now replace (first + (y - first)) with (first + S i + (y - (first + S i))) in H
          by lia.
      * apply Hs; lia.
    + intros c k Hck Hk.
      assert (Hout : forall c', first <= c' < first + S i ->
                Less l1 (first + k) c' = false).
      { intros c' Hc'. unfold l1. rewrite Less_Swap by lia. unfold swap_index.
        destruct (Nat.eqb_spec (first + k) first) as [E1 | N1]; [lia |].
        destruct (Nat.eqb_spec c' (first + S i)) as [E2 | N2]; [lia |].
        destruct (Nat.eqb_spec (first + k) (first + S i)) as [E3 | N3];
          destruct (Nat.eqb_spec c' first) as [E4 | N4].
        - apply Hmax. lia.
        - replace c' with (first + (c' - first)) by lia. apply Hmax. lia.
        - apply Hc; lia.
        - replace c' with (first + (c' - first)) by lia. apply Hc; lia. }
      apply (rearranges_bound' l1 l2 first (first + S i) (first + k) false R2);
        [lia | exact Hout | lia].
    + split; [eapply rearranges_trans; eauto | exact S3].
Qed.

Lemma heapSort_spec (l : list A) a b :
  a <= b <= List.length l ->
  rearranges l (heapSort less l a b) a b /\ sorted_range (heapSort less l a b) a b.
Proof.
  intros H. unfold heapSort. cbv zeta.
  destruct (heap_build_spec a (b - a) ((b - a - 1) / 2) l ltac:(lia)) as (R1 & H1).
  { intros c Hc Hchi Hp.
    pose proof (Nat.Div0.div_le_mono (c - 1) (b - a - 1) 2 ltac:(lia)). lia. }
  replace (a + (b - a)) with b in * by lia.
  destruct (Nat.eqb_spec (b - a) 0) as [E | N].
  - split; [exact R1 |]. intros i j ? ? ?. lia.
  - assert (L1 : List.length (heap_build less l ((b - a - 1) / 2) (b - a) a)
                 = List.length l) by (now destruct R1).
    destruct (heap_pop_spec a (b - a) (b - a - 1)
                (heap_build less l ((b - a - 1) / 2) (b - a) a)) as (R2 & S2);
      try lia.
    + now replace (b - a - 1 + 1) with (b - a) by lia.
    + intros i j ? ? ?. lia.
    + replace (a + (b - a)) with b in * by lia.
      split; [eapply rearranges_trans; eauto | exact S2].
Qed.

(** Two sorted halves around a pivot that separates them. *)
Lemma sorted_join (l : list A) a mid b :
  mid < List.length l ->
  sorted_range l a mid -> sorted_range l (mid + 1) b ->
  (forall i, a <= i < mid -> Less l mid i = false) ->
  (forall j, mid < j < b -> Less l j mid = false) ->
  sorted_range l a b.
Proof.
  intros Hm S1 S2 HL HR i j Hi Hij Hj.
  destruct (Nat.lt_trichotomy j mid) as [Lj | [-> | Gj]].
  - apply S1; lia.
  - apply HL; lia.
  - destruct (Nat.lt_trichotomy i mid) as [Li | [-> | Gi]].
    + apply (Less_negtrans l j mid i); [exact Hm | apply HR; lia | apply HL; lia].
    + apply HR; lia.
    + apply S2; lia.
Qed.

Lemma rearranges_length (l l' : list A) a b :
  rearranges l l' a b -> List.length l' = List.length l.
Proof. now intros (L & _). Qed.

Lemma pdqsort_equal_case (l d4 l' : list A) a mid b :
  a < mid <= b -> b <= List.length d4 -> 1 <= a ->
  (forall k, a <= k < b -> Less d4 k (a - 1) = false) ->
  Less d4 (a - 1) a = false ->
  (forall k, a <= k < mid -> Less d4 a k = false) ->
  (forall k, mid <= k < b -> Less d4 a k = true) ->
  rearranges d4 l' mid b -> sorted_range l' mid b ->
  sorted_range l' a b.
Proof.
  intros Hm Hb Ha Hlow Hpiv HL HR R Hs.
  assert (Hge : forall k, a <= k < b -> Less d4 k a = false).
  { intros k Hk. apply (Less_negtrans d4 k (a - 1) a); [lia | now apply Hlow | exact Hpiv]. }
  destruct R as (L & _ & O & I).
  intros i j Hi Hij Hj.
  destruct (Nat.lt_ge_cases i mid) as [Li | Gi]; [| apply Hs; lia].
  destruct (Nat.lt_ge_cases j mid) as [Lj | Gj].
  - rewrite (Less_congr d4 l' j i j i); [| apply O; lia | apply O; lia].
    apply (Less_negtrans d4 j a i); [lia | apply Hge; lia | apply HL; lia].
  - destruct (I j ltac:(lia)) as (j' & Hj' & E).
    rewrite (Less_congr d4 l' j' i j i); [| exact E | apply O; lia].
    apply (Less_negtrans d4 j' a i); [lia | apply Hge; lia | apply HL; lia].
Qed.


Lemma bound_outside (l l' : list A) x y a b p (v : bool) :
  rearranges l l' x y -> (b <= x \/ y <= a) -> (p < x \/ y <= p) ->
  (forall k, a <= k < b -> Less l k p = v) ->
  forall k, a <= k < b -> Less l' k p = v.
Proof.
  intros (L & P & O & I) Hd Hp H k Hk. rewrite <- (H k Hk).
  apply Less_congr; apply O; lia.
Qed.

Lemma pdqsort_partition_case (d4 d5 l' : list A) a mid b (leftFirst : bool) :
  a <= mid < b -> b <= List.length d4 ->
  (forall k, a <= k < mid -> Less d4 k mid = true) ->
  (forall k, mid < k < b -> Less d4 k mid = false) ->
  (if leftFirst
   then rearranges d4 d5 a mid /\ rearranges d5 l' (mid + 1) b
   else rearranges d4 d5 (mid + 1) b /\ rearranges d5 l' a mid) ->
  sorted_range l' a mid -> sorted_range l' (mid + 1) b ->
  sorted_range l' a b.
Proof.
  intros Hm Hb HL HR HRe S1 S2.
  assert (HL' : forall k, a <= k < mid -> Less l' k mid = true).
  { destruct leftFirst; destruct HRe as (R1 & R2).
    - apply (bound_outside d5 l' (mid + 1) b); [exact R2 | lia | lia |].
      apply (rearranges_bound d4 d5 a mid); [exact R1 | lia | exact HL].
    - apply (rearranges_bound d5 l' a mid); [exact R2 | lia |].
      apply (bound_outside d4 d5 (mid + 1) b); [exact R1 | lia | lia | exact HL]. }
  assert (HR' : forall k, mid + 1 <= k < b -> Less l' k mid = false).
  { destruct leftFirst; destruct HRe as (R1 & R2).
    - apply (rearranges_bound d5 l' (mid + 1) b); [exact R2 | lia |].
      apply (bound_outside d4 d5 a mid); [exact R1 | lia | lia |].
      intros k Hk. apply HR. lia.
    - apply (bound_outside d5 l' a mid); [exact R2 | lia | lia |].
      apply (rearranges_bound d4 d5 (mid + 1) b); [exact R1 | lia |].
      intros k Hk. apply HR. lia. }
  assert (Hlen : List.length l' = List.length d4).
  { destruct leftFirst; destruct HRe as (R1 & R2);
      rewrite (rearranges_length _ _ _ _ R2); apply (rearranges_length _ _ _ _ R1). }
  apply (sorted_join l' a mid b); auto; try lia.
  - intros i Hi. apply Less_asym. now apply HL'.
  - intros j Hj. apply HR'. lia.
Qed.

(** The main loop: with enough fuel for the range, [data[a:b]] comes out
    sorted and holds the elements it held before.  The caller guarantees
    that [data[a-1]], when there is one, is not greater than anything in the
    range. *)
Lemma pdqsort_spec (rng : Z -> Z) fuel :
  forall (l : list A) a b limit wb wp,
    a <= b <= List.length l -> b - a < fuel ->
    (a = 0 \/ forall k, a <= k < b -> Less l k (a - 1) = false) ->
    rearranges l (pdqsort less rng fuel l a b limit wb wp) a b
    /\ sorted_range (pdqsort less rng fuel l a b limit wb wp) a b.
Proof.
  induction fuel as [| fuel IH]; intros l a b limit wb wp Hab Hfuel Hlow; [lia |].
  cbn [pdqsort]. cbv zeta.
  destruct (Nat.leb_spec (b - a) 12) as [Hshort | Hlong];
    [now apply insertionSort_spec |].
  destruct (Nat.eqb_spec limit 0) as [_ | _]; [now apply heapSort_spec |].
  set (d1 := if wb then l else breakPatterns rng l a b).
  set (limit' := if wb then limit else limit - 1).
  assert (R1 : rearranges l d1 a b).
  { subst d1. destruct wb; [apply rearranges_refl | apply breakPatterns_spec]. }
  pose proof (choosePivot_range d1 a b ltac:(lia)) as Hp0.
  destruct (choosePivot less d1 a b) as [pivot0 hint0]. cbn [fst] in Hp0.
  remember (if is_decreasing hint0
            then (reverseRange d1 a b, b - 1 - (pivot0 - a), increasingHint)
            else (d1, pivot0, hint0)) as t2 eqn:E2.
  destruct t2 as [[d2 pivot] hint].
  assert (R2 : rearranges d1 d2 a b /\ a <= pivot < b).
  { destruct (is_decreasing hint0); inversion E2; subst; split; try lia.
    - apply reverseRange_spec. lia.
    - apply rearranges_refl. }
  destruct R2 as (R2 & Hp). clear E2.
  assert (R12 : rearranges l d2 a b) by (eapply rearranges_trans; eauto).
  remember (if wb && wp && is_increasing hint
            then partialInsertionSort less d2 a b
            else (d2, false)) as t3 eqn:E3.
  destruct t3 as [d3 ok].
  assert (R3 : rearranges d2 d3 a b /\ (ok = true -> sorted_range d3 a b)).
  { destruct (wb && wp && is_increasing hint).
    - pose proof (partialInsertionSort_spec d2 a b ltac:(lia)
                    ltac:(rewrite (rearranges_length _ _ _ _ R12); lia)
                    (lower_bound_rearranged _ _ _ _ R12 Hlow)) as H.
      rewrite <- E3 in H. exact H.
    - inversion E3; subst. split; [apply rearranges_refl | discriminate]. }
  destruct R3 as (R3 & Hok). clear E3.
  assert (R : rearranges l d3 a b) by (eapply rearranges_trans; eauto).
  assert (L3 : List.length d3 = List.length l) by (apply (rearranges_length _ _ _ _ R)).
  pose proof (lower_bound_rearranged _ _ _ _ R Hlow) as Hlow3.
  destruct ok; [split; [exact R | now apply Hok] |].
  destruct ((0 <? a) && negb (Less d3 (a - 1) pivot)) eqn:Heq.
  - (* the pivot equals the predecessor of the range *)
    apply andb_true_iff in Heq. destruct Heq as (Ha & Hpiv).
    apply Nat.ltb_lt in Ha. apply negb_true_iff in Hpiv.
    destruct Hlow3 as [-> | Hlow3]; [lia |].
    pose proof (partitionEqual_spec d3 a b pivot ltac:(lia) ltac:(lia) Hp) as P.
    destruct (partitionEqual less d3 a b pivot) as [d4 mid].
    destruct P as (R4 & Hm & Epiv & HL & HR).
    assert (L4 : List.length d4 = List.length d3) by (apply (rearranges_length _ _ _ _ R4)).
    assert (Hlow4 : forall k, a <= k < b -> Less d4 k (a - 1) = false).
    { eapply rearranges_bound; [exact R4 | lia | exact Hlow3]. }
    assert (Hpiv4 : Less d4 (a - 1) a = false).
    { rewrite <- Hpiv. apply Less_congr; [| exact Epiv].
      destruct R4 as (_ & _ & O & _). apply O. lia. }
    destruct (IH d4 mid b limit' wb wp) as (R5 & S5); [lia | lia | |].
    { right. intros k Hk.
      destruct (Less d4 k (mid - 1)) eqn:Hc; [| reflexivity].
      rewrite <- (HL (mid - 1) ltac:(lia)). symmetry.
      apply (Less_trans d4 a k (mid - 1)); [apply HR; lia | exact Hc]. }
    split.
    + eapply rearranges_trans; [exact R |].
      eapply rearranges_trans; [exact R4 |].
      eapply rearranges_widen; [exact R5 | lia | lia].
    + apply (pdqsort_equal_case l d4 _ a mid b); auto; lia.
  - (* the usual case: partition around the pivot and sort both sides *)
    pose proof (partition_spec d3 a b pivot ltac:(lia) ltac:(lia) Hp) as P.
    destruct (partition less d3 a b pivot) as [[d4 mid] already]. cbn [fst] in P.
    destruct P as (R4 & Hm & HL & HR).
    assert (L4 : List.length d4 = List.length d3) by (apply (rearranges_length _ _ _ _ R4)).
    pose proof (lower_bound_rearranged _ _ _ _ R4 Hlow3) as Hlow4.
    assert (R04 : rearranges l d4 a b) by (eapply rearranges_trans; eauto).
    destruct (mid - a <? b - mid).
    + destruct (IH d4 a mid limit' true true) as (R5 & S5); [lia | lia | |].
      { destruct Hlow4 as [-> | H]; [now left | right]. intros k Hk. apply H. lia. }
      set (d5 := pdqsort less rng fuel d4 a mid limit' true true) in *.
      assert (L5 : List.length d5 = List.length d4) by (apply (rearranges_length _ _ _ _ R5)).
      destruct (IH d5 (mid + 1) b limit' (((b - a) / 8) <=? (mid - a)) already)
        as (R6 & S6); [lia | lia | |].
      { right. replace (mid + 1 - 1) with mid by lia.
        apply (bound_outside d4 d5 a mid); [exact R5 | lia | lia |].
        intros k Hk. apply HR. lia. }
      split.
      * eapply rearranges_trans; [exact R04 |].
        eapply rearranges_trans; eapply rearranges_widen; eauto; lia.
      * apply (pdqsort_partition_case d4 d5 _ a mid b true); auto; try lia.
        apply (rearranges_sorted_outside d5 _ (mid + 1) b); auto. lia.
    + destruct (IH d4 (mid + 1) b limit' true true) as (R5 & S5); [lia | lia | |].
      { right. replace (mid + 1 - 1) with mid by lia.
        intros k Hk. apply HR. lia. }
      set (d5 := pdqsort less rng fuel d4 (mid + 1) b limit' true true) in *.
      assert (L5 : List.length d5 = List.length d4) by (apply (rearranges_length _ _ _ _ R5)).
      destruct (IH d5 a mid limit' (((b - a) / 8) <=? (b - mid)) already)
        as (R6 & S6); [lia | lia | |].
      { destruct Hlow4 as [-> | H]; [now left | right].
        apply (bound_outside d4 d5 (mid + 1) b); [exact R5 | lia | lia |].
        intros k Hk. apply H. lia. }
      split.
      * eapply rearranges_trans; [exact R04 |].
        eapply rearranges_trans; eapply rearranges_widen; eauto; lia.
      * apply (pdqsort_partition_case d4 d5 _ a mid b false); auto; try lia.
        apply (rearranges_sorted_outside d5 _ a mid); auto. lia.
Qed.

(** [sort.Slice]: the result is in order and holds the same elements, for
    every slice and every generator of pseudo-random numbers. *)
Lemma Slice_spec (rng : Z -> Z) (x : list A) :
  Permutation (Slice less rng x) x
  /\ sorted_range (Slice less rng x) 0 (List.length x).
Proof.
  unfold Slice. cbv zeta.
  destruct (pdqsort_spec rng (S (List.length x)) x 0 (List.length x)
              (bitsLen (List.length x)) true true) as ((_ & P & _) & Hs);
    [lia | lia | now left |].
  split; [exact P | exact Hs].
Qed.

Lemma sorted_range_cons (y : A) (l : list A) :
  sorted_range (y :: l) 0 (S (List.length l)) ->
  Forall (fun z => less z y = false) l /\ sorted_range l 0 (List.length l).
Proof.
  intros Hs. split.
  - apply Forall_forall. intros z Hz.
    destruct (In_nth_error _ _ Hz) as (n & Hn).
    assert (n < List.length l) by (apply nth_error_Some; congruence).
    specialize (Hs 0 (S n) ltac:(lia) ltac:(lia) ltac:(lia)).
    unfold GoSort.Less in Hs. cbn [nth_error] in Hs. now rewrite Hn in Hs.
  - intros i j Hi Hij Hj.
    apply (Hs (S i) (S j)); lia.
Qed.

(** In list terms: no element is less than one before it. *)
Lemma sorted_range_StronglySorted (l : list A) :
  sorted_range l 0 (List.length l) ->
  StronglySorted (fun y z => less z y = false) l.
Proof.
  induction l as [| y l IH]; intros Hs; [constructor |].
  destruct (sorted_range_cons y l Hs) as (Hall & Hs').
  constructor; [now apply IH | exact Hall].
Qed.

(** *** Stability of the insertion sort *)

Lemma Swap_adjacent (l : list A) j (u v : A) :
  nth_error l j = Some u -> nth_error l (S j) = Some v ->
  exists pre post,
    l = (pre ++ u :: v :: post)%list
    /\ Swap l (S j) j = (pre ++ v :: u :: post)%list.
Proof.
  revert l. induction j as [| j IH]; intros l Hu Hv.
  - destruct l as [| u' [| v' post]]; try discriminate.
    injection Hu as ->. injection Hv as ->.
    exists [], post. split; reflexivity.
  - destruct l as [| w l]; [discriminate |].
    cbn [nth_error] in Hu. change (nth_error (w :: l) (S (S j))) with (nth_error l (S j)) in Hv.
    destruct (IH l Hu Hv) as (pre & post & El & Es).
    exists (w :: pre), post. split; [cbn; now rewrite <- El |].
    unfold GoSort.Swap in *.
    change (nth_error (w :: l) (S (S j))) with (nth_error l (S j)).
    change (nth_error (w :: l) (S j)) with (nth_error l j).
    rewrite Hu, Hv in *. cbn [GoSlice.set_nth]. cbn [app]. now rewrite Es.
Qed.

Lemma tied_not_less (x u v : A) :
  tied less x u = true -> tied less x v = true -> less v u = false.
Proof.
  unfold tied. intros Hu Hv.
  apply andb_true_iff in Hu, Hv. destruct Hu as (Hu & _), Hv as (_ & Hv).
  apply negb_true_iff in Hu, Hv.
  exact (less_negtrans v x u Hv Hu).
Qed.

Lemma keeps_ties_refl (l : list A) : keeps_ties less l l.
Proof. intros x. reflexivity. Qed.

Lemma keeps_ties_trans (l1 l2 l3 : list A) :
  keeps_ties less l1 l2 -> keeps_ties less l2 l3 -> keeps_ties less l1 l3.
Proof. intros H1 H2 x. now rewrite H2, H1. Qed.

(** Exchanging two neighbours of which one is less than the other leaves
    every group of tied elements in its order. *)
Lemma Swap_keeps_ties (l : list A) j :
  Less l (S j) j = true -> keeps_ties less l (Swap l (S j) j).
Proof.
  intros HL x. unfold GoSort.Less in HL.
  destruct (nth_error l (S j)) as [v |] eqn:Hv; [| discriminate].
  destruct (nth_error l j) as [u |] eqn:Hu; [| discriminate].
  destruct (Swap_adjacent l j u v Hu Hv) as (pre & post & El & Es).
  rewrite Es. rewrite El. rewrite !filter_app. f_equal. cbn [filter].
  destruct (tied less x u) eqn:Tu, (tied less x v) eqn:Tv; try reflexivity.
  rewrite (tied_not_less x u v Tu Tv) in HL. discriminate.
Qed.

Lemma insertion_inner_keeps_ties j : forall (l : list A) a,
  keeps_ties less l (insertion_inner less l a j).
Proof.
  induction j as [| j IH]; intros l a; cbn [insertion_inner];
    [apply keeps_ties_refl |].
  destruct ((a <? S j) && Less l (S j) j) eqn:E; [| apply keeps_ties_refl].
  apply andb_true_iff in E. destruct E as (_ & E).
  eapply keeps_ties_trans; [apply Swap_keeps_ties; exact E | apply IH].
Qed.

Lemma insertion_outer_keeps_ties n : forall (l : list A) a i,
  keeps_ties less l (insertion_outer less l a i n).
Proof.
  induction n as [| n IH]; intros l a i; cbn [insertion_outer];
    [apply keeps_ties_refl |].
  eapply keeps_ties_trans; [apply insertion_inner_keeps_ties | apply IH].
Qed.

Lemma insertionSort_keeps_ties (l : list A) a b :
  keeps_ties less l (insertionSort less l a b).
Proof. apply insertion_outer_keeps_ties. Qed.

(** Up to [maxInsertion] elements, [sort.Slice] is the insertion sort. *)
Lemma Slice_short (rng : Z -> Z) (x : list A) :
  List.length x <= 12 ->
  Slice less rng x = insertionSort less x 0 (List.length x).
Proof.
  intros H. unfold Slice. cbv zeta. cbn [pdqsort]. cbv zeta.
  rewrite Nat.sub_0_r.
  destruct (Nat.leb_spec (List.length x) 12); [reflexivity | lia].
Qed.

Lemma Slice_short_keeps_ties (rng : Z -> Z) (x : list A) :
  List.length x <= 12 -> keeps_ties less x (Slice less rng x).
Proof.
  intros H. rewrite (Slice_short rng x H). apply insertionSort_keeps_ties.
Qed.

End SortFacts.

Section StringOrder.
Import Log ModelPkg Aws.

Lemma ascii_compare_refl (a : ascii) : Ascii.compare a a = Eq.
Proof. apply N.compare_refl. Qed.

Lemma ascii_compare_lt_trans (a b c : ascii) :
  Ascii.compare a b = Lt -> Ascii.compare b c = Lt -> Ascii.compare a c = Lt.
Proof.
  unfold Ascii.compare. rewrite !N.compare_lt_iff. apply N.lt_trans.
Qed.

Lemma string_compare_refl (s : string) : String.compare s s = Eq.
Proof.
  induction s as [| a s IH]; [reflexivity |].
  cbn [String.compare]. now rewrite ascii_compare_refl.
Qed.

(** Go compares strings byte by byte; so does [String.compare]. *)
Lemma string_compare_lt_trans (x : string) : forall y z,
  String.compare x y = Lt -> String.compare y z = Lt -> String.compare x z = Lt.
Proof.
  induction x as [| a x IH]; intros [| b y] [| c z]; cbn [String.compare];
    try discriminate; try reflexivity.
  destruct (Ascii.compare a b) eqn:E1; try discriminate;
    destruct (Ascii.compare b c) eqn:E2; try discriminate; intros H1 H2.
  - apply Ascii.compare_eq_iff in E1, E2. subst.
    rewrite ascii_compare_refl. now apply (IH y z).
  - apply Ascii.compare_eq_iff in E1. subst. now rewrite E2.
  - apply Ascii.compare_eq_iff in E2. subst. now rewrite E1.
  - now rewrite (ascii_compare_lt_trans a b c E1 E2).
Qed.

Lemma string_ltb_irrefl (x : string) : String.ltb x x = false.
Proof. unfold String.ltb. now rewrite string_compare_refl. Qed.

Lemma string_ltb_trans (x y z : string) :
  String.ltb x y = true -> String.ltb y z = true -> String.ltb x z = true.
Proof.
  unfold String.ltb. intros H1 H2.
  destruct (String.compare x y) eqn:E1; try discriminate.
  destruct (String.compare y z) eqn:E2; try discriminate.
  now rewrite (string_compare_lt_trans x y z E1 E2).
Qed.

Lemma string_ltb_negtrans (x y z : string) :
  String.ltb x y = false -> String.ltb y z = false -> String.ltb x z = false.
Proof.
  unfold String.ltb. intros H1 H2.
  destruct (String.compare x z) eqn:E; try reflexivity. exfalso.
  destruct (String.compare x y) eqn:E1; try discriminate.
  - apply String.compare_eq_iff in E1. subst. now rewrite E in H2.
  - destruct (String.compare y z) eqn:E2; try discriminate.
    + apply String.compare_eq_iff in E2. subst. congruence.
    + rewrite String.compare_antisym in E1, E2.
      destruct (String.compare y x) eqn:F1; try discriminate.
      destruct (String.compare z y) eqn:F2; try discriminate.
      pose proof (string_compare_lt_trans z y x F2 F1) as F.
      rewrite String.compare_antisym, F in E. discriminate.
Qed.

(** The closure handed to [sort.Slice] is a strict weak order on queues. *)
Lemma name_less_irrefl tc (x : Queue) : name_less tc x x = false.
Proof. apply string_ltb_irrefl. Qed.

Lemma name_less_trans tc (x y z : Queue) :
  name_less tc x y = true -> name_less tc y z = true -> name_less tc x z = true.
Proof. apply string_ltb_trans. Qed.

Lemma name_less_negtrans tc (x y z : Queue) :
  name_less tc x y = false -> name_less tc y z = false -> name_less tc x z = false.
Proof. apply string_ltb_negtrans. Qed.

End StringOrder.

(** ** The parallel detail fan-out *)

Section FanOutFacts.
Import Log ModelPkg Aws.
Local Open Scope nat_scope.

Variable sqs : Sqs.
Variable queueURLs : list string.

Lemma all_done_nth ws i st :
  forallb is_done ws = true -> nth_error ws i = Some st -> st = Done.
Proof.
  intros H E. rewrite forallb_forall in H. apply nth_error_In in E.
  specialize (H _ E). now destruct st.
Qed.

Lemma init_consistent : consistent sqs queueURLs (init queueURLs) [].
Proof.
  constructor; cbn [init workers queues sem spawned pc closed results logs map app
                      filter flat_map existsb].
  - apply repeat_length.
  - apply repeat_length.
  - unfold count. induction (List.length queueURLs); cbn; auto.
  - unfold maxConcurrentSQSCalls. lia.
  - lia.
  - intros i. split.
    + intros H.
      assert (L : i < List.length (repeat NotStarted (List.length queueURLs))).
      { apply nth_error_Some. congruence. }
      rewrite repeat_length in L. lia.
    + intros (_ & H). rewrite nth_error_repeat by exact H. reflexivity.
  - congruence.
  - discriminate.
  - discriminate.
  - discriminate.
  - reflexivity.
  - constructor.
  - intros i st H. assert (st = NotStarted) as ->.
    { apply nth_error_In in H. now apply repeat_spec in H. }
    cbn. split; [discriminate | tauto].
  - intros i [].
  - intros i H. now rewrite nth_error_repeat.
  - reflexivity.
Qed.

Ltac use_consistent C :=
  destruct C as [Hwl Hql Hsc Hsb Hspb Hsps Hso Hcd Hcl Hrd Hrf Hpo Hpp Hpr Hqc Hlg].

Ltac fields :=
  cbn [workers queues sem spawned pc closed results logs validCount].

Lemma consistent_not_closed s received i st :
  consistent sqs queueURLs s received ->
  nth_error (workers s) i = Some st -> st <> Done -> closed s = false.
Proof.
  intros C E N. destruct (closed s) eqn:Ec; [| reflexivity].
  exfalso. apply N. eapply all_done_nth; [| exact E]. now apply (closed_done _ _ _ _ C).
Qed.

Lemma consistent_not_returned s received :
  consistent sqs queueURLs s received -> closed s = false -> pc s <> Returned.
Proof.
  intros C Ec Hp. destruct (returned_drained _ _ _ _ C Hp) as (_ & H). congruence.
Qed.

Lemma spawn_consistent s s' received :
  consistent sqs queueURLs s received ->
  fire sqs queueURLs EvSpawn s = Some s' ->
  consistent sqs queueURLs s' received /\ steps_left s' < steps_left s.
Proof.
  intros C F. cbn [fire] in F.
  destruct (pc s) eqn:Epc; try discriminate.
  destruct (Nat.ltb_spec (spawned s) (List.length queueURLs)) as [L | G]; [| discriminate].
  injection F as <-.
  assert (E : nth_error (workers s) (spawned s) = Some NotStarted).
  { apply (spawned_started _ _ _ _ C). lia. }
  assert (Ec : closed s = false).
  { destruct (closed s) eqn:Ec; [| reflexivity].
    now destruct (closed_late _ _ _ _ C Ec). }
  split.
  - use_consistent C. constructor; fields; try assumption; try congruence.
    + now rewrite length_set_nth.
    + rewrite Hsc. unfold count.
      pose proof (filter_length_set_nth holding _ _ _ Waiting E) as H. cbn in H. lia.
    + intros i. rewrite nth_error_set_nth.
      destruct (Nat.eqb_spec (spawned s) i) as [<- | N]; cbn [andb].
      * destruct (Nat.ltb_spec (spawned s) (List.length (workers s))); [| lia].
        split; [discriminate | lia].
      * rewrite Hsps. lia.
    + intros i st. rewrite nth_error_set_nth.
      destruct (Nat.eqb_spec (spawned s) i) as [<- | N]; cbn [andb].
      * destruct (Nat.ltb_spec (spawned s) (List.length (workers s))); [| lia].
        intros [= <-]. apply (Hpp _ _ E).
      * apply Hpp.
  - unfold steps_left. fields. rewrite Epc.
    pose proof (list_sum_set_nth weight _ _ _ Waiting E) as H. cbn [weight] in H. lia.
Qed.

Lemma begin_collect_consistent s s' received :
  consistent sqs queueURLs s received ->
  fire sqs queueURLs EvBeginCollect s = Some s' ->
  consistent sqs queueURLs s' received /\ steps_left s' < steps_left s.
Proof.
  intros C F. cbn [fire] in F.
  destruct (pc s) eqn:Epc; try discriminate.
  destruct (Nat.eqb_spec (spawned s) (List.length queueURLs)) as [L | G]; [| discriminate].
  injection F as <-. split.
  - use_consistent C. constructor; fields; try assumption; try congruence.
  - unfold steps_left. fields. rewrite Epc. lia.
Qed.

(** A worker changes status without its result reaching or leaving the
    channel. *)
Lemma status_change_pending s received i old new :
  (forall j st, nth_error (workers s) j = Some st ->
                (pending st = false <-> In j (map fst (results s) ++ received))) ->
  nth_error (workers s) i = Some old -> pending new = pending old ->
  forall j st, nth_error (GoSlice.set_nth (workers s) i new) j = Some st ->
               (pending st = false <-> In j (map fst (results s) ++ received)).
Proof.
  intros Hpp E Hp j st. rewrite nth_error_set_nth.
  destruct (Nat.eqb_spec i j) as [<- | N]; cbn [andb].
  - destruct (i <? List.length (workers s)).
    + intros [= <-]. rewrite Hp. now apply Hpp.
    + apply Hpp.
  - apply Hpp.
Qed.

Lemma status_change_started s i old new :
  (forall j, nth_error (workers s) j = Some NotStarted <->
             spawned s <= j < List.length queueURLs) ->
  nth_error (workers s) i = Some old -> old <> NotStarted -> new <> NotStarted ->
  forall j, nth_error (GoSlice.set_nth (workers s) i new) j = Some NotStarted <->
            spawned s <= j < List.length queueURLs.
Proof.
  intros Hsps E Ho Hn j. rewrite nth_error_set_nth.
  destruct (Nat.eqb_spec i j) as [<- | N]; cbn [andb]; [| apply Hsps].
  destruct (i <? List.length (workers s)); [| apply Hsps].
  rewrite <- Hsps, E. split; congruence.
Qed.

Ltac standard_fields :=
  try assumption; try congruence; try lia;
  try (match goal with E : pc _ = _ |- _ => rewrite E in *; solve [auto | congruence] end);
  try (now rewrite length_set_nth);
  try (eapply status_change_started; eauto; discriminate);
  try (eapply status_change_pending; eauto; fail).

Ltac count_field E :=
  match goal with
  | Hsc : sem _ = count holding _ |- _ = count holding (GoSlice.set_nth _ _ ?new) =>
      let H := fresh in
      unfold count in *;
      pose proof (filter_length_set_nth holding _ _ _ new E) as H;
      cbn [holding] in H; lia
  end.

Ltac weight_field E new :=
  let H := fresh in
  unfold steps_left; fields;
  pose proof (list_sum_set_nth weight _ _ _ new E) as H; cbn [weight] in H;
  try rewrite length_app; cbn [List.length]; lia.

Lemma acquire_consistent s s' received i :
  consistent sqs queueURLs s received ->
  fire sqs queueURLs (EvAcquire i) s = Some s' ->
  consistent sqs queueURLs s' received /\ steps_left s' < steps_left s.
Proof.
  intros C F. cbn [fire] in F.
  destruct (nth_error (workers s) i) as [[| | | |] |] eqn:E; try discriminate.
  destruct (nth_error queueURLs i) as [url |] eqn:Eu; try discriminate.
  destruct (Nat.ltb_spec (sem s) maxConcurrentSQSCalls) as [L | G]; [| discriminate].
  injection F as <-.
  assert (Ec : closed s = false) by (eapply consistent_not_closed; eauto; discriminate).
  split; [| weight_field E Calling].
  use_consistent C. constructor; fields; standard_fields.
  - count_field E.
  - rewrite filter_app. cbn [filter is_warn fst]. now rewrite app_nil_r.
Qed.

Lemma release_consistent s s' received i :
  consistent sqs queueURLs s received ->
  fire sqs queueURLs (EvRelease i) s = Some s' ->
  consistent sqs queueURLs s' received /\ steps_left s' < steps_left s.
Proof.
  intros C F. cbn [fire] in F.
  destruct (nth_error (workers s) i) as [[| | | |] |] eqn:E; try discriminate.
  injection F as <-.
  assert (Ec : closed s = false) by (eapply consistent_not_closed; eauto; discriminate).
  split; [| weight_field E Done].
  use_consistent C. constructor; fields; standard_fields.
  - unfold count in *.
    pose proof (filter_length_set_nth holding _ _ _ Done E) as H.
    cbn [holding] in H. lia.
Qed.

Lemma return_consistent s s' received i :
  consistent sqs queueURLs s received ->
  fire sqs queueURLs (EvReturn i) s = Some s' ->
  consistent sqs queueURLs s' received /\ steps_left s' < steps_left s.
Proof.
  intros C F. cbn [fire] in F.
  destruct (nth_error (workers s) i) as [[| | | |] |] eqn:E; try discriminate.
  destruct (nth_error queueURLs i) as [url |] eqn:Eu; try discriminate.
  injection F as <-.
  assert (Ec : closed s = false) by (eapply consistent_not_closed; eauto; discriminate).
  assert (Hfresh : ~ In i (map fst (results s) ++ received)).
  { rewrite <- (posted_pending _ _ _ _ C _ _ E). discriminate. }
  assert (Hi : i < List.length queueURLs) by (apply nth_error_Some; congruence).
  assert (Hmem : forall j, In j (map fst (results s ++ [(i, GetQueueAttributes sqs i url)])
                              ++ received)
                           <-> j = i \/ In j (map fst (results s) ++ received)).
  { intros j. rewrite map_app, !in_app_iff. cbn. intuition. }
  pose proof (consistent_not_returned _ _ C Ec) as Hnr.
  split; [| weight_field E Posted].
  use_consistent C. constructor; fields; standard_fields.
  - count_field E.
  - rewrite !map_app. cbn [map fst]. rewrite <- Hrf. do 2 f_equal.
    unfold fetched. now rewrite Eu.
  - rewrite map_app. cbn [map fst]. rewrite <- app_assoc.
    eapply Permutation_NoDup; [| apply NoDup_cons; [exact Hfresh | exact Hpo]].
    cbn [app]. apply Permutation_middle.
  - intros j st. rewrite nth_error_set_nth, Hmem.
    destruct (Nat.eqb_spec i j) as [<- | N]; cbn [andb].
    + rewrite Hwl. destruct (Nat.ltb_spec i (List.length queueURLs)); [| lia].
      intros [= <-]. cbn. tauto.
    + intros H. rewrite (Hpp _ _ H). intuition congruence.
  - intros j. rewrite Hmem. intros [-> | H]; auto.
Qed.

Lemma close_consistent s s' received :
  consistent sqs queueURLs s received ->
  fire sqs queueURLs EvClose s = Some s' ->
  consistent sqs queueURLs s' received /\ steps_left s' < steps_left s.
Proof.
  intros C F. cbn [fire] in F.
  destruct (pc s) eqn:Epc; try discriminate.
  destruct (closed s) eqn:Ec; [discriminate |]. cbn [negb andb] in F.
  destruct (forallb is_done (workers s)) eqn:Ed; [| discriminate].
  injection F as <-. split.
  - use_consistent C. constructor; fields; standard_fields.
  - unfold steps_left. fields. rewrite Ec, Epc. lia.
Qed.

Lemma end_collect_consistent s s' received :
  consistent sqs queueURLs s received ->
  fire sqs queueURLs EvEndCollect s = Some s' ->
  consistent sqs queueURLs s' received /\ steps_left s' < steps_left s.
Proof.
  intros C F. cbn [fire] in F.
  destruct (pc s) eqn:Epc; try discriminate.
  destruct (results s) eqn:Er; [| discriminate].
  destruct (closed s) eqn:Ec; [| discriminate].
  injection F as <-. split.
  - use_consistent C. rewrite Er in Hpp, Hpr.
    constructor; fields; standard_fields.
  - unfold steps_left. fields. rewrite Epc, Er, Ec. cbn [List.length]. lia.
Qed.

Lemma existsb_snoc i received j :
  existsb (Nat.eqb i) (received ++ [j]) = existsb (Nat.eqb i) received || (i =? j).
Proof. rewrite existsb_app. cbn. now rewrite orb_false_r. Qed.

Lemma not_in_existsb i received :
  ~ In i received -> existsb (Nat.eqb i) received = false.
Proof.
  intros H. destruct (existsb (Nat.eqb i) received) eqn:E; [| reflexivity].
  apply existsb_exists in E as (x & Hx & Ex). apply Nat.eqb_eq in Ex. now subst.
Qed.

Lemma receive_consistent s s' received :
  consistent sqs queueURLs s received ->
  fire sqs queueURLs EvReceive s = Some s' ->
  exists i, consistent sqs queueURLs s' (received ++ [i])
            /\ steps_left s' < steps_left s.
Proof.
  intros C F. cbn [fire] in F.
  destruct (pc s) eqn:Epc; try discriminate.
  destruct (results s) as [| [i r] rest] eqn:Er; [discriminate |].
  exists i.
  pose proof (results_fetched _ _ _ _ C) as Hrf0. rewrite Er in Hrf0.
  cbn [map fst] in Hrf0. injection Hrf0 as Hr Hrest.
  pose proof (posted_once _ _ _ _ C) as Hnd. rewrite Er in Hnd. cbn [map fst app] in Hnd.
  apply NoDup_cons_iff in Hnd as (Hfresh & Hnd).
  assert (Hfr : ~ In i received) by (intros H; apply Hfresh, in_or_app; now right).
  assert (Hi : i < List.length queueURLs).
  { apply (posted_in_range _ _ _ _ C). rewrite Er. now left. }
  assert (Hmem : forall j, In j (map fst rest ++ received ++ [i])
                           <-> In j (map fst (results s) ++ received)).
  { intros j. rewrite Er. cbn [map fst]. rewrite !in_app_iff. cbn. intuition. }
  assert (Hnd' : NoDup (map fst rest ++ received ++ [i])).
  { eapply Permutation_NoDup; [| apply NoDup_cons; [exact Hfresh | exact Hnd]].
    rewrite app_assoc. apply Permutation_cons_append. }
  assert (Hsteps : forall lg qs vc,
            steps_left (mkFanOut Collecting (spawned s) (workers s) (sem s) rest (closed s)
                          qs vc lg) < steps_left s).
  { intros. unfold steps_left. fields. rewrite Er, Epc. cbn [List.length]. lia. }
  destruct r as [e | q]; injection F as <-; (split; [| apply Hsteps]).
  - use_consistent C. constructor; fields; standard_fields.
    + intros j st H. rewrite Hmem. now apply Hpp.
    + intros j H. apply Hpr. now apply Hmem.
    + intros j Hj. rewrite existsb_snoc, (Hqc j Hj).
      destruct (Nat.eqb_spec j i) as [-> | N]; [| now rewrite orb_false_r].
      rewrite (not_in_existsb _ _ Hfr). cbn [orb]. unfold expected. now rewrite <- Hr.
    + rewrite filter_app, flat_map_app, Hlg. cbn [filter is_warn fst flat_map].
      unfold warning. rewrite <- Hr. now rewrite app_nil_r.
  - use_consistent C. constructor; fields; standard_fields.
    + intros j st H. rewrite Hmem. now apply Hpp.
    + intros j H. apply Hpr. now apply Hmem.
    + intros j Hj. rewrite existsb_snoc, nth_error_set_nth.
      destruct (Nat.eqb_spec j i) as [-> | N].
      * rewrite Nat.eqb_refl, Hql. cbn [andb].
        destruct (Nat.ltb_spec i (List.length queueURLs)); [| lia].
        rewrite orb_true_r. unfold expected. now rewrite <- Hr.
      * destruct (Nat.eqb_spec i j); [congruence |]. cbn [andb].
        rewrite orb_false_r. now apply Hqc.
    + rewrite flat_map_app, Hlg. cbn [flat_map]. unfold warning. rewrite <- Hr.
      now rewrite !app_nil_r.
Qed.

(** Every step keeps the machine consistent and brings it closer to the
    end. *)
Lemma fire_consistent e s s' received :
  consistent sqs queueURLs s received ->
  fire sqs queueURLs e s = Some s' ->
  exists received', consistent sqs queueURLs s' received'
                    /\ steps_left s' < steps_left s.
Proof.
  intros C F. destruct e.
  - exists received. now apply spawn_consistent.
  - exists received. now apply begin_collect_consistent.
  - exists received. now apply (acquire_consistent _ _ _ i).
  - exists received. now apply (return_consistent _ _ _ i).
  - exists received. now apply (release_consistent _ _ _ i).
  - exists received. now apply close_consistent.
  - destruct (receive_consistent _ _ _ C F) as (i & H). now exists (received ++ [i]).
  - exists received. now apply end_collect_consistent.
Qed.

Lemma exec_consistent events : forall s s' received,
  consistent sqs queueURLs s received ->
  exec sqs queueURLs events s = Some s' ->
  exists received', consistent sqs queueURLs s' received'.
Proof.
  induction events as [| e events IH]; intros s s' received C X; cbn [exec] in X.
  - injection X as <-. now exists received.
  - destruct (fire sqs queueURLs e s) as [s1 |] eqn:F; [| discriminate].
    destruct (fire_consistent _ _ _ _ C F) as (r1 & C1 & _). eauto.
Qed.

Lemma in_flight_le_holding ws :
  List.length (filter (fun st => match st with Calling => true | _ => false end) ws)
  <= count holding ws.
Proof.
  unfold count. induction ws as [| [| | | |] ws IH]; cbn; lia.
Qed.

(** C3, as the code has it. In every state the fan-out can reach, whatever
    the page, the service and the interleaving, at most 10 detail fetches
    (GetQueueAttributes calls) are in flight; 10 is the constant
    maxConcurrentSQSCalls, the capacity of the semaphore channel. *)
Theorem at_most_ten_in_flight (events : list Event) (s : FanOut) :
  exec sqs queueURLs events (init queueURLs) = Some s ->
  in_flight s <= maxConcurrentSQSCalls /\ maxConcurrentSQSCalls = 10.
Proof.
  intros X. split; [| reflexivity].
  destruct (exec_consistent _ _ _ _ init_consistent X) as (received & C).
  unfold in_flight.
  pose proof (in_flight_le_holding (workers s)) as H.
  rewrite <- (sem_counts _ _ _ _ C) in H.
  pose proof (sem_bounded _ _ _ _ C). lia.
Qed.

Lemma worker_event_listed i :
  i < List.length queueURLs ->
  In (EvAcquire i) (all_events (List.length queueURLs))
  /\ In (EvReturn i) (all_events (List.length queueURLs))
  /\ In (EvRelease i) (all_events (List.length queueURLs)).
Proof.
  intros H. unfold all_events.
  assert (S : In i (seq 0 (List.length queueURLs))) by (apply in_seq; lia).
  repeat split; apply in_or_app; right; apply in_flat_map; exists i;
    (split; [exact S | cbn; tauto]).
Qed.

Lemma exists_not_done ws :
  forallb is_done ws = false -> exists i st, nth_error ws i = Some st /\ st <> Done.
Proof.
  induction ws as [| w ws IH]; cbn; [discriminate |].
  destruct w; cbn;
    try (intros _; exists 0; eexists; split; [reflexivity | discriminate]).
  intros H. destruct (IH H) as (i & st & E & N). now exists (S i), st.
Qed.

Lemma exists_holding ws :
  0 < count holding ws -> exists i st, nth_error ws i = Some st /\ holding st = true.
Proof.
  unfold count. induction ws as [| w ws IH]; cbn; [lia |].
  destruct (holding w) eqn:Hw.
  - intros _. now exists 0, w.
  - intros H. destruct (IH H) as (i & st & E & N). now exists (S i), st.
Qed.

(** While the main goroutine has not returned, something can happen: the
    fan-out cannot deadlock. *)
Lemma progress s received :
  consistent sqs queueURLs s received -> pc s <> Returned ->
  exists e, In e (all_events (List.length queueURLs))
            /\ can_fire sqs queueURLs s e = true.
Proof.
  intros C Hpc. unfold can_fire.
  destruct (pc s) eqn:Epc; [| | congruence].
  - (* the main goroutine is still starting workers *)
    destruct (Nat.ltb_spec (spawned s) (List.length queueURLs)) as [L | G].
    + exists EvSpawn. split; [cbn; tauto |]. cbn [fire]. rewrite Epc.
      destruct (Nat.ltb_spec (spawned s) (List.length queueURLs)); [reflexivity | lia].
    + exists EvBeginCollect. split; [cbn; tauto |]. cbn [fire]. rewrite Epc.
      pose proof (spawned_bounded _ _ _ _ C).
      destruct (Nat.eqb_spec (spawned s) (List.length queueURLs)); [reflexivity | lia].
  - (* the main goroutine is collecting *)
    destruct (results s) as [| [i r] rest] eqn:Er.
    2:{ exists EvReceive. split; [cbn; tauto |]. cbn [fire]. rewrite Epc, Er.
        now destruct r. }
    destruct (closed s) eqn:Ec.
    { exists EvEndCollect. split; [cbn; tauto |]. cbn [fire]. now rewrite Epc, Er, Ec. }
    destruct (forallb is_done (workers s)) eqn:Ed.
    { exists EvClose. split; [cbn; tauto |]. cbn [fire]. now rewrite Epc, Ec, Ed. }
    assert (Hsp : spawned s = List.length queueURLs).
    { apply (spawning_over _ _ _ _ C). congruence. }
    assert (Hfire : forall j st, nth_error (workers s) j = Some st -> holding st = true ->
              exists e, In e (all_events (List.length queueURLs))
                        /\ match fire sqs queueURLs e s with
                           | Some _ => true | None => false end = true).
    { intros j st E Hh.
      assert (Hj : j < List.length queueURLs).
      { rewrite <- (workers_length _ _ _ _ C). apply nth_error_Some. congruence. }
      destruct (worker_event_listed j Hj) as (_ & Hret & Hrel).
      destruct (nth_error queueURLs j) as [url |] eqn:Eu;
        [| apply nth_error_None in Eu; lia].
      destruct st; try discriminate.
      - exists (EvReturn j). split; [exact Hret |]. cbn [fire]. now rewrite E, Eu.
      - exists (EvRelease j). split; [exact Hrel |]. cbn [fire]. now rewrite E. }
    destruct (exists_not_done _ Ed) as (i & st & E & N).
    assert (Hi : i < List.length queueURLs).
    { rewrite <- (workers_length _ _ _ _ C). apply nth_error_Some. congruence. }
    destruct st; try congruence.
    + (* not started: impossible, the spawning is over *)
      apply (spawned_started _ _ _ _ C) in E. lia.
    + (* waiting for a slot *)
      destruct (Nat.ltb_spec (sem s) maxConcurrentSQSCalls) as [L | G].
      * destruct (worker_event_listed i Hi) as (Hacq & _).
        destruct (nth_error queueURLs i) as [url |] eqn:Eu;
          [| apply nth_error_None in Eu; lia].
        exists (EvAcquire i). split; [exact Hacq |]. cbn [fire]. rewrite E, Eu.
        destruct (Nat.ltb_spec (sem s) maxConcurrentSQSCalls); [reflexivity | lia].
      * assert (Hpos : 0 < count holding (workers s)).
        { rewrite <- (sem_counts _ _ _ _ C). unfold maxConcurrentSQSCalls in G. lia. }
        destruct (exists_holding _ Hpos) as (j & stj & Ej & Hh). eauto.
    + eapply Hfire; eauto.
    + eapply Hfire; eauto.
Qed.

Lemma enabled_fires s e :
  In e (enabled sqs queueURLs s) -> exists s', fire sqs queueURLs e s = Some s'.
Proof.
  unfold enabled, can_fire. intros H. apply filter_In in H as (_ & H).
  destruct (fire sqs queueURLs e s) as [s' |]; [eauto | discriminate].
Qed.

(** Under any scheduler the machine runs to the return of the main
    goroutine, and stays consistent. *)
Lemma run_returns sched rounds : forall s received,
  consistent sqs queueURLs s received -> steps_left s <= rounds ->
  exists received',
    consistent sqs queueURLs (run sqs queueURLs sched rounds s) received'
    /\ pc (run sqs queueURLs sched rounds s) = Returned.
Proof.
  induction rounds as [| rounds IH]; intros s received C Hs; cbn [run].
  - exists received. split; [exact C |].
    unfold steps_left in Hs. destruct (pc s); [lia | lia | reflexivity].
  - destruct (enabled sqs queueURLs s) as [| e0 events] eqn:En.
    + exists received. split; [exact C |].
      destruct (pc s) eqn:Epc; try reflexivity;
        (destruct (progress _ _ C ltac:(congruence)) as (e & He & Hf);
         assert (Hin : In e (enabled sqs queueURLs s))
           by (apply filter_In; split; assumption);
         rewrite En in Hin; destruct Hin).
    + cbv zeta.
      match goal with |- context [fire sqs queueURLs ?x s] => set (e := x) end.
      assert (Hin : In e (enabled sqs queueURLs s)).
      { rewrite En. apply nth_In. apply Nat.mod_upper_bound. cbn. lia. }
      destruct (enabled_fires _ _ Hin) as (s' & F). rewrite F.
      destruct (fire_consistent _ _ _ _ C F) as (r' & C' & Hlt).
      apply (IH _ _ C'). lia.
Qed.

Lemma steps_left_init : steps_left (init queueURLs) = enough_rounds queueURLs.
Proof.
  unfold steps_left, enough_rounds, init. cbn [workers results closed pc List.length].
  assert (H : forall n, list_sum (map weight (repeat NotStarted n)) = 5 * n).
  { induction n as [| n IHn]; [reflexivity |].
    cbn [repeat map weight list_sum fold_right]. unfold list_sum in IHn. lia. }
  rewrite H. lia.
Qed.

(** The slots of the collected array once the main goroutine has returned:
    the queue of every fetch that succeeded, the zero value for the others;
    and one warning per failed fetch. *)
Lemma returned_state s received :
  consistent sqs queueURLs s received -> pc s = Returned ->
  queues s = map (expected sqs queueURLs) (seq 0 (List.length queueURLs))
  /\ Permutation received (seq 0 (List.length queueURLs))
  /\ filter is_warn (logs s) = flat_map (warning sqs queueURLs) received.
Proof.
  intros C Hpc.
  destruct (returned_drained _ _ _ _ C Hpc) as (Er & Ec).
  pose proof (closed_done _ _ _ _ C Ec) as Hd.
  pose proof (posted_once _ _ _ _ C) as Hnd.
  pose proof (posted_pending _ _ _ _ C) as Hpp.
  pose proof (posted_in_range _ _ _ _ C) as Hpr.
  rewrite Er in Hnd, Hpp, Hpr. cbn [map app] in Hnd, Hpp, Hpr.
  assert (Hall : forall i, i < List.length queueURLs -> In i received).
  { intros i Hi. rewrite <- (workers_length _ _ _ _ C) in Hi.
    destruct (nth_error (workers s) i) as [st |] eqn:E;
      [| apply nth_error_None in E; lia].
    apply (Hpp _ _ E). now rewrite (all_done_nth _ _ _ Hd E). }
  split; [| split; [| apply (warnings_logged _ _ _ _ C)]].
  - apply nth_error_ext_eq. intros i.
    destruct (Nat.ltb_spec i (List.length queueURLs)) as [L | G].
    + rewrite (queues_collected _ _ _ _ C i L).
      rewrite nth_error_map, nth_error_seq.
      destruct (Nat.ltb_spec i (List.length queueURLs)); [| lia]. cbn.
      destruct (existsb (Nat.eqb i) received) eqn:Ex; [reflexivity |].
      exfalso. specialize (Hall i L).
      assert (existsb (Nat.eqb i) received = true)
        by (apply existsb_exists; exists i; split; [exact Hall | apply Nat.eqb_refl]).
      congruence.
    + rewrite (proj2 (nth_error_None _ _)) by (rewrite (queues_length _ _ _ _ C); lia).
      symmetry. apply nth_error_None. rewrite length_map, length_seq. lia.
  - apply NoDup_Permutation; [exact Hnd | apply seq_NoDup |].
    intros i. rewrite in_seq. split; [intros H; specialize (Hpr i H); lia |].
    intros H. apply Hall. lia.
Qed.

End FanOutFacts.

Section FanOutScenarios.
Import Log ModelPkg Aws.
Local Open Scope nat_scope.

(** Eleven goroutines rush for the semaphore: ten get a slot and have their
    fetch in flight, the eleventh has to wait. *)
Lemma at_most_ten_in_flight_witness :
  exists s,
    exec Scenario.sqs_ok (Scenario.page_of 11)
      (Scenario.rush 10 ++ [EvSpawn]) (init (Scenario.page_of 11)) = Some s
    /\ in_flight s = 10
    /\ fire Scenario.sqs_ok (Scenario.page_of 11) (EvAcquire 10) s = None.
Proof.
  assert (X : exists s, exec Scenario.sqs_ok (Scenario.page_of 11)
                          (Scenario.rush 10 ++ [EvSpawn]) (init (Scenario.page_of 11))
                        = Some s /\ 10 <= in_flight s
                        /\ fire Scenario.sqs_ok (Scenario.page_of 11) (EvAcquire 10) s = None)
    by (vm_compute; eexists; repeat split; [apply le_n]).
  destruct X as (s & X & Hten & Hfull). exists s. split; [exact X |].
  pose proof (at_most_ten_in_flight Scenario.sqs_ok (Scenario.page_of 11) _ _ X) as (H & E).
  rewrite E in H. split; [lia | exact Hfull].
Defined.

(** No setting lowers the cap: with a configured cap of 3, four fetches are
    in flight once four goroutines have taken a slot. *)
Lemma cap_is_not_configurable :
  ~ (forall configured : nat, 1 <= configured ->
     forall events s,
       exec Scenario.sqs_ok (Scenario.page_of 5) events (init (Scenario.page_of 5)) = Some s ->
       in_flight s <= configured).
Proof.
  intros H.
  assert (X : exists s, exec Scenario.sqs_ok (Scenario.page_of 5) (Scenario.rush 4)
                          (init (Scenario.page_of 5)) = Some s /\ in_flight s = 4)
    by (vm_compute; eexists; split; reflexivity).
  destruct X as (s & X & Hfour).
  specialize (H 3 ltac:(lia) _ _ X). lia.
Qed.

End FanOutScenarios.

(** ** The batch a fan-out returns *)

Section Batches.
Import Log ModelPkg Aws.
Local Open Scope nat_scope.
Local Open Scope string_scope.

(** The fan-out runs to its end under every scheduler: the main goroutine
    returns, every slot holds what its fetch gave and every failure was
    logged once. *)
Lemma fan_out_returns (sqs : Sqs) (sched : Scheduler) (queueURLs : list string) :
  let s := run sqs queueURLs sched (enough_rounds queueURLs) (init queueURLs) in
  pc s = Returned
  /\ queues s = map (expected sqs queueURLs) (seq 0 (List.length queueURLs))
  /\ exists received,
       Permutation received (seq 0 (List.length queueURLs))
       /\ filter is_warn (logs s) = flat_map (warning sqs queueURLs) received.
Proof.
  cbv zeta.
  destruct (run_returns sqs queueURLs sched (enough_rounds queueURLs) (init queueURLs) []
              (init_consistent sqs queueURLs))
    as (received & C & Hpc); [now rewrite steps_left_init |].
  destruct (returned_state _ _ _ _ C Hpc) as (Hq & Hp & Hw).
  split; [exact Hpc |]. split; [exact Hq |]. now exists received.
Qed.

(** Compaction and sort: the batch is the collected slots in name order;
    up to twelve of them keep the order of their ties. *)
Lemma finish_spec (tc : Toolchain) (sqs : Sqs) (sched : Scheduler) (queueURLs : list string) :
  let batch :=
    finish tc (run sqs queueURLs sched (enough_rounds queueURLs) (init queueURLs)) in
  in_name_order tc batch
  /\ Permutation batch (collected sqs queueURLs)
  /\ (List.length batch <= 12 ->
      GoSort.keeps_ties (name_less tc) (collected sqs queueURLs) batch).
Proof.
  cbv zeta. unfold finish.
  destruct (fan_out_returns sqs sched queueURLs) as (_ & -> & _).
  fold (collected sqs queueURLs).
  destruct (Slice_spec (name_less tc) (name_less_irrefl tc) (name_less_trans tc)
              (name_less_negtrans tc) (xorshiftNext tc) (collected sqs queueURLs))
    as (P & Hs).
  split; [| split; [exact P |]].
  - apply sorted_range_StronglySorted.
    now rewrite (Permutation_length P).
  - intros H. apply Slice_short_keeps_ties; [apply name_less_negtrans |].
    now rewrite <- (Permutation_length P).
Qed.

(** What [ListQueues] returns once the URLs are listed. *)
Lemma ListQueues_listed {P} (tc : Toolchain) (sqs : Sqs) (sched : Scheduler)
    (pg : Paginator P (list string)) (pages : nat) (p : P) (queueURLs : list string) :
  ListQueues_pages pg pages p [] = Some (inr queueURLs) ->
  queueURLs <> [] ->
  exists logged,
    ListQueues tc sqs sched pg pages p
    = Some (inr (finish tc (run sqs queueURLs sched (enough_rounds queueURLs)
                              (init queueURLs))), logged)
    /\ filter is_warn logged
       = filter is_warn (logs (run sqs queueURLs sched (enough_rounds queueURLs)
                                 (init queueURLs))).
Proof.
  intros H Hne. unfold ListQueues. rewrite H.
  destruct queueURLs as [| u us]; [congruence |]. cbn [List.length Nat.eqb].
  cbv zeta. eexists. split; [reflexivity |].
  rewrite !filter_app. cbn [filter is_warn fst]. now rewrite app_nil_r.
Qed.

Lemma ListQueues_result {P} (tc : Toolchain) (sqs : Sqs) (sched : Scheduler)
    (pg : Paginator P (list string)) (pages : nat) (p : P) batch logged :
  ListQueues tc sqs sched pg pages p = Some (inr batch, logged) ->
  exists queueURLs,
    ListQueues_pages pg pages p [] = Some (inr queueURLs)
    /\ batch = finish tc (run sqs queueURLs sched (enough_rounds queueURLs)
                            (init queueURLs)).
Proof.
  unfold ListQueues.
  destruct (ListQueues_pages pg pages p []) as [[e | queueURLs] |]; try discriminate.
  intros H. exists queueURLs. split; [reflexivity |].
  destruct queueURLs as [| u us].
  - cbn in H. injection H as <- _. reflexivity.
  - cbn [List.length Nat.eqb] in H. cbv zeta in H. now injection H as <- _.
Qed.

(** C1, as the code has it. Every batch that fetchQueueAttributesBatch or
    ListQueues returns is in ascending order of lowercased name and holds
    exactly the collected items; in a batch of at most 12 items, those whose
    lowercased names compare equal keep the relative order they had before
    the sort (their index order in the page). This holds for every service,
    scheduler and generator step. *)
Theorem batch_in_name_order {P} (tc : Toolchain) (sqs : Sqs) (sched : Scheduler)
    (queueURLs : list string) (pg : Paginator P (list string)) (pages : nat) (p : P) :
  (let batch := fst (fetchQueueAttributesBatch tc sqs sched queueURLs) in
   in_name_order tc batch
   /\ Permutation batch (collected sqs queueURLs)
   /\ (List.length batch <= 12 ->
       GoSort.keeps_ties (name_less tc) (collected sqs queueURLs) batch))
  /\ (forall batch logged,
        ListQueues tc sqs sched pg pages p = Some (inr batch, logged) ->
        exists listed,
          ListQueues_pages pg pages p [] = Some (inr listed)
          /\ in_name_order tc batch
          /\ Permutation batch (collected sqs listed)
          /\ (List.length batch <= 12 ->
              GoSort.keeps_ties (name_less tc) (collected sqs listed) batch)).
Proof.
  split.
  - cbv zeta. unfold fetchQueueAttributesBatch. cbn [fst]. apply finish_spec.
  - intros batch logged H.
    destruct (ListQueues_result tc sqs sched pg pages p batch logged H)
      as (listed & Hl & ->).
    exists listed. split; [exact Hl | apply finish_spec].
Qed.

Lemma batch_in_name_order_witness :
  let page := [Scenario.queue_url "Orders"; Scenario.queue_url "orders";
               Scenario.queue_url "billing"] in
  let batch := fst (fetchQueueAttributesBatch Scenario.go121 Scenario.sqs_ok
                      Scenario.first_come page) in
  map Name batch = ["billing"; "Orders"; "orders"]
  /\ in_name_order Scenario.go121 batch
  /\ GoSort.keeps_ties (name_less Scenario.go121) (collected Scenario.sqs_ok page) batch.
Proof.
  cbv zeta.
  destruct (batch_in_name_order Scenario.go121 Scenario.sqs_ok Scenario.first_come
              [Scenario.queue_url "Orders"; Scenario.queue_url "orders";
               Scenario.queue_url "billing"]
              Scenario.pages_of 1 [])
    as ((Hs & _ & Ht) & _).
  split; [vm_compute; reflexivity |]. split; [exact Hs |].
  apply Ht. vm_compute. repeat constructor.
Defined.

(** Thirteen queues, the first two of which tie: the batch has them in the
    other order, under either generator step and either scheduler, from
    fetchQueueAttributesBatch and from ListQueues. *)
Lemma thirteen_queues_lose_tie_order :
  let batch := fst (fetchQueueAttributesBatch Scenario.go121 Scenario.sqs_ok
                      Scenario.first_come Scenario.thirteen) in
  map Name (collected Scenario.sqs_ok Scenario.thirteen)
  = ["Orders"; "orders"; "a"; "b"; "c"; "d"; "e"; "f"; "g"; "h"; "i"; "j"; "k"]
  /\ map Name batch
     = ["a"; "b"; "c"; "d"; "e"; "f"; "g"; "h"; "i"; "j"; "k"; "orders"; "Orders"]
  /\ map Name (fst (fetchQueueAttributesBatch Scenario.other_go Scenario.sqs_ok
                      Scenario.last_come Scenario.thirteen))
     = ["a"; "b"; "c"; "d"; "e"; "f"; "g"; "h"; "i"; "j"; "k"; "orders"; "Orders"]
  /\ match ListQueues Scenario.go121 Scenario.sqs_ok Scenario.first_come
             Scenario.pages_of 2 [Scenario.thirteen] with
     | Some (inr listed, _) => map Name listed
     | _ => []
     end
     = ["a"; "b"; "c"; "d"; "e"; "f"; "g"; "h"; "i"; "j"; "k"; "orders"; "Orders"]
  /\ ~ GoSort.keeps_ties (name_less Scenario.go121)
         (collected Scenario.sqs_ok Scenario.thirteen) batch.
Proof.
  cbv zeta.
  split; [vm_compute; reflexivity |]. split; [vm_compute; reflexivity |].
  split; [vm_compute; reflexivity |]. split; [vm_compute; reflexivity |].
  intros H.
  specialize (H (convertQueueAttributes (Scenario.queue_url "Orders") [])).
  apply (f_equal (map Name)) in H. vm_compute in H. discriminate H.
Qed.

(** *** A page with failures *)

Lemma fetched_in_range (sqs : Sqs) (queueURLs : list string) i :
  i < List.length queueURLs ->
  exists queueURL,
    nth_error queueURLs i = Some queueURL
    /\ fetched sqs queueURLs i = GetQueueAttributes sqs i queueURL.
Proof.
  intros Hi. unfold fetched.
  destruct (nth_error queueURLs i) as [u |] eqn:E; [now exists u |].
  apply nth_error_None in E. lia.
Qed.

(** With no empty URL in the page, the slots that survive the compaction
    are those of the fetches that succeeded. *)
Lemma collected_successes (sqs : Sqs) (queueURLs : list string) :
  Forall (fun queueURL => queueURL <> "") queueURLs ->
  collected sqs queueURLs = successes sqs queueURLs.
Proof.
  intros Hne. unfold collected, successes, compact.
  assert (Hin : forall i, In i (seq 0 (List.length queueURLs)) ->
                          i < List.length queueURLs)
    by (intros i Hi; apply in_seq in Hi; lia).
  induction (seq 0 (List.length queueURLs)) as [| i rest IH]; [reflexivity |].
  cbn [map filter flat_map]. rewrite IH by (intros j Hj; apply Hin; now right).
  destruct (fetched_in_range sqs queueURLs i (Hin i (or_introl eq_refl)))
    as (u & Hu & Hf).
  unfold expected. rewrite Hf. unfold GetQueueAttributes.
  destruct (sqs i u) as [e | attrs]; [reflexivity |].
  cbn [convertQueueAttributes URL]. cbv zeta. cbn [URL].
  rewrite Forall_forall in Hne. specialize (Hne u (nth_error_In _ _ Hu)).
  destruct (String.eqb_spec u ""); [contradiction | reflexivity].
Qed.

Lemma successes_length (sqs : Sqs) (queueURLs : list string) :
  List.length (successes sqs queueURLs)
  = List.length (filter (fun i => negb (failed sqs queueURLs i))
                   (seq 0 (List.length queueURLs))).
Proof.
  unfold successes, failed.
  induction (seq 0 (List.length queueURLs)) as [| i rest IH]; [reflexivity |].
  cbn [flat_map filter]. rewrite length_app, IH.
  destruct (fetched sqs queueURLs i); reflexivity.
Qed.

Lemma all_but_one (f : nat -> bool) k n : forall start,
  f k = true ->
  (forall i, start <= i < start + n -> i <> k -> f i = false) ->
  List.length (filter (fun i => negb (f i)) (seq start n))
  = if (start <=? k)%nat && (k <? start + n)%nat then n - 1 else n.
Proof.
  induction n as [| n IH]; intros start Hk Hothers.
  - cbn [seq filter List.length]. now destruct ((start <=? k)%nat && (k <? start + 0)%nat).
  - cbn [seq filter].
    pose proof (IH (S start) Hk ltac:(intros i Hi; apply Hothers; lia)) as IHn.
    destruct (Nat.eq_dec start k) as [-> | Hne].
    + rewrite Hk. cbn [negb]. rewrite IHn.
      destruct (Nat.leb_spec (S k) k); [lia |].
      destruct (Nat.leb_spec k k); [| lia].
      destruct (Nat.ltb_spec k (k + S n)); [| lia]. cbn [andb]. lia.
    + rewrite (Hothers start) by lia. cbn [negb List.length]. rewrite IHn.
      destruct (Nat.leb_spec (S start) k), (Nat.ltb_spec k (S start + n)),
        (Nat.leb_spec start k), (Nat.ltb_spec k (start + S n)); cbn [andb]; lia.
Qed.

Lemma warning_of_success (sqs : Sqs) (queueURLs : list string) i :
  failed sqs queueURLs i = false -> warning sqs queueURLs i = [].
Proof. unfold failed, warning. now destruct (fetched sqs queueURLs i). Qed.

Lemma one_warning (sqs : Sqs) (queueURLs : list string) k (received : list nat) :
  NoDup received ->
  (forall i, In i received -> i <> k -> warning sqs queueURLs i = []) ->
  flat_map (warning sqs queueURLs) received
  = if existsb (Nat.eqb k) received then warning sqs queueURLs k else [].
Proof.
  induction received as [| i rest IH]; intros Hnd Hothers; [reflexivity |].
  inversion Hnd as [| ? ? Hnotin Hnd']; subst.
  cbn [flat_map existsb].
  rewrite IH by (auto; intros j Hj; apply Hothers; now right).
  destruct (Nat.eqb_spec k i) as [-> | Hne]; cbn [orb].
  - destruct (existsb (Nat.eqb i) rest) eqn:Ex; [| apply app_nil_r].
    apply existsb_exists in Ex. destruct Ex as (j & Hj & Ej).
    apply Nat.eqb_eq in Ej. subst. contradiction.
  - rewrite (Hothers i (or_introl eq_refl)) by congruence. reflexivity.
Qed.

(** C2, as the code has it. For a page of M URLs none of which is empty:
    when exactly one detail fetch fails and the other M-1 succeed,
    fetchQueueAttributesBatch runs to its return under every scheduler,
    logs exactly one warning, that of the failed fetch, and returns exactly
    the M-1 queues that were fetched, the slot of the failure compacted
    away; ListQueues, having listed those URLs, returns the same batch with
    a nil error and the same warning. *)
Theorem one_failed_fetch_drops_one_item {P} (tc : Toolchain) (sqs : Sqs)
    (sched : Scheduler) (queueURLs : list string) (k : nat)
    (pg : Paginator P (list string)) (pages : nat) (p : P) :
  Forall (fun queueURL => queueURL <> "") queueURLs ->
  k < List.length queueURLs ->
  failed sqs queueURLs k = true ->
  (forall i, i < List.length queueURLs -> i <> k -> failed sqs queueURLs i = false) ->
  let batch := fst (fetchQueueAttributesBatch tc sqs sched queueURLs) in
  let logged := snd (fetchQueueAttributesBatch tc sqs sched queueURLs) in
  pc (run sqs queueURLs sched (enough_rounds queueURLs) (init queueURLs)) = Returned
  /\ (exists e,
        fetched sqs queueURLs k = inl e
        /\ filter is_warn logged
           = [(Log.Warn, "Failed to get attributes for queue: " ++ Remote.Error e)])
  /\ Permutation batch (successes sqs queueURLs)
  /\ List.length batch = List.length queueURLs - 1
  /\ (ListQueues_pages pg pages p [] = Some (inr queueURLs) ->
      exists logged',
        ListQueues tc sqs sched pg pages p = Some (inr batch, logged')
        /\ filter is_warn logged' = filter is_warn logged).
Proof.
  intros Hne Hk Hfail Hothers. cbv zeta.
  unfold fetchQueueAttributesBatch. cbn [fst snd].
  destruct (fan_out_returns sqs sched queueURLs) as (Hpc & _ & received & Hperm & Hw).
  destruct (finish_spec tc sqs sched queueURLs) as (_ & Hb & _).
  rewrite (collected_successes sqs queueURLs Hne) in Hb.
  split; [exact Hpc |]. split; [| split; [exact Hb | split]].
  - rewrite Hw.
    rewrite (one_warning sqs queueURLs k received).
    + assert (Hin : existsb (Nat.eqb k) received = true).
      { apply existsb_exists. exists k. split; [| apply Nat.eqb_refl].
        apply (Permutation_in k (Permutation_sym Hperm)). apply in_seq. lia. }
      rewrite Hin. unfold failed in Hfail. unfold warning.
      destruct (fetched sqs queueURLs k) as [e |]; [| discriminate].
      now exists e.
    + apply (Permutation_NoDup (Permutation_sym Hperm)). apply seq_NoDup.
    + intros i Hi Hik. apply warning_of_success. apply Hothers; [| exact Hik].
      apply (Permutation_in i Hperm) in Hi. apply in_seq in Hi. lia.
  - rewrite (Permutation_length Hb), successes_length.
    rewrite (all_but_one (failed sqs queueURLs) k (List.length queueURLs) 0 Hfail)
      by (intros i Hi; apply Hothers; lia).
    destruct (Nat.leb_spec 0 k); [| lia].
    destruct (Nat.ltb_spec k (0 + List.length queueURLs)); [reflexivity | lia].
  - intros Hl.
    apply (ListQueues_listed tc sqs sched pg pages p queueURLs Hl).
    intros ->. cbn in Hk. lia.
Qed.

Lemma one_failed_fetch_drops_one_item_witness :
  let page := [Scenario.queue_url "orders"; Scenario.queue_url "billing";
               Scenario.queue_url "audit"] in
  let sqs := Scenario.sqs_without [Scenario.queue_url "billing"] in
  let r := fetchQueueAttributesBatch Scenario.go121 sqs Scenario.last_come page in
  map Name (fst r) = ["audit"; "orders"]
  /\ List.length (fst r) = 2
  /\ List.length (filter is_warn (snd r)) = 1.
Proof.
  cbv zeta.
  destruct (one_failed_fetch_drops_one_item Scenario.go121
              (Scenario.sqs_without [Scenario.queue_url "billing"]) Scenario.last_come
              [Scenario.queue_url "orders"; Scenario.queue_url "billing";
               Scenario.queue_url "audit"] 1
              Scenario.pages_of 1 [])
    as (_ & (e & _ & Hw) & _ & Hlen & _).
  - repeat constructor; discriminate.
  - cbn. lia.
  - vm_compute. reflexivity.
  - intros [| [| [| i]]] Hi Hne; try reflexivity; [congruence | cbn in Hi; lia].
  - split; [vm_compute; reflexivity |]. split; [exact Hlen | now rewrite Hw].
Defined.

(** A page whose first URL is empty, with one failing fetch out of three:
    the fetch for the empty URL succeeds, but its slot has an empty URL as
    the slot of the failure has, and the batch is left with one queue. *)
Lemma blank_url_is_dropped_with_the_failure :
  let sqs := Scenario.sqs_without [Scenario.queue_url "billing"] in
  let batch := fst (fetchQueueAttributesBatch Scenario.go121 sqs Scenario.first_come
                      Scenario.blank_first) in
  map (failed sqs Scenario.blank_first) [0; 1; 2] = [false; false; true]
  /\ map Name batch = ["orders"]
  /\ List.length batch <> List.length Scenario.blank_first - 1.
Proof.
  cbv zeta. split; [vm_compute; reflexivity |].
  split; [vm_compute; reflexivity |]. vm_compute. discriminate.
Qed.

End Batches.

(** ** More on the fan-out *)

Section FanOutMore.
Import Log ModelPkg Aws.
Local Open Scope nat_scope.

Lemma all_done_count_holding ws :
  forallb is_done ws = true -> count holding ws = 0.
Proof.
  unfold count. induction ws as [| st ws IH]; [reflexivity |].
  cbn [forallb]. intros H. apply andb_true_iff in H as (Hd & Hr).
  destruct st; try discriminate. cbn [filter holding]. now apply IH.
Qed.

(** X1. The fan-out of fetchQueueAttributesBatch and ListQueues cannot
    deadlock: in every state it can reach before the main goroutine has
    returned, whatever the page, the service and the interleaving so far,
    some goroutine can take its next step. *)
Theorem fan_out_never_deadlocks (sqs : Sqs) (queueURLs : list string)
    (events : list Event) (s : FanOut) :
  exec sqs queueURLs events (init queueURLs) = Some s ->
  pc s <> Returned ->
  exists e s',
    In e (all_events (List.length queueURLs))
    /\ fire sqs queueURLs e s = Some s'.
Proof.
  intros X Hpc.
  destruct (exec_consistent _ _ _ _ _ _ (init_consistent sqs queueURLs) X)
    as (received & C).
  destruct (progress _ _ _ _ C Hpc) as (e & He & Hf).
  unfold can_fire in Hf.
  destruct (fire sqs queueURLs e s) as [s' |] eqn:F; [| discriminate].
  now exists e, s'.
Qed.

Lemma fan_out_never_deadlocks_witness :
  exists s e s',
    exec Scenario.sqs_ok (Scenario.page_of 5) (Scenario.rush 3)
      (init (Scenario.page_of 5)) = Some s
    /\ In e (all_events 5)
    /\ fire Scenario.sqs_ok (Scenario.page_of 5) e s = Some s'.
Proof.
  assert (X : exists s, exec Scenario.sqs_ok (Scenario.page_of 5) (Scenario.rush 3)
                          (init (Scenario.page_of 5)) = Some s /\ pc s = Spawning)
    by (vm_compute; eexists; split; reflexivity).
  destruct X as (s & X & Hpc).
  destruct (fan_out_never_deadlocks Scenario.sqs_ok (Scenario.page_of 5) _ s X)
    as (e & s' & He & Hf); [congruence |].
  exists s, e, s'. auto.
Defined.

(** X2. Under every scheduler the fan-out returns within 5 steps per URL
    plus 3, and when it returns every worker goroutine is done, the
    semaphore is empty, no fetch is in flight and the results channel is
    closed and drained: no goroutine is left behind. *)
Theorem fan_out_returns_with_every_worker_done (sqs : Sqs) (sched : Scheduler)
    (queueURLs : list string) :
  let s := run sqs queueURLs sched (enough_rounds queueURLs) (init queueURLs) in
  pc s = Returned
  /\ List.length (workers s) = List.length queueURLs
  /\ forallb is_done (workers s) = true
  /\ sem s = 0
  /\ in_flight s = 0
  /\ results s = []
  /\ closed s = true.
Proof.
  cbv zeta.
  destruct (run_returns sqs queueURLs sched (enough_rounds queueURLs) (init queueURLs) []
              (init_consistent sqs queueURLs))
    as (received & C & Hpc); [now rewrite steps_left_init |].
  destruct (returned_drained _ _ _ _ C Hpc) as (Hr & Hc).
  pose proof (closed_done _ _ _ _ C Hc) as Hd.
  pose proof (all_done_count_holding _ Hd) as Hh.
  pose proof (in_flight_le_holding (workers (run sqs queueURLs sched
                (enough_rounds queueURLs) (init queueURLs)))) as Hf.
  split; [exact Hpc |]. split; [apply (workers_length _ _ _ _ C) |].
  split; [exact Hd |]. split; [rewrite (sem_counts _ _ _ _ C); exact Hh |].
  split; [unfold in_flight; lia |]. split; [exact Hr | exact Hc].
Qed.

(** X3. The batch does not depend on the order in which the goroutines
    run: fetchQueueAttributesBatch returns the same slice under any two
    schedulers, and so does ListQueues (results are stored by index and
    then sorted). *)
Theorem batch_independent_of_schedule {P} (tc : Toolchain) (sqs : Sqs)
    (sched sched' : Scheduler) (queueURLs : list string)
    (pg : Paginator P (list string)) (pages : nat) (p : P) :
  fst (fetchQueueAttributesBatch tc sqs sched queueURLs)
  = fst (fetchQueueAttributesBatch tc sqs sched' queueURLs)
  /\ option_map fst (ListQueues tc sqs sched pg pages p)
     = option_map fst (ListQueues tc sqs sched' pg pages p).
Proof.
  assert (H : forall urls,
             finish tc (run sqs urls sched (enough_rounds urls) (init urls))
             = finish tc (run sqs urls sched' (enough_rounds urls) (init urls))).
  { intros urls. unfold finish.
    destruct (fan_out_returns sqs sched urls) as (_ & -> & _).
    destruct (fan_out_returns sqs sched' urls) as (_ & -> & _).
    reflexivity. }
  split.
  - unfold fetchQueueAttributesBatch. cbn [fst]. apply H.
  - unfold ListQueues.
    destruct (ListQueues_pages pg pages p []) as [[e | urls] |]; try reflexivity.
    destruct (Nat.eqb (List.length urls) 0); [reflexivity |].
    cbv zeta. cbn [option_map fst]. now rewrite H.
Qed.

Lemma warning_length (sqs : Sqs) (queueURLs : list string) (indices : list nat) :
  List.length (flat_map (warning sqs queueURLs) indices)
  = List.length (filter (failed sqs queueURLs) indices).
Proof.
  induction indices as [| i rest IH]; [reflexivity |].
  cbn [flat_map filter]. rewrite length_app, IH.
  unfold warning, failed. destruct (fetched sqs queueURLs i); reflexivity.
Qed.

Lemma every_failure_logged_helper (tc : Toolchain) (sqs : Sqs) (sched : Scheduler)
    (queueURLs : list string) :
  let warnings := filter is_warn (snd (fetchQueueAttributesBatch tc sqs sched queueURLs)) in
  Permutation warnings
    (flat_map (warning sqs queueURLs) (seq 0 (List.length queueURLs)))
  /\ List.length warnings
     = List.length (filter (failed sqs queueURLs) (seq 0 (List.length queueURLs))).
Proof.
  cbv zeta. unfold fetchQueueAttributesBatch. cbn [snd].
  destruct (fan_out_returns sqs sched queueURLs) as (_ & _ & received & Hp & ->).
  split.
  - now apply Permutation_flat_map.
  - rewrite (Permutation_length (Permutation_flat_map (warning sqs queueURLs) Hp)).
    apply warning_length.
Qed.

(** X4. Every failed detail fetch is logged as a warning exactly once,
    whatever the number of failures: the warnings logged are, up to order,
    one per failed fetch of the page. *)
Theorem every_failure_is_logged_once (tc : Toolchain) (sqs : Sqs) (sched : Scheduler)
    (queueURLs : list string) :
  let warnings := filter is_warn (snd (fetchQueueAttributesBatch tc sqs sched queueURLs)) in
  Permutation warnings
    (flat_map (warning sqs queueURLs) (seq 0 (List.length queueURLs)))
  /\ List.length warnings
     = List.length (filter (failed sqs queueURLs) (seq 0 (List.length queueURLs))).
Proof. apply every_failure_logged_helper. Qed.

Lemma collected_from_page (sqs : Sqs) (queueURLs : list string) (q : Queue) :
  In q (collected sqs queueURLs) ->
  exists i queueURL attrs,
    nth_error queueURLs i = Some queueURL
    /\ sqs i queueURL = inr attrs
    /\ queueURL <> ""%string
    /\ q = convertQueueAttributes queueURL attrs.
Proof.
  unfold collected, compact. intros H. apply filter_In in H as (Hin & Hurl).
  apply in_map_iff in Hin as (i & <- & Hi). apply in_seq in Hi.
  destruct (fetched_in_range sqs queueURLs i ltac:(lia)) as (u & Hu & Hf).
  unfold expected in *. rewrite Hf in *. unfold GetQueueAttributes in *.
  destruct (sqs i u) as [e | attrs] eqn:Es; [discriminate |].
  exists i, u, attrs. split; [exact Hu |]. split; [exact Es |].
  split; [| reflexivity].
  cbn in Hurl. intros ->. discriminate.
Qed.

(** X5. A batch never holds more queues than the page has URLs, and every
    queue in it comes from a fetch of the page that succeeded: it is
    convertQueueAttributes of a URL of the page, which is not empty, and of
    the attributes the service returned for it; its URL is that URL and its
    name what extractQueueNameFromURL makes of it. *)
Theorem batch_comes_from_the_page (tc : Toolchain) (sqs : Sqs) (sched : Scheduler)
    (queueURLs : list string) :
  let batch := fst (fetchQueueAttributesBatch tc sqs sched queueURLs) in
  List.length batch <= List.length queueURLs
  /\ Forall (fun q =>
               exists i queueURL attrs,
                 nth_error queueURLs i = Some queueURL
                 /\ sqs i queueURL = inr attrs
                 /\ queueURL <> ""%string
                 /\ q = convertQueueAttributes queueURL attrs
                 /\ URL q = queueURL
                 /\ Name q = extractQueueNameFromURL queueURL)
       batch.
Proof.
  cbv zeta. unfold fetchQueueAttributesBatch. cbn [fst].
  destruct (finish_spec tc sqs sched queueURLs) as (_ & Hp & _).
  split.
  - rewrite (Permutation_length Hp). unfold collected, compact.
    etransitivity; [apply filter_length_le |]. now rewrite length_map, length_seq.
  - apply Forall_forall. intros q Hq.
    apply (Permutation_in q Hp) in Hq.
    destruct (collected_from_page sqs queueURLs q Hq) as (i & u & attrs & H1 & H2 & H3 & H4).
    exists i, u, attrs. subst q. repeat (split; [assumption || reflexivity |]). reflexivity.
Qed.

Lemma successes_all (sqs : Sqs) (queueURLs : list string) :
  (forall i, i < List.length queueURLs -> failed sqs queueURLs i = false) ->
  map URL (successes sqs queueURLs) = queueURLs.
Proof.
  intros Hok. unfold successes.
  assert (H : forall indices,
             (forall i, In i indices -> i < List.length queueURLs) ->
             map URL (flat_map (fun i => match fetched sqs queueURLs i with
                                         | inr q => [q]
                                         | inl _ => []
                                         end) indices)
             = map (fun i => nth i queueURLs ""%string) indices).
  { induction indices as [| i rest IH]; intros Hin; [reflexivity |].
    cbn [flat_map map]. rewrite map_app, IH by (intros j Hj; apply Hin; now right).
    specialize (Hok i (Hin i (or_introl eq_refl))).
    destruct (fetched_in_range sqs queueURLs i (Hin i (or_introl eq_refl)))
      as (u & Hu & Hf).
    unfold failed in Hok. rewrite Hf in *. unfold GetQueueAttributes in *.
    destruct (sqs i u) as [e | attrs]; [discriminate |].
    cbn [map app convertQueueAttributes URL]. cbv zeta. cbn [URL].
    now rewrite (nth_error_nth _ _ _ Hu). }
  rewrite H by (intros i Hi; apply in_seq in Hi; lia).
  apply nth_error_ext_eq. intros k.
  rewrite nth_error_map, nth_error_seq.
  destruct (Nat.ltb_spec k (List.length queueURLs)) as [L | G]; cbn [option_map].
  - destruct (nth_error queueURLs k) as [u |] eqn:E;
      [now rewrite (nth_error_nth _ _ _ E) | apply nth_error_None in E; lia].
  - symmetry. now apply nth_error_None.
Qed.

(** X6. When no URL of the page is empty and every detail fetch succeeds,
    the batch has exactly one queue for every URL of the page and no
    warning is logged. *)
Theorem all_fetches_succeed_keeps_every_queue (tc : Toolchain) (sqs : Sqs)
    (sched : Scheduler) (queueURLs : list string) :
  Forall (fun queueURL => queueURL <> ""%string) queueURLs ->
  (forall i, i < List.length queueURLs -> failed sqs queueURLs i = false) ->
  let batch := fst (fetchQueueAttributesBatch tc sqs sched queueURLs) in
  let logged := snd (fetchQueueAttributesBatch tc sqs sched queueURLs) in
  Permutation (map URL batch) queueURLs
  /\ List.length batch = List.length queueURLs
  /\ filter is_warn logged = [].
Proof.
  intros Hne Hok. cbv zeta.
  destruct (every_failure_logged_helper tc sqs sched queueURLs) as (Hw & Hl).
  unfold fetchQueueAttributesBatch in *. cbn [fst snd] in *.
  destruct (finish_spec tc sqs sched queueURLs) as (_ & Hp & _).
  rewrite (collected_successes sqs queueURLs Hne) in Hp.
  assert (Hu : Permutation (map URL (finish tc (run sqs queueURLs sched
                 (enough_rounds queueURLs) (init queueURLs)))) queueURLs).
  { pose proof (Permutation_map URL Hp) as Hm.
    now rewrite (successes_all sqs queueURLs Hok) in Hm. }
  split; [exact Hu |]. split.
  - rewrite <- (Permutation_length Hu). now rewrite length_map.
  - apply length_zero_iff_nil. rewrite Hl.
    apply length_zero_iff_nil. apply filter_none.
    apply forallb_forall. intros i Hi. apply in_seq in Hi.
    rewrite Hok by lia. reflexivity.
Qed.

Lemma all_fetches_succeed_keeps_every_queue_witness :
  let r := fetchQueueAttributesBatch Scenario.go121 Scenario.sqs_ok Scenario.last_come
             (Scenario.page_of 3) in
  Permutation (map URL (fst r)) (Scenario.page_of 3)
  /\ List.length (fst r) = 3
  /\ filter is_warn (snd r) = [].
Proof.
  cbv zeta.
  apply (all_fetches_succeed_keeps_every_queue Scenario.go121 Scenario.sqs_ok
           Scenario.last_come (Scenario.page_of 3)).
  - vm_compute. repeat constructor; discriminate.
  - intros [| [| [| i]]] Hi; try reflexivity. cbn in Hi. lia.
Defined.

Lemma NoDup_below_length (l : list nat) n :
  NoDup l -> (forall i, In i l -> i < n) -> List.length l <= n.
Proof.
  intros Hnd Hlt.
  assert (H : List.length l <= List.length (seq 0 n)); [| now rewrite length_seq in H].
  apply NoDup_incl_length; [exact Hnd |].
  intros i Hi. apply in_seq. specialize (Hlt i Hi). lia.
Qed.

(** X7. The results channel is made with room for one result per URL, and
    that is enough: whenever a goroutine has its fetch outstanding, in any
    reachable state, the channel holds fewer results than the page has URLs,
    so the send that follows does not block. *)
Theorem sending_a_result_never_blocks (sqs : Sqs) (queueURLs : list string)
    (events : list Event) (s : FanOut) (i : nat) :
  exec sqs queueURLs events (init queueURLs) = Some s ->
  nth_error (workers s) i = Some Calling ->
  List.length (results s) < List.length queueURLs.
Proof.
  intros X Hi.
  destruct (exec_consistent _ _ _ _ _ _ (init_consistent sqs queueURLs) X)
    as (received & C).
  pose proof (posted_once _ _ _ _ C) as Hnd.
  pose proof (posted_in_range _ _ _ _ C) as Hr.
  pose proof (posted_pending _ _ _ _ C i Calling Hi) as Hp.
  assert (Hnot : ~ In i (map fst (results s) ++ received)).
  { intros Hin. apply Hp in Hin. discriminate. }
  assert (Hlt : i < List.length queueURLs).
  { rewrite <- (workers_length _ _ _ _ C). apply nth_error_Some. congruence. }
  assert (Hlen : List.length (i :: map fst (results s) ++ received)
                 <= List.length queueURLs).
  { apply NoDup_below_length; [now constructor |].
    intros j [<- | Hj]; [exact Hlt | now apply Hr]. }
  cbn [List.length] in Hlen. rewrite length_app, length_map in Hlen. lia.
Qed.

Lemma sending_a_result_never_blocks_witness :
  exists s,
    exec Scenario.sqs_ok (Scenario.page_of 5) (Scenario.rush 3)
      (init (Scenario.page_of 5)) = Some s
    /\ List.length (results s) < 5.
Proof.
  assert (X : exists s, exec Scenario.sqs_ok (Scenario.page_of 5) (Scenario.rush 3)
                          (init (Scenario.page_of 5)) = Some s
                        /\ nth_error (workers s) 0 = Some Calling)
    by (vm_compute; eexists; split; reflexivity).
  destruct X as (s & X & Hc). exists s. split; [exact X |].
  exact (sending_a_result_never_blocks Scenario.sqs_ok (Scenario.page_of 5) _ s 0 X Hc).
Defined.

End FanOutMore.

(** ** More on the listings *)

Section ListingsMore.
Import Log ModelPkg Aws.
Local Open Scope nat_scope.
Local Open Scope string_scope.




Lemma invoked_batches_app {Item} (a b : list (Step Item)) :
  invoked_batches (a ++ b) = (invoked_batches a ++ invoked_batches b)%list.
Proof. apply flat_map_app. Qed.

Lemma invoked_flags_app {Item} (a b : list (Step Item)) :
  invoked_flags (a ++ b) = (invoked_flags a ++ invoked_flags b)%list.
Proof. apply flat_map_app. Qed.

Lemma pages_fetched_app {Item} (a b : list (Step Item)) :
  pages_fetched (a ++ b) = pages_fetched a + pages_fetched b.
Proof. unfold pages_fetched. now rewrite filter_app, length_app. Qed.

(** The loop over a fixed list of pages, under a callback that always asks
    for more. *)
Lemma queues_loop_over_pages {C} (tc : Toolchain) (sqs : Sqs) (sched : Scheduler)
    (callback : Callback C Queue) :
  (forall items more c, fst (callback items more c) = true) ->
  forall (ps : list (list string)) (pages : nat) (r : PagedRun (list (list string)) C Queue),
    pager r = ps -> List.length ps < pages ->
    let r' := ListQueuesPagedCallback_loop tc sqs sched Scenario.pages_of callback pages r in
    returned r' = Some None
    /\ pager r' = []
    /\ pages_fetched (steps r') = pages_fetched (steps r) + List.length ps
    /\ invoked_batches (steps r')
       = (invoked_batches (steps r)
          ++ map (fun page => fst (fetchQueueAttributesBatch tc sqs sched page))
               (filter (fun page => negb (Nat.eqb (List.length page) 0)) ps))%list
    /\ invoked_flags (steps r')
       = (invoked_flags (steps r) ++ Scenario.more_flags ps)%list.
Proof.
  intros Hcont ps. induction ps as [| page rest IH]; intros pages r Hp Hlen;
    (destruct pages as [| pages]; [cbn in Hlen; lia |]);
    cbv zeta; cbn [ListQueuesPagedCallback_loop]; rewrite Hp;
    cbn [Scenario.pages_of HasMorePages NextPage].
  - cbn [returned pager steps List.length filter map Scenario.more_flags].
    rewrite !app_nil_r, Nat.add_0_r.
    split; [reflexivity |]. split; [reflexivity |]. split; [reflexivity |].
    split; reflexivity.
  - cbn [List.length] in Hlen.
    destruct (Nat.eqb (List.length page) 0) eqn:Epage.
    + match goal with |- context [ListQueuesPagedCallback_loop _ _ _ _ _ _ ?r0] =>
        destruct (IH pages r0 eq_refl ltac:(lia)) as (H1 & H2 & H3 & H4 & H5)
      end.
      cbn [steps] in H3, H4, H5.
      rewrite pages_fetched_app in H3. rewrite invoked_batches_app in H4.
      rewrite invoked_flags_app in H5.
      cbn [filter Scenario.more_flags List.length]. rewrite Epage. cbn [negb app].
      split; [exact H1 |]. split; [exact H2 |].
      cbn [pages_fetched invoked_batches invoked_flags flat_map filter is_fetch
             List.length app] in H3, H4, H5.
      rewrite app_nil_r in H4, H5.
      split; [rewrite H3; fold (@pages_fetched Queue (steps r)); lia |].
      split; [exact H4 | exact H5].
    + destruct (fetchQueueAttributesBatch tc sqs sched page) as [qs lg] eqn:Ef.
      pose proof (Hcont qs (match rest with [] => false | _ => true end) (consumer r))
        as Hc.
      destruct (callback qs (match rest with [] => false | _ => true end) (consumer r))
        as [cont c'] eqn:Ecb.
      cbn [fst] in Hc. subst cont.
      match goal with |- context [ListQueuesPagedCallback_loop _ _ _ _ _ _ ?r0] =>
        destruct (IH pages r0 eq_refl ltac:(lia)) as (H1 & H2 & H3 & H4 & H5)
      end.
      cbn [steps] in H3, H4, H5.
      rewrite pages_fetched_app in H3. rewrite invoked_batches_app in H4.
      rewrite invoked_flags_app in H5.
      cbn [filter Scenario.more_flags List.length map]. rewrite Epage. cbn [negb map].
      rewrite Ef. cbn [fst].
      split; [exact H1 |]. split; [exact H2 |].
      cbn [pages_fetched invoked_batches invoked_flags flat_map filter is_fetch
             List.length app] in H3, H4, H5.
      rewrite <- app_assoc in H4, H5.
      split; [rewrite H3; fold (@pages_fetched Queue (steps r)); lia |].
      split; [exact H4 | exact H5].
Qed.

(** X9. Over a fixed list of pages and with a callback that always asks
    for more, ListQueuesPagedCallback requests every page, calls the
    callback once for every page that is not empty, in order, with the batch
    fetchQueueAttributesBatch makes of that page and with hasMore true
    exactly when pages remain, skips the empty pages, and returns nil. *)
Theorem paged_queues_one_batch_per_nonempty_page {C} (tc : Toolchain) (sqs : Sqs)
    (sched : Scheduler) (callback : Callback C Queue) (ps : list (list string))
    (pages : nat) (c : C) :
  (forall items more c, fst (callback items more c) = true) ->
  List.length ps < pages ->
  let r := ListQueuesPagedCallback tc sqs sched Scenario.pages_of callback pages ps c in
  returned r = Some None
  /\ pages_fetched (steps r) = List.length ps
  /\ invoked_batches (steps r)
     = map (fun page => fst (fetchQueueAttributesBatch tc sqs sched page))
         (filter (fun page => negb (Nat.eqb (List.length page) 0)) ps)
  /\ invoked_flags (steps r) = Scenario.more_flags ps.
Proof.
  intros Hcont Hlen. cbv zeta. unfold ListQueuesPagedCallback.
  match goal with |- context [ListQueuesPagedCallback_loop _ _ _ _ _ _ ?r0] =>
    destruct (queues_loop_over_pages tc sqs sched callback Hcont ps pages r0 eq_refl Hlen)
      as (H1 & _ & H3 & H4 & H5)
  end.
  split; [exact H1 |]. split; [exact H3 |]. split; [exact H4 | exact H5].
Qed.

Lemma paged_queues_one_batch_per_nonempty_page_witness :
  let r := ListQueuesPagedCallback Scenario.go121 Scenario.sqs_ok Scenario.first_come
             Scenario.pages_of Scenario.keep_going 5
             [[Scenario.queue_url "orders"]; []; [Scenario.queue_url "audit"]; []] 0 in
  returned r = Some None
  /\ pages_fetched (steps r) = 4
  /\ map (map Name) (invoked_batches (steps r)) = [["orders"]; ["audit"]]
  /\ invoked_flags (steps r) = [true; true].
Proof.
  cbv zeta.
  destruct (paged_queues_one_batch_per_nonempty_page Scenario.go121 Scenario.sqs_ok
              Scenario.first_come Scenario.keep_going
              [[Scenario.queue_url "orders"]; []; [Scenario.queue_url "audit"]; []] 5 0)
    as (H1 & H2 & H3 & H4); [reflexivity | cbn; lia |].
  split; [exact H1 |]. split; [exact H2 |].
  split; [rewrite H3; vm_compute; reflexivity | exact H4].
Defined.

(** The callback that appends every batch to what it has. *)
Lemma functions_loop_collects {P} (pg : Paginator P (list FunctionConfiguration)) pages :
  forall (r : PagedRun P (list Function) Function),
    returned r = None ->
    List.concat (invoked_batches (steps r)) = consumer r ->
    let r' := ListFunctionsPagedCallback_loop pg
                (fun items _ acc => (true, (acc ++ items)%list)) pages r in
    match ListFunctions_loop pg pages (pager r) (consumer r) with
    | Some (inr functions) =>
        returned r' = Some None /\ consumer r' = functions
        /\ List.concat (invoked_batches (steps r')) = functions
    | Some (inl e) => returned r' = Some (Some e)
    | None => returned r' = None
    end.
Proof.
  induction pages as [| pages IH]; intros r Hret Hinv; cbv zeta;
    cbn [ListFunctions_loop ListFunctionsPagedCallback_loop]; [exact Hret |].
  destruct (HasMorePages pg (pager r)); [| now cbn].
  destruct (NextPage pg (pager r)) as [[e | page] p']; [reflexivity |].
  match goal with |- context [ListFunctionsPagedCallback_loop _ _ _ ?r0] =>
    specialize (IH r0 eq_refl)
  end.
  cbn [pager consumer steps] in IH. apply IH.
  rewrite invoked_batches_app, List.concat_app, Hinv.
  cbn [invoked_batches flat_map List.concat app]. now rewrite app_nil_r.
Qed.

(** X10. ListFunctions and ListFunctionsPagedCallback agree: the slice
    ListFunctions returns is the concatenation, in order, of the batches the
    paged listing hands to a callback that keeps them all, and the two fail
    with the same error at the same page. *)
Theorem ListFunctions_is_the_paged_listing_collected {P}
    (pg : Paginator P (list FunctionConfiguration)) (pages : nat) (p : P) :
  let r := ListFunctionsPagedCallback pg
             (fun items _ acc => (true, (acc ++ items)%list)) pages p [] in
  match ListFunctions pg pages p with
  | Some (inr functions) =>
      returned r = Some None /\ consumer r = functions
      /\ List.concat (invoked_batches (steps r)) = functions
  | Some (inl e) => returned r = Some (Some e)
  | None => returned r = None
  end.
Proof.
  cbv zeta. unfold ListFunctions, ListFunctionsPagedCallback.
  match goal with |- context [ListFunctionsPagedCallback_loop _ _ _ ?r0] =>
    exact (functions_loop_collects pg pages r0 eq_refl eq_refl)
  end.
Qed.

Ltac no_failure_snoc :=
  rewrite forallb_app; apply andb_true_iff; split; [assumption | reflexivity].

Lemma queues_loop_fails_last {P C} tc sqs sched
    (pg : Paginator P (list string)) (callback : Callback C Queue) pages :
  forall r, forallb (fun st => negb (is_failed_fetch st)) (steps r) = true ->
            (returned r = None \/ returned r = Some None) ->
            fails_last "failed to list queues" (page_error pg)
              (ListQueuesPagedCallback_loop tc sqs sched pg callback pages r).
Proof.
  induction pages as [| pages IH]; intros r Hr Hret; cbn [ListQueuesPagedCallback_loop].
  - now left.
  - destruct (HasMorePages pg (pager r)) eqn:Emore;
      [| left; split; [exact Hr | now right]].
    destruct (NextPage pg (pager r)) as [[e | urls] p'] eqn:Enext.
    + right. exists (steps r), e. cbn [steps returned].
      repeat split; auto. exists (pager r). now rewrite Enext.
    + destruct (Nat.eqb (List.length urls) 0).
      * apply IH; [cbn [steps]; no_failure_snoc | now left].
      * destruct (fetchQueueAttributesBatch tc sqs sched urls) as [qs lg].
        destruct (callback qs (HasMorePages pg p') (consumer r)) as [[|] c'].
        -- apply IH; [cbn [steps]; no_failure_snoc | now left].
        -- left. cbn [steps returned]. split; [no_failure_snoc | now right].
Qed.

Lemma functions_loop_fails_last {P C}
    (pg : Paginator P (list FunctionConfiguration)) (callback : Callback C Function) pages :
  forall r, forallb (fun st => negb (is_failed_fetch st)) (steps r) = true ->
            (returned r = None \/ returned r = Some None) ->
            fails_last "failed to list Lambda functions" (page_error pg)
              (ListFunctionsPagedCallback_loop pg callback pages r).
Proof.
  induction pages as [| pages IH]; intros r Hr Hret; cbn [ListFunctionsPagedCallback_loop].
  - now left.
  - destruct (HasMorePages pg (pager r)) eqn:Emore;
      [| left; split; [exact Hr | now right]].
    destruct (NextPage pg (pager r)) as [[e | fns] p'] eqn:Enext.
    + right. exists (steps r), e. cbn [steps returned].
      repeat split; auto. exists (pager r). now rewrite Enext.
    + destruct (callback (map convertFunction fns) (HasMorePages pg p') (consumer r))
        as [[|] c'].
      * apply IH; [cbn [steps]; no_failure_snoc | now left].
      * left. cbn [steps returned]. split; [no_failure_snoc | now right].
Qed.

Lemma failed_fetch_is_last {Item} (ext : list (Step Item)) pre post :
  forallb (fun st => negb (is_failed_fetch st)) ext = true ->
  (ext ++ [Fetched false] = pre ++ Fetched false :: post)%list ->
  post = [].
Proof.
  revert pre. induction ext as [| z ext IH]; intros pre Hall Heq.
  - destruct pre as [| w pre]; cbn in Heq.
    + now injection Heq as <-.
    + injection Heq as _ Heq. now destruct pre.
  - cbn in Hall. apply andb_true_iff in Hall as (Hz & Hall).
    destruct pre as [| w pre]; cbn in Heq.
    + injection Heq as -> _. discriminate.
    + injection Heq as <- Heq. exact (IH pre Hall Heq).
Qed.

Lemma fails_last_spec {P C Item} message is_page_error (r : PagedRun P C Item) :
  fails_last message is_page_error r ->
  (forall pre post,
     (steps r = pre ++ Fetched false :: post)%list ->
     post = []
     /\ exists cause,
          is_page_error cause
          /\ returned r = Some (Some (Remote.Wrapped message cause)))
  /\ (forall e, returned r = Some (Some e) ->
        exists pre cause,
          (steps r = pre ++ [Fetched false])%list
          /\ is_page_error cause
          /\ e = Remote.Wrapped message cause).
Proof.
  intros [(Hall & Hret) | (ext & cause & Hsteps & Hall & Hcause & Hret)]; split.
  - intros pre post Heq. exfalso. rewrite Heq, forallb_app in Hall.
    apply andb_true_iff in Hall as (_ & Hall). discriminate.
  - intros e He. destruct Hret as [Hret | Hret]; rewrite Hret in He; discriminate.
  - intros pre post Heq. rewrite Hsteps in Heq.
    split; [exact (failed_fetch_is_last _ _ _ Hall Heq) | now exists cause].
  - intros e He. rewrite Hret in He. injection He as <-. now exists ext, cause.
Qed.

(** X11. In ListQueuesPagedCallback and ListFunctionsPagedCallback a page
    request that fails is the last thing the listing does: no page is
    requested and the callback is not called after it, and the listing
    returns the error the paginator returned for a page, wrapped in "failed
    to list queues" or "failed to list Lambda functions"; conversely a
    listing that returns an error has a failed page request as its last
    step, and the error is a wrapped error of the paginator. *)
Theorem page_error_ends_the_listing {P P' C C'}
    (tc : Toolchain) (sqs : Sqs) (sched : Scheduler)
    (queuePages : Paginator P (list string)) (onQueues : Callback C Queue)
    (functionPages : Paginator P' (list FunctionConfiguration))
    (onFunctions : Callback C' Function) (pages : nat) (p : P) (c : C)
    (p' : P') (c' : C') :
  let rq := ListQueuesPagedCallback tc sqs sched queuePages onQueues pages p c in
  let rf := ListFunctionsPagedCallback functionPages onFunctions pages p' c' in
  (forall pre post,
     (steps rq = pre ++ Fetched false :: post)%list ->
     post = []
     /\ exists cause,
          page_error queuePages cause
          /\ returned rq = Some (Some (Remote.Wrapped "failed to list queues" cause)))
  /\ (forall e, returned rq = Some (Some e) ->
        exists pre cause,
          (steps rq = pre ++ [Fetched false])%list
          /\ page_error queuePages cause
          /\ e = Remote.Wrapped "failed to list queues" cause)
  /\ (forall pre post,
        (steps rf = pre ++ Fetched false :: post)%list ->
        post = []
        /\ exists cause,
             page_error functionPages cause
             /\ returned rf
                = Some (Some (Remote.Wrapped "failed to list Lambda functions" cause)))
  /\ (forall e, returned rf = Some (Some e) ->
        exists pre cause,
          (steps rf = pre ++ [Fetched false])%list
          /\ page_error functionPages cause
          /\ e = Remote.Wrapped "failed to list Lambda functions" cause).
Proof.
  cbv zeta.
  assert (Hq : fails_last "failed to list queues" (page_error queuePages)
                 (ListQueuesPagedCallback tc sqs sched queuePages onQueues pages p c))
    by (apply queues_loop_fails_last; [reflexivity | now left]).
  assert (Hf : fails_last "failed to list Lambda functions" (page_error functionPages)
                 (ListFunctionsPagedCallback functionPages onFunctions pages p' c'))
    by (apply functions_loop_fails_last; [reflexivity | now left]).
  destruct (fails_last_spec _ _ _ Hq) as (Q1 & Q2).
  destruct (fails_last_spec _ _ _ Hf) as (F1 & F2).
  split; [exact Q1 |]. split; [exact Q2 |]. split; [exact F1 | exact F2].
Qed.

Lemma page_error_ends_the_listing_witness :
  let r := ListQueuesPagedCallback Scenario.go121 Scenario.sqs_ok Scenario.first_come
             (Scenario.flaky [Scenario.queue_url "orders"]) Scenario.keep_going 5 0 0 in
  returned r
  = Some (Some (Remote.Wrapped "failed to list queues"
                  (Remote.ServiceError "ThrottlingException")))
  /\ exists pre, (steps r = pre ++ [Fetched false])%list /\ List.length pre = 2.
Proof.
  cbv zeta.
  assert (E : returned (ListQueuesPagedCallback Scenario.go121 Scenario.sqs_ok
                Scenario.first_come (Scenario.flaky [Scenario.queue_url "orders"])
                Scenario.keep_going 5 0 0)
              = Some (Some (Remote.Wrapped "failed to list queues"
                              (Remote.ServiceError "ThrottlingException"))))
    by (vm_compute; reflexivity).
  split; [exact E |].
  destruct (page_error_ends_the_listing Scenario.go121 Scenario.sqs_ok Scenario.first_come
              (Scenario.flaky [Scenario.queue_url "orders"]) Scenario.keep_going
              (Scenario.flaky []) (@Scenario.keep_going Function) 5 0 0 0 0)
    as (_ & H & _).
  destruct (H _ E) as (pre & cause & Hs & _).
  exists pre. split; [exact Hs |].
  assert (L : List.length (steps (ListQueuesPagedCallback Scenario.go121 Scenario.sqs_ok
                Scenario.first_come (Scenario.flaky [Scenario.queue_url "orders"])
                Scenario.keep_going 5 0 0)) = 3)
    by (vm_compute; reflexivity).
  rewrite Hs, length_app in L. cbn [List.length] in L. lia.
Defined.

End ListingsMore.

(** ** More on the loaders *)

Section LoadersMore.
Import Log ModelPkg Aws Ui.
Local Open Scope nat_scope.

Lemma relays_start {P Item} (p : P) (lg : list Log.Entry) :
  @relays P Item (mkPagedRun None p (true, []) [] lg).
Proof. repeat split. Qed.

Lemma relays_fetch {P Item} (r : PagedRun P (bool * list (loadedMsg Item)) Item)
    (ret : option (option Remote.error)) (p : P) (ok : bool) (lg : list Log.Entry) :
  relays r ->
  relays (mkPagedRun ret p (consumer r) (steps r ++ [Fetched ok]) lg).
Proof.
  unfold relays. cbn [consumer steps]. intros (H1 & H2 & H3 & H4).
  unfold invoked_batches, invoked_flags in *. rewrite !flat_map_app, forallb_app.
  cbn [flat_map forallb stopped negb andb]. rewrite !app_nil_r, H4. auto.
Qed.

Lemma relays_batch {P Item} (r : PagedRun P (bool * list (loadedMsg Item)) Item)
    (ret : option (option Remote.error)) (p : P) (batch : list Item) (more : bool)
    (lg : list Log.Entry) :
  relays r ->
  fst (onBatch batch more (consumer r)) = true
  /\ relays (mkPagedRun ret p (snd (onBatch batch more (consumer r)))
              (steps r ++ [Fetched true; Invoked batch more true]) lg).
Proof.
  unfold relays. intros (H1 & H2 & H3 & H4).
  destruct (consumer r) as [isFirst sent]. cbn [onBatch fst snd consumer steps] in *.
  split; [reflexivity |].
  unfold invoked_batches, invoked_flags in *.
  rewrite !flat_map_app, !map_app, !forallb_app, H1, H2, H3, H4.
  cbn. auto.
Qed.

Lemma queues_loop_relays {P} tc sqs sched (pg : Paginator P (list string)) pages :
  forall r, relays r ->
            relays (ListQueuesPagedCallback_loop tc sqs sched pg onBatch pages r).
Proof.
  induction pages as [| pages IH]; intros r Hr; cbn [ListQueuesPagedCallback_loop].
  - exact Hr.
  - destruct (HasMorePages pg (pager r)); [| exact Hr].
    destruct (NextPage pg (pager r)) as [[e | urls] p']; [now apply relays_fetch |].
    destruct (Nat.eqb (List.length urls) 0); [apply IH; now apply relays_fetch |].
    destruct (fetchQueueAttributesBatch tc sqs sched urls) as [qs lg].
    destruct (relays_batch r None p' qs (HasMorePages pg p') (logged r ++ lg) Hr)
      as (Ht & Hc).
    destruct (onBatch qs (HasMorePages pg p') (consumer r)) as [continue c'].
    cbn [fst snd] in Ht, Hc. subst continue. now apply IH.
Qed.

Lemma functions_loop_relays {P} (pg : Paginator P (list FunctionConfiguration)) pages :
  forall r, relays r ->
            relays (ListFunctionsPagedCallback_loop pg onBatch pages r).
Proof.
  induction pages as [| pages IH]; intros r Hr; cbn [ListFunctionsPagedCallback_loop].
  - exact Hr.
  - destruct (HasMorePages pg (pager r)); [| exact Hr].
    destruct (NextPage pg (pager r)) as [[e | fns] p']; [now apply relays_fetch |].
    destruct (relays_batch r None p' (map convertFunction fns) (HasMorePages pg p')
                (logged r) Hr) as (Ht & Hc).
    destruct (onBatch (map convertFunction fns) (HasMorePages pg p') (consumer r))
      as [continue c'].
    cbn [fst snd] in Ht, Hc. subst continue. now apply IH.
Qed.

Lemma tables_loop_relays {P} (pg : Paginator P (list string)) describe pages :
  forall r, relays r ->
            relays (ListTablesPagedCallback_loop pg describe onBatch pages r).
Proof.
  induction pages as [| pages IH]; intros r Hr; cbn [ListTablesPagedCallback_loop].
  - exact Hr.
  - destruct (HasMorePages pg (pager r)); [| exact Hr].
    destruct (NextPage pg (pager r)) as [[e | names] p']; [now apply relays_fetch |].
    destruct (relays_batch r None p' (describe names) (HasMorePages pg p')
                (logged r) Hr) as (Ht & Hc).
    destruct (onBatch (describe names) (HasMorePages pg p') (consumer r))
      as [continue c'].
    cbn [fst snd] in Ht, Hc. subst continue. now apply IH.
Qed.

Lemma filter_all {X} (f : X -> bool) (l : list X) :
  forallb f l = true -> filter f l = l.
Proof.
  induction l as [| x l IH]; cbn; [reflexivity |].
  intros H. apply andb_true_iff in H as (Hx & Hl). now rewrite Hx, IH.
Qed.

(** What is sent after a listing whose every batch was relayed. *)
Lemma after_listing_relays {P Item}
    (r : PagedRun P (bool * list (loadedMsg Item)) Item) :
  relays r ->
  map items (filter is_batch (after_listing r)) = invoked_batches (steps r)
  /\ map hasMore (filter is_batch (after_listing r)) = invoked_flags (steps r)
  /\ forallb (fun st => negb (stopped st)) (steps r) = true
  /\ match returned r with
     | Some (Some e) =>
         after_listing r
         = (filter is_batch (after_listing r) ++ [mkLoadedMsg [] (Some e) false false])%list
     | _ => forallb is_batch (after_listing r) = true
     end.
Proof.
  intros (H1 & H2 & H3 & H4). unfold after_listing.
  destruct (returned r) as [[e |] |].
  - rewrite filter_app, (filter_all _ _ H3). cbn [filter is_batch loadErr].
    rewrite app_nil_r. auto.
  - rewrite (filter_all _ _ H3). auto.
  - rewrite (filter_all _ _ H3). auto.
Qed.

(** X12. The goroutines of loadQueues, loadFunctions and loadTables relay
    every batch: the batch messages they send are, in order, one for every
    call the paged listing makes of the callback, with the items and the
    hasMore flag of that call; the callback never asks the listing to stop;
    and when the listing returns an error, one error message follows the
    batches. *)
Theorem loaders_relay_every_batch {P P' P''}
    (tc : Toolchain) (sqs : Sqs) (sched : Scheduler)
    (queuePages : Paginator P (list string)) (p : P)
    (functionPages : Paginator P' (list FunctionConfiguration)) (p' : P')
    (tablePages : Paginator P'' (list string)) (p'' : P'')
    (describe : list string -> list Table) (pages : nat) :
  let relayed {Q Item} (sent : list (loadedMsg Item))
        (r : PagedRun Q (bool * list (loadedMsg Item)) Item) :=
    map items (filter is_batch sent) = invoked_batches (steps r)
    /\ map hasMore (filter is_batch sent) = invoked_flags (steps r)
    /\ forallb (fun st => negb (stopped st)) (steps r) = true
    /\ match returned r with
       | Some (Some e) =>
           sent = (filter is_batch sent ++ [mkLoadedMsg [] (Some e) false false])%list
       | _ => forallb is_batch sent = true
       end in
  relayed (loadQueues tc sqs sched queuePages pages p None)
    (ListQueuesPagedCallback tc sqs sched queuePages onBatch pages p (true, []))
  /\ relayed (loadFunctions functionPages pages p' None)
       (ListFunctionsPagedCallback functionPages onBatch pages p' (true, []))
  /\ relayed (loadTables tablePages describe pages p'')
       (ListTablesPagedCallback tablePages describe onBatch pages p'' (true, [])).
Proof.
  cbv zeta. split; [| split].
  - apply after_listing_relays. apply queues_loop_relays. apply relays_start.
  - apply after_listing_relays. apply functions_loop_relays. apply relays_start.
  - apply after_listing_relays. apply tables_loop_relays. apply relays_start.
Qed.

Lemma error_after_batches {Item} (batches : list (loadedMsg Item)) e pre msg post :
  forallb is_batch batches = true ->
  (batches ++ [mkLoadedMsg [] (Some e) false false] = pre ++ msg :: post)%list ->
  is_batch msg = false ->
  post = [] /\ msg = mkLoadedMsg [] (Some e) false false.
Proof.
  revert pre. induction batches as [| b batches IH]; intros pre Hall Heq Hm.
  - destruct pre as [| w pre]; cbn in Heq.
    + injection Heq as <- <-. auto.
    + injection Heq as _ Heq. now destruct pre.
  - cbn in Hall. apply andb_true_iff in Hall as (Hb & Hall).
    destruct pre as [| w pre]; cbn in Heq.
    + injection Heq as -> _. rewrite Hm in Hb. discriminate.
    + injection Heq as <- Heq. exact (IH pre Hall Heq Hm).
Qed.

Lemma no_error_among_batches {Item} (batches : list (loadedMsg Item)) pre msg post :
  forallb is_batch batches = true ->
  (batches = pre ++ msg :: post)%list -> is_batch msg = false -> False.
Proof.
  intros Hall -> Hm. rewrite forallb_app in Hall.
  apply andb_true_iff in Hall as (_ & Hall). cbn in Hall. rewrite Hm in Hall.
  discriminate.
Qed.

Lemma after_listing_error_last {P Item}
    (r : PagedRun P (bool * list (loadedMsg Item)) Item) pre msg post :
  forallb is_batch (snd (consumer r)) = true ->
  (after_listing r = pre ++ msg :: post)%list -> is_batch msg = false ->
  post = []
  /\ exists e, returned r = Some (Some e) /\ msg = mkLoadedMsg [] (Some e) false false.
Proof.
  intros Hall Heq Hm. unfold after_listing in Heq.
  destruct (returned r) as [[e |] |].
  - destruct (error_after_batches _ _ _ _ _ Hall Heq Hm) as (-> & ->). eauto.
  - exfalso. exact (no_error_among_batches _ _ _ _ Hall Heq Hm).
  - exfalso. exact (no_error_among_batches _ _ _ _ Hall Heq Hm).
Qed.

Lemma single_message_error_last {Item} (only : loadedMsg Item) pre msg post :
  ([only] = pre ++ msg :: post)%list -> post = [] /\ msg = only.
Proof.
  destruct pre as [| w pre]; cbn; intros Heq.
  - now injection Heq as <- <-.
  - injection Heq as _ Heq. now destruct pre.
Qed.

(** X13. Of the messages a load sends (loadQueues, loadFunctions,
    loadTables, with or without a selected stack), an error message can only
    be the last one, and it carries no items, hasMore=false and
    isAppend=false. *)
Theorem error_message_is_the_last_one {P P' P''}
    (tc : Toolchain) (sqs : Sqs) (sched : Scheduler)
    (queuePages : Paginator P (list string)) (p : P)
    (scopedQueues : option (Remote.error + list Queue))
    (functionPages : Paginator P' (list FunctionConfiguration)) (p' : P')
    (scopedFunctions : option (Remote.error + list Function))
    (tablePages : Paginator P'' (list string)) (p'' : P'')
    (describe : list string -> list Table) (pages : nat) :
  let error_last {Item} (sent : list (loadedMsg Item)) :=
    forall pre msg post,
      (sent = pre ++ msg :: post)%list -> is_batch msg = false ->
      post = [] /\ items msg = [] /\ hasMore msg = false /\ isAppend msg = false in
  error_last (loadQueues tc sqs sched queuePages pages p scopedQueues)
  /\ error_last (loadFunctions functionPages pages p' scopedFunctions)
  /\ error_last (loadTables tablePages describe pages p'').
Proof.
  cbv zeta. split; [| split]; intros pre msg post Heq Hm.
  - unfold loadQueues in Heq. destruct scopedQueues as [[e | qs] |].
    + destruct (single_message_error_last _ _ _ _ Heq) as (-> & ->). auto.
    + destruct (single_message_error_last _ _ _ _ Heq) as (-> & ->). discriminate.
    + destruct (after_listing_error_last _ _ _ _
                  (proj1 (proj2 (proj2 (queues_loop_relays tc sqs sched queuePages pages
                     _ (relays_start p _)))))
                  Heq Hm) as (-> & e & _ & ->). auto.
  - unfold loadFunctions in Heq. destruct scopedFunctions as [[e | fs] |].
    + destruct (single_message_error_last _ _ _ _ Heq) as (-> & ->). auto.
    + destruct (single_message_error_last _ _ _ _ Heq) as (-> & ->). discriminate.
    + destruct (after_listing_error_last _ _ _ _
                  (proj1 (proj2 (proj2 (functions_loop_relays functionPages pages
                     _ (relays_start p' _)))))
                  Heq Hm) as (-> & e & _ & ->). auto.
  - unfold loadTables in Heq.
    destruct (after_listing_error_last _ _ _ _
                (proj1 (proj2 (proj2 (tables_loop_relays tablePages describe pages
                   _ (relays_start p'' _)))))
                Heq Hm) as (-> & e & _ & ->). auto.
Qed.

Lemma error_message_is_the_last_one_witness :
  let sent := loadQueues Scenario.go121 Scenario.sqs_ok Scenario.first_come
                (Scenario.flaky [Scenario.queue_url "orders"]) 5 0 None in
  List.length sent = 2
  /\ map is_batch sent = [true; false]
  /\ map isAppend sent = [false; false].
Proof.
  cbv zeta.
  destruct (error_message_is_the_last_one Scenario.go121 Scenario.sqs_ok
              Scenario.first_come (Scenario.flaky [Scenario.queue_url "orders"]) 0 None
              (Scenario.flaky []) 0 None (Scenario.flaky []) 0 (fun _ => []) 5)
    as (H & _ & _).
  assert (E : exists batch msg,
             loadQueues Scenario.go121 Scenario.sqs_ok Scenario.first_come
               (Scenario.flaky [Scenario.queue_url "orders"]) 5 0 None
             = ([batch] ++ msg :: [])%list
             /\ is_batch batch = true /\ isAppend batch = false
             /\ is_batch msg = false)
    by (vm_compute; eexists; eexists; repeat split).
  destruct E as (batch & msg & E & Hb & Ha & Hm).
  destruct (H _ _ _ E Hm) as (_ & _ & _ & Hf).
  rewrite E. cbn [app map List.length]. rewrite Hb, Ha, Hm, Hf. auto.
Defined.

Lemma flat_map_length_le {X Y} (f : X -> list Y) (l : list X) :
  (forall x, List.length (f x) <= 1) ->
  List.length (flat_map f l) <= List.length l.
Proof.
  intros H. induction l as [| x l IH]; [apply le_n |].
  cbn [flat_map List.length]. rewrite length_app. specialize (H x). lia.
Qed.

(** X14. With a stack selected, loadFunctions sends exactly one message,
    with hasMore=false and isAppend=false. It is an error message only when
    listing the functions of the stack failed; otherwise it carries, in the
    order of the stack, the functions that DescribeFunction could describe:
    a function whose description fails is left out without an error. *)
Theorem scoped_functions_load_sends_one_message {P} (lambda : Lambda)
    (names : Remote.error + list string)
    (pg : Paginator P (list FunctionConfiguration)) (pages : nat) (p : P) :
  exists msg,
    loadFunctions pg pages p (Some (scopedFunctions lambda names)) = [msg]
    /\ hasMore msg = false /\ isAppend msg = false
    /\ match names with
       | inl e => loadErr msg = Some e /\ items msg = []
       | inr functionNames =>
           loadErr msg = None
           /\ List.length (items msg) <= List.length functionNames
           /\ items msg
              = flat_map (fun name => match lambda name with
                                      | inr configuration =>
                                          [convertFunctionConfig configuration]
                                      | inl _ => []
                                      end) functionNames
       end.
Proof.
  unfold loadFunctions, scopedFunctions.
  destruct names as [e | functionNames].
  - eexists. split; [reflexivity |]. cbn. auto.
  - assert (Hmap : flat_map (fun name => match DescribeFunction lambda name with
                                         | inr fn => [fn]
                                         | inl _ => []
                                         end) functionNames
                   = flat_map (fun name => match lambda name with
                                           | inr configuration =>
                                               [convertFunctionConfig configuration]
                                           | inl _ => []
                                           end) functionNames).
    { apply flat_map_ext. intros name. unfold DescribeFunction.
      now destruct (lambda name). }
    destruct functionNames as [| n ns].
    + cbn [List.length Nat.eqb]. eexists. split; [reflexivity |]. cbn. auto.
    + cbn [List.length Nat.eqb]. eexists. split; [reflexivity |].
      cbn [hasMore isAppend loadErr items]. rewrite Hmap.
      split; [reflexivity |]. split; [reflexivity |]. split; [reflexivity |].
      split; [| reflexivity].
      change (S (List.length ns)) with (List.length (n :: ns)).
      apply flat_map_length_le. intros x. destruct (lambda x); cbn; lia.
Qed.

End LoadersMore.

(** ** More on the tunnels *)

Section TunnelsMore.
Import Log ModelPkg Ui.
Local Open Scope string_scope.
Local Open Scope nat_scope.

Ltac run_remote' :=
  unfold run_cmd, Remote.bind, Remote.WithTimeout, Remote.remote, Remote.ret,
    Remote.start; cbn [Remote.clock Remote.calls Nat.add app fst snd].

(** X15. Starting a tunnel for a REST API whose endpoint type is PRIVATE
    establishes nothing yet: startAPIGatewayTunnel stores the request (API,
    stage, local port) as pending, switches to the jump-host selection view,
    sets both loading flags, keeps the instances it has, and returns the
    command of loadEC2Instances, whose run issues the one call
    ListSSMManagedInstances under a deadline of 30. *)
Theorem private_target_waits_for_a_jump_host (restAPI : RestAPI) (stage : APIStage)
    (localPort : Z) (m : Model) (env : Remote.Env) :
  EndpointType restAPI = "PRIVATE" ->
  let (m', cmd) := startAPIGatewayTunnel (ApiRest restAPI) stage localPort m in
  View_ (state m') = ViewJumpHostSelect
  /\ PendingTunnelAPI (state m') = ApiRest restAPI
  /\ PendingTunnelStage (state m') = Some stage
  /\ PendingTunnelLocalPort (state m') = localPort
  /\ EC2InstancesLoading (state m') = true
  /\ ec2ListLoading m' = true
  /\ EC2Instances (state m') = EC2Instances (state m)
  /\ exists load,
       cmd = CmdBatch [CmdSpinnerTick; CmdFunc load]
       /\ forall later : Model,
            exists instances err w,
              load env later Remote.start
              = (Delivered (ec2InstancesLoadedMsg instances err), w)
              /\ Remote.calls w = [Remote.CallListSSMManagedInstances 30]
              /\ forallb (fun c => negb (is_establishment c)) (Remote.calls w) = true.
Proof.
  intros Hpriv. unfold startAPIGatewayTunnel, isPrivate. rewrite Hpriv.
  change (("PRIVATE" =? "PRIVATE")%string) with true. cbv iota.
  unfold loadEC2Instances. cbn [state set_state log View_ PendingTunnelAPI
    PendingTunnelStage PendingTunnelLocalPort EC2InstancesLoading ec2ListLoading
    EC2Instances].
  do 7 (split; [reflexivity |]).
  eexists. split; [reflexivity |]. intros later. run_remote'.
  eexists; eexists; eexists; (split; [reflexivity |]); split; reflexivity.
Qed.

Lemma private_target_waits_for_a_jump_host_witness :
  View_ (state (fst (startAPIGatewayTunnel Scenario.billing_api Scenario.prod 8080
                       Scenario.idle))) = ViewJumpHostSelect
  /\ PendingTunnelLocalPort
       (state (fst (startAPIGatewayTunnel Scenario.billing_api Scenario.prod 8080
                      Scenario.idle))) = 8080%Z.
Proof.
  pose proof (private_target_waits_for_a_jump_host
                (mkRestAPI "c3d4" "billing" "PRIVATE") Scenario.prod 8080%Z Scenario.idle
                (Scenario.env_after 2) eq_refl) as H.
  change (ApiRest (mkRestAPI "c3d4" "billing" "PRIVATE")) with Scenario.billing_api in H.
  destruct (startAPIGatewayTunnel Scenario.billing_api Scenario.prod 8080 Scenario.idle)
    as [m' cmd].
  destruct H as (H1 & _ & _ & H4 & _). cbn [fst]. split; [exact H1 | exact H4].
Defined.

(** X16. The message findJumpHostForAPIGateway delivers has either the jump
    host FindJumpHost returned and a nil err, or no jump host and the error
    FindJumpHost returned wrapped in "failed to find jump host". In the
    second case, and when the jump host has no VPC id, the call to
    FindJumpHost, under a deadline of 60 with the tags and names of the
    configuration, is the only call made: no endpoint lookup; the command
    never establishes a tunnel itself. *)
Theorem jump_host_message_has_a_host_or_an_error (env : Remote.Env) (m : Model)
    (api : Api) (stage : APIStage) (localPort : Z) :
  exists found w,
    run_cmd (findJumpHostForAPIGateway api stage localPort) env m
    = Some (Delivered (jumpHostFoundMsg found), w)
    /\ ((exists host,
           Remote.outcome
             (Remote.FindJumpHost env 60 "" (jumpHostConfig m) (jumpHostTagConfig m)
                (defaultTags m) (defaultNames m) 0) = inr host
           /\ Ui.jumpHost found = Some host /\ Ui.err found = None
           /\ (VpcID host = "" ->
               Remote.calls w
               = [Remote.CallFindJumpHost 60 "" (jumpHostConfig m) (jumpHostTagConfig m)
                    (defaultTags m) (defaultNames m)]))
        \/ (exists cause,
              Remote.outcome
                (Remote.FindJumpHost env 60 "" (jumpHostConfig m) (jumpHostTagConfig m)
                   (defaultTags m) (defaultNames m) 0) = inl cause
              /\ Ui.jumpHost found = None
              /\ Ui.err found = Some (Remote.Wrapped "failed to find jump host" cause)
              /\ vpcEndpoint found = None /\ vpcEndpointErr found = None
              /\ Ui.api found = ApiNil
              /\ Remote.calls w
                 = [Remote.CallFindJumpHost 60 "" (jumpHostConfig m) (jumpHostTagConfig m)
                      (defaultTags m) (defaultNames m)]))
    /\ forallb (fun c => negb (is_establishment c)) (Remote.calls w) = true.
Proof.
  unfold findJumpHostForAPIGateway. run_remote'.
  match goal with |- context [Remote.FindJumpHost env ?d ?a ?b ?c ?e ?f ?n] =>
    set (ans := Remote.FindJumpHost env d a b c e f n) end.
  destruct (Remote.outcome ans) as [e | host].
  - eexists; eexists; split; [reflexivity |]. cbn.
    split; [| reflexivity]. right. exists e.
    repeat (split; [reflexivity |]); reflexivity.
  - destruct (String.eqb_spec (VpcID host) "") as [E | N].
    + eexists; eexists; split; [reflexivity |]. cbn.
      split; [| reflexivity]. left. exists host.
      repeat (split; [reflexivity |]); reflexivity.
    + cbn [Remote.clock Remote.calls].
      eexists; eexists; split; [reflexivity |]; cbn.
      split; [| reflexivity]. left. exists host.
      split; [reflexivity |]. split; [reflexivity |]. split; [reflexivity |].
      intros; contradiction.
Qed.

End TunnelsMore.

(** ** More on the region selector *)

Section RegionSelectorMore.
Import Components.

Ltac go_int := unfold GoInt.in_range, GoInt.minInt, GoInt.maxInt in *.

Lemma clampOffset_offset r :
  offset (clampOffset r)
  = Z.max 0 (Z.min (if cursor r <? offset r then cursor r
                    else if cursor r >=? GoInt.add (offset r) (visibleCount r)
                         then GoInt.add (GoInt.sub (cursor r) (visibleCount r)) 1
                         else offset r)
                   (Z.max 0 (GoInt.sub (GoInt.len (flatRegions r)) (visibleCount r)))).
Proof.
  unfold clampOffset.
  destruct (cursor r <? offset r); [reflexivity |].
  destruct (cursor r >=? _); reflexivity.
Qed.

Lemma clampOffset_visibleCount r : visibleCount (clampOffset r) = visibleCount r.
Proof.
  destruct (clampOffset_fields r) as (_ & Fh & _). unfold visibleCount. now rewrite Fh.
Qed.

Lemma clampOffset_nonneg r : 0 <= offset (clampOffset r).
Proof. rewrite clampOffset_offset. lia. Qed.

Lemma clampOffset_window r :
  GoInt.len (flatRegions r) <= 2 ^ 32 -> window_inv (clampOffset r).
Proof.
  intros Hn. unfold window_inv.
  destruct (clampOffset_fields r) as (_ & _ & Ff & _).
  rewrite clampOffset_visibleCount, Ff, clampOffset_offset.
  pose proof (visibleCount_bounds r) as V.
  assert (L : 0 <= GoInt.len (flatRegions r)) by (unfold GoInt.len; lia).
  unfold GoInt.sub at 2.
  rewrite (wrap_small (GoInt.len (flatRegions r) - visibleCount r)) by (go_int; lia).
  lia.
Qed.

Lemma apply_op_window o r :
  GoInt.len (flatRegions r) <= 2 ^ 32 -> window_inv r -> window_inv (apply_op o r).
Proof.
  intros Hn W. destruct o; cbn [apply_op]; unfold Up, Down, SetCurrentRegion.
  - destruct (cursor r >? 0); [| exact W]. now apply clampOffset_window.
  - destruct (cursor r <? _); [| exact W]. now apply clampOffset_window.
  - cbn [flatRegions].
    destruct (first_with_code region (flatRegions r) 0); [| exact W].
    now apply clampOffset_window.
Qed.

Lemma apply_op_nonneg o r : 0 <= offset r -> 0 <= offset (apply_op o r).
Proof.
  intros W. destruct o; cbn [apply_op]; unfold Up, Down, SetCurrentRegion.
  - destruct (cursor r >? 0); [| exact W]. apply clampOffset_nonneg.
  - destruct (cursor r <? _); [| exact W]. apply clampOffset_nonneg.
  - cbn [flatRegions].
    destruct (first_with_code region (flatRegions r) 0); [| exact W].
    apply clampOffset_nonneg.
Qed.

Lemma run_actions_nonneg actions : forall r,
  0 <= offset r -> 0 <= offset (run_actions actions r).
Proof.
  unfold run_actions. induction actions as [| a actions IH]; intros r H; cbn [fold_left].
  - exact H.
  - apply IH. destruct a as [o | w h]; cbn [apply_action]; [now apply apply_op_nonneg |].
    exact H.
Qed.

Lemma View_rows_in_range r :
  0 <= offset r ->
  Forall (fun i => 0 <= i < GoInt.len (flatRegions r)) (View_rows r).
Proof.
  intros H. unfold View_rows. cbv zeta. apply Forall_forall. intros i Hi.
  apply in_map_iff in Hi as (k & <- & Hk). apply in_seq in Hk. lia.
Qed.

Lemma View_line_in_range st r i :
  0 <= i < GoInt.len (flatRegions r) -> exists line, View_line st r i = Some line.
Proof.
  intros H. unfold View_line.
  destruct (Z.ltb_spec i 0); [lia |].
  destruct (nth_error (flatRegions r) (Z.to_nat i)) as [region |] eqn:E;
    [eexists; reflexivity |].
  apply nth_error_None in E. unfold GoInt.len in H. lia.
Qed.

Lemma View_loop_in_range st r rows :
  Forall (fun i => 0 <= i < GoInt.len (flatRegions r)) rows ->
  forall content, exists content', View_loop st r rows content = Some content'.
Proof.
  induction 1 as [| i rows Hi _ IH]; intros content; cbn [View_loop].
  - now exists content.
  - destruct (View_line_in_range st r i Hi) as (line & ->). apply IH.
Qed.

(** X17. View never indexes flatRegions out of range: in every state
    reached from a new selector by Up, Down, SetCurrentRegion and SetSize,
    in any order and with any sizes, the rows View goes through are valid
    indices and View returns its rendering. *)
Theorem View_never_indexes_out_of_range (st : Styles) (actions : list Action) :
  let r := run_actions actions NewRegionSelector in
  Forall (fun i => 0 <= i < GoInt.len (flatRegions r)) (View_rows r)
  /\ exists rendered, View st r = Some rendered.
Proof.
  cbv zeta.
  assert (H : 0 <= offset (run_actions actions NewRegionSelector))
    by (apply run_actions_nonneg; cbn; lia).
  pose proof (View_rows_in_range _ H) as Hrows.
  split; [exact Hrows |]. unfold View. cbv zeta.
  match goal with |- context [View_loop st ?r ?rows ?c] =>
    destruct (View_loop_in_range st r rows Hrows c) as (content & ->)
  end.
  eexists. reflexivity.
Qed.

Lemma run_ops_window ops : forall r,
  GoInt.len (flatRegions r) <= 2 ^ 32 -> window_inv r -> window_inv (run_ops ops r).
Proof.
  unfold run_ops. induction ops as [| o ops IH]; intros r Hn W; cbn [fold_left].
  - exact W.
  - apply IH; [| now apply apply_op_window].
    destruct (apply_op_frame o r) as (_ & Ff). now rewrite Ff.
Qed.

Lemma View_rows_window r :
  selector_inv r -> window_inv r -> GoInt.len (flatRegions r) <= 2 ^ 32 ->
  View_rows r
  = map (fun k => offset r + Z.of_nat k)
      (seq 0 (Z.to_nat (Z.min (visibleCount r) (GoInt.len (flatRegions r)))))
  /\ In (cursor r) (View_rows r).
Proof.
  intros (I1 & I2 & I3 & I4) W Hn. unfold window_inv in W.
  pose proof (visibleCount_bounds r) as V.
  assert (E : GoInt.add (offset r) (visibleCount r) = offset r + visibleCount r).
  { unfold GoInt.add. apply wrap_small. go_int. lia. }
  unfold View_rows. cbv zeta. rewrite E. split.
  - f_equal. f_equal. lia.
  - apply in_map_iff. exists (Z.to_nat (cursor r - offset r)).
    split; [lia |]. apply in_seq. lia.
Qed.

Lemma region_selector_window_helper (w h : Z) (ops : list Op) :
  selector_inv (run_ops ops (SetSize w h NewRegionSelector))
  /\ flatRegions (run_ops ops (SetSize w h NewRegionSelector)) = flattenRegions.
Proof.
  assert (Hn : GoInt.len (flatRegions (SetSize w h NewRegionSelector)) <= 2 ^ 32).
  { cbn [SetSize flatRegions NewRegionSelector]. rewrite flattenRegions_len. lia. }
  assert (I0 : selector_inv (SetSize w h NewRegionSelector)).
  { pose proof (visibleCount_bounds (SetSize w h NewRegionSelector)) as V.
    unfold selector_inv. cbn [SetSize flatRegions NewRegionSelector offset cursor] in *.
    rewrite flattenRegions_len. lia. }
  destruct (run_ops_preserves ops _ Hn I0) as (I & _ & If). auto.
Qed.

(** X18. While the size stays as set, the window View renders is full and
    holds the cursor: after any sequence of Up, Down and SetCurrentRegion it
    is the min(visibleCount, 18) rows from offset on, it does not run past
    the end of the list, and the row of the cursor is one of them, once. *)
Theorem window_is_full_and_holds_the_cursor (w h : Z) (ops : list Op) :
  let r := run_ops ops (SetSize w h NewRegionSelector) in
  offset r + Z.min (visibleCount r) 18 <= 18
  /\ View_rows r
     = map (fun k => offset r + Z.of_nat k)
         (seq 0 (Z.to_nat (Z.min (visibleCount r) 18)))
  /\ In (cursor r) (View_rows r)
  /\ NoDup (View_rows r).
Proof.
  cbv zeta.
  assert (Hn : GoInt.len (flatRegions (SetSize w h NewRegionSelector)) <= 2 ^ 32).
  { cbn [SetSize flatRegions NewRegionSelector]. rewrite flattenRegions_len. lia. }
  assert (I0 : selector_inv (SetSize w h NewRegionSelector)).
  { pose proof (visibleCount_bounds (SetSize w h NewRegionSelector)) as V.
    unfold selector_inv. cbn [SetSize flatRegions NewRegionSelector offset cursor] in *.
    rewrite flattenRegions_len. lia. }
  assert (W0 : window_inv (SetSize w h NewRegionSelector)).
  { unfold window_inv. cbn [SetSize offset NewRegionSelector]. lia. }
  destruct (run_ops_preserves ops _ Hn I0) as (I & _ & If).
  pose proof (run_ops_window ops _ Hn W0) as W.
  cbn [SetSize flatRegions NewRegionSelector] in If.
  assert (Hlen : GoInt.len (flatRegions (run_ops ops (SetSize w h NewRegionSelector))) = 18)
    by (rewrite If; apply flattenRegions_len).
  destruct (View_rows_window _ I W ltac:(rewrite Hlen; lia)) as (Hrows & Hin).
  rewrite Hlen in Hrows.
  pose proof (visibleCount_bounds (run_ops ops (SetSize w h NewRegionSelector))) as V.
  split; [| split; [exact Hrows | split; [exact Hin |]]].
  - unfold window_inv in W. rewrite Hlen in W. lia.
  - rewrite Hrows. apply Finite.Injective_map_NoDup; [| apply seq_NoDup].
    intros a b Hab. lia.
Qed.

Lemma first_with_code_found region regs : forall i,
  In region (map Code regs) ->
  exists k reg,
    first_with_code region regs i = Some (i + Z.of_nat k)
    /\ nth_error regs k = Some reg /\ Code reg = region.
Proof.
  induction regs as [| reg rest IH]; intros i Hin; [contradiction |].
  cbn [first_with_code]. destruct (String.eqb_spec (Code reg) region) as [E | N].
  - exists 0%nat, reg. rewrite Z.add_0_r. auto.
  - destruct Hin as [Hin | Hin]; [contradiction |].
    destruct (IH (i + 1) Hin) as (k & reg' & Hf & Hn & Hc).
    exists (S k), reg'. rewrite Hf. split; [f_equal; lia | auto].
Qed.

Lemma first_with_code_missing region regs : forall i,
  ~ In region (map Code regs) -> first_with_code region regs i = None.
Proof.
  induction regs as [| reg rest IH]; intros i Hin; [reflexivity |].
  cbn [first_with_code]. destruct (String.eqb_spec (Code reg) region) as [E | N].
  - exfalso. apply Hin. now left.
  - apply IH. intros H. apply Hin. now right.
Qed.

(** X19. SetCurrentRegion followed by SelectedRegion gives the region
    back when its code is in the selector's list; for any other string
    SetCurrentRegion records it as the current region and leaves cursor and
    offset alone. *)
Theorem SetCurrentRegion_selects_a_known_region (region : string) (r : RegionSelector) :
  (In region (map Code (flatRegions r)) ->
   SelectedRegion (SetCurrentRegion region r) = region
   /\ currentRegion (SetCurrentRegion region r) = region)
  /\ (~ In region (map Code (flatRegions r)) ->
      SetCurrentRegion region r
      = mkRegionSelector (width r) (height r) (cursor r) (offset r) region
          (flatRegions r)).
Proof.
  unfold SetCurrentRegion. cbn [flatRegions]. split; intros Hin.
  - destruct (first_with_code_found region (flatRegions r) 0 Hin)
      as (k & reg & -> & Hn & Hc).
    match goal with |- context [clampOffset ?x] =>
      destruct (clampOffset_fields x) as (Fc & _ & Ff & Fr) end.
    unfold SelectedRegion. rewrite Fc, Ff, Fr. cbn [cursor flatRegions set_cursor currentRegion].
    split; [| reflexivity].
    assert (Hk : (k < List.length (flatRegions r))%nat)
      by (apply nth_error_Some; congruence).
    replace (0 + Z.of_nat k) with (Z.of_nat k) by lia.
    destruct (Z.geb_spec (Z.of_nat k) 0); [| lia].
    destruct (Z.ltb_spec (Z.of_nat k) (GoInt.len (flatRegions r)));
      [| unfold GoInt.len in *; lia].
    cbn [andb]. rewrite Nat2Z.id, Hn. exact Hc.
  - now rewrite (first_with_code_missing region (flatRegions r) 0 Hin).
Qed.

Lemma SetCurrentRegion_selects_a_known_region_witness :
  SelectedRegion (SetCurrentRegion "eu-north-1" (SetSize 80 10 NewRegionSelector))
  = "eu-north-1"%string
  /\ cursor (SetCurrentRegion "mars-1" (SetSize 80 10 NewRegionSelector)) = 0.
Proof.
  destruct (SetCurrentRegion_selects_a_known_region "eu-north-1"
              (SetSize 80 10 NewRegionSelector)) as (H & _).
  destruct (SetCurrentRegion_selects_a_known_region "mars-1"
              (SetSize 80 10 NewRegionSelector)) as (_ & H').
  split.
  - apply H. vm_compute. tauto.
  - rewrite H'; [reflexivity |]. vm_compute.
    intros F. repeat (destruct F as [F | F]; [discriminate F |]). exact F.
Defined.

Lemma clampOffset_cursor r : cursor (clampOffset r) = cursor r.
Proof. apply clampOffset_fields. Qed.

Lemma clampOffset_flatRegions r : flatRegions (clampOffset r) = flatRegions r.
Proof. apply clampOffset_fields. Qed.

Lemma Up_cursor r :
  GoInt.in_range (cursor r) -> cursor (Up r) = if cursor r >? 0 then cursor r - 1 else cursor r.
Proof.
  intros Hc. unfold Up. destruct (cursor r >? 0) eqn:E; [| reflexivity].
  rewrite clampOffset_cursor. cbn [cursor set_cursor]. unfold GoInt.sub.
  apply wrap_small. rewrite Z.gtb_ltb in E. apply Z.ltb_lt in E. go_int. lia.
Qed.

Lemma Down_cursor r :
  GoInt.len (flatRegions r) <= 2 ^ 32 -> GoInt.in_range (cursor r) ->
  cursor (Down r)
  = if cursor r <? GoInt.len (flatRegions r) - 1 then cursor r + 1 else cursor r.
Proof.
  intros Hn Hc. unfold Down.
  assert (L : 0 <= GoInt.len (flatRegions r)) by (unfold GoInt.len; lia).
  unfold GoInt.sub. rewrite (wrap_small (GoInt.len (flatRegions r) - 1)) by (go_int; lia).
  destruct (cursor r <? GoInt.len (flatRegions r) - 1) eqn:E; [| reflexivity].
  rewrite clampOffset_cursor. cbn [cursor set_cursor]. unfold GoInt.add.
  apply wrap_small. apply Z.ltb_lt in E. go_int. lia.
Qed.

Lemma Up_flatRegions r : flatRegions (Up r) = flatRegions r.
Proof. apply (apply_op_frame OpUp r). Qed.

Lemma Down_flatRegions r : flatRegions (Down r) = flatRegions r.
Proof. apply (apply_op_frame OpDown r). Qed.

(** X20. With the cursor on a valid index, Up moves it to
    max(0, cursor-1) and Down to min(len-1, cursor+1); Down then Up, and Up
    then Down, bring the cursor back unless it was at the end it moved away
    from; Up at the top and Down at the bottom change nothing at all. *)
Theorem Up_and_Down_move_the_cursor_by_one (r : RegionSelector) :
  GoInt.len (flatRegions r) <= 2 ^ 32 ->
  0 <= cursor r < GoInt.len (flatRegions r) ->
  cursor (Up r) = Z.max 0 (cursor r - 1)
  /\ cursor (Down r) = Z.min (GoInt.len (flatRegions r) - 1) (cursor r + 1)
  /\ (cursor r < GoInt.len (flatRegions r) - 1 -> cursor (Up (Down r)) = cursor r)
  /\ (0 < cursor r -> cursor (Down (Up r)) = cursor r)
  /\ (cursor r = 0 -> Up r = r)
  /\ (cursor r = GoInt.len (flatRegions r) - 1 -> Down r = r).
Proof.
  intros Hn Hc.
  assert (Hr : GoInt.in_range (cursor r)) by (go_int; lia).
  pose proof (Up_cursor r Hr) as HU. pose proof (Down_cursor r Hn Hr) as HD.
  assert (HrU : GoInt.in_range (cursor (Up r))).
  { rewrite HU. destruct (cursor r >? 0); go_int; lia. }
  assert (HrD : GoInt.in_range (cursor (Down r))).
  { rewrite HD. destruct (cursor r <? _); go_int; lia. }
  pose proof (Up_cursor (Down r) HrD) as HUD.
  pose proof (Down_cursor (Up r) ltac:(now rewrite Up_flatRegions) HrU) as HDU.
  rewrite Up_flatRegions in HDU.
  rewrite Z.gtb_ltb in HU.
  destruct (Z.ltb_spec 0 (cursor r)) as [P | P];
    destruct (Z.ltb_spec (cursor r) (GoInt.len (flatRegions r) - 1)) as [Q | Q].
  - rewrite HU in HDU. rewrite HD in HUD. rewrite Z.gtb_ltb in HUD.
    destruct (Z.ltb_spec 0 (cursor r + 1)); [| lia].
    destruct (Z.ltb_spec (cursor r - 1) (GoInt.len (flatRegions r) - 1)); [| lia].
    repeat split; try lia.
  - rewrite HU in HDU.
    destruct (Z.ltb_spec (cursor r - 1) (GoInt.len (flatRegions r) - 1)); [| lia].
    repeat split; try lia.
    intros _. unfold Down, GoInt.sub.
    rewrite (wrap_small (GoInt.len (flatRegions r) - 1)) by (go_int; lia).
    destruct (Z.ltb_spec (cursor r) (GoInt.len (flatRegions r) - 1)); [lia | reflexivity].
  - rewrite HD in HUD. rewrite Z.gtb_ltb in HUD.
    destruct (Z.ltb_spec 0 (cursor r + 1)); [| lia].
    repeat split; try lia.
    intros _. unfold Up. rewrite Z.gtb_ltb.
    destruct (Z.ltb_spec 0 (cursor r)); [lia | reflexivity].
  - repeat split; try lia.
    + intros _. unfold Up. rewrite Z.gtb_ltb.
      destruct (Z.ltb_spec 0 (cursor r)); [lia | reflexivity].
    + intros _. unfold Down, GoInt.sub.
      rewrite (wrap_small (GoInt.len (flatRegions r) - 1)) by (go_int; lia).
      destruct (Z.ltb_spec (cursor r) (GoInt.len (flatRegions r) - 1)); [lia | reflexivity].
Qed.

Lemma Up_and_Down_move_the_cursor_by_one_witness :
  cursor (Down (SetSize 80 10 NewRegionSelector)) = 1
  /\ cursor (Up (Down (SetSize 80 10 NewRegionSelector))) = 0
  /\ Up (SetSize 80 10 NewRegionSelector) = SetSize 80 10 NewRegionSelector.
Proof.
  destruct (Up_and_Down_move_the_cursor_by_one (SetSize 80 10 NewRegionSelector))
    as (_ & HD & HUD & _ & HU & _).
  - vm_compute. discriminate.
  - vm_compute. split; [discriminate | reflexivity].
  - split; [rewrite HD; reflexivity |].
    split; [rewrite HUD; [reflexivity | vm_compute; reflexivity] |].
    apply HU. reflexivity.
Defined.

(** X21. While the size stays as set, SelectedRegion is never empty: after
    any sequence of Up, Down and SetCurrentRegion it is the code of the
    region of the built-in table that the cursor is on. *)
Theorem SelectedRegion_is_a_region_of_the_table (w h : Z) (ops : list Op) :
  let r := run_ops ops (SetSize w h NewRegionSelector) in
  In (SelectedRegion r) (map Code flattenRegions)
  /\ SelectedRegion r <> ""%string
  /\ nth_error (map Code flattenRegions) (Z.to_nat (cursor r)) = Some (SelectedRegion r).
Proof.
  cbv zeta.
  destruct (region_selector_window_helper w h ops) as (I & If).
  destruct I as (I1 & I2 & I3 & I4).
  set (r := run_ops ops (SetSize w h NewRegionSelector)) in *.
  assert (E : exists reg, nth_error flattenRegions (Z.to_nat (cursor r)) = Some reg
                          /\ SelectedRegion r = Code reg).
  { unfold SelectedRegion. rewrite If in *.
    destruct (Z.geb_spec (cursor r) 0); [| lia].
    destruct (Z.ltb_spec (cursor r) (GoInt.len flattenRegions)); [| lia].
    cbn [andb].
    destruct (nth_error flattenRegions (Z.to_nat (cursor r))) as [reg |] eqn:E.
    - now exists reg.
    - apply nth_error_None in E. unfold GoInt.len in *. lia. }
  destruct E as (reg & Hn & ->).
  assert (Hin : In (Code reg) (map Code flattenRegions))
    by (apply in_map; eapply nth_error_In; eauto).
  split; [exact Hin |]. split.
  - intros Hempty. rewrite Hempty in Hin. vm_compute in Hin.
    repeat (destruct Hin as [Hin | Hin]; [discriminate Hin |]). exact Hin.
  - rewrite nth_error_map, Hn. reflexivity.
Qed.

End RegionSelectorMore.

(** ** helpers.go *)

Section HelpersFacts.
Import ModelPkg Helpers.
Local Open Scope string_scope.

Lemma length_substring_prefix n : forall s,
  (n <= String.length s)%nat -> String.length (substring 0 n s) = n.
Proof.
  induction n as [| n IH]; intros s H.
  - now destruct s.
  - destruct s as [| c s]; cbn in H; [lia |].
    cbn [substring String.length]. rewrite IH by lia. reflexivity.
Qed.

Lemma length_append (a b : string) :
  String.length (a ++ b) = (String.length a + String.length b)%nat.
Proof. induction a as [| c a IH]; cbn; [reflexivity | now rewrite IH]. Qed.

Lemma substring_prefix n : forall s,
  (n <= String.length s)%nat ->
  exists rest, s = substring 0 n s ++ rest.
Proof.
  induction n as [| n IH]; intros s H.
  - exists s. now destruct s.
  - destruct s as [| c s]; cbn in H; [lia |].
    destruct (IH s ltac:(lia)) as (rest & E).
    exists rest. cbn [substring append]. now rewrite <- E.
Qed.

(** X22. truncateString returns min(len(s), max(0, maxWidth)) bytes: the
    string itself when it fits, a prefix of it when maxWidth is at most 3,
    and otherwise its first maxWidth-3 bytes followed by "...". *)
Theorem truncateString_fits (s : string) (maxWidth : Z) :
  GoInt.in_range maxWidth ->
  let t := truncateString s maxWidth in
  Z.of_nat (String.length t) = Z.min (Z.of_nat (String.length s)) (Z.max 0 maxWidth)
  /\ ((Z.of_nat (String.length s) <= maxWidth)%Z -> t = s)
  /\ ((maxWidth <= 3)%Z -> exists rest, s = t ++ rest)
  /\ ((3 < maxWidth < Z.of_nat (String.length s))%Z ->
      exists front rest,
        t = front ++ "..." /\ s = front ++ rest
        /\ Z.of_nat (String.length front) = (maxWidth - 3)%Z).
Proof.
  intros Hr. cbv zeta. unfold truncateString.
  destruct (Z.leb_spec maxWidth 0) as [H0 | H0].
  - cbn [String.length]. split; [lia |]. split; [| split].
    + intros H. destruct s; [reflexivity | cbn in H; lia].
    + intros _. now exists s.
    + lia.
  - destruct (Z.leb_spec (Z.of_nat (String.length s)) maxWidth) as [H1 | H1].
    + split; [lia |]. split; [reflexivity |]. split; [| lia].
      intros _. exists "". clear. induction s as [| c s IH]; cbn; [reflexivity |].
      now rewrite <- IH.
    + destruct (Z.leb_spec maxWidth 3) as [H2 | H2].
      * rewrite length_substring_prefix by lia.
        split; [lia |]. split; [lia |]. split; [| lia].
        intros _. apply substring_prefix. lia.
      * unfold GoInt.sub. rewrite wrap_small
          by (unfold GoInt.in_range, GoInt.minInt, GoInt.maxInt in *; lia).
        rewrite length_append, length_substring_prefix by lia.
        cbn [String.length]. split; [lia |]. split; [lia |]. split; [lia |].
        intros _. destruct (substring_prefix (Z.to_nat (maxWidth - 3)) s ltac:(lia))
          as (rest & E).
        exists (substring 0 (Z.to_nat (maxWidth - 3)) s), rest.
        split; [reflexivity |]. split; [exact E |].
        rewrite length_substring_prefix by lia. lia.
Qed.

Lemma truncateString_fits_witness :
  truncateString "billing-events-dead-letter" 12 = "billing-e..."
  /\ truncateString "orders" 12 = "orders"
  /\ truncateString "orders" 3 = "ord".
Proof.
  destruct (truncateString_fits "orders" 12) as (_ & H & _).
  { unfold GoInt.in_range, GoInt.minInt, GoInt.maxInt. lia. }
  split; [reflexivity |]. split; [apply H; cbn; lia | reflexivity].
Defined.

Lemma quot_bounds (a b : Z) :
  (0 <= a)%Z -> (0 < b)%Z ->
  (b * Z.quot a b <= a < b * (Z.quot a b + 1))%Z.
Proof.
  intros Ha Hb. rewrite Z.quot_div_nonneg by lia.
  pose proof (Z.div_mod a b ltac:(lia)). pose proof (Z.mod_pos_bound a b Hb). lia.
Qed.

(** X23. formatDuration shows one number and one unit, rounded down to the
    largest unit that fits: whole days from 86400 seconds on, else 1 to 23
    whole hours, else 1 to 59 whole minutes, else the seconds as they are
    (also when negative). *)
Theorem formatDuration_rounds_down_to_the_largest_unit (seconds : Z) :
  exists n unit,
    formatDuration seconds = itoa n ++ unit
    /\ ((unit = " days"
         /\ (1 <= n)%Z /\ (86400 * n <= seconds < 86400 * (n + 1))%Z)
        \/ (unit = " hours"
            /\ (1 <= n <= 23)%Z /\ (3600 * n <= seconds < 3600 * (n + 1))%Z)
        \/ (unit = " mins"
            /\ (1 <= n <= 59)%Z /\ (60 * n <= seconds < 60 * (n + 1))%Z)
        \/ (unit = "s" /\ n = seconds /\ (seconds < 60)%Z)).
Proof.
  unfold formatDuration.
  destruct (Z.geb_spec seconds 86400) as [D | D].
  - pose proof (quot_bounds seconds 86400 ltac:(lia) ltac:(lia)) as Q.
    exists (Z.quot seconds 86400), " days". split; [reflexivity |].
    left. split; [reflexivity |]. lia.
  - destruct (Z.geb_spec seconds 3600) as [H | H].
    + pose proof (quot_bounds seconds 3600 ltac:(lia) ltac:(lia)) as Q.
      exists (Z.quot seconds 3600), " hours". split; [reflexivity |].
      right. left. split; [reflexivity |]. lia.
    + destruct (Z.geb_spec seconds 60) as [M | M].
      * pose proof (quot_bounds seconds 60 ltac:(lia) ltac:(lia)) as Q.
        exists (Z.quot seconds 60), " mins". split; [reflexivity |].
        right. right. left. split; [reflexivity |]. lia.
      * exists seconds, "s". split; [reflexivity |].
        right. right. right. split; [reflexivity |]. split; [reflexivity | lia].
Qed.

Lemma formatBytes_loop_spec (bytes : Z) (fuel : nat) : forall (n : Z) (e : nat),
  (0 <= bytes <= GoInt.maxInt)%Z ->
  (1 <= fuel)%nat ->
  (0 <= n < 1024 ^ Z.of_nat fuel)%Z ->
  n = (bytes / 1024 ^ (Z.of_nat e + 1))%Z ->
  (e + fuel <= 1000)%nat ->
  exists e' : nat,
    formatBytes_loop fuel n (1024 ^ (Z.of_nat e + 1)) (Z.of_nat e)
    = Some ((1024 ^ (Z.of_nat e' + 1))%Z, Z.of_nat e')
    /\ (e <= e')%nat
    /\ (bytes / 1024 ^ (Z.of_nat e' + 1) < 1024)%Z
    /\ (e' = e \/ (1024 ^ (Z.of_nat e' + 1) <= bytes)%Z).
Proof.
  induction fuel as [| fuel IH]; intros n e Hb H1 Hn He Hfuel.
  - lia.
  - cbn [formatBytes_loop].
    destruct (Z.geb_spec n 1024) as [G | L].
    + assert (Hpos : (0 < 1024 ^ (Z.of_nat e + 1))%Z) by (apply Z.pow_pos_nonneg; lia).
      assert (Hle : (1024 * 1024 ^ (Z.of_nat e + 1) <= bytes)%Z).
      { pose proof (Z.div_mod bytes (1024 ^ (Z.of_nat e + 1)) ltac:(lia)) as Hd.
        pose proof (Z.mod_pos_bound bytes (1024 ^ (Z.of_nat e + 1)) Hpos) as Hm.
        rewrite <- He in Hd. nia. }
      assert (Hs : (1024 ^ (Z.of_nat (S e) + 1) = 1024 ^ (Z.of_nat e + 1) * 1024)%Z).
      { replace (Z.of_nat (S e) + 1)%Z with (Z.succ (Z.of_nat e + 1)) by lia.
        rewrite Z.pow_succ_r by lia. lia. }
      assert (W1 : GoInt.wrap (1024 ^ (Z.of_nat e + 1) * 1024)
                   = (1024 ^ (Z.of_nat (S e) + 1))%Z).
      { rewrite Hs. apply wrap_small.
        unfold GoInt.in_range, GoInt.minInt, GoInt.maxInt in *. lia. }
      assert (W2 : GoInt.add (Z.of_nat e) 1 = Z.of_nat (S e)).
      { unfold GoInt.add. rewrite wrap_small; [lia |].
        unfold GoInt.in_range, GoInt.minInt, GoInt.maxInt. lia. }
      rewrite W1, W2, Z.quot_div_nonneg by lia.
      replace (Z.of_nat (S fuel)) with (Z.succ (Z.of_nat fuel)) in Hn by lia.
      rewrite Z.pow_succ_r in Hn by lia.
      destruct (IH (n / 1024)%Z (S e) Hb) as (e' & Hl & Hee & Hlt & Hor).
      * destruct fuel as [| fuel']; [cbn in Hn; lia | lia].
      * split; [apply Z.div_pos; lia |].
        apply Z.div_lt_upper_bound; [lia |]. lia.
      * rewrite Hs, He. rewrite Z.div_div by lia. reflexivity.
      * lia.
      * exists e'. split; [exact Hl |]. split; [lia |]. split; [exact Hlt |].
        right. destruct Hor as [-> | Hor]; [| exact Hor]. rewrite Hs. lia.
    + exists e. split; [reflexivity |]. split; [lia |]. split; [lia | now left].
Qed.

(** X24. formatBytes never indexes "KMGTPE" out of range and its loop ends:
    for every int64, a value under 1024 is printed as it is with " B", and a
    larger one is handed to the %.1f formatting together with the divisor
    div = 1024^(exp+1), where exp is at most 5 and div <= bytes < 1024*div,
    and is followed by the letter of that power. The exact quotient
    bytes/div is thus at least 1 and less than 1024; the digits %.1f prints
    for it are left to the formatting, which is a parameter here. *)
Theorem formatBytes_picks_a_unit_in_range (fmtFloat1 : Z -> Z -> string) (bytes : Z) :
  GoInt.in_range bytes ->
  ((bytes < 1024)%Z -> formatBytes fmtFloat1 bytes = Text (itoa bytes ++ " B"))
  /\ ((1024 <= bytes)%Z ->
      exists (exp : nat) letter,
        formatBytes fmtFloat1 bytes
        = Text (fmtFloat1 bytes (1024 ^ (Z.of_nat exp + 1))%Z
                ++ " " ++ String letter "B")
        /\ (exp <= 5)%nat
        /\ String.get exp "KMGTPE" = Some letter
        /\ (1024 ^ (Z.of_nat exp + 1) <= bytes < 1024 * 1024 ^ (Z.of_nat exp + 1))%Z).
Proof.
  intros Hr. unfold formatBytes. split; intros H.
  - destruct (Z.ltb_spec bytes 1024); [reflexivity | lia].
  - destruct (Z.ltb_spec bytes 1024); [lia |].
    assert (Hb : (0 <= bytes <= GoInt.maxInt)%Z)
      by (unfold GoInt.in_range in Hr; lia).
    destruct (formatBytes_loop_spec bytes 8 (Z.quot bytes 1024) 0 Hb ltac:(lia))
      as (e & Hl & _ & Hlt & Hor).
    { rewrite Z.quot_div_nonneg by lia. split; [apply Z.div_pos; lia |].
      apply Z.div_lt_upper_bound; [lia |].
      unfold GoInt.maxInt in Hb. change (1024 ^ Z.of_nat 8)%Z with (2 ^ 80)%Z. lia. }
    { rewrite Z.quot_div_nonneg by lia. reflexivity. }
    { lia. }
    change (1024 ^ (Z.of_nat 0 + 1))%Z with 1024%Z in Hl.
    change (Z.of_nat 0) with 0%Z in Hl. rewrite Hl.
    assert (Hpos : (0 < 1024 ^ (Z.of_nat e + 1))%Z) by (apply Z.pow_pos_nonneg; lia).
    assert (Hge : (1024 ^ (Z.of_nat e + 1) <= bytes)%Z).
    { destruct Hor as [-> | Hor]; [cbn; lia | exact Hor]. }
    assert (He : (e <= 5)%nat).
    { destruct (Nat.le_gt_cases e 5) as [Le | Gt]; [exact Le | exfalso].
      assert (Hbig : (1024 ^ 7 <= 1024 ^ (Z.of_nat e + 1))%Z)
        by (apply Z.pow_le_mono_r; lia).
      unfold GoInt.maxInt in Hb. change (1024 ^ 7)%Z with (2 ^ 70)%Z in Hbig. lia. }
    assert (Hup : (bytes < 1024 * 1024 ^ (Z.of_nat e + 1))%Z).
    { pose proof (Z.div_mod bytes (1024 ^ (Z.of_nat e + 1)) ltac:(lia)) as Hd.
      pose proof (Z.mod_pos_bound bytes (1024 ^ (Z.of_nat e + 1)) Hpos) as Hm. nia. }
    destruct (Z.ltb_spec (Z.of_nat e) 0); [lia |].
    rewrite Nat2Z.id.
    assert (Hget : exists letter, String.get e "KMGTPE" = Some letter).
    { do 6 (destruct e as [| e]; [eexists; reflexivity |]). lia. }
    destruct Hget as (letter & Hget). rewrite Hget.
    exists e, letter. auto.
Qed.

Lemma formatBytes_picks_a_unit_in_range_witness :
  formatBytes (fun _ _ => "1.5") 1536 = Text "1.5 KB"
  /\ formatBytes (fun _ _ => "8.0") GoInt.maxInt = Text "8.0 EB"
  /\ formatBytes (fun _ _ => "") 1023 = Text "1023 B".
Proof.
  destruct (formatBytes_picks_a_unit_in_range (fun _ _ => "") 1023) as (H & _).
  { unfold GoInt.in_range, GoInt.minInt, GoInt.maxInt. lia. }
  split; [vm_compute; reflexivity |]. split; [vm_compute; reflexivity |].
  apply H. lia.
Defined.

Lemma first_index_some cond containers : forall i k,
  first_index cond containers i = Some k ->
  exists c, (i <= k)%nat /\ nth_error containers (k - i) = Some c /\ cond c = true
            /\ forall j c', (j < k - i)%nat -> nth_error containers j = Some c' ->
                             cond c' = false.
Proof.
  induction containers as [| c rest IH]; intros i k; cbn [first_index]; [discriminate |].
  destruct (cond c) eqn:E.
  - intros [= <-]. exists c. rewrite Nat.sub_diag. split; [lia |].
    split; [reflexivity |]. split; [exact E |]. intros j c' Hj. lia.
  - intros H. destruct (IH (S i) k H) as (c0 & Hle & Hn & Hc & Hfirst).
    exists c0. split; [lia |].
    replace (k - i)%nat with (S (k - S i)) by lia.
    split; [exact Hn |]. split; [exact Hc |].
    intros [| j] c' Hj Hn'; cbn in Hn'.
    + now injection Hn' as <-.
    + apply (Hfirst j c'); [lia | exact Hn'].
Qed.

Lemma first_index_none cond containers : forall i,
  first_index cond containers i = None ->
  forall c, In c containers -> cond c = false.
Proof.
  induction containers as [| c rest IH]; intros i H c0 Hin; [contradiction |].
  cbn [first_index] in H. destruct (cond c) eqn:E; [discriminate |].
  destruct Hin as [<- | Hin]; [exact E | exact (IH (S i) H c0 Hin)].
Qed.

(** X25. findBestContainer returns nil exactly when no container has a
    runtime id; otherwise it returns a container of the slice that has a
    runtime id, a sidecar only when every container with a runtime id is a
    sidecar, and one without an app port only when no container with a
    runtime id that is not a sidecar has an app port. *)
Theorem findBestContainer_prefers_app_containers
    (RuntimeID : Container -> string) (IsSidecar HasAppPort : Container -> bool)
    (containers : list Container) :
  let best := findBestContainer RuntimeID IsSidecar HasAppPort containers in
  (best = None <-> forall c, In c containers -> RuntimeID c = "")
  /\ forall i, best = Some i ->
       exists c,
         nth_error containers i = Some c
         /\ RuntimeID c <> ""
         /\ (IsSidecar c = true ->
             forall c', In c' containers -> RuntimeID c' <> "" -> IsSidecar c' = true)
         /\ (HasAppPort c = false ->
             forall c', In c' containers -> RuntimeID c' <> "" ->
                        IsSidecar c' = false -> HasAppPort c' = false).
Proof.
  cbv zeta. unfold findBestContainer.
  assert (Hrt : forall c, has_runtime RuntimeID c = true <-> RuntimeID c <> "").
  { intros c. unfold has_runtime. destruct (String.eqb_spec (RuntimeID c) ""); cbn;
      split; congruence. }
  destruct (first_index (fun c => has_runtime RuntimeID c && negb (IsSidecar c)
                                  && HasAppPort c) containers 0) as [i1 |] eqn:E1.
  - split; [split; [discriminate |] |].
    + intros Hall. destruct (first_index_some _ _ _ _ E1) as (c & _ & Hn & Hc & _).
      apply andb_true_iff in Hc as (Hc & _). apply andb_true_iff in Hc as (Hc & _).
      apply Hrt in Hc. exfalso. apply Hc. apply Hall. eapply nth_error_In; eauto.
    + intros i [= <-]. destruct (first_index_some _ _ _ _ E1) as (c & _ & Hn & Hc & _).
      rewrite Nat.sub_0_r in Hn.
      apply andb_true_iff in Hc as (Hc & Hp). apply andb_true_iff in Hc as (Hc & Hs).
      apply negb_true_iff in Hs.
      exists c. split; [exact Hn |]. split; [now apply Hrt |].
      split; intros; congruence.
  - pose proof (first_index_none _ _ _ E1) as N1.
    destruct (first_index (fun c => has_runtime RuntimeID c && negb (IsSidecar c))
                containers 0) as [i2 |] eqn:E2.
    + split; [split; [discriminate |] |].
      * intros Hall. destruct (first_index_some _ _ _ _ E2) as (c & _ & Hn & Hc & _).
        apply andb_true_iff in Hc as (Hc & _).
        apply Hrt in Hc. exfalso. apply Hc. apply Hall. eapply nth_error_In; eauto.
      * intros i [= <-]. destruct (first_index_some _ _ _ _ E2) as (c & _ & Hn & Hc & _).
        rewrite Nat.sub_0_r in Hn.
        apply andb_true_iff in Hc as (Hc & Hs). apply negb_true_iff in Hs.
        exists c. split; [exact Hn |]. split; [now apply Hrt |].
        split; [intros; congruence |].
        intros _ c' Hin Hr' Hs'. specialize (N1 c' Hin). cbn in N1.
        apply Hrt in Hr'. rewrite Hr', Hs' in N1. exact N1.
    + pose proof (first_index_none _ _ _ E2) as N2.
      assert (Hside : forall c', In c' containers -> RuntimeID c' <> "" ->
                                 IsSidecar c' = true).
      { intros c' Hin Hr'. specialize (N2 c' Hin). cbn in N2.
        apply Hrt in Hr'. rewrite Hr' in N2. now destruct (IsSidecar c'). }
      split; [split |].
      * intros E3 c Hin. pose proof (first_index_none _ _ _ E3 c Hin) as N3.
        unfold has_runtime in N3. now destruct (String.eqb_spec (RuntimeID c) "").
      * intros Hall.
        destruct (first_index (has_runtime RuntimeID) containers 0) as [i3 |] eqn:E3;
          [| reflexivity].
        destruct (first_index_some _ _ _ _ E3) as (c & _ & Hn & Hc & _).
        apply Hrt in Hc. exfalso. apply Hc. apply Hall. eapply nth_error_In; eauto.
      * intros i E3. destruct (first_index_some _ _ _ _ E3) as (c & _ & Hn & Hc & _).
        rewrite Nat.sub_0_r in Hn.
        exists c. split; [exact Hn |]. split; [now apply Hrt |].
        split; [intros _; exact Hside |].
        intros _ c' Hin Hr' Hs'. rewrite (Hside c' Hin Hr') in Hs'. discriminate.
Qed.

Lemma findBestContainer_prefers_app_containers_witness :
  let runtime (c : Container) :=
    if String.eqb (ContainerName c) "init" then "" else "rt-" ++ ContainerName c in
  let sidecar (c : Container) := String.eqb (ContainerName c) "envoy" in
  let app (c : Container) := String.eqb (ContainerName c) "web" in
  findBestContainer runtime sidecar app
    [mkContainer "init"; mkContainer "envoy"; mkContainer "worker"; mkContainer "web"]
  = Some 3%nat
  /\ findBestContainer runtime sidecar app [mkContainer "init"] = None.
Proof.
  cbv zeta. split; [reflexivity |].
  apply (findBestContainer_prefers_app_containers
           (fun c => if String.eqb (ContainerName c) "init" then ""
                     else "rt-" ++ ContainerName c)
           (fun c => String.eqb (ContainerName c) "envoy")
           (fun c => String.eqb (ContainerName c) "web")
           [mkContainer "init"]).
  intros c [<- | []]. reflexivity.
Defined.

End HelpersFacts.

(** ** More on the queue records *)

Section QueueRecords.
Import ModelPkg Aws.
Local Open Scope string_scope.

Lemma append_assoc (a b c : string) : (a ++ b) ++ c = a ++ (b ++ c).
Proof. induction a as [| x a IH]; cbn; [reflexivity | now rewrite IH]. Qed.

Lemma length_append' (a b : string) :
  String.length (a ++ b) = (String.length a + String.length b)%nat.
Proof. induction a as [| c a IH]; cbn; [reflexivity | now rewrite IH]. Qed.

Lemma substring_skip (pre t : string) n :
  substring (String.length pre) n (pre ++ t) = substring 0 n t.
Proof. induction pre as [| c pre IH]; cbn; [reflexivity | exact IH]. Qed.

Lemma substring_split k : forall s,
  (k <= String.length s)%nat ->
  s = substring 0 k s ++ substring k (String.length s - k) s.
Proof.
  induction k as [| k IH]; intros s H.
  - cbn. rewrite Nat.sub_0_r.
    replace (substring 0 0 s) with "" by now destruct s.
    cbn. now rewrite substring_all.
  - destruct s as [| c s]; cbn in H; [lia |].
    cbn [substring String.length Nat.sub append]. now rewrite <- IH by lia.
Qed.

Lemma HasSuffix_iff (s suffix : string) :
  GoStrings.HasSuffix s suffix = true <-> exists pre, s = pre ++ suffix.
Proof.
  unfold GoStrings.HasSuffix. split.
  - intros H. apply andb_true_iff in H as (Hl & He).
    apply Nat.leb_le in Hl. apply String.eqb_eq in He.
    exists (substring 0 (String.length s - String.length suffix) s).
    pose proof (substring_split (String.length s - String.length suffix) s ltac:(lia))
      as Hs.
    replace (String.length s - (String.length s - String.length suffix))%nat
      with (String.length suffix) in Hs by lia.
    now rewrite He in Hs.
  - intros (pre & ->). rewrite length_append'. apply andb_true_iff. split.
    + apply Nat.leb_le. lia.
    + replace (String.length pre + String.length suffix - String.length suffix)%nat
        with (String.length pre) by lia.
      rewrite substring_skip, substring_all. apply String.eqb_refl.
Qed.

Lemma append_eq_append (a : string) : forall b c d,
  a ++ b = c ++ d ->
  exists l, (a = c ++ l /\ d = l ++ b) \/ (c = a ++ l /\ b = l ++ d).
Proof.
  induction a as [| x a IH]; intros b c d H.
  - exists c. right. auto.
  - destruct c as [| y c].
    + exists (String x a). left. cbn in *. auto.
    + cbn in H. injection H as -> H.
      destruct (IH b c d H) as (l & [(-> & ->) | (-> & ->)]); exists l; auto.
Qed.

Lemma fifo_suffix_has_no_slash (l rest : string) :
  l ++ String "/" rest = ".fifo" -> False.
Proof.
  intros H.
  do 6 (destruct l as [| ? l]; cbn in H;
        [discriminate H | first [discriminate H | injection H as _ H]]).
Qed.

Lemma HasSuffix_after_slash (front name : string) :
  GoStrings.HasSuffix (front ++ String "/" name) ".fifo"
  = GoStrings.HasSuffix name ".fifo".
Proof.
  apply eq_true_iff_eq. rewrite !HasSuffix_iff. split.
  - intros (pre & H).
    destruct (append_eq_append _ _ _ _ H) as (l & [(_ & E) | (_ & E)]).
    + exfalso. exact (fifo_suffix_has_no_slash _ _ (eq_sym E)).
    + destruct l as [| c l]; cbn in E; [discriminate E |].
      injection E as _ E. now exists l.
  - intros (pre & ->). exists (front ++ String "/" pre).
    rewrite append_assoc. reflexivity.
Qed.

(** X26. A queue record made by convertQueueAttributes (and so by
    GetQueueAttributes) is a FIFO queue exactly when its URL ends in
    ".fifo": the name is what follows the last "/" and the suffix holds no
    "/". Its URL is the URL asked for, its name extractQueueNameFromURL of
    it, and its ARN is empty or a QueueArn value of the attributes. *)
Theorem queue_type_follows_the_URL_suffix (url : string) (attrs : list (string * string)) :
  GoInt.in_range (Z.of_nat (String.length url)) ->
  let q := convertQueueAttributes url attrs in
  Type_ q = (if GoStrings.HasSuffix url ".fifo" then QueueTypeFIFO else QueueTypeStandard)
  /\ URL q = url
  /\ Name q = extractQueueNameFromURL url
  /\ (ARN q = "" \/ In ("QueueArn", ARN q) attrs).
Proof.
  intros Hr. cbv zeta. unfold convertQueueAttributes. cbv zeta. cbn [Type_ URL Name ARN].
  split; [| split; [reflexivity | split; [reflexivity |]]].
  - rewrite (extractQueueNameFromURL_last url Hr). unfold GoStrings.Split.
    destruct (genSplit_last (GoStrings.Count url "/"%char) url "/"%char url eq_refl)
      as (_ & [(_ & ->) | (front & E)]); [reflexivity |].
    remember (last (GoStrings.genSplit (GoStrings.Count url "/"%char) url "/"%char) url)
      as name eqn:En.
    clear En. subst url. now rewrite HasSuffix_after_slash.
  - destruct (lookup attrs "QueueArn") as [arn |] eqn:E; [right | now left].
    clear - E. induction attrs as [| [k v] rest IH]; cbn in E; [discriminate |].
    destruct (String.eqb_spec k "QueueArn") as [-> | N].
    + injection E as ->. now left.
    + right. now apply IH.
Qed.

Lemma queue_type_follows_the_URL_suffix_witness :
  Type_ (convertQueueAttributes (Scenario.queue_url "orders.fifo") []) = QueueTypeFIFO
  /\ Type_ (convertQueueAttributes (Scenario.queue_url "fifo") []) = QueueTypeStandard.
Proof.
  destruct (queue_type_follows_the_URL_suffix (Scenario.queue_url "orders.fifo") [])
    as (H & _).
  { vm_compute. split; discriminate. }
  split; [rewrite H; reflexivity | reflexivity].
Defined.

Lemma ListQueues_pages_over_pages (ps : list (list string)) : forall pages acc,
  (List.length ps < pages)%nat ->
  ListQueues_pages Scenario.pages_of pages ps acc = Some (inr (acc ++ List.concat ps)%list).
Proof.
  induction ps as [| page rest IH]; intros pages acc Hlen;
    (destruct pages as [| pages]; [cbn in Hlen; lia |]);
    cbn [ListQueues_pages Scenario.pages_of HasMorePages NextPage List.concat].
  - now rewrite app_nil_r.
  - cbn [List.length] in Hlen. rewrite IH by lia. now rewrite <- app_assoc.
Qed.

(** X27. Over a fixed list of pages ListQueues lists every page first and
    fetches afterwards: when the pages hold at least one URL, it returns,
    with a nil error, the batch that fetchQueueAttributesBatch makes of all
    the URLs of all the pages together, in page order, as one page. *)
Theorem ListQueues_fetches_all_pages_as_one (tc : Toolchain) (sqs : Sqs)
    (sched : Scheduler) (ps : list (list string)) (pages : nat) :
  (List.length ps < pages)%nat ->
  List.concat ps <> [] ->
  exists logged,
    ListQueues tc sqs sched Scenario.pages_of pages ps
    = Some (inr (fst (fetchQueueAttributesBatch tc sqs sched (List.concat ps))), logged)
    /\ filter is_warn logged
       = filter is_warn (snd (fetchQueueAttributesBatch tc sqs sched (List.concat ps))).
Proof.
  intros Hlen Hne.
  pose proof (ListQueues_pages_over_pages ps pages [] Hlen) as Hl. cbn [app] in Hl.
  exact (ListQueues_listed tc sqs sched Scenario.pages_of pages ps (List.concat ps) Hl Hne).
Qed.

Lemma ListQueues_fetches_all_pages_as_one_witness :
  exists logged,
    ListQueues Scenario.go121 Scenario.sqs_ok Scenario.first_come Scenario.pages_of 4
      Scenario.three_pages
    = Some (inr (fst (fetchQueueAttributesBatch Scenario.go121 Scenario.sqs_ok
                        Scenario.first_come (List.concat Scenario.three_pages))), logged).
Proof.
  destruct (ListQueues_fetches_all_pages_as_one Scenario.go121 Scenario.sqs_ok
              Scenario.first_come Scenario.three_pages 4)
    as (logged & H & _); [cbn; lia | discriminate |].
  now exists logged.
Defined.

End QueueRecords.
